(** * UniBase: record manager, forward scan, lock manager, transaction manager

    A shallow embedding of
      - [src/record/rm_file_handle.cpp]   (slotted-page heap file),
      - [src/record/rm_scan.cpp]          (forward scan),
      - [src/transaction/concurrency/lock_manager.cpp],
      - [src/transaction/transaction_manager.cpp],
    followed by the properties of the design document that concern them.

    C++ [int] is modelled by [Z].  The arithmetic the code performs on [int]
    is [++] and [--] only; signed overflow is undefined in C++, so both
    report [SignedOverflow] at the end of the range instead of wrapping.
    The bitmap and the slot array of a page are modelled as two arrays of
    their declared sizes.  The code passes slot numbers to them unchecked; an
    access that leaves its array is reported as [OutOfBounds], because what
    it does depends on the bit order of [Bitmap] and on the layout of the
    page buffer around the two arrays, both declared outside [src/]: the
    model follows the code up to such an access and no further.  Exceptions
    keep the state reached when they are thrown, exactly as a C++ [throw]
    leaves the objects it has already mutated. *)

From Stdlib Require Import ZArith Lia.
From stdpp Require Import gmap strings list fin_maps sorting.

Open Scope Z_scope.

(** ** Outcomes of a call *)

Inductive AbortReason :=
  | LOCK_ON_SHIRINKING
  | UPGRADE_CONFLICT.

Inductive Exception :=
  | PageNotExistError (page_no : Z)
  | RecordNotFoundError (page_no slot_no : Z)
  | InternalError (msg : string)
  | TransactionAbortException (txn_id : Z) (reason : AbortReason).

(** Executions the model does not follow: those the C++ standard gives no
    meaning to, accesses that leave the bitmap or the slot array of a page,
    and the one loop of the code that need not terminate. *)
Inductive Undefined :=
  | OutOfBounds
  | SignedOverflow
  | NullDereference
  | InvalidatedIterator
  | OutOfFuel.

Inductive result (S A : Type) :=
  | Ok (a : A) (s : S)
  | Throw (e : Exception) (s : S)
  | Undef (u : Undefined).
Arguments Ok {S A} a s.
Arguments Throw {S A} e s.
Arguments Undef {S A} u.

Definition M (S A : Type) : Type := S -> result S A.

Definition ret {S A} (a : A) : M S A := fun s => Ok a s.

Definition bind {S A B} (m : M S A) (k : A -> M S B) : M S B :=
  fun s =>
    match m s with
    | Ok a s' => k a s'
    | Throw e s' => Throw e s'
    | Undef u => Undef u
    end.

Definition throw {S A} (e : Exception) : M S A := fun s => Throw e s.
Definition undefined {S A} (u : Undefined) : M S A := fun _ => Undef u.
Definition read_state {S} : M S S := fun s => Ok s s.
Definition write_state {S} (s : S) : M S unit := fun _ => Ok tt s.
Definition modify_state {S} (f : S -> S) : M S unit := fun s => Ok tt (f s).

(** A partial primitive: [None] is an access outside the object. *)
Definition in_bounds {S A} (o : option A) : M S A :=
  match o with
  | Some a => ret a
  | None => undefined OutOfBounds
  end.

Notation "x <- m ;; k" := (bind m (fun x => k))
  (at level 100, m at next level, right associativity).
Notation "m ;;; k" := (bind m (fun _ => k))
  (at level 100, right associativity).

(** ** [int] *)

Definition INT_MAX : Z := 2147483647.
Definition INT_MIN : Z := -2147483648.

Definition int_incr {S} (x : Z) : M S Z :=
  if x <? INT_MAX then ret (x + 1) else undefined SignedOverflow.

Definition int_decr {S} (x : Z) : M S Z :=
  if INT_MIN <? x then ret (x - 1) else undefined SignedOverflow.

(** ** Record manager: data model *)

Abbreviation byte := Byte.byte.

Definition RM_NO_PAGE : Z := -1.
Definition RM_FILE_HDR_PAGE : Z := 0.
Definition RM_FIRST_RECORD_PAGE : Z := 1.

Record Rid := mkRid { page_no : Z; slot_no : Z }.

Record RmFileHdr := mkRmFileHdr {
  record_size : Z;
  num_pages : Z;
  num_records_per_page : Z;
  first_free_page_no : Z;
  bitmap_size : Z
}.

Record RmPageHdr := mkRmPageHdr {
  next_free_page_no : Z;
  num_records : Z
}.

(** A data page: header, slot bitmap ([8 * bitmap_size] bits), slot array
    ([num_records_per_page * record_size] bytes). *)
Record Page := mkPage {
  page_hdr : RmPageHdr;
  bitmap : list bool;
  slots : list byte
}.

(** The file handle: its in-memory file header and, of the buffer pool it
    points to, the pages of its file as the pool serves them and whether the
    pool has a frame left for a new page.  A page handle of the C++ code is
    a pointer into a buffer-pool frame; here it is the page number, and every
    read and write through it goes to [pages_]. *)
Record RmFileHandle := mkRmFileHandle {
  file_hdr_ : RmFileHdr;
  pages_ : gmap Z Page;
  has_free_frame_ : bool
}.

Global Instance Rid_eq_dec : EqDecision Rid.
Proof. solve_decision. Defined.

Definition set_first_free_page_no (v : Z) (h : RmFileHdr) : RmFileHdr :=
  mkRmFileHdr (record_size h) (num_pages h) (num_records_per_page h) v (bitmap_size h).

Definition set_num_pages (v : Z) (h : RmFileHdr) : RmFileHdr :=
  mkRmFileHdr (record_size h) v (num_records_per_page h) (first_free_page_no h) (bitmap_size h).

Definition set_next_free_page_no (v : Z) (p : Page) : Page :=
  mkPage (mkRmPageHdr v (num_records (page_hdr p))) (bitmap p) (slots p).

Definition set_num_records (v : Z) (p : Page) : Page :=
  mkPage (mkRmPageHdr (next_free_page_no (page_hdr p)) v) (bitmap p) (slots p).

Definition set_bitmap (v : list bool) (p : Page) : Page :=
  mkPage (page_hdr p) v (slots p).

Definition set_slots (v : list byte) (p : Page) : Page :=
  mkPage (page_hdr p) (bitmap p) v.

(** ** Bitmap *)

Module Bitmap.

(** Modelled from the spec: the [Bitmap] helper class is declared outside
    [src/].  The spec gives the bitmap [bitmap_size] bytes, bit [i] set iff
    slot [i] is live, and initialises it to all-zero; the order of the bits
    inside a byte is not specified and not modelled: the bitmap is the list
    of its [8 * bitmap_size] bits. *)
Definition init (size : Z) : list bool := replicate (Z.to_nat (8 * size)) false.

(** Modelled from the spec: reading bit [pos]; [None] outside the bitmap. *)
Definition is_set (bm : list bool) (pos : Z) : option bool :=
  if pos <? 0 then None else bm !! Z.to_nat pos.

(** Modelled from the spec: writing bit [pos]; [None] outside the bitmap. *)
Definition assign (b : bool) (bm : list bool) (pos : Z) : option (list bool) :=
  if (pos <? 0) || (Z.of_nat (length bm) <=? pos) then None
  else Some (<[Z.to_nat pos := b]> bm).

Definition set : list bool -> Z -> option (list bool) := assign true.
Definition reset : list bool -> Z -> option (list bool) := assign false.

(** [scan bit bm max_n k i]: the first position among [i, i+1, ..., i+k-1]
    whose bit is [bit], [max_n] when there is none. *)
Fixpoint scan (bit : bool) (bm : list bool) (max_n : Z) (k : nat) (i : Z) : option Z :=
  match k with
  | O => Some max_n
  | S k' =>
      match is_set bm i with
      | None => None
      | Some b => if bool_decide (b = bit) then Some i else scan bit bm max_n k' (i + 1)
      end
  end.

(** Modelled from the spec: [next_bit bit bm max_n curr] is the first
    position strictly after [curr] and below [max_n] whose bit equals [bit],
    and [max_n] when there is none ("the next set bit strictly after the
    current position"; [curr = -1] starts at bit 0). *)
Definition next_bit (bit : bool) (bm : list bool) (max_n curr : Z) : option Z :=
  scan bit bm max_n (Z.to_nat (max_n - (curr + 1))) (curr + 1).

(** Modelled from the spec: "the first clear bit in [0, num_records_per_page)". *)
Definition first_bit (bit : bool) (bm : list bool) (max_n : Z) : option Z :=
  next_bit bit bm max_n (-1).

Definition popcount (bm : list bool) : Z :=
  Z.of_nat (length (filter (fun b => b = true) bm)).

End Bitmap.

(** ** Record manager: page access *)

(** [memcpy] of [n] bytes out of / into the slot array at byte offset [off]. *)
Definition mem_read (off n : Z) (mem : list byte) : option (list byte) :=
  if (off <? 0) || (n <? 0) || (Z.of_nat (length mem) <? off + n) then None
  else Some (take (Z.to_nat n) (drop (Z.to_nat off) mem)).

Definition mem_write (off n : Z) (src mem : list byte) : option (list byte) :=
  if (off <? 0) || (n <? 0) || (Z.of_nat (length mem) <? off + n)
     || (Z.of_nat (length src) <? n) then None
  else Some (take (Z.to_nat off) mem ++ take (Z.to_nat n) src
             ++ drop (Z.to_nat (off + n)) mem).

(** Reading the page behind a page handle. *)
Definition page_of (page_no : Z) : M RmFileHandle Page :=
  fun fh =>
    match pages_ fh !! page_no with
    | Some pg => Ok pg fh
    | None => Undef NullDereference
    end.

(** A write through a page handle. *)
Definition update_page (page_no : Z) (f : Page -> Page) : M RmFileHandle unit :=
  pg <- page_of page_no ;;
  modify_state (fun fh => mkRmFileHandle (file_hdr_ fh) (<[page_no := f pg]> (pages_ fh))
                                         (has_free_frame_ fh)).

Definition file_hdr : M RmFileHandle RmFileHdr :=
  fun fh => Ok (file_hdr_ fh) fh.

Definition update_file_hdr (f : RmFileHdr -> RmFileHdr) : M RmFileHandle unit :=
  modify_state (fun fh => mkRmFileHandle (f (file_hdr_ fh)) (pages_ fh) (has_free_frame_ fh)).

(** [RmPageHandle::get_slot(slot_no)] is [slots + slot_no * record_size];
    neither [get_slot] nor its callers compare [slot_no] with
    [num_records_per_page].  A slot number inside the slot array reads and
    writes its [record_size] bytes; one outside is [OutOfBounds], and so is a
    bit position outside the bitmap. *)
Definition read_slot (page_no slot_no : Z) : M RmFileHandle (list byte) :=
  hdr <- file_hdr ;;
  pg <- page_of page_no ;;
  in_bounds (mem_read (slot_no * record_size hdr) (record_size hdr) (slots pg)).

Definition write_slot (page_no slot_no : Z) (buf : list byte) : M RmFileHandle unit :=
  hdr <- file_hdr ;;
  pg <- page_of page_no ;;
  new_slots <- in_bounds (mem_write (slot_no * record_size hdr) (record_size hdr) buf (slots pg)) ;;
  update_page page_no (set_slots new_slots).

Definition bitmap_is_set (page_no slot_no : Z) : M RmFileHandle bool :=
  pg <- page_of page_no ;;
  in_bounds (Bitmap.is_set (bitmap pg) slot_no).

Definition bitmap_set (page_no slot_no : Z) : M RmFileHandle unit :=
  pg <- page_of page_no ;;
  bm <- in_bounds (Bitmap.set (bitmap pg) slot_no) ;;
  update_page page_no (set_bitmap bm).

Definition bitmap_reset (page_no slot_no : Z) : M RmFileHandle unit :=
  pg <- page_of page_no ;;
  bm <- in_bounds (Bitmap.reset (bitmap pg) slot_no) ;;
  update_page page_no (set_bitmap bm).

(** Modelled from the spec: the buffer pool's [new_page] is declared outside
    [src/].  It "allocates, pins, zero-initialises" the next page of the file
    and answers with the page, or with [nullptr] ([None]) when the pool has
    no frame for it; page numbers are handed out consecutively, so the new
    page is page [num_pages] (spec: inserting into a fresh file creates page
    1 and makes [num_pages] 2).  Pin counts are not modelled: the record
    manager unpins every page it has pinned before it returns, so its calls
    do not use up frames. *)
Definition new_page : M RmFileHandle (option Z) :=
  fun fh =>
    let hdr := file_hdr_ fh in
    let zero_page :=
      mkPage (mkRmPageHdr 0 0)
             (replicate (Z.to_nat (8 * bitmap_size hdr)) false)
             (replicate (Z.to_nat (num_records_per_page hdr * record_size hdr)) Byte.x00) in
    if has_free_frame_ fh
    then Ok (Some (num_pages hdr))
            (mkRmFileHandle hdr (<[num_pages hdr := zero_page]> (pages_ fh)) (has_free_frame_ fh))
    else Ok None fh.

(** ** Record manager: [RmFileHandle] *)

(** [fetch_page_handle]: the bounds check, then the buffer pool's
    [fetch_page], which answers [nullptr] for a page it does not have. *)
Definition fetch_page_handle (page_no : Z) : M RmFileHandle Z :=
  hdr <- file_hdr ;;
  if (page_no <? RM_FIRST_RECORD_PAGE) || (num_pages hdr <=? page_no)
  then throw (PageNotExistError page_no)
  else fun fh =>
         match pages_ fh !! page_no with
         | None => Throw (PageNotExistError page_no) fh
         | Some _ => Ok page_no fh
         end.

Definition create_new_page_handle : M RmFileHandle Z :=
  page <- new_page ;;
  match page with
  | None => throw (InternalError "Failed to allocate new page for record file")
  | Some new_pid =>
      hdr <- file_hdr ;;
      update_page new_pid (set_bitmap (Bitmap.init (bitmap_size hdr))) ;;;
      update_page new_pid (set_num_records 0) ;;;
      update_page new_pid (set_next_free_page_no (first_free_page_no hdr)) ;;;
      update_file_hdr (set_first_free_page_no new_pid) ;;;
      n <- int_incr (num_pages hdr) ;;
      update_file_hdr (set_num_pages n) ;;;
      fetch_page_handle new_pid
  end.

Definition create_page_handle : M RmFileHandle Z :=
  hdr <- file_hdr ;;
  if first_free_page_no hdr =? RM_NO_PAGE
  then create_new_page_handle
  else fetch_page_handle (first_free_page_no hdr).

Definition release_page_handle (page_handle : Z) : M RmFileHandle unit :=
  hdr <- file_hdr ;;
  update_page page_handle (set_next_free_page_no (first_free_page_no hdr)) ;;;
  update_file_hdr (set_first_free_page_no page_handle).

Definition get_record (rid : Rid) : M RmFileHandle (list byte) :=
  page_handle <- fetch_page_handle (page_no rid) ;;
  b <- bitmap_is_set page_handle (slot_no rid) ;;
  if negb b then throw (RecordNotFoundError (page_no rid) (slot_no rid))
  else read_slot page_handle (slot_no rid).

Definition incr_num_records (page_handle : Z) : M RmFileHandle unit :=
  pg <- page_of page_handle ;;
  n <- int_incr (num_records (page_hdr pg)) ;;
  update_page page_handle (set_num_records n).

Definition decr_num_records (page_handle : Z) : M RmFileHandle unit :=
  pg <- page_of page_handle ;;
  n <- int_decr (num_records (page_hdr pg)) ;;
  update_page page_handle (set_num_records n).

(** [insert_record] without a location: the engine picks the slot. *)
Definition insert_record (buf : list byte) : M RmFileHandle Rid :=
  page_handle <- create_page_handle ;;
  hdr <- file_hdr ;;
  pg <- page_of page_handle ;;
  slot <- in_bounds (Bitmap.first_bit false (bitmap pg) (num_records_per_page hdr)) ;;
  if num_records_per_page hdr <=? slot
  then throw (InternalError "No free slot found when inserting record")
  else
    write_slot page_handle slot buf ;;;
    bitmap_set page_handle slot ;;;
    incr_num_records page_handle ;;;
    pg <- page_of page_handle ;;
    (if num_records (page_hdr pg) =? num_records_per_page hdr
     then
       update_file_hdr (set_first_free_page_no (next_free_page_no (page_hdr pg))) ;;;
       update_page page_handle (set_next_free_page_no RM_NO_PAGE)
     else ret tt) ;;;
    ret (mkRid page_handle slot).

(** The [while (prev != RM_NO_PAGE)] loop of the explicit-[Rid] insert, which
    looks for the predecessor of [target] on the free list.  The loop changes
    nothing before it leaves, so it runs forever on a cyclic list that misses
    [target]; [fuel] bounds the number of iterations. *)
Fixpoint unlink_loop (fuel : nat) (target prev : Z) : M RmFileHandle unit :=
  if prev =? RM_NO_PAGE then ret tt
  else
    match fuel with
    | O => undefined OutOfFuel
    | S fuel' =>
        prev_handle <- fetch_page_handle prev ;;
        prev_pg <- page_of prev_handle ;;
        if next_free_page_no (page_hdr prev_pg) =? target
        then
          pg <- page_of target ;;
          update_page prev_handle (set_next_free_page_no (next_free_page_no (page_hdr pg)))
        else unlink_loop fuel' target (next_free_page_no (page_hdr prev_pg))
    end.

(** [insert_record] at an explicit [Rid].  A free list without
    repetition has fewer than [num_pages] entries, which is the fuel given to
    the loop. *)
Definition insert_record_at (rid : Rid) (buf : list byte) : M RmFileHandle unit :=
  page_handle <- fetch_page_handle (page_no rid) ;;
  b <- bitmap_is_set page_handle (slot_no rid) ;;
  if b then throw (RecordNotFoundError (page_no rid) (slot_no rid))
  else
    write_slot page_handle (slot_no rid) buf ;;;
    bitmap_set page_handle (slot_no rid) ;;;
    incr_num_records page_handle ;;;
    hdr <- file_hdr ;;
    pg <- page_of page_handle ;;
    if num_records (page_hdr pg) =? num_records_per_page hdr
    then
      (if first_free_page_no hdr =? page_no rid
       then update_file_hdr (set_first_free_page_no (next_free_page_no (page_hdr pg)))
       else unlink_loop (Z.to_nat (num_pages hdr)) (page_no rid) (first_free_page_no hdr)) ;;;
      update_page page_handle (set_next_free_page_no RM_NO_PAGE)
    else ret tt.

Definition delete_record (rid : Rid) : M RmFileHandle unit :=
  page_handle <- fetch_page_handle (page_no rid) ;;
  b <- bitmap_is_set page_handle (slot_no rid) ;;
  if negb b then throw (RecordNotFoundError (page_no rid) (slot_no rid))
  else
    hdr <- file_hdr ;;
    pg <- page_of page_handle ;;
    let was_full := num_records (page_hdr pg) =? num_records_per_page hdr in
    bitmap_reset page_handle (slot_no rid) ;;;
    decr_num_records page_handle ;;;
    if was_full then release_page_handle page_handle else ret tt.

Definition update_record (rid : Rid) (buf : list byte) : M RmFileHandle unit :=
  page_handle <- fetch_page_handle (page_no rid) ;;
  b <- bitmap_is_set page_handle (slot_no rid) ;;
  if negb b then throw (RecordNotFoundError (page_no rid) (slot_no rid))
  else write_slot page_handle (slot_no rid) buf.

(** * Forward scan: [RmScan] *)

(** The scan holds a pointer to the file handle, which it only reads, and
    the record identifier it stands on. *)
Record RmScan := mkRmScan { rid_ : Rid }.

(** A [const] method of the file handle called from the scan: it reads the
    file and leaves it as it is. *)
Definition on_file {A} (fh : RmFileHandle) (m : M RmFileHandle A) : M RmScan A :=
  fun s =>
    match m fh with
    | Ok a _ => Ok a s
    | Throw e _ => Throw e s
    | Undef u => Undef u
    end.

(** The [for] loop of [RmScan::next] over the pages [page_no], [page_no + 1],
    ... below [num_pages]; [k] is the number of pages left. *)
Fixpoint next_loop (fh : RmFileHandle) (start_page start_slot : Z) (k : nat) (page_no : Z)
  : M RmScan unit :=
  match k with
  | O => write_state (mkRmScan (mkRid RM_NO_PAGE RM_NO_PAGE))
  | S k' =>
      page_handle <- on_file fh (fetch_page_handle page_no) ;;
      pg <- on_file fh (page_of page_handle) ;;
      let begin_slot := if page_no =? start_page then start_slot else -1 in
      slot <- in_bounds (Bitmap.next_bit true (bitmap pg)
                           (num_records_per_page (file_hdr_ fh)) begin_slot) ;;
      if slot <? num_records_per_page (file_hdr_ fh)
      then write_state (mkRmScan (mkRid page_no slot))
      else next_loop fh start_page start_slot k' (page_no + 1)
  end.

Definition next (fh : RmFileHandle) : M RmScan unit :=
  if num_pages (file_hdr_ fh) <=? RM_FIRST_RECORD_PAGE
  then write_state (mkRmScan (mkRid RM_NO_PAGE RM_NO_PAGE))
  else
    s <- read_state ;;
    let start_page := page_no (rid_ s) in
    let start_slot := slot_no (rid_ s) in
    next_loop fh start_page start_slot
              (Z.to_nat (num_pages (file_hdr_ fh) - start_page)) start_page.

(** The constructor: stand before the first slot of the first data page,
    then advance once. *)
Definition new_scan (fh : RmFileHandle) : result RmScan unit :=
  next fh (mkRmScan (mkRid RM_FIRST_RECORD_PAGE (-1))).

Definition is_end (s : RmScan) : bool := page_no (rid_ s) =? RM_NO_PAGE.

Definition rid (s : RmScan) : Rid := rid_ s.

(** The caller's loop [for (RmScan scan(fh); !scan.is_end(); scan.next())]:
    the identifiers it sees, and the scan it is left with. *)
Fixpoint scan_rest (fuel : nat) (fh : RmFileHandle) (s : RmScan)
  : option (list Rid * RmScan) :=
  if is_end s then Some ([], s)
  else
    match fuel with
    | O => None
    | S fuel' =>
        match next fh s with
        | Ok _ s' =>
            match scan_rest fuel' fh s' with
            | Some (rids, s_end) => Some (rid s :: rids, s_end)
            | None => None
            end
        | _ => None
        end
    end.

Definition scan_all (fuel : nat) (fh : RmFileHandle) : option (list Rid * RmScan) :=
  match new_scan fh with
  | Ok _ s => scan_rest fuel fh s
  | _ => None
  end.

(** * Lock manager: [LockManager] *)

Inductive LockMode := SHARED | EXLUCSIVE | INTENTION_SHARED | INTENTION_EXCLUSIVE | S_IX.

(** [enum class GroupLockMode]; its constructors stay qualified, as in the
    source ([GroupLockMode::S]). *)
Module GroupLockMode.
Inductive t := NON_LOCK | IS | IX | S | X | SIX.
End GroupLockMode.

Inductive LockDataType := TABLE | RECORD.

Inductive TransactionState := DEFAULT | GROWING | SHRINKING | COMMITTED | ABORTED.

Inductive WType := INSERT_TUPLE | DELETE_TUPLE | UPDATE_TUPLE.

(** Modelled from the spec: [LockDataId] is declared outside [src/]; "either
    (table_fd, TABLE) or (table_fd, RECORD, rid); equality and hashing cover
    all three fields". *)
Record LockDataId := mkLockDataId {
  fd_ : Z;
  lock_rid_ : Rid;
  type_ : LockDataType
}.

Definition table_lock_id (tab_fd : Z) : LockDataId :=
  mkLockDataId tab_fd (mkRid (-1) (-1)) TABLE.

Definition record_lock_id (tab_fd : Z) (rid : Rid) : LockDataId :=
  mkLockDataId tab_fd rid RECORD.

Global Instance LockMode_eq_dec : EqDecision LockMode.
Proof. solve_decision. Defined.
Global Instance GroupLockMode_eq_dec : EqDecision GroupLockMode.t.
Proof. solve_decision. Defined.
Global Instance LockDataType_eq_dec : EqDecision LockDataType.
Proof. solve_decision. Defined.
Global Instance TransactionState_eq_dec : EqDecision TransactionState.
Proof. solve_decision. Defined.
Global Instance WType_eq_dec : EqDecision WType.
Proof. solve_decision. Defined.
Global Instance LockDataId_eq_dec : EqDecision LockDataId.
Proof. solve_decision. Defined.

Global Instance LockDataId_countable : Countable LockDataId.
Proof.
  apply (inj_countable'
           (fun id => (fd_ id, page_no (lock_rid_ id), slot_no (lock_rid_ id),
                       match type_ id with TABLE => true | RECORD => false end))
           (fun t => match t with
                     | (fd, p, s, b) => mkLockDataId fd (mkRid p s) (if b then TABLE else RECORD)
                     end)).
  intros [fd [p s] []]; reflexivity.
Defined.

(** Modelled from the spec: the write record of a transaction, declared
    outside [src/]: "{ table_name, rid, wtype, payload_bytes }". *)
Record WriteRecord := mkWriteRecord {
  GetWriteType : WType;
  GetTableName : string;
  GetRid : Rid;
  GetRecord : list byte
}.

(** Modelled from the spec: the transaction object, declared outside
    [src/]; the fields are named after the getters the code calls.  The
    write set holds pointers, which may be null. *)
Record Transaction := mkTransaction {
  get_transaction_id : Z;
  get_start_ts : Z;
  get_state : TransactionState;
  get_lock_set : gset LockDataId;
  get_write_set : list (option WriteRecord)
}.

Definition set_state (st : TransactionState) (t : Transaction) : Transaction :=
  mkTransaction (get_transaction_id t) (get_start_ts t) st (get_lock_set t) (get_write_set t).

Definition set_start_ts (ts : Z) (t : Transaction) : Transaction :=
  mkTransaction (get_transaction_id t) ts (get_state t) (get_lock_set t) (get_write_set t).

Definition set_lock_set (ls : gset LockDataId) (t : Transaction) : Transaction :=
  mkTransaction (get_transaction_id t) (get_start_ts t) (get_state t) ls (get_write_set t).

Definition set_write_set (ws : list (option WriteRecord)) (t : Transaction) : Transaction :=
  mkTransaction (get_transaction_id t) (get_start_ts t) (get_state t) (get_lock_set t) ws.

(** Modelled from the spec: "{ txn_id, lock_mode, granted }", declared
    outside [src/]. *)
Record LockRequest := mkLockRequest {
  txn_id_ : Z;
  lock_mode_ : LockMode;
  granted_ : bool
}.

(** Modelled from the spec: "{ request_queue, group_lock_mode, condvar }",
    declared outside [src/].  The condition variable is only ever notified
    by the code and is not modelled. *)
Record LockRequestQueue := mkLockRequestQueue {
  request_queue_ : list LockRequest;
  group_lock_mode_ : GroupLockMode.t
}.

(** The lock manager, with the transaction objects its callers pass by
    pointer: [txns] maps the address of a transaction to the object. *)
Record LockManager := mkLockManager {
  txns : gmap Z Transaction;
  lock_table_ : gmap LockDataId LockRequestQueue
}.

Definition deref (txn : option Z) : M LockManager Transaction :=
  fun lm =>
    match txn with
    | None => Undef NullDereference
    | Some a =>
        match txns lm !! a with
        | Some t => Ok t lm
        | None => Undef NullDereference
        end
    end.

(** A write through the transaction pointer. *)
Definition update_txn (txn : option Z) (f : Transaction -> Transaction) : M LockManager unit :=
  t <- deref txn ;;
  match txn with
  | Some a => modify_state (fun lm => mkLockManager (<[a := f t]> (txns lm)) (lock_table_ lm))
  | None => undefined NullDereference
  end.

Definition to_group_lock_mode (lock_mode : LockMode) : GroupLockMode.t :=
  match lock_mode with
  | SHARED => GroupLockMode.S
  | EXLUCSIVE => GroupLockMode.X
  | INTENTION_SHARED => GroupLockMode.IS
  | INTENTION_EXCLUSIVE => GroupLockMode.IX
  | S_IX => GroupLockMode.SIX
  end.

(** The [static_cast<int>] of a group mode.  The enumeration is declared
    outside [src/]; the rows and columns of [compat] are labelled
    NON, IS, IX, S, X, SIX in the source, which is its numbering. *)
Definition group_index (m : GroupLockMode.t) : nat :=
  match m with
  | GroupLockMode.NON_LOCK => 0
  | GroupLockMode.IS => 1
  | GroupLockMode.IX => 2
  | GroupLockMode.S => 3
  | GroupLockMode.X => 4
  | GroupLockMode.SIX => 5
  end.

Definition compat : list (list bool) :=
  (*            NON    IS     IX     S      X      SIX *)
  [ (*NON*) [true; true;  true;  true;  true;  true];
    (*IS *) [true; true;  true;  true;  false; true];
    (*IX *) [true; true;  true;  false; false; false];
    (*S  *) [true; true;  false; true;  false; false];
    (*X  *) [true; false; false; false; false; false];
    (*SIX*) [true; true;  false; false; false; false] ].

Definition compat_at (l r : nat) : bool :=
  match compat !! l with
  | Some row => default false (row !! r)
  | None => false
  end.

Definition is_compatible (lhs rhs : LockMode) : bool :=
  let l := group_index (to_group_lock_mode lhs) in
  let r := group_index (to_group_lock_mode rhs) in
  compat_at l r && compat_at r l.

Definition priority (m : GroupLockMode.t) : Z :=
  match m with
  | GroupLockMode.NON_LOCK => 0
  | GroupLockMode.IS => 1
  | GroupLockMode.IX => 2
  | GroupLockMode.S => 3
  | GroupLockMode.SIX => 4
  | GroupLockMode.X => 5
  end.

(** [update_group_lock_mode]: the strongest granted mode of the queue. *)
Definition group_mode_of (reqs : list LockRequest) : GroupLockMode.t :=
  fold_left
    (fun mode req =>
       if negb (granted_ req) then mode
       else
         let gm := to_group_lock_mode (lock_mode_ req) in
         if priority mode <? priority gm then gm else mode)
    reqs GroupLockMode.NON_LOCK.

Definition update_group_lock_mode (queue : LockRequestQueue) : LockRequestQueue :=
  mkLockRequestQueue (request_queue_ queue) (group_mode_of (request_queue_ queue)).

(** The position of the first request of transaction [id] in a queue. *)
Fixpoint find_request (id : Z) (reqs : list LockRequest) : option (nat * LockRequest) :=
  match reqs with
  | [] => None
  | req :: reqs' =>
      if txn_id_ req =? id then Some (O, req)
      else
        match find_request id reqs' with
        | Some (i, r) => Some (S i, r)
        | None => None
        end
  end.

(** Some granted request, of another transaction when [skip] is given, is
    not compatible with [lock_mode]. *)
Definition conflicts (skip : option Z) (lock_mode : LockMode) (reqs : list LockRequest) : bool :=
  existsb
    (fun req =>
       match skip with
       | Some id => if txn_id_ req =? id then false
                    else granted_ req && negb (is_compatible lock_mode (lock_mode_ req))
       | None => granted_ req && negb (is_compatible lock_mode (lock_mode_ req))
       end)
    reqs.

(** [lock_table_[lock_data_id]]: the queue of the entry, which is created
    empty when the table has none. *)
Definition table_entry (lock_data_id : LockDataId) : M LockManager LockRequestQueue :=
  fun lm =>
    match lock_table_ lm !! lock_data_id with
    | Some queue => Ok queue lm
    | None =>
        let queue := mkLockRequestQueue [] GroupLockMode.NON_LOCK in
        Ok queue (mkLockManager (txns lm) (<[lock_data_id := queue]> (lock_table_ lm)))
    end.

Definition put_queue (lock_data_id : LockDataId) (queue : LockRequestQueue)
  : M LockManager unit :=
  modify_state
    (fun lm => mkLockManager (txns lm) (<[lock_data_id := queue]> (lock_table_ lm))).

Definition lock (txn : option Z) (lock_data_id : LockDataId) (lock_mode : LockMode)
  : M LockManager bool :=
  match txn with
  | None => ret false
  | Some _ =>
      t <- deref txn ;;
      if decide (get_state t = SHRINKING)
      then throw (TransactionAbortException (get_transaction_id t) LOCK_ON_SHIRINKING)
      else
        queue <- table_entry lock_data_id ;;
        match find_request (get_transaction_id t) (request_queue_ queue) with
        | Some (i, req) =>
            if granted_ req && bool_decide (lock_mode_ req = lock_mode) then ret true
            else if conflicts (Some (get_transaction_id t)) lock_mode (request_queue_ queue)
            then throw (TransactionAbortException (get_transaction_id t) UPGRADE_CONFLICT)
            else
              put_queue lock_data_id
                (update_group_lock_mode
                   (mkLockRequestQueue
                      (<[i := mkLockRequest (txn_id_ req) lock_mode true]> (request_queue_ queue))
                      (group_lock_mode_ queue))) ;;;
              update_txn txn (fun t => set_lock_set ({[lock_data_id]} ∪ get_lock_set t) t) ;;;
              ret true
        | None =>
            if conflicts None lock_mode (request_queue_ queue) then ret false
            else
              put_queue lock_data_id
                (update_group_lock_mode
                   (mkLockRequestQueue
                      (request_queue_ queue
                       ++ [mkLockRequest (get_transaction_id t) lock_mode true])
                      (group_lock_mode_ queue))) ;;;
              update_txn txn (fun t => set_lock_set ({[lock_data_id]} ∪ get_lock_set t) t) ;;;
              update_txn txn
                (fun t => if decide (get_state t = DEFAULT) then set_state GROWING t else t) ;;;
              ret true
        end
  end.

Definition unlock (txn : option Z) (lock_data_id : LockDataId) : M LockManager bool :=
  lm <- read_state ;;
  match lock_table_ lm !! lock_data_id with
  | None => ret false
  | Some queue =>
      match request_queue_ queue with
      | [] => ret false
      | _ :: _ =>
          t <- deref txn ;;
          match find_request (get_transaction_id t) (request_queue_ queue) with
          | None => ret false
          | Some (i, _) =>
              let reqs := delete i (request_queue_ queue) in
              update_txn txn (fun t => set_lock_set (get_lock_set t ∖ {[lock_data_id]}) t) ;;;
              update_txn txn
                (fun t => if decide (get_state t = GROWING) then set_state SHRINKING t else t) ;;;
              (match reqs with
               | [] =>
                   modify_state
                     (fun lm => mkLockManager (txns lm) (delete lock_data_id (lock_table_ lm)))
               | _ :: _ =>
                   put_queue lock_data_id
                     (update_group_lock_mode (mkLockRequestQueue reqs (group_lock_mode_ queue)))
               end) ;;;
              ret true
          end
      end
  end.

Definition lock_shared_on_record (txn : option Z) (rid : Rid) (tab_fd : Z) : M LockManager bool :=
  lock txn (record_lock_id tab_fd rid) SHARED.

Definition lock_exclusive_on_record (txn : option Z) (rid : Rid) (tab_fd : Z)
  : M LockManager bool :=
  lock txn (record_lock_id tab_fd rid) EXLUCSIVE.

Definition lock_shared_on_table (txn : option Z) (tab_fd : Z) : M LockManager bool :=
  lock txn (table_lock_id tab_fd) SHARED.

Definition lock_exclusive_on_table (txn : option Z) (tab_fd : Z) : M LockManager bool :=
  lock txn (table_lock_id tab_fd) EXLUCSIVE.

Definition lock_IS_on_table (txn : option Z) (tab_fd : Z) : M LockManager bool :=
  lock txn (table_lock_id tab_fd) INTENTION_SHARED.

Definition lock_IX_on_table (txn : option Z) (tab_fd : Z) : M LockManager bool :=
  lock txn (table_lock_id tab_fd) INTENTION_EXCLUSIVE.

(** * Transaction manager: [TransactionManager] *)

(** The transaction manager with the objects it points to: the lock manager
    (and the transaction objects), the record files of the catalog
    ([sm_manager_->fhs_]), and the global transaction table.  The log
    manager only receives [flush_log_to_disk], whose result is ignored, and
    is not modelled. *)
Record TransactionManager := mkTransactionManager {
  lock_manager_ : LockManager;
  has_lock_manager : bool;      (* [lock_manager_ != nullptr] *)
  fhs_ : gmap string RmFileHandle;
  txn_map : gmap Z Z;           (* transaction id to the address of the object *)
  next_txn_id_ : Z;
  next_timestamp_ : Z
}.

Definition set_lock_manager (lm : LockManager) (tm : TransactionManager) : TransactionManager :=
  mkTransactionManager lm (has_lock_manager tm) (fhs_ tm) (txn_map tm)
                       (next_txn_id_ tm) (next_timestamp_ tm).

Definition set_fhs (fhs : gmap string RmFileHandle) (tm : TransactionManager)
  : TransactionManager :=
  mkTransactionManager (lock_manager_ tm) (has_lock_manager tm) fhs (txn_map tm)
                       (next_txn_id_ tm) (next_timestamp_ tm).

Definition set_txn_map (m : gmap Z Z) (tm : TransactionManager) : TransactionManager :=
  mkTransactionManager (lock_manager_ tm) (has_lock_manager tm) (fhs_ tm) m
                       (next_txn_id_ tm) (next_timestamp_ tm).

Definition set_next_txn_id (v : Z) (tm : TransactionManager) : TransactionManager :=
  mkTransactionManager (lock_manager_ tm) (has_lock_manager tm) (fhs_ tm) (txn_map tm)
                       v (next_timestamp_ tm).

Definition set_next_timestamp (v : Z) (tm : TransactionManager) : TransactionManager :=
  mkTransactionManager (lock_manager_ tm) (has_lock_manager tm) (fhs_ tm) (txn_map tm)
                       (next_txn_id_ tm) v.

(** A call on the lock manager or on a transaction object. *)
Definition on_lock_manager {A} (m : M LockManager A) : M TransactionManager A :=
  fun tm =>
    match m (lock_manager_ tm) with
    | Ok a lm => Ok a (set_lock_manager lm tm)
    | Throw e lm => Throw e (set_lock_manager lm tm)
    | Undef u => Undef u
    end.

(** A call on one record file of a catalog. *)
Definition on_table {A} (tab_name : string) (m : M RmFileHandle A)
  : M (gmap string RmFileHandle) A :=
  fun fhs =>
    match fhs !! tab_name with
    | None => Undef NullDereference
    | Some fh =>
        match m fh with
        | Ok a fh' => Ok a (<[tab_name := fh']> fhs)
        | Throw e fh' => Throw e (<[tab_name := fh']> fhs)
        | Undef u => Undef u
        end
    end.

Definition on_catalog {A} (m : M (gmap string RmFileHandle) A) : M TransactionManager A :=
  fun tm =>
    match m (fhs_ tm) with
    | Ok a fhs => Ok a (set_fhs fhs tm)
    | Throw e fhs => Throw e (set_fhs fhs tm)
    | Undef u => Undef u
    end.

(** The counters are [std::atomic]; their [++] wraps around. *)
Definition wrap_int (x : Z) : Z := (x - INT_MIN) mod 4294967296 + INT_MIN.

(** Modelled from the spec: [new Transaction(id)], whose constructor is
    declared outside [src/]: a transaction in state [DEFAULT] with empty lock
    and write sets, at an address no transaction object occupies. *)
Definition new_transaction (id : Z) : M LockManager Z :=
  fun lm =>
    let a := fresh (dom (txns lm)) in
    Ok a (mkLockManager (<[a := mkTransaction id 0 DEFAULT ∅ []]> (txns lm)) (lock_table_ lm)).

Definition begin (txn : option Z) : M TransactionManager Z :=
  a <- match txn with
       | Some a => ret a
       | None =>
           tm <- read_state ;;
           modify_state (set_next_txn_id (wrap_int (next_txn_id_ tm + 1))) ;;;
           on_lock_manager (new_transaction (next_txn_id_ tm))
       end ;;
  on_lock_manager (update_txn (Some a) (set_state GROWING)) ;;;
  tm <- read_state ;;
  modify_state (set_next_timestamp (wrap_int (next_timestamp_ tm + 1))) ;;;
  on_lock_manager (update_txn (Some a) (set_start_ts (next_timestamp_ tm))) ;;;
  t <- on_lock_manager (deref (Some a)) ;;
  modify_state (fun tm => set_txn_map (<[get_transaction_id t := a]> (txn_map tm)) tm) ;;;
  ret a.

(** The loop
      [for (const auto &lock_data_id : *txn->get_lock_set())
         lock_manager_->unlock(txn, lock_data_id);]
    walks the lock set of the transaction itself.  An [unlock] that finds the
    request of the transaction erases [lock_data_id] from that very set
    (lock_manager.cpp:87), that is, the element the iterator of the loop
    stands on; advancing an iterator to an erased element is undefined, so
    the loop does not get past the first lock it releases.  An [unlock] that
    returns false has changed nothing, and the loop goes on to the next
    element: [ids] are the elements still to visit. *)
Fixpoint unlock_all (txn : option Z) (ids : list LockDataId) : M LockManager unit :=
  match ids with
  | [] => ret tt
  | id :: ids' =>
      released <- unlock txn id ;;
      if released : bool then undefined InvalidatedIterator else unlock_all txn ids'
  end.

(** Steps 2 and 3 of [commit] and of [abort]: the loop above when there is a
    lock manager, then [txn->get_lock_set()->clear()]. *)
Definition release_locks (txn : option Z) : M TransactionManager unit :=
  tm <- read_state ;;
  (if has_lock_manager tm
   then
     t <- on_lock_manager (deref txn) ;;
     on_lock_manager (unlock_all txn (elements (get_lock_set t)))
   else ret tt) ;;;
  on_lock_manager (update_txn txn (set_lock_set ∅)).

Definition commit (txn : option Z) : M TransactionManager unit :=
  match txn with
  | None => ret tt
  | Some _ =>
      on_lock_manager (update_txn txn (set_write_set [])) ;;;
      release_locks txn ;;;
      on_lock_manager (update_txn txn (set_state COMMITTED)) ;;;
      t <- on_lock_manager (deref txn) ;;
      modify_state (fun tm => set_txn_map (delete (get_transaction_id t) (txn_map tm)) tm)
  end.

(** The inverse operation of one write record, on the record file the
    catalog has under its table name; nothing when it has none. *)
Definition undo_write (write_record : WriteRecord) : M (gmap string RmFileHandle) unit :=
  fhs <- read_state ;;
  let tab_name := GetTableName write_record in
  let rid := GetRid write_record in
  match fhs !! tab_name with
  | None => ret tt
  | Some _ =>
      match GetWriteType write_record with
      | INSERT_TUPLE => on_table tab_name (delete_record rid)
      | DELETE_TUPLE => on_table tab_name (insert_record_at rid (GetRecord write_record))
      | UPDATE_TUPLE => on_table tab_name (update_record rid (GetRecord write_record))
      end
  end.

(** Splitting off the last element of a deque. *)
Definition pop_back {A} (l : list A) : option (list A * A) :=
  match reverse l with
  | [] => None
  | x :: l' => Some (reverse l', x)
  end.

(** The loop [while (!write_set->empty())]: each iteration pops the back of
    the write set, so [k], its length, bounds the iterations. *)
Fixpoint undo_loop (k : nat) (txn : option Z) : M TransactionManager unit :=
  match k with
  | O => ret tt
  | S k' =>
      t <- on_lock_manager (deref txn) ;;
      match pop_back (get_write_set t) with
      | None => ret tt
      | Some (write_set, write_record) =>
          on_lock_manager (update_txn txn (set_write_set write_set)) ;;;
          (match write_record with
           | Some wr => on_catalog (undo_write wr)
           | None => ret tt
           end) ;;;
          undo_loop k' txn
      end
  end.

Definition abort (txn : option Z) : M TransactionManager unit :=
  match txn with
  | None => ret tt
  | Some _ =>
      t <- on_lock_manager (deref txn) ;;
      undo_loop (length (get_write_set t)) txn ;;;
      release_locks txn ;;;
      on_lock_manager (update_txn txn (set_state ABORTED)) ;;;
      t <- on_lock_manager (deref txn) ;;
      modify_state (fun tm => set_txn_map (delete (get_transaction_id t) (txn_map tm)) tm)
  end.

(** * Specification-level definitions *)

(** ** The operations of the file handle as decision trees

    Each operation is shown below to be equal to a decision tree over the
    initial state, with the final state written out. *)

Definition get_flat (rid : Rid) (fh : RmFileHandle) : result RmFileHandle (list byte) :=
  let hdr := file_hdr_ fh in
  let p := page_no rid in
  if (p <? RM_FIRST_RECORD_PAGE) || (num_pages hdr <=? p) then Throw (PageNotExistError p) fh
  else
    match pages_ fh !! p with
    | None => Throw (PageNotExistError p) fh
    | Some pg =>
      match Bitmap.is_set (bitmap pg) (slot_no rid) with
      | None => Undef OutOfBounds
      | Some false => Throw (RecordNotFoundError p (slot_no rid)) fh
      | Some true =>
        match mem_read (slot_no rid * record_size hdr) (record_size hdr) (slots pg) with
        | None => Undef OutOfBounds
        | Some rec => Ok rec fh
        end
      end
    end.

Definition update_flat (rid : Rid) (buf : list byte) (fh : RmFileHandle)
  : result RmFileHandle unit :=
  let hdr := file_hdr_ fh in
  let p := page_no rid in
  if (p <? RM_FIRST_RECORD_PAGE) || (num_pages hdr <=? p) then Throw (PageNotExistError p) fh
  else
    match pages_ fh !! p with
    | None => Throw (PageNotExistError p) fh
    | Some pg =>
      match Bitmap.is_set (bitmap pg) (slot_no rid) with
      | None => Undef OutOfBounds
      | Some false => Throw (RecordNotFoundError p (slot_no rid)) fh
      | Some true =>
        match mem_write (slot_no rid * record_size hdr) (record_size hdr) buf (slots pg) with
        | None => Undef OutOfBounds
        | Some sl => Ok tt (mkRmFileHandle hdr (<[p := set_slots sl pg]> (pages_ fh))
                                           (has_free_frame_ fh))
        end
      end
    end.

Definition delete_flat (rid : Rid) (fh : RmFileHandle) : result RmFileHandle unit :=
  let hdr := file_hdr_ fh in
  let p := page_no rid in
  if (p <? RM_FIRST_RECORD_PAGE) || (num_pages hdr <=? p) then Throw (PageNotExistError p) fh
  else
    match pages_ fh !! p with
    | None => Throw (PageNotExistError p) fh
    | Some pg =>
      match Bitmap.is_set (bitmap pg) (slot_no rid) with
      | None => Undef OutOfBounds
      | Some false => Throw (RecordNotFoundError p (slot_no rid)) fh
      | Some true =>
        match Bitmap.reset (bitmap pg) (slot_no rid) with
        | None => Undef OutOfBounds
        | Some bm =>
          let n := num_records (page_hdr pg) in
          if INT_MIN <? n then
            if n =? num_records_per_page hdr then
              Ok tt (mkRmFileHandle (set_first_free_page_no p hdr)
                       (<[p := mkPage (mkRmPageHdr (first_free_page_no hdr) (n - 1)) bm (slots pg)]>
                          (pages_ fh)) (has_free_frame_ fh))
            else
              Ok tt (mkRmFileHandle hdr
                       (<[p := mkPage (mkRmPageHdr (next_free_page_no (page_hdr pg)) (n - 1)) bm
                                      (slots pg)]>
                          (pages_ fh)) (has_free_frame_ fh))
          else Undef SignedOverflow
        end
      end
    end.

(** What the unlocated insert does once it holds page [p]. *)
Definition insert_into (p : Z) (buf : list byte) (fh : RmFileHandle) : result RmFileHandle Rid :=
  let hdr := file_hdr_ fh in
  match pages_ fh !! p with
  | None => Undef NullDereference
  | Some pg =>
    match Bitmap.first_bit false (bitmap pg) (num_records_per_page hdr) with
    | None => Undef OutOfBounds
    | Some slot =>
      if num_records_per_page hdr <=? slot
      then Throw (InternalError "No free slot found when inserting record") fh
      else
        match mem_write (slot * record_size hdr) (record_size hdr) buf (slots pg) with
        | None => Undef OutOfBounds
        | Some sl =>
          match Bitmap.set (bitmap pg) slot with
          | None => Undef OutOfBounds
          | Some bm =>
            let n := num_records (page_hdr pg) in
            if n <? INT_MAX then
              if n + 1 =? num_records_per_page hdr then
                Ok (mkRid p slot)
                   (mkRmFileHandle (set_first_free_page_no (next_free_page_no (page_hdr pg)) hdr)
                      (<[p := mkPage (mkRmPageHdr RM_NO_PAGE (n + 1)) bm sl]> (pages_ fh))
                      (has_free_frame_ fh))
              else
                Ok (mkRid p slot)
                   (mkRmFileHandle hdr
                      (<[p := mkPage (mkRmPageHdr (next_free_page_no (page_hdr pg)) (n + 1)) bm sl]>
                         (pages_ fh)) (has_free_frame_ fh))
            else Undef SignedOverflow
          end
        end
    end
  end.

(** The state [create_new_page_handle] has built when it fetches the page. *)
Definition with_new_page (fh : RmFileHandle) : RmFileHandle :=
  let hdr := file_hdr_ fh in
  mkRmFileHandle
    (mkRmFileHdr (record_size hdr) (num_pages hdr + 1) (num_records_per_page hdr)
                 (num_pages hdr) (bitmap_size hdr))
    (<[num_pages hdr :=
         mkPage (mkRmPageHdr (first_free_page_no hdr) 0)
                (Bitmap.init (bitmap_size hdr))
                (replicate (Z.to_nat (num_records_per_page hdr * record_size hdr)) Byte.x00)]>
       (pages_ fh)) (has_free_frame_ fh).

Definition insert_flat (buf : list byte) (fh : RmFileHandle) : result RmFileHandle Rid :=
  let hdr := file_hdr_ fh in
  if first_free_page_no hdr =? RM_NO_PAGE then
    if has_free_frame_ fh then
      if num_pages hdr <? INT_MAX then
        if (num_pages hdr <? RM_FIRST_RECORD_PAGE) || (num_pages hdr + 1 <=? num_pages hdr)
        then Throw (PageNotExistError (num_pages hdr)) (with_new_page fh)
        else insert_into (num_pages hdr) buf (with_new_page fh)
      else Undef SignedOverflow
    else Throw (InternalError "Failed to allocate new page for record file") fh
  else
    if (first_free_page_no hdr <? RM_FIRST_RECORD_PAGE)
       || (num_pages hdr <=? first_free_page_no hdr)
    then Throw (PageNotExistError (first_free_page_no hdr)) fh
    else
      match pages_ fh !! first_free_page_no hdr with
      | None => Throw (PageNotExistError (first_free_page_no hdr)) fh
      | Some _ => insert_into (first_free_page_no hdr) buf fh
      end.

Definition insert_at_flat (rid : Rid) (buf : list byte) (fh : RmFileHandle)
  : result RmFileHandle unit :=
  let hdr := file_hdr_ fh in
  let p := page_no rid in
  if (p <? RM_FIRST_RECORD_PAGE) || (num_pages hdr <=? p) then Throw (PageNotExistError p) fh
  else
    match pages_ fh !! p with
    | None => Throw (PageNotExistError p) fh
    | Some pg =>
      match Bitmap.is_set (bitmap pg) (slot_no rid) with
      | None => Undef OutOfBounds
      | Some true => Throw (RecordNotFoundError p (slot_no rid)) fh
      | Some false =>
        match mem_write (slot_no rid * record_size hdr) (record_size hdr) buf (slots pg) with
        | None => Undef OutOfBounds
        | Some sl =>
          match Bitmap.set (bitmap pg) (slot_no rid) with
          | None => Undef OutOfBounds
          | Some bm =>
            let n := num_records (page_hdr pg) in
            let nxt := next_free_page_no (page_hdr pg) in
            if n <? INT_MAX then
              let fh1 :=
                mkRmFileHandle hdr (<[p := mkPage (mkRmPageHdr nxt (n + 1)) bm sl]> (pages_ fh))
                               (has_free_frame_ fh) in
              if n + 1 =? num_records_per_page hdr then
                if first_free_page_no hdr =? p then
                  Ok tt (mkRmFileHandle (set_first_free_page_no nxt hdr)
                           (<[p := mkPage (mkRmPageHdr RM_NO_PAGE (n + 1)) bm sl]> (pages_ fh))
                           (has_free_frame_ fh))
                else
                  match unlink_loop (Z.to_nat (num_pages hdr)) p (first_free_page_no hdr) fh1 with
                  | Ok _ fh2 =>
                    match pages_ fh2 !! p with
                    | Some pg2 =>
                      Ok tt (mkRmFileHandle (file_hdr_ fh2)
                               (<[p := set_next_free_page_no RM_NO_PAGE pg2]> (pages_ fh2))
                               (has_free_frame_ fh2))
                    | None => Undef NullDereference
                    end
                  | Throw e fh2 => Throw e fh2
                  | Undef u => Undef u
                  end
              else Ok tt fh1
            else Undef SignedOverflow
          end
        end
      end
    end.

(** ** Every [int] field holds an [int] *)

Definition int_range (x : Z) : Prop := INT_MIN <= x <= INT_MAX.

Definition hdr_typed (h : RmFileHdr) : Prop :=
  int_range (record_size h) /\ int_range (num_pages h) /\ int_range (num_records_per_page h)
  /\ int_range (first_free_page_no h) /\ int_range (bitmap_size h).

Definition page_typed (pg : Page) : Prop :=
  int_range (num_records (page_hdr pg)) /\ int_range (next_free_page_no (page_hdr pg)).

Definition fh_typed (fh : RmFileHandle) : Prop :=
  hdr_typed (file_hdr_ fh) /\ forall p pg, pages_ fh !! p = Some pg -> page_typed pg.

(** ** The free list and the invariant of a record file *)

(** [free_chain pgs head l]: following [next_free_page_no] from [head]
    visits exactly the pages [l], in this order, and then reaches
    [RM_NO_PAGE]. *)
Inductive free_chain (pgs : gmap Z Page) : Z -> list Z -> Prop :=
  | free_chain_end : free_chain pgs RM_NO_PAGE []
  | free_chain_next p pg l :
      p <> RM_NO_PAGE ->
      pgs !! p = Some pg ->
      free_chain pgs (next_free_page_no (page_hdr pg)) l ->
      free_chain pgs p (p :: l).

(** The same walk as a function; [None] when a link leaves the file or the
    walk takes more than [fuel] steps. *)
Fixpoint free_list_from (fuel : nat) (pgs : gmap Z Page) (p : Z) : option (list Z) :=
  if p =? RM_NO_PAGE then Some []
  else
    match fuel with
    | O => None
    | S fuel' =>
        match pgs !! p with
        | None => None
        | Some pg =>
            match free_list_from fuel' pgs (next_free_page_no (page_hdr pg)) with
            | None => None
            | Some l => Some (p :: l)
            end
        end
    end.

(** The free list of a file: a list without repetition has fewer than
    [num_pages] entries. *)
Definition free_list (fh : RmFileHandle) : option (list Z) :=
  free_list_from (Z.to_nat (num_pages (file_hdr_ fh))) (pages_ fh)
                 (first_free_page_no (file_hdr_ fh)).

(** Number of times page [p] is met on the list [l]. *)
Definition occurrences (p : Z) (l : list Z) : nat :=
  length (filter (fun q => q = p) l).

Definition hdr_ok (h : RmFileHdr) : Prop :=
  0 < record_size h <= INT_MAX
  /\ 0 < num_records_per_page h <= INT_MAX
  /\ num_records_per_page h <= 8 * bitmap_size h
  /\ bitmap_size h <= INT_MAX
  /\ RM_FIRST_RECORD_PAGE <= num_pages h <= INT_MAX.

(** A well-formed data page: the sizes of the header file, the bits past the
    last slot clear, and the counter equal to the number of set bits. *)
Definition page_ok (h : RmFileHdr) (pg : Page) : Prop :=
  Z.of_nat (length (bitmap pg)) = 8 * bitmap_size h
  /\ Z.of_nat (length (slots pg)) = num_records_per_page h * record_size h
  /\ (forall i, num_records_per_page h <= i -> Bitmap.is_set (bitmap pg) i <> Some true)
  /\ Bitmap.popcount (bitmap pg) = num_records (page_hdr pg).

(** The data pages are pages [1 .. num_pages - 1]. *)
Definition data_pages_ok (fh : RmFileHandle) : Prop :=
  (forall p, is_Some (pages_ fh !! p)
             <-> RM_FIRST_RECORD_PAGE <= p < num_pages (file_hdr_ fh))
  /\ forall p pg, pages_ fh !! p = Some pg -> page_ok (file_hdr_ fh) pg.

(** Invariant 1 of the design: the free list holds exactly the pages with a
    free slot, each once; a full page has no successor. *)
Definition free_list_ok (fh : RmFileHandle) (l : list Z) : Prop :=
  free_chain (pages_ fh) (first_free_page_no (file_hdr_ fh)) l
  /\ NoDup l
  /\ forall p pg, pages_ fh !! p = Some pg ->
       (num_records (page_hdr pg) < num_records_per_page (file_hdr_ fh) -> p ∈ l)
       /\ (num_records_per_page (file_hdr_ fh) <= num_records (page_hdr pg) ->
           (p ∉ l) /\ next_free_page_no (page_hdr pg) = RM_NO_PAGE).

(** The invariant of a record file whose free list is [l]. *)
Definition rm_inv_with (fh : RmFileHandle) (l : list Z) : Prop :=
  hdr_ok (file_hdr_ fh) /\ data_pages_ok fh /\ free_list_ok fh l.

Definition rm_inv (fh : RmFileHandle) : Prop := exists l, rm_inv_with fh l.

(** Two headers that describe the same file layout. *)
Definition same_layout (h h' : RmFileHdr) : Prop :=
  record_size h = record_size h' /\ num_pages h = num_pages h'
  /\ num_records_per_page h = num_records_per_page h' /\ bitmap_size h = bitmap_size h'.

(** A freshly created record file: the header page only. *)
Definition new_file (record_size num_records_per_page bitmap_size : Z) : RmFileHandle :=
  mkRmFileHandle
    (mkRmFileHdr record_size RM_FIRST_RECORD_PAGE num_records_per_page RM_NO_PAGE bitmap_size)
    ∅ true.

(** ** Calls on a file handle *)

Inductive RmCall :=
  | CallGet (rid : Rid)
  | CallInsert (buf : list byte)
  | CallInsertAt (rid : Rid) (buf : list byte)
  | CallDelete (rid : Rid)
  | CallUpdate (rid : Rid) (buf : list byte).

(** A call whose record identifier, when it is given one, names a slot of
    the slot array of its page. *)
Definition call_in_range (num_records_per_page : Z) (c : RmCall) : Prop :=
  match c with
  | CallInsert _ => True
  | CallGet rid | CallDelete rid | CallInsertAt rid _ | CallUpdate rid _ =>
      0 <= slot_no rid < num_records_per_page
  end.

(** What a call hands back. *)
Inductive RmValue :=
  | VUnit
  | VRid (rid : Rid)
  | VRecord (rec : list byte).

Definition rm_call (c : RmCall) : M RmFileHandle RmValue :=
  match c with
  | CallGet rid => rec <- get_record rid ;; ret (VRecord rec)
  | CallInsert buf => rid <- insert_record buf ;; ret (VRid rid)
  | CallInsertAt rid buf => insert_record_at rid buf ;;; ret VUnit
  | CallDelete rid => delete_record rid ;;; ret VUnit
  | CallUpdate rid buf => update_record rid buf ;;; ret VUnit
  end.

(** The state after a sequence of calls, each of which returns or throws;
    [None] when a call has no defined behaviour.  A thrown exception is
    caught by the caller, and the next call sees the state it left. *)
Fixpoint rm_calls (cs : list RmCall) (fh : RmFileHandle) : option RmFileHandle :=
  match cs with
  | [] => Some fh
  | c :: cs' =>
      match rm_call c fh with
      | Ok _ fh' => rm_calls cs' fh'
      | Throw _ fh' => rm_calls cs' fh'
      | Undef _ => None
      end
  end.

(** Two versions of a page that differ at most in the free-list link. *)
Definition same_records (pg pg' : Page) : Prop :=
  bitmap pg = bitmap pg' /\ slots pg = slots pg'
  /\ num_records (page_hdr pg) = num_records (page_hdr pg').

(** The parameters of a record file that make sense: records and pages are
    not empty, and the bitmap has a bit for each slot. *)
Definition valid_layout (record_size num_records_per_page bitmap_size : Z) : Prop :=
  0 < record_size <= INT_MAX
  /\ 0 < num_records_per_page <= INT_MAX
  /\ num_records_per_page <= 8 * bitmap_size
  /\ bitmap_size <= INT_MAX.

(** ** What was written where *)

(** [record_at fh rid v]: slot [rid] of the file is live and holds [v]. *)
Definition record_at (fh : RmFileHandle) (rid : Rid) (v : list byte) : Prop :=
  RM_FIRST_RECORD_PAGE <= page_no rid < num_pages (file_hdr_ fh)
  /\ exists pg,
       pages_ fh !! page_no rid = Some pg
       /\ Bitmap.is_set (bitmap pg) (slot_no rid) = Some true
       /\ mem_read (slot_no rid * record_size (file_hdr_ fh)) (record_size (file_hdr_ fh))
                   (slots pg) = Some v.

(** [keeps rid fh fh']: whatever is live at [rid] in [fh] is live at [rid]
    in [fh'], with the same bytes. *)
Definition keeps (rid : Rid) (fh fh' : RmFileHandle) : Prop :=
  record_size (file_hdr_ fh') = record_size (file_hdr_ fh)
  /\ num_pages (file_hdr_ fh) <= num_pages (file_hdr_ fh')
  /\ forall pg,
       pages_ fh !! page_no rid = Some pg ->
       Bitmap.is_set (bitmap pg) (slot_no rid) = Some true ->
       exists pg',
         pages_ fh' !! page_no rid = Some pg'
         /\ Bitmap.is_set (bitmap pg') (slot_no rid) = Some true
         /\ forall off n, off = slot_no rid * record_size (file_hdr_ fh) ->
                          n = record_size (file_hdr_ fh) ->
                          mem_read off n (slots pg') = mem_read off n (slots pg).

(** What a call that returned has done to the records. *)
Inductive RmEvent :=
  | Written (rid : Rid) (rec : list byte)
  | Deleted (rid : Rid).

(** [memcpy] reads the first [record_size] bytes of the caller's buffer. *)
Definition record_of (fh : RmFileHandle) (buf : list byte) : list byte :=
  take (Z.to_nat (record_size (file_hdr_ fh))) buf.

Definition rm_event (fh : RmFileHandle) (c : RmCall) (v : RmValue) : option RmEvent :=
  match c, v with
  | CallInsert buf, VRid rid => Some (Written rid (record_of fh buf))
  | CallInsertAt rid buf, _ => Some (Written rid (record_of fh buf))
  | CallUpdate rid buf, _ => Some (Written rid (record_of fh buf))
  | CallDelete rid, _ => Some (Deleted rid)
  | _, _ => None
  end.

(** The events of a sequence of calls, the most recent first.  A call that
    throws has written no record. *)
Fixpoint rm_history (cs : list RmCall) (fh : RmFileHandle) (past : list RmEvent)
  : option (RmFileHandle * list RmEvent) :=
  match cs with
  | [] => Some (fh, past)
  | c :: cs' =>
      match rm_call c fh with
      | Ok v fh' =>
          rm_history cs' fh'
            (match rm_event fh c v with Some ev => ev :: past | None => past end)
      | Throw _ fh' => rm_history cs' fh' past
      | Undef _ => None
      end
  end.

(** The bytes most recently written at [rid] by an insert or an update, as
    long as no delete of [rid] came after. *)
Fixpoint last_written (evs : list RmEvent) (rid : Rid) : option (list byte) :=
  match evs with
  | [] => None
  | Written r v :: evs' => if decide (r = rid) then Some v else last_written evs' rid
  | Deleted r :: evs' => if decide (r = rid) then None else last_written evs' rid
  end.

(** The located insert has written the slot, the bit and the counter of its
    page, and [fh'] differs from that state in free-list links at most. *)
Definition insert_at_written (rid : Rid) (buf : list byte) (fh fh' : RmFileHandle) : Prop :=
  exists pg sl bm fh1,
    pages_ fh !! page_no rid = Some pg
    /\ RM_FIRST_RECORD_PAGE <= page_no rid < num_pages (file_hdr_ fh)
    /\ Bitmap.is_set (bitmap pg) (slot_no rid) = Some false
    /\ mem_write (slot_no rid * record_size (file_hdr_ fh))
                 (record_size (file_hdr_ fh)) buf (slots pg) = Some sl
    /\ Bitmap.set (bitmap pg) (slot_no rid) = Some bm
    /\ fh1 = mkRmFileHandle (file_hdr_ fh)
               (<[page_no rid :=
                    mkPage (mkRmPageHdr (next_free_page_no (page_hdr pg))
                                        (num_records (page_hdr pg) + 1)) bm sl]>
                  (pages_ fh)) (has_free_frame_ fh)
    /\ forall rid', keeps rid' fh1 fh'.

(** Every event a history remembers is still readable. *)
Definition history_sound (fh : RmFileHandle) (evs : list RmEvent) : Prop :=
  forall rid v, last_written evs rid = Some v -> record_at fh rid v.

(** ** The live records of a file, in the order of their identifiers *)

(** The set bits of a bitmap at the positions after [b] and below [n]. *)
Definition live_slots_after (n : Z) (bm : list bool) (b : Z) : list Z :=
  filter (fun s => Bitmap.is_set bm s = Some true) (seqZ (b + 1) (n - (b + 1))).

(** The live records of page [p] after slot [b]. *)
Definition page_rids (fh : RmFileHandle) (p b : Z) : list Rid :=
  match pages_ fh !! p with
  | Some pg => mkRid p <$> live_slots_after (num_records_per_page (file_hdr_ fh)) (bitmap pg) b
  | None => []
  end.

(** The live records of page [p] after slot [b], then those of the [k - 1]
    pages that follow. *)
Fixpoint rids_from (fh : RmFileHandle) (k : nat) (p b : Z) : list Rid :=
  match k with
  | O => []
  | S k' => page_rids fh p b ++ rids_from fh k' (p + 1) (-1)
  end.

Definition live_rids (fh : RmFileHandle) : list Rid :=
  rids_from fh (Z.to_nat (num_pages (file_hdr_ fh) - RM_FIRST_RECORD_PAGE))
            RM_FIRST_RECORD_PAGE (-1).

(** The order of record identifiers: by page, then by slot. *)
Definition rid_lt (a b : Rid) : Prop :=
  page_no a < page_no b \/ (page_no a = page_no b /\ slot_no a < slot_no b).

(** [rid] names a slot of a data page whose bit is set. *)
Definition live (fh : RmFileHandle) (rid : Rid) : Prop :=
  RM_FIRST_RECORD_PAGE <= page_no rid < num_pages (file_hdr_ fh)
  /\ exists pg, pages_ fh !! page_no rid = Some pg
                /\ Bitmap.is_set (bitmap pg) (slot_no rid) = Some true.

Definition end_of_scan : RmScan := mkRmScan (mkRid RM_NO_PAGE RM_NO_PAGE).

(** ** Transaction manager: specification-level definitions *)

(** The writes of a transaction. *)
Inductive TxnOp :=
  | TxnInsert (tab_name : string) (buf : list byte)
  | TxnDelete (tab_name : string) (rid : Rid)
  | TxnUpdate (tab_name : string) (rid : Rid) (buf : list byte).

(** Modelled from the spec: the executor that performs a write and appends
    its write record lives outside [src/].  The spec has an INSERT record
    name the identifier of the inserted record, a DELETE record carry "the
    deleted image captured at delete time" and an UPDATE record "the
    pre-image captured at update time". *)
Definition txn_op (op : TxnOp) : M (gmap string RmFileHandle) WriteRecord :=
  match op with
  | TxnInsert tab_name buf =>
      rid <- on_table tab_name (insert_record buf) ;;
      ret (mkWriteRecord INSERT_TUPLE tab_name rid [])
  | TxnDelete tab_name rid =>
      old <- on_table tab_name (get_record rid) ;;
      on_table tab_name (delete_record rid) ;;;
      ret (mkWriteRecord DELETE_TUPLE tab_name rid old)
  | TxnUpdate tab_name rid buf =>
      old <- on_table tab_name (get_record rid) ;;
      on_table tab_name (update_record rid buf) ;;;
      ret (mkWriteRecord UPDATE_TUPLE tab_name rid old)
  end.

(** The write set and the record files after the writes [ops], all of which
    returned. *)
Fixpoint txn_ops (ops : list TxnOp) (fhs : gmap string RmFileHandle)
  : option (list WriteRecord * gmap string RmFileHandle) :=
  match ops with
  | [] => Some ([], fhs)
  | op :: ops' =>
      match txn_op op fhs with
      | Ok wr fhs' =>
          match txn_ops ops' fhs' with
          | Some (ws, fhs'') => Some (wr :: ws, fhs'')
          | None => None
          end
      | _ => None
      end
  end.

(** Undoing write records one after the other. *)
Fixpoint undo_writes (ws : list WriteRecord) : M (gmap string RmFileHandle) unit :=
  match ws with
  | [] => ret tt
  | wr :: ws' => undo_write wr ;;; undo_writes ws'
  end.

(** [restores fh0 fh]: [fh] has the pages of [fh0] with the same bitmaps and
    the same bytes in the live slots, and besides them empty pages only. *)
Definition restores (fh0 fh : RmFileHandle) : Prop :=
  record_size (file_hdr_ fh) = record_size (file_hdr_ fh0)
  /\ num_records_per_page (file_hdr_ fh) = num_records_per_page (file_hdr_ fh0)
  /\ bitmap_size (file_hdr_ fh) = bitmap_size (file_hdr_ fh0)
  /\ num_pages (file_hdr_ fh0) <= num_pages (file_hdr_ fh)
  /\ (forall p pg0,
        pages_ fh0 !! p = Some pg0 ->
        exists pg,
          pages_ fh !! p = Some pg
          /\ bitmap pg = bitmap pg0
          /\ forall s,
               Bitmap.is_set (bitmap pg0) s = Some true ->
               mem_read (s * record_size (file_hdr_ fh0)) (record_size (file_hdr_ fh0)) (slots pg)
               = mem_read (s * record_size (file_hdr_ fh0)) (record_size (file_hdr_ fh0))
                          (slots pg0))
  /\ (forall p pg,
        pages_ fh !! p = Some pg -> pages_ fh0 !! p = None ->
        Bitmap.popcount (bitmap pg) = 0).

(** The two files have the same live records. *)
Definition same_live_records (fh0 fh : RmFileHandle) : Prop :=
  forall rid v, record_at fh0 rid v <-> record_at fh rid v.

Definition catalog_inv (fhs : gmap string RmFileHandle) : Prop :=
  forall tab_name fh, fhs !! tab_name = Some fh -> rm_inv fh.

Definition catalog_restores (fhs0 fhs : gmap string RmFileHandle) : Prop :=
  forall tab_name,
    match fhs0 !! tab_name, fhs !! tab_name with
    | Some fh0, Some fh => restores fh0 fh
    | None, None => True
    | _, _ => False
    end.

(** The two headers agree on the sizes that lay out a page. *)
Definition same_sizes (h h' : RmFileHdr) : Prop :=
  record_size h = record_size h'
  /\ num_records_per_page h = num_records_per_page h'
  /\ bitmap_size h = bitmap_size h'.

(** Outside page [p] the two files have the same pages, up to the page
    headers. *)
Definition same_records_except (p : Z) (fh fh' : RmFileHandle) : Prop :=
  forall x,
    x <> p ->
    match pages_ fh !! x, pages_ fh' !! x with
    | Some pg, Some pg' => bitmap pg = bitmap pg' /\ slots pg = slots pg'
    | None, None => True
    | _, _ => False
    end.

(** ** Concrete runs

    A file of two-byte records, three to a page, and a run on it that fills
    page 1, allocates page 2, and frees a slot of page 1 again. *)

Definition example_A : list byte := [Byte.x41; Byte.x41].
Definition example_B : list byte := [Byte.x42; Byte.x42].

Definition example_calls : list RmCall :=
  [CallInsert example_A; CallInsert example_B; CallInsert example_A; CallInsert example_B;
   CallDelete (mkRid 1 1); CallUpdate (mkRid 1 0) example_B; CallGet (mkRid 1 1)].

Definition example_bits (b0 b1 b2 : bool) : list bool :=
  [b0; b1; b2; false; false; false; false; false].

(** The file after [example_calls]: page 1 holds B at slot 0 and A at slot
    2, its slot 1 is dead and still holds the bytes of the deleted record;
    page 2 holds B at slot 0; the free list is 1, 2. *)
Definition example_file : RmFileHandle :=
  mkRmFileHandle
    (mkRmFileHdr 2 3 3 1 1)
    (<[1 := mkPage (mkRmPageHdr 2 2) (example_bits true false true)
                   (example_B ++ example_B ++ example_A)]>
       (<[2 := mkPage (mkRmPageHdr (-1) 1) (example_bits true false false)
                      (example_B ++ [Byte.x00; Byte.x00; Byte.x00; Byte.x00])]> ∅)) true.

Definition example_events : list RmEvent :=
  [Written (mkRid 1 0) example_B; Deleted (mkRid 1 1); Written (mkRid 2 0) example_B;
   Written (mkRid 1 2) example_A; Written (mkRid 1 1) example_B;
   Written (mkRid 1 0) example_A].

(** A lock table in which transactions 7 and 8 (at addresses 1 and 2) hold a
    shared lock on table 3, and transaction 9 (at address 3) holds nothing. *)
Definition example_lm : LockManager :=
  mkLockManager
    (<[1 := mkTransaction 7 0 GROWING {[table_lock_id 3]} []]>
       (<[2 := mkTransaction 8 0 GROWING {[table_lock_id 3]} []]>
          (<[3 := mkTransaction 9 0 GROWING ∅ []]> ∅)))
    (<[table_lock_id 3 :=
         mkLockRequestQueue [mkLockRequest 7 SHARED true; mkLockRequest 8 SHARED true]
                            GroupLockMode.S]> ∅).

(** [example_lm] after transaction 7 released its lock. *)
Definition example_lm_released : LockManager :=
  mkLockManager
    (<[1 := mkTransaction 7 0 SHRINKING ∅ []]>
       (<[2 := mkTransaction 8 0 GROWING {[table_lock_id 3]} []]>
          (<[3 := mkTransaction 9 0 GROWING ∅ []]> ∅)))
    (<[table_lock_id 3 :=
         mkLockRequestQueue [mkLockRequest 8 SHARED true] GroupLockMode.S]> ∅).

(** [example_lm_released] after transaction 9 locked table 4 exclusively. *)
Definition example_lm_later : LockManager :=
  mkLockManager
    (<[1 := mkTransaction 7 0 SHRINKING ∅ []]>
       (<[2 := mkTransaction 8 0 GROWING {[table_lock_id 3]} []]>
          (<[3 := mkTransaction 9 0 GROWING {[table_lock_id 4]} []]> ∅)))
    (<[table_lock_id 3 :=
         mkLockRequestQueue [mkLockRequest 8 SHARED true] GroupLockMode.S]>
       (<[table_lock_id 4 :=
            mkLockRequestQueue [mkLockRequest 9 EXLUCSIVE true] GroupLockMode.X]> ∅)).

(** A transaction on the table [t], whose record file is [example_file]: it
    inserts A (into the dead slot 1 of page 1), overwrites the record at
    (1, 0) with A and deletes the record at (2, 0). *)
Definition example_catalog : gmap string RmFileHandle := <["t" := example_file]> ∅.

Definition example_txn_ops : list TxnOp :=
  [TxnInsert "t" example_A; TxnUpdate "t" (mkRid 1 0) example_A; TxnDelete "t" (mkRid 2 0)].

Definition example_write_set : list WriteRecord :=
  [mkWriteRecord INSERT_TUPLE "t" (mkRid 1 1) [];
   mkWriteRecord UPDATE_TUPLE "t" (mkRid 1 0) example_B;
   mkWriteRecord DELETE_TUPLE "t" (mkRid 2 0) example_B].

(** The record file after the three writes. *)
Definition example_written : RmFileHandle :=
  mkRmFileHandle
    (mkRmFileHdr 2 3 3 2 1)
    (<[1 := mkPage (mkRmPageHdr (-1) 3) (example_bits true true true)
                   (example_A ++ example_A ++ example_A)]>
       (<[2 := mkPage (mkRmPageHdr (-1) 0) (example_bits false false false)
                      (example_B ++ [Byte.x00; Byte.x00; Byte.x00; Byte.x00])]> ∅)) true.

(** The record file after the abort: it is [example_file] but for the bytes
    of the dead slot 1 of page 1. *)
Definition example_restored : RmFileHandle :=
  mkRmFileHandle
    (mkRmFileHdr 2 3 3 1 1)
    (<[1 := mkPage (mkRmPageHdr 2 2) (example_bits true false true)
                   (example_B ++ example_A ++ example_A)]>
       (<[2 := mkPage (mkRmPageHdr (-1) 1) (example_bits true false false)
                      (example_B ++ [Byte.x00; Byte.x00; Byte.x00; Byte.x00])]> ∅)) true.

(** The file left by aborting an insert into the empty file
    [new_file 2 3 1]: the page allocated by the insert stays. *)
Definition example_restored_fresh : RmFileHandle :=
  mkRmFileHandle
    (mkRmFileHdr 2 2 3 1 1)
    (<[1 := mkPage (mkRmPageHdr (-1) 0) (example_bits false false false)
                   (example_A ++ [Byte.x00; Byte.x00; Byte.x00; Byte.x00])]> ∅) true.

(** A transaction manager whose catalog is [fhs] and in which transaction 7,
    at address 1, holds no lock and has the write set [ws]. *)
Definition example_tm_with (fhs : gmap string RmFileHandle) (ws : list WriteRecord)
  : TransactionManager :=
  mkTransactionManager
    (mkLockManager (<[1 := mkTransaction 7 0 GROWING ∅ (Some <$> ws)]> ∅) ∅)
    true fhs (<[7 := 1]> (<[8 := 2]> ∅)) 10 5.

Definition example_tm : TransactionManager :=
  example_tm_with (<["t" := example_written]> ∅) example_write_set.

(** [example_file] after [delete_record] of the record at (1, 0). *)
Definition example_after_delete : RmFileHandle :=
  mkRmFileHandle
    (mkRmFileHdr 2 3 3 1 1)
    (<[1 := mkPage (mkRmPageHdr 2 1) (example_bits false false true)
                   (example_B ++ example_B ++ example_A)]> (pages_ example_file)) true.

(** [example_file] after [update_record] of the record at (1, 2) with B. *)
Definition example_after_update : RmFileHandle :=
  mkRmFileHandle
    (mkRmFileHdr 2 3 3 1 1)
    (<[1 := mkPage (mkRmPageHdr 2 2) (example_bits true false true)
                   (example_B ++ example_B ++ example_B)]> (pages_ example_file)) true.

(** [example_file] after [insert_record] of A, which takes the dead slot
    (1, 1) and fills page 1. *)
Definition example_after_insert : RmFileHandle :=
  mkRmFileHandle
    (mkRmFileHdr 2 3 3 2 1)
    (<[1 := mkPage (mkRmPageHdr (-1) 3) (example_bits true true true)
                   (example_B ++ example_A ++ example_A)]> (pages_ example_file)) true.

(** [example_after_delete] after the insert of A at (1, 0). *)
Definition example_after_update_0 : RmFileHandle :=
  mkRmFileHandle
    (mkRmFileHdr 2 3 3 1 1)
    (<[1 := mkPage (mkRmPageHdr 2 2) (example_bits true false true)
                   (example_A ++ example_B ++ example_A)]> (pages_ example_file)) true.

(** A fresh file whose buffer pool has no frame left for a new page. *)
Definition example_file_no_frame : RmFileHandle :=
  mkRmFileHandle (mkRmFileHdr 2 1 3 (-1) 1) ∅ false.

(** ** Lock manager: specification-level definitions *)

(** The compatibility matrix as the design document prints it (rows and
    columns IS, IX, S, SIX, X). *)
Definition spec_compatible (a b : LockMode) : bool :=
  match a, b with
  | INTENTION_SHARED, EXLUCSIVE => false
  | INTENTION_SHARED, _ => true
  | INTENTION_EXCLUSIVE, (INTENTION_SHARED | INTENTION_EXCLUSIVE) => true
  | INTENTION_EXCLUSIVE, _ => false
  | SHARED, (INTENTION_SHARED | SHARED) => true
  | SHARED, _ => false
  | S_IX, INTENTION_SHARED => true
  | S_IX, _ => false
  | EXLUCSIVE, _ => false
  end.

(** The group mode that stands for a lock mode, and the order of the group
    modes in the design document: NON_LOCK < IS < IX < S < SIX < X. *)
Definition spec_group_mode (mode : LockMode) : GroupLockMode.t :=
  match mode with
  | INTENTION_SHARED => GroupLockMode.IS
  | INTENTION_EXCLUSIVE => GroupLockMode.IX
  | SHARED => GroupLockMode.S
  | S_IX => GroupLockMode.SIX
  | EXLUCSIVE => GroupLockMode.X
  end.

Definition spec_strength (m : GroupLockMode.t) : nat :=
  match m with
  | GroupLockMode.NON_LOCK => 0
  | GroupLockMode.IS => 1
  | GroupLockMode.IX => 2
  | GroupLockMode.S => 3
  | GroupLockMode.SIX => 4
  | GroupLockMode.X => 5
  end.

(** [m] is the group mode the design document gives a queue with the
    requests [reqs]: the strongest mode among the granted requests, and
    NON_LOCK when no request is granted. *)
Definition spec_strongest_granted (reqs : list LockRequest) (m : GroupLockMode.t) : Prop :=
  (forall r, r ∈ reqs -> granted_ r = true ->
     (spec_strength (spec_group_mode (lock_mode_ r)) <= spec_strength m)%nat)
  /\ ((m = GroupLockMode.NON_LOCK /\ forall r, r ∈ reqs -> granted_ r = false)
      \/ exists r, r ∈ reqs /\ granted_ r = true /\ spec_group_mode (lock_mode_ r) = m).

(** The requests of the queue of [id]; none when the table has no entry. *)
Definition requests_of (lm : LockManager) (id : LockDataId) : list LockRequest :=
  match lock_table_ lm !! id with
  | Some queue => request_queue_ queue
  | None => []
  end.

(** Some granted request of the queue, of a transaction other than [skip]
    when it is given, is incompatible with [mode]. *)
Definition blocked_by (skip : option Z) (mode : LockMode) (reqs : list LockRequest) : Prop :=
  exists req,
    req ∈ reqs
    /\ (forall id, skip = Some id -> txn_id_ req <> id)
    /\ granted_ req = true
    /\ is_compatible mode (lock_mode_ req) = false.

(** Calls on the lock manager, by any transaction. *)
Inductive LmCall :=
  | CallLock (txn : option Z) (lock_data_id : LockDataId) (lock_mode : LockMode)
  | CallUnlock (txn : option Z) (lock_data_id : LockDataId).

Definition lm_call (c : LmCall) : M LockManager bool :=
  match c with
  | CallLock txn id mode => lock txn id mode
  | CallUnlock txn id => unlock txn id
  end.

(** The state after a sequence of calls, each of which returns or throws. *)
Fixpoint lm_calls (cs : list LmCall) (lm : LockManager) : option LockManager :=
  match cs with
  | [] => Some lm
  | c :: cs' =>
      match lm_call c lm with
      | Ok _ lm' => lm_calls cs' lm'
      | Throw _ lm' => lm_calls cs' lm'
      | Undef _ => None
      end
  end.

(** The transaction at address [a] is in its shrinking phase. *)
Definition shrinking (lm : LockManager) (a : Z) : Prop :=
  exists t, txns lm !! a = Some t /\ get_state t = SHRINKING.

(** No call moves a transaction out of its shrinking phase or renames it. *)
Definition txns_evolve (lm lm' : LockManager) : Prop :=
  forall b t,
    txns lm !! b = Some t ->
    exists t',
      txns lm' !! b = Some t'
      /\ get_transaction_id t' = get_transaction_id t
      /\ (get_state t = SHRINKING -> get_state t' = SHRINKING).

(** ** Lock manager: invariants of the lock table *)

(** Granted requests of different transactions in one queue are compatible. *)
Definition granted_compatible (lm : LockManager) : Prop :=
  forall id r1 r2,
    r1 ∈ requests_of lm id -> r2 ∈ requests_of lm id ->
    granted_ r1 = true -> granted_ r2 = true ->
    txn_id_ r1 <> txn_id_ r2 ->
    is_compatible (lock_mode_ r1) (lock_mode_ r2) = true.

(** A transaction has at most one request in a queue. *)
Definition one_request_each (lm : LockManager) : Prop :=
  forall id, NoDup (txn_id_ <$> requests_of lm id).

(** The group mode stored with a queue is the one [update_group_lock_mode]
    computes from its requests. *)
Definition group_modes_cached (lm : LockManager) : Prop :=
  forall id queue,
    lock_table_ lm !! id = Some queue ->
    group_lock_mode_ queue = group_mode_of (request_queue_ queue).
(** How a call changes the lock table: the queue of [id] stays, or gets the
    requests [reqs'] with their group mode, or is dropped when it is empty. *)
Definition table_step (id : LockDataId) (lm lm' : LockManager) (reqs' : list LockRequest)
  : Prop :=
  (lock_table_ lm' = <[id := mkLockRequestQueue reqs' (group_mode_of reqs')]> (lock_table_ lm)
   \/ (reqs' = [] /\ lock_table_ lm' = delete id (lock_table_ lm))).

(** Every request in the table is granted: no transaction waits in a queue. *)
Definition no_waiting (lm : LockManager) : Prop :=
  forall id r, r ∈ requests_of lm id -> granted_ r = true.

(** A lock table without queues, as the lock manager has it when it is
    constructed, with three transactions that have begun. *)
Definition example_lm_fresh : LockManager :=
  mkLockManager
    (<[1 := mkTransaction 7 0 GROWING ∅ []]>
       (<[2 := mkTransaction 8 0 GROWING ∅ []]>
          (<[3 := mkTransaction 9 0 GROWING ∅ []]> ∅)))
    ∅.

(** Transactions 7 and 8 lock table 3 in shared mode; 9 is refused an
    exclusive lock; 7 is refused the upgrade to exclusive; 8 unlocks; 7
    upgrades; 9 locks a record of table 3. *)
Definition example_lm_calls : list LmCall :=
  [CallLock (Some 1) (table_lock_id 3) SHARED;
   CallLock (Some 2) (table_lock_id 3) SHARED;
   CallLock (Some 3) (table_lock_id 3) EXLUCSIVE;
   CallLock (Some 1) (table_lock_id 3) EXLUCSIVE;
   CallUnlock (Some 2) (table_lock_id 3);
   CallLock (Some 1) (table_lock_id 3) EXLUCSIVE;
   CallLock (Some 3) (record_lock_id 3 (mkRid 1 0)) EXLUCSIVE].

Definition example_lm_final : LockManager :=
  mkLockManager
    (<[1 := mkTransaction 7 0 GROWING {[table_lock_id 3]} []]>
       (<[2 := mkTransaction 8 0 SHRINKING ∅ []]>
          (<[3 := mkTransaction 9 0 GROWING {[record_lock_id 3 (mkRid 1 0)]} []]> ∅)))
    (<[table_lock_id 3 :=
         mkLockRequestQueue [mkLockRequest 7 EXLUCSIVE true] GroupLockMode.X]>
       (<[record_lock_id 3 (mkRid 1 0) :=
            mkLockRequestQueue [mkLockRequest 9 EXLUCSIVE true] GroupLockMode.X]> ∅)).

(** Transactions 7 and 8 hold intention-shared locks on table 3; transaction
    9 has not locked anything yet. *)
Definition example_lm_intent : LockManager :=
  mkLockManager
    (<[1 := mkTransaction 7 0 GROWING {[table_lock_id 3]} []]>
       (<[2 := mkTransaction 8 0 GROWING {[table_lock_id 3]} []]>
          (<[3 := mkTransaction 9 0 DEFAULT ∅ []]> ∅)))
    (<[table_lock_id 3 :=
         mkLockRequestQueue [mkLockRequest 7 INTENTION_SHARED true;
                             mkLockRequest 8 INTENTION_SHARED true]
                            GroupLockMode.IS]> ∅).

(** [example_lm_intent] after transaction 9 locked table 3 in mode S_IX. *)
Definition example_lm_intent_six : LockManager :=
  mkLockManager
    (<[1 := mkTransaction 7 0 GROWING {[table_lock_id 3]} []]>
       (<[2 := mkTransaction 8 0 GROWING {[table_lock_id 3]} []]>
          (<[3 := mkTransaction 9 0 GROWING {[table_lock_id 3]} []]> ∅)))
    (<[table_lock_id 3 :=
         mkLockRequestQueue [mkLockRequest 7 INTENTION_SHARED true;
                             mkLockRequest 8 INTENTION_SHARED true;
                             mkLockRequest 9 S_IX true]
                            GroupLockMode.SIX]> ∅).

(** [example_lm_intent] after transaction 7 upgraded its lock to SHARED. *)
Definition example_lm_intent_shared : LockManager :=
  mkLockManager
    (<[1 := mkTransaction 7 0 GROWING {[table_lock_id 3]} []]>
       (<[2 := mkTransaction 8 0 GROWING {[table_lock_id 3]} []]>
          (<[3 := mkTransaction 9 0 DEFAULT ∅ []]> ∅)))
    (<[table_lock_id 3 :=
         mkLockRequestQueue [mkLockRequest 7 SHARED true;
                             mkLockRequest 8 INTENTION_SHARED true]
                            GroupLockMode.S]> ∅).

(** A transaction manager over the lock table [example_lm]. *)
Definition example_tm_locks : TransactionManager :=
  mkTransactionManager example_lm true example_catalog
                       (<[7 := 1]> (<[8 := 2]> (<[9 := 3]> ∅))) 10 5.

(** The release loop of [commit] and [abort] has nothing to release for the
    transaction [t]: there is no lock manager to call, or no queue of an id
    of its lock set holds a request of the transaction (every [unlock] of the
    loop returns false). *)
Definition nothing_to_release (tm : TransactionManager) (t : Transaction) : Prop :=
  has_lock_manager tm = true ->
  forall id, id ∈ get_lock_set t ->
    find_request (get_transaction_id t) (requests_of (lock_manager_ tm) id) = None.

(** The transaction manager of [example_tm_locks] after the lock table has
    been emptied behind the back of the transactions: transaction 7 still has
    table 3 in its lock set, and no queue holds a request. *)
Definition example_tm_stale : TransactionManager :=
  mkTransactionManager (mkLockManager (txns example_lm) ∅) true example_catalog
                       (<[7 := 1]> (<[8 := 2]> (<[9 := 3]> ∅))) 10 5.

(** * Reasoning about the record manager *)

(** ** Symbolic execution

    [mflat] unfolds the monad, then repeatedly splits on the innermost
    condition the left-hand side is waiting for. *)

Ltac munfold :=
  cbv beta iota zeta delta [bind ret throw undefined in_bounds modify_state read_state write_state
    file_hdr page_of update_page update_file_hdr read_slot write_slot bitmap_is_set bitmap_set
    bitmap_reset incr_num_records decr_num_records int_incr int_decr release_page_handle
    fetch_page_handle new_page create_page_handle create_new_page_handle negb orb
    set_bitmap set_num_records set_next_free_page_no set_slots set_first_free_page_no
    set_num_pages].

Ltac mfields :=
  cbn [file_hdr_ pages_ has_free_frame_ page_hdr bitmap slots num_records next_free_page_no
    record_size num_pages num_records_per_page first_free_page_no bitmap_size] in *.

Ltac scrut t :=
  lazymatch t with
  | match ?x with _ => _ end => scrut x
  | (match ?x with _ => _ end) _ => scrut x
  | _ => t
  end.

Ltac mcase :=
  lazymatch goal with
  | |- ?l = _ =>
      lazymatch l with
      | Ok _ _ => fail
      | Throw _ _ => fail
      | Undef _ => fail
      | _ => let x := scrut l in destruct x eqn:?
      end
  end.

(** Reduce as far as the facts at hand allow. *)
Ltac mnorm :=
  repeat first
    [ rewrite lookup_insert_eq
    | rewrite insert_insert_eq
    | progress mfields
    | progress cbv beta iota
    | match goal with
      | H : ?x = _ |- ?l = _ => let y := scrut l in constr_eq x y; rewrite H
      end ].

Ltac mflat :=
  munfold; repeat first [ progress mnorm | mcase ]; try reflexivity.

Lemma get_record_flat rid fh : get_record rid fh = get_flat rid fh.
Proof. destruct fh as [hdr pgs ff]. unfold get_record, get_flat. mflat. Qed.

Lemma update_record_flat rid buf fh : update_record rid buf fh = update_flat rid buf fh.
Proof. destruct fh as [hdr pgs ff]. unfold update_record, update_flat. mflat. Qed.

Lemma delete_record_flat rid fh : delete_record rid fh = delete_flat rid fh.
Proof. destruct fh as [hdr pgs ff]. unfold delete_record, delete_flat. mflat. Qed.

Lemma insert_record_flat buf fh : insert_record buf fh = insert_flat buf fh.
Proof.
  destruct fh as [hdr pgs ff].
  unfold insert_record, insert_flat, insert_into, with_new_page. mflat.
Qed.

Lemma insert_record_at_flat rid buf fh :
  insert_record_at rid buf fh = insert_at_flat rid buf fh.
Proof.
  destruct fh as [hdr pgs ff]. unfold insert_record_at, insert_at_flat. mflat.
Qed.

(** ** Bitmap and slot-array lemmas *)

Lemma is_set_Some bm pos b :
  Bitmap.is_set bm pos = Some b <-> 0 <= pos /\ bm !! Z.to_nat pos = Some b.
Proof.
  unfold Bitmap.is_set. destruct (pos <? 0) eqn:E.
  - split; [discriminate | lia].
  - split; [intros; split; [lia | done] | tauto].
Qed.

Lemma is_set_lt bm pos b :
  Bitmap.is_set bm pos = Some b -> 0 <= pos < Z.of_nat (length bm).
Proof.
  intros [H1 H2]%is_set_Some. apply lookup_lt_Some in H2. lia.
Qed.

Lemma assign_Some b bm pos bm' :
  Bitmap.assign b bm pos = Some bm' <->
  0 <= pos < Z.of_nat (length bm) /\ bm' = <[Z.to_nat pos := b]> bm.
Proof.
  unfold Bitmap.assign.
  destruct (pos <? 0) eqn:E1; destruct (Z.of_nat (length bm) <=? pos) eqn:E2; cbn;
    split; try discriminate; try lia; try (intros [? ?]; lia).
  - intros [= <-]. split; [lia | done].
  - intros [_ ->]. done.
Qed.

Lemma assign_is_Some b bm pos b0 :
  Bitmap.is_set bm pos = Some b0 -> Bitmap.assign b bm pos = Some (<[Z.to_nat pos := b]> bm).
Proof.
  intros H. apply assign_Some. split; [by eapply is_set_lt | done].
Qed.

Lemma assign_length b bm pos bm' :
  Bitmap.assign b bm pos = Some bm' -> length bm' = length bm.
Proof. intros [_ ->]%assign_Some. apply length_insert. Qed.

Lemma is_set_assign_eq b bm pos bm' :
  Bitmap.assign b bm pos = Some bm' -> Bitmap.is_set bm' pos = Some b.
Proof.
  intros [Hr ->]%assign_Some. apply is_set_Some. split; [lia |].
  apply list_lookup_insert_eq. lia.
Qed.

Lemma is_set_assign_ne b bm pos bm' pos' :
  Bitmap.assign b bm pos = Some bm' -> pos' <> pos ->
  Bitmap.is_set bm' pos' = Bitmap.is_set bm pos'.
Proof.
  intros [Hr ->]%assign_Some Hne. unfold Bitmap.is_set.
  destruct (pos' <? 0) eqn:E; [done |].
  apply list_lookup_insert_ne. lia.
Qed.

Lemma popcount_nil : Bitmap.popcount [] = 0.
Proof. reflexivity. Qed.

Lemma popcount_cons b bm :
  Bitmap.popcount (b :: bm) = (if b then 1 else 0) + Bitmap.popcount bm.
Proof.
  unfold Bitmap.popcount. destruct b.
  - rewrite filter_cons_True by done. cbn [length]. lia.
  - rewrite filter_cons_False by done. lia.
Qed.

Lemma popcount_nonneg bm : 0 <= Bitmap.popcount bm.
Proof. unfold Bitmap.popcount. lia. Qed.

Lemma popcount_replicate_false k : Bitmap.popcount (replicate k false) = 0.
Proof.
  induction k as [|k IH]; [done |]. cbn [replicate]. rewrite popcount_cons. lia.
Qed.

Lemma popcount_insert (bm : list bool) (i : nat) (b b0 : bool) :
  bm !! i = Some b0 ->
  Bitmap.popcount (<[i := b]> bm)
  = Bitmap.popcount bm - (if b0 then 1 else 0) + (if b then 1 else 0).
Proof.
  revert i. induction bm as [|x bm IH]; intros [|i] H; try discriminate.
  - cbn in H. injection H as ->.
    change (<[0%nat := b]> (b0 :: bm)) with (b :: bm). rewrite !popcount_cons. lia.
  - cbn in H. change (<[S i := b]> (x :: bm)) with (x :: <[i := b]> bm).
    rewrite !popcount_cons, (IH i H). lia.
Qed.

Lemma popcount_assign (b : bool) bm pos bm' (b0 : bool) :
  Bitmap.is_set bm pos = Some b0 -> Bitmap.assign b bm pos = Some bm' ->
  Bitmap.popcount bm' = Bitmap.popcount bm - (if b0 then 1 else 0) + (if b then 1 else 0).
Proof.
  intros [_ H]%is_set_Some [_ ->]%assign_Some. by apply popcount_insert.
Qed.

(** A bitmap whose first [n] bits are set has at least [n] set bits. *)
Lemma popcount_all_set (bm : list bool) (n : nat) :
  (forall i, (i < n)%nat -> bm !! i = Some true) -> Z.of_nat n <= Bitmap.popcount bm.
Proof.
  revert bm. induction n as [|n IH]; intros bm H.
  - apply popcount_nonneg.
  - destruct bm as [|b bm]; [specialize (H O ltac:(lia)); discriminate |].
    rewrite popcount_cons.
    assert (b = true) as -> by (specialize (H O ltac:(lia)); cbn in H; congruence).
    assert (Z.of_nat n <= Bitmap.popcount bm); [| lia].
    apply IH. intros i Hi. apply (H (S i)). lia.
Qed.

(** [scan]: the first position with the wanted bit, or [max_n]. *)
Lemma scan_spec bit bm max_n k i r :
  Bitmap.scan bit bm max_n k i = Some r ->
  (r = max_n /\ forall j, i <= j < i + Z.of_nat k -> Bitmap.is_set bm j = Some (negb bit))
  \/ (i <= r < i + Z.of_nat k /\ Bitmap.is_set bm r = Some bit
      /\ forall j, i <= j < r -> Bitmap.is_set bm j = Some (negb bit)).
Proof.
  revert i. induction k as [|k IH]; intros i H; cbn in H.
  - left. injection H as <-. split; [done | intros; lia].
  - destruct (Bitmap.is_set bm i) as [b|] eqn:Hb; [| discriminate].
    case_bool_decide as Hbit.
    + injection H as <-. subst b. right. split; [lia |]. split; [done | intros; lia].
    + assert (b = negb bit) as -> by (destruct b, bit; done).
      destruct (IH _ H) as [[-> Hall] | (Hr & Hset & Hall)].
      * left. split; [done |]. intros j Hj.
        destruct (decide (j = i)) as [-> | ?]; [done | apply Hall; lia].
      * right. split; [lia |]. split; [done |]. intros j Hj.
        destruct (decide (j = i)) as [-> | ?]; [done | apply Hall; lia].
Qed.

Lemma next_bit_spec bit bm max_n curr r :
  Bitmap.next_bit bit bm max_n curr = Some r ->
  (r = max_n /\ forall j, curr < j < max_n -> Bitmap.is_set bm j = Some (negb bit))
  \/ (curr < r < max_n /\ Bitmap.is_set bm r = Some bit
      /\ forall j, curr < j < r -> Bitmap.is_set bm j = Some (negb bit)).
Proof.
  unfold Bitmap.next_bit. intros H. apply scan_spec in H.
  destruct H as [[-> Hall] | (Hr & Hset & Hall)].
  - left. split; [done |]. intros j Hj. apply Hall. lia.
  - right. split; [lia |]. split; [done |]. intros j Hj. apply Hall. lia.
Qed.

(** [scan] is defined as soon as the positions it reads are in the bitmap. *)
Lemma scan_defined bit bm max_n k i :
  0 <= i -> i + Z.of_nat k <= Z.of_nat (length bm) ->
  is_Some (Bitmap.scan bit bm max_n k i).
Proof.
  revert i. induction k as [|k IH]; intros i Hi Hk; cbn; [eauto |].
  destruct (Bitmap.is_set bm i) as [b|] eqn:Hb.
  - case_bool_decide; [eauto |]. apply IH; lia.
  - exfalso. unfold Bitmap.is_set in Hb. destruct (i <? 0) eqn:E; [lia |].
    apply lookup_ge_None in Hb. lia.
Qed.

Lemma next_bit_defined bit bm max_n curr :
  -1 <= curr -> max_n <= Z.of_nat (length bm) ->
  is_Some (Bitmap.next_bit bit bm max_n curr).
Proof.
  intros Hc Hn. unfold Bitmap.next_bit.
  destruct (Z.to_nat (max_n - (curr + 1))) as [|k] eqn:E; [cbn; eauto |].
  rewrite <- E. apply scan_defined; lia.
Qed.

Lemma mem_write_Some off n src mem mem' :
  mem_write off n src mem = Some mem' <->
  (0 <= off /\ 0 <= n /\ off + n <= Z.of_nat (length mem) /\ n <= Z.of_nat (length src))
  /\ mem' = take (Z.to_nat off) mem ++ take (Z.to_nat n) src ++ drop (Z.to_nat (off + n)) mem.
Proof.
  unfold mem_write.
  destruct (off <? 0) eqn:E1, (n <? 0) eqn:E2, (Z.of_nat (length mem) <? off + n) eqn:E3,
    (Z.of_nat (length src) <? n) eqn:E4; cbn;
    (split; [try discriminate | try (intros [? ?]; lia)]).
  - intros [= <-]. split; [lia | done].
  - intros [_ ->]. done.
Qed.

Lemma mem_read_Some off n mem v :
  mem_read off n mem = Some v <->
  (0 <= off /\ 0 <= n /\ off + n <= Z.of_nat (length mem))
  /\ v = take (Z.to_nat n) (drop (Z.to_nat off) mem).
Proof.
  unfold mem_read.
  destruct (off <? 0) eqn:E1, (n <? 0) eqn:E2, (Z.of_nat (length mem) <? off + n) eqn:E3; cbn;
    (split; [try discriminate | try (intros [? ?]; lia)]).
  - intros [= <-]. split; [lia | done].
  - intros [_ ->]. done.
Qed.

Lemma mem_write_length off n src mem mem' :
  mem_write off n src mem = Some mem' -> length mem' = length mem.
Proof.
  intros [(H1 & H2 & H3 & H4) ->]%mem_write_Some.
  rewrite !length_app, !length_take, length_drop. lia.
Qed.

Lemma mem_read_length off n mem v :
  mem_read off n mem = Some v -> Z.of_nat (length v) = n.
Proof.
  intros [(H1 & H2 & H3) ->]%mem_read_Some. rewrite length_take, length_drop. lia.
Qed.

Lemma mem_read_write_eq off n src mem mem' :
  mem_write off n src mem = Some mem' ->
  mem_read off n mem' = Some (take (Z.to_nat n) src).
Proof.
  intros H. pose proof (mem_write_length _ _ _ _ _ H) as Hlen.
  apply mem_write_Some in H as [(H1 & H2 & H3 & H4) ->].
  apply mem_read_Some. split; [lia |].
  rewrite drop_app_length'; [| rewrite length_take; lia].
  rewrite take_app_length'; [done | rewrite length_take; lia].
Qed.

Lemma mem_write_lookup off n src (mem mem' : list byte) (i : nat) :
  mem_write off n src mem = Some mem' ->
  (Z.of_nat i < off \/ off + n <= Z.of_nat i) -> mem' !! i = mem !! i.
Proof.
  intros [(H1 & H2 & H3 & H4) ->]%mem_write_Some Hi.
  destruct Hi as [Hi | Hi].
  - rewrite lookup_app_l by (rewrite length_take; lia). apply lookup_take_lt. lia.
  - rewrite lookup_app_r by (rewrite length_take; lia).
    rewrite lookup_app_r by (rewrite !length_take; lia).
    rewrite lookup_drop, !length_take. f_equal. lia.
Qed.

Lemma mem_read_write_disjoint off n off' n' src mem mem' :
  mem_write off' n' src mem = Some mem' ->
  off + n <= off' \/ off' + n' <= off ->
  mem_read off n mem' = mem_read off n mem.
Proof.
  intros H Hd. pose proof (mem_write_length _ _ _ _ _ H) as Hlen.
  unfold mem_read. rewrite Hlen.
  destruct ((off <? 0) || (n <? 0) || (Z.of_nat (length mem) <? off + n)) eqn:E; [done |].
  f_equal. apply list_eq. intros i.
  destruct (decide (i < Z.to_nat n)%nat) as [Hi | Hi].
  - rewrite !lookup_take_lt, !lookup_drop by done.
    eapply mem_write_lookup; [done |]. lia.
  - rewrite !lookup_take_ge by lia. done.
Qed.

Lemma mem_write_idem off n src mem mem' :
  mem_write off n src mem = Some mem' -> mem_write off n src mem' = Some mem'.
Proof.
  intros H. pose proof (mem_write_length _ _ _ _ _ H) as Hlen.
  pose proof H as [(H1 & H2 & H3 & H4) Heq]%mem_write_Some.
  apply mem_write_Some. split; [lia |].
  apply list_eq. intros i.
  destruct (decide (i < Z.to_nat off)%nat) as [Hi | Hi].
  - rewrite lookup_app_l by (rewrite length_take; lia).
    rewrite lookup_take_lt by done. done.
  - destruct (decide (i < Z.to_nat (off + n))%nat) as [Hj | Hj].
    + rewrite lookup_app_r by (rewrite length_take; lia).
      rewrite lookup_app_l by (rewrite !length_take; lia).
      rewrite Heq at 1.
      rewrite lookup_app_r by (rewrite length_take; lia).
      rewrite lookup_app_l by (rewrite !length_take; lia).
      rewrite !length_take. f_equal. lia.
    + rewrite lookup_app_r by (rewrite length_take; lia).
      rewrite lookup_app_r by (rewrite !length_take; lia).
      rewrite lookup_drop, !length_take.
      replace (Z.to_nat (off + n) + (i - Z.to_nat off `min` length mem'
                                       - Z.to_nat n `min` length src))%nat with i by lia.
      done.
Qed.

Lemma assign_assign b b0 bm pos bm' :
  Bitmap.is_set bm pos = Some b0 -> Bitmap.assign b bm pos = Some bm' ->
  Bitmap.assign b0 bm' pos = Some bm.
Proof.
  intros [H0 Hb]%is_set_Some [Hr ->]%assign_Some.
  apply assign_Some. rewrite length_insert. split; [done |].
  rewrite list_insert_insert_eq. symmetry. by apply list_insert_id.
Qed.

Lemma first_bit_found bit bm max_n slot :
  Bitmap.first_bit bit bm max_n = Some slot -> slot < max_n ->
  0 <= slot /\ Bitmap.is_set bm slot = Some bit.
Proof.
  intros H Hlt. apply next_bit_spec in H as [[-> _] | (Hr & Hset & _)]; [lia |].
  split; [lia | done].
Qed.

Lemma set_first_free_page_no_id h : set_first_free_page_no (first_free_page_no h) h = h.
Proof. by destruct h. Qed.

Lemma insert_into_round_trip fh p buf rid fh1 :
  fh_typed fh ->
  first_free_page_no (file_hdr_ fh) = p ->
  RM_FIRST_RECORD_PAGE <= p < num_pages (file_hdr_ fh) ->
  insert_into p buf fh = Ok rid fh1 ->
  exists fh2,
    delete_record rid fh1 = Ok tt fh2
    /\ file_hdr_ fh2 = file_hdr_ fh
    /\ is_Some (pages_ fh2 !! p)
    /\ insert_into p buf fh2 = Ok rid fh1.
Proof.
  intros Hty Hff Hp H. destruct fh as [hdr pgs ff]. unfold insert_into in H. cbn in H, Hff, Hp.
  destruct (pgs !! p) as [pg|] eqn:Hpg; [| discriminate].
  destruct (Bitmap.first_bit false (bitmap pg) (num_records_per_page hdr)) as [slot|] eqn:Hfb;
    [| discriminate].
  destruct (num_records_per_page hdr <=? slot) eqn:Hslot; [discriminate |].
  destruct (mem_write _ _ _ _) as [sl|] eqn:Hw; [| discriminate].
  destruct (Bitmap.set (bitmap pg) slot) as [bm|] eqn:Hset; [| discriminate].
  destruct (num_records (page_hdr pg) <? INT_MAX) eqn:Hmax; [| discriminate].
  pose proof (first_bit_found _ _ _ _ Hfb ltac:(lia)) as [Hs0 Hclear].
  pose proof (is_set_assign_eq _ _ _ _ Hset) as Hnow.
  pose proof (assign_assign _ _ _ _ _ Hclear Hset) as Hreset.
  pose proof (mem_write_idem _ _ _ _ _ Hw) as Hw'.
  assert (INT_MIN <= num_records (page_hdr pg)) as Hmin
    by (destruct Hty as [_ Hpt]; destruct (Hpt p pg Hpg) as [[? ?] _]; done).
  unfold RM_FIRST_RECORD_PAGE in Hp.
  rewrite delete_record_flat. unfold delete_flat, insert_into.
  destruct (num_records (page_hdr pg) + 1 =? num_records_per_page hdr) eqn:Hfull;
    injection H as <- <-; cbn [page_no slot_no file_hdr_ pages_ num_pages set_first_free_page_no
      record_size num_records_per_page first_free_page_no bitmap_size];
    unfold RM_FIRST_RECORD_PAGE;
    replace (p <? 1) with false by lia;
    replace (num_pages hdr <=? p) with false by lia;
    cbn [orb]; rewrite lookup_insert_eq;
    cbn [bitmap slots page_hdr num_records next_free_page_no];
    rewrite Hnow; unfold Bitmap.reset; rewrite Hreset;
    replace (INT_MIN <? num_records (page_hdr pg) + 1) with true by lia;
    rewrite Hfull; eexists; (split; [reflexivity |]);
    cbn [file_hdr_ pages_ set_first_free_page_no record_size num_pages num_records_per_page
         first_free_page_no bitmap_size];
    rewrite lookup_insert_eq; cbn [bitmap slots page_hdr num_records next_free_page_no];
    rewrite Hfb, Hslot, Hw', Hset, insert_insert_eq;
    replace (num_records (page_hdr pg) + 1 - 1) with (num_records (page_hdr pg)) by lia;
    rewrite Hmax, Hfull.
  - subst p. destruct hdr. cbn. rewrite ?insert_insert_eq. eauto.
  - rewrite ?insert_insert_eq. eauto.
Qed.

(** C9: when [insert_record buf] returns [rid], the following
    [delete_record rid] returns, the second [insert_record buf] returns some
    [rid'], and the file after it (header with the free-list head, every
    page with its header, record count, bitmap and slots) is the file after
    the first insert. *)
Theorem insert_delete_insert_round_trip fh buf rid fh1 :
  fh_typed fh ->
  insert_record buf fh = Ok rid fh1 ->
  exists fh2 rid',
    delete_record rid fh1 = Ok tt fh2 /\ insert_record buf fh2 = Ok rid' fh1.
Proof.
  intros Hty H. rewrite insert_record_flat in H. unfold insert_flat in H.
  destruct (first_free_page_no (file_hdr_ fh) =? RM_NO_PAGE) eqn:Hff.
  - destruct (has_free_frame_ fh) eqn:Hframe; [| discriminate].
    destruct (num_pages (file_hdr_ fh) <? INT_MAX) eqn:Hmax; [| discriminate].
    destruct ((num_pages (file_hdr_ fh) <? RM_FIRST_RECORD_PAGE)
              || (num_pages (file_hdr_ fh) + 1 <=? num_pages (file_hdr_ fh))) eqn:Hv;
      [discriminate |].
    apply orb_false_iff in Hv as [Hv1 Hv2].
    apply insert_into_round_trip in H as (fh2 & Hdel & Hhdr & Hsome & Hins).
    + exists fh2, rid. split; [done |].
      rewrite insert_record_flat. unfold insert_flat. rewrite Hhdr.
      cbn [with_new_page file_hdr_ first_free_page_no num_pages].
      unfold RM_NO_PAGE, RM_FIRST_RECORD_PAGE in *.
      replace (num_pages (file_hdr_ fh) =? -1) with false by lia.
      replace (num_pages (file_hdr_ fh) <? 1) with false by lia.
      replace (num_pages (file_hdr_ fh) + 1 <=? num_pages (file_hdr_ fh)) with false by lia.
      cbn [orb]. destruct Hsome as [pg' ->]. done.
    + destruct Hty as [(? & ? & ? & ? & ?) Hpt]. split.
      * unfold hdr_typed, with_new_page, int_range, INT_MAX, INT_MIN in *; cbn. lia.
      * intros p pg. unfold with_new_page; cbn. intros Hl.
        apply lookup_insert_Some in Hl as [[<- <-] | [_ Hl]]; [| by eapply Hpt].
        unfold page_typed, int_range, INT_MAX, INT_MIN in *; cbn. lia.
    + done.
    + cbn [with_new_page file_hdr_ num_pages]. lia.
  - destruct ((first_free_page_no (file_hdr_ fh) <? RM_FIRST_RECORD_PAGE)
              || (num_pages (file_hdr_ fh) <=? first_free_page_no (file_hdr_ fh))) eqn:Hv;
      [discriminate |].
    apply orb_false_iff in Hv as [Hv1 Hv2].
    destruct (pages_ fh !! first_free_page_no (file_hdr_ fh)) as [pg|] eqn:Hpg;
      [| discriminate].
    apply insert_into_round_trip in H as (fh2 & Hdel & Hhdr & Hsome & Hins);
      [| done | done | lia].
    exists fh2, rid. split; [done |].
    rewrite insert_record_flat. unfold insert_flat. rewrite Hhdr, Hff, Hv1, Hv2.
    cbn [orb]. destruct Hsome as [pg' ->]. done.
Qed.

Lemma example_file_typed : fh_typed example_file.
Proof.
  split; [unfold hdr_typed, int_range, INT_MIN, INT_MAX; cbn; lia |].
  intros p pg Hpg. unfold example_file in Hpg. cbn [pages_] in Hpg.
  apply lookup_insert_Some in Hpg as [[_ <-] | [_ Hpg]];
    [unfold page_typed, int_range, INT_MIN, INT_MAX; cbn; lia |].
  apply lookup_insert_Some in Hpg as [[_ <-] | [_ Hpg]];
    [unfold page_typed, int_range, INT_MIN, INT_MAX; cbn; lia |].
  by rewrite lookup_empty in Hpg.
Qed.

Lemma insert_delete_insert_round_trip_witness :
  let fh1 :=
    mkRmFileHandle
      (mkRmFileHdr 2 3 3 2 1)
      (<[1 := mkPage (mkRmPageHdr (-1) 3) (example_bits true true true)
                     (example_B ++ example_A ++ example_A)]> (pages_ example_file)) true in
  fh_typed example_file
  /\ insert_record example_A example_file = Ok (mkRid 1 1) fh1
  /\ exists fh2 rid',
       delete_record (mkRid 1 1) fh1 = Ok tt fh2
       /\ insert_record example_A fh2 = Ok rid' fh1.
Proof.
  intros fh1.
  assert (insert_record example_A example_file = Ok (mkRid 1 1) fh1) as Hins
    by (vm_compute; reflexivity).
  split; [exact example_file_typed |]. split; [exact Hins |].
  exact (insert_delete_insert_round_trip example_file example_A (mkRid 1 1) fh1
           example_file_typed Hins).
Defined.


(** ** The free list *)

Lemma free_chain_head pgs h p l : free_chain pgs h (p :: l) -> h = p.
Proof. by inversion 1. Qed.

Lemma free_chain_nil_inv pgs h : free_chain pgs h [] -> h = RM_NO_PAGE.
Proof. by inversion 1. Qed.

Lemma free_chain_cons_inv pgs h p l :
  free_chain pgs h (p :: l) ->
  h = p /\ p <> RM_NO_PAGE
  /\ exists pg, pgs !! p = Some pg /\ free_chain pgs (next_free_page_no (page_hdr pg)) l.
Proof. inversion 1; subst. eauto. Qed.

Lemma free_chain_functional pgs h l l' :
  free_chain pgs h l -> free_chain pgs h l' -> l = l'.
Proof.
  intros H. revert l'. induction H as [| p pg l Hne Hpg _ IH]; intros l' H'.
  - inversion H'; [done | congruence].
  - inversion H' as [| p' pg' l'' Hne' Hpg' Hch']; subst; [congruence |].
    rewrite Hpg in Hpg'. injection Hpg' as <-. f_equal. by apply IH.
Qed.

Lemma free_chain_present pgs h l p :
  free_chain pgs h l -> p ∈ l -> p <> RM_NO_PAGE /\ is_Some (pgs !! p).
Proof.
  induction 1 as [| q pg l Hne Hpg _ IH]; intros Hin.
  - by apply elem_of_nil in Hin.
  - apply elem_of_cons in Hin as [-> | Hin]; [eauto | by apply IH].
Qed.

(** Writing a page that is not on the list leaves the list alone. *)
Lemma free_chain_insert_notin pgs h l p pg' :
  free_chain pgs h l -> p ∉ l -> free_chain (<[p := pg']> pgs) h l.
Proof.
  induction 1 as [| q pg l Hne Hpg _ IH]; intros Hnotin; [constructor |].
  apply not_elem_of_cons in Hnotin as [Hpq Hnotin].
  econstructor; [done | by rewrite lookup_insert_ne | by apply IH].
Qed.

(** So does a write that keeps the link of the page. *)
Lemma free_chain_insert_same_next pgs h l p pg pg' :
  free_chain pgs h l -> pgs !! p = Some pg ->
  next_free_page_no (page_hdr pg') = next_free_page_no (page_hdr pg) ->
  free_chain (<[p := pg']> pgs) h l.
Proof.
  intros H Hp Hnext. induction H as [| q qg l Hne Hq _ IH]; [constructor |].
  destruct (decide (q = p)) as [-> | Hqp].
  - econstructor; [done | by rewrite lookup_insert_eq |].
    rewrite Hnext. rewrite Hp in Hq. by injection Hq as <-.
  - econstructor; [done | by rewrite lookup_insert_ne | done].
Qed.

(** Unlinking [p], whose predecessor on the list is [q]. *)
Lemma free_chain_unlink pgs h l1 q p l2 qg pg pg' :
  free_chain pgs h (l1 ++ q :: p :: l2) -> NoDup (l1 ++ q :: p :: l2) ->
  pgs !! q = Some qg -> pgs !! p = Some pg ->
  free_chain
    (<[p := pg']> (<[q := set_next_free_page_no (next_free_page_no (page_hdr pg)) qg]> pgs))
    h (l1 ++ q :: l2).
Proof.
  revert h. induction l1 as [| x l1 IH]; intros h Hch Hnd Hq Hp; cbn in *.
  - apply free_chain_cons_inv in Hch as (-> & Hne & qg' & Hq' & Hch).
    rewrite Hq in Hq'. injection Hq' as <-.
    apply free_chain_cons_inv in Hch as (Hqp & Hnep & pg0 & Hp' & Hch).
    rewrite Hp in Hp'. injection Hp' as <-.
    apply NoDup_cons in Hnd as [Hq1 Hnd]. apply NoDup_cons in Hnd as [Hp1 Hnd].
    apply not_elem_of_cons in Hq1 as [Hqp' Hq1].
    econstructor; [done | |].
    + rewrite lookup_insert_ne by done. by rewrite lookup_insert_eq.
    + cbn. apply free_chain_insert_notin; [| done]. by apply free_chain_insert_notin.
  - apply free_chain_cons_inv in Hch as (-> & Hne & xg & Hx & Hch).
    apply NoDup_cons in Hnd as [Hx1 Hnd].
    assert (x <> q /\ x <> p) as [Hxq Hxp].
    { split; intros ->; apply Hx1; set_solver. }
    econstructor; [done | by rewrite !lookup_insert_ne |].
    by apply IH.
Qed.

(** The walk as a function agrees with the relation. *)
Lemma free_list_from_chain fuel pgs h l :
  free_list_from fuel pgs h = Some l -> free_chain pgs h l.
Proof.
  revert h l. induction fuel as [| fuel IH]; intros h l; cbn.
  - destruct (h =? RM_NO_PAGE) eqn:E; [| discriminate].
    intros [= <-]. apply Z.eqb_eq in E as ->. constructor.
  - destruct (h =? RM_NO_PAGE) eqn:E.
    + intros [= <-]. apply Z.eqb_eq in E as ->. constructor.
    + destruct (pgs !! h) as [pg|] eqn:Hpg; [| discriminate].
      destruct (free_list_from fuel pgs _) as [l'|] eqn:Hl; [| discriminate].
      intros [= <-]. econstructor; [lia | done | by apply IH].
Qed.

Lemma free_chain_list_from fuel pgs h l :
  free_chain pgs h l -> (length l <= fuel)%nat -> free_list_from fuel pgs h = Some l.
Proof.
  intros H. revert fuel. induction H as [| p pg l Hne Hpg _ IH]; intros fuel Hlen.
  - by destruct fuel.
  - destruct fuel as [| fuel]; [cbn in Hlen; lia |]. cbn.
    replace (p =? RM_NO_PAGE) with false by lia.
    rewrite Hpg, IH; [done | cbn in Hlen; lia].
Qed.
Lemma NoDup_range_length (l : list Z) (lo hi : Z) :
  NoDup l -> (forall x, x ∈ l -> lo <= x < hi) -> Z.of_nat (length l) <= Z.max 0 (hi - lo).
Proof.
  intros Hnd Hr.
  assert (l ⊆+ seqZ lo (hi - lo)) as Hsub.
  { apply NoDup_submseteq; [done |]. intros x Hx. apply elem_of_seqZ. specialize (Hr x Hx). lia. }
  apply submseteq_length in Hsub. rewrite length_seqZ in Hsub. lia.
Qed.

Lemma popcount_all_clear (bm : list bool) :
  (forall i, bm !! i <> Some true) -> Bitmap.popcount bm = 0.
Proof.
  induction bm as [| b bm IH]; intros H; [done |].
  rewrite popcount_cons. destruct b; [by specialize (H O) |].
  rewrite IH; [done |]. intros i. apply (H (S i)).
Qed.

(** A bitmap whose bits from [n] on are clear has at most [n] set bits. *)
Lemma popcount_le (bm : list bool) (n : nat) :
  (forall i, (n <= i)%nat -> bm !! i <> Some true) -> Bitmap.popcount bm <= Z.of_nat n.
Proof.
  revert bm. induction n as [| n IH]; intros bm H.
  - rewrite popcount_all_clear; [done |]. intros i. apply H. lia.
  - destruct bm as [| b bm]; [rewrite popcount_nil; lia |].
    rewrite popcount_cons.
    assert (Bitmap.popcount bm <= Z.of_nat n).
    { apply IH. intros i Hi. apply (H (S i)). lia. }
    destruct b; lia.
Qed.

Lemma page_ok_count_le h pg :
  0 <= num_records_per_page h -> page_ok h pg ->
  0 <= num_records (page_hdr pg) <= num_records_per_page h.
Proof.
  intros Hn (_ & _ & Hclear & <-). split; [apply popcount_nonneg |].
  rewrite <- (Z2Nat.id (num_records_per_page h)) by done.
  apply popcount_le. intros i Hi Hset.
  apply (Hclear (Z.of_nat i)); [lia |].
  apply is_set_Some. split; [lia |]. by rewrite Nat2Z.id.
Qed.

(** A page with a clear bit among its slots is not full. *)
Lemma page_ok_clear_not_full h pg slot :
  page_ok h pg -> 0 <= slot < num_records_per_page h ->
  Bitmap.is_set (bitmap pg) slot = Some false ->
  num_records (page_hdr pg) < num_records_per_page h.
Proof.
  intros (_ & _ & Hclear & <-) Hslot Hbit.
  pose proof Hbit as [_ Hl]%is_set_Some.
  pose proof (popcount_insert _ _ true _ Hl) as Hpc. cbv beta iota in Hpc.
  assert (Bitmap.popcount (<[Z.to_nat slot := true]> (bitmap pg))
          <= Z.of_nat (Z.to_nat (num_records_per_page h))); [| lia].
  apply popcount_le. intros i Hi Hset.
  rewrite list_lookup_insert_ne in Hset by lia.
  apply (Hclear (Z.of_nat i)); [lia |].
  apply is_set_Some. split; [lia |]. by rewrite Nat2Z.id.
Qed.

(** A page that is not full has a clear bit among its slots, and
    [first_bit] finds the first one. *)
Lemma page_ok_first_bit h pg :
  0 <= num_records_per_page h <= 8 * bitmap_size h ->
  page_ok h pg -> num_records (page_hdr pg) < num_records_per_page h ->
  exists slot,
    Bitmap.first_bit false (bitmap pg) (num_records_per_page h) = Some slot
    /\ 0 <= slot < num_records_per_page h
    /\ Bitmap.is_set (bitmap pg) slot = Some false.
Proof.
  intros Hn (Hlen & _ & Hclear & Hpc) Hfree.
  destruct (next_bit_defined false (bitmap pg) (num_records_per_page h) (-1))
    as [slot Hslot]; [lia | lia |].
  exists slot. split; [done |].
  apply next_bit_spec in Hslot as [[-> Hall] | (Hr & Hset & _)].
  - exfalso.
    assert (Z.of_nat (Z.to_nat (num_records_per_page h)) <= Bitmap.popcount (bitmap pg)); [| lia].
    apply popcount_all_set. intros i Hi.
    specialize (Hall (Z.of_nat i) ltac:(lia)). apply is_set_Some in Hall as [_ Hall].
    by rewrite Nat2Z.id in Hall.
  - split; [lia | done].
Qed.

(** ** The loop that looks for the predecessor on the free list *)

Lemma unlink_loop_found fuel fh h l1 q p l2 qg pg :
  free_chain (pages_ fh) h (l1 ++ q :: p :: l2) -> NoDup (l1 ++ q :: p :: l2) ->
  (forall x, x ∈ l1 ++ q :: p :: l2 ->
             RM_FIRST_RECORD_PAGE <= x < num_pages (file_hdr_ fh)) ->
  pages_ fh !! q = Some qg -> pages_ fh !! p = Some pg ->
  (length l1 < fuel)%nat ->
  unlink_loop fuel p h fh
  = Ok tt (mkRmFileHandle (file_hdr_ fh)
             (<[q := set_next_free_page_no (next_free_page_no (page_hdr pg)) qg]> (pages_ fh))
             (has_free_frame_ fh)).
Proof.
  revert fuel h. induction l1 as [| x l1 IH]; intros fuel h Hch Hnd Hval Hq Hp Hfuel.
  - cbn in Hch. apply free_chain_cons_inv in Hch as (-> & Hne & qg' & Hq' & Hch).
    rewrite Hq in Hq'. injection Hq' as <-.
    apply free_chain_head in Hch.
    destruct fuel as [| fuel]; [cbn in Hfuel; lia |]. cbn [unlink_loop].
    replace (q =? RM_NO_PAGE) with false by lia.
    assert (RM_FIRST_RECORD_PAGE <= q < num_pages (file_hdr_ fh)) as Hqv
      by (apply Hval; cbn; apply elem_of_cons; by left).
    destruct fh as [hdr pgs ff]. cbn [file_hdr_ pages_] in *.
    assert ((q <? RM_FIRST_RECORD_PAGE) = false) by lia.
    assert ((num_pages hdr <=? q) = false) by lia.
    assert ((next_free_page_no (page_hdr qg) =? p) = true) by lia.
    munfold. mnorm. done.
  - cbn in Hch. apply free_chain_cons_inv in Hch as (-> & Hne & xg & Hx & Hch).
    cbn in Hnd. apply NoDup_cons in Hnd as [Hx1 Hnd].
    destruct fuel as [| fuel]; [cbn in Hfuel; lia |]. cbn [unlink_loop].
    replace (x =? RM_NO_PAGE) with false by lia.
    assert (RM_FIRST_RECORD_PAGE <= x < num_pages (file_hdr_ fh)) as Hxv
      by (apply Hval; cbn; apply elem_of_cons; by left).
    assert (next_free_page_no (page_hdr xg) <> p) as Hnp.
    { intros Heq. destruct l1 as [| y l1]; cbn in Hch; apply free_chain_head in Hch.
      - rewrite Heq in Hch. subst q. apply NoDup_cons in Hnd as [Hq1 _].
        apply Hq1. apply elem_of_cons. by left.
      - rewrite Heq in Hch. subst y. cbn in Hnd. apply NoDup_cons in Hnd as [Hy1 _].
        apply Hy1. apply elem_of_app. right. apply elem_of_cons. right.
        apply elem_of_cons. by left. }
    rewrite <- (IH fuel (next_free_page_no (page_hdr xg))); try done.
    + destruct fh as [hdr pgs ff]. cbn [file_hdr_ pages_] in *.
      assert ((x <? RM_FIRST_RECORD_PAGE) = false) by lia.
      assert ((num_pages hdr <=? x) = false) by lia.
      assert ((next_free_page_no (page_hdr xg) =? p) = false) by lia.
      munfold. mnorm. done.
    + intros y Hy. apply Hval. apply elem_of_cons. by right.
    + cbn in Hfuel. lia.
Qed.
(** ** The invariant is kept *)

Lemma page_ok_layout h h' pg : same_layout h h' -> page_ok h pg -> page_ok h' pg.
Proof. intros (E1 & E2 & E3 & E4). unfold page_ok. by rewrite E1, E3, E4. Qed.

Lemma hdr_ok_layout h h' : same_layout h h' -> hdr_ok h -> hdr_ok h'.
Proof. intros (E1 & E2 & E3 & E4). unfold hdr_ok. by rewrite E1, E2, E3, E4. Qed.

Lemma same_layout_set_first_free v h : same_layout h (set_first_free_page_no v h).
Proof. by destruct h. Qed.

Lemma same_layout_refl h : same_layout h h.
Proof. done. Qed.

Lemma data_pages_ok_update fh p pg pg' hdr' :
  data_pages_ok fh -> pages_ fh !! p = Some pg ->
  same_layout (file_hdr_ fh) hdr' -> page_ok hdr' pg' ->
  data_pages_ok (mkRmFileHandle hdr' (<[p := pg']> (pages_ fh)) (has_free_frame_ fh)).
Proof.
  intros [Hdom Hpages] Hp Hlay Hok. split; cbn [file_hdr_ pages_].
  - intros q. destruct Hlay as (_ & <- & _). rewrite <- Hdom.
    destruct (decide (q = p)) as [-> | Hne].
    + rewrite lookup_insert_eq, Hp. split; eauto.
    + by rewrite lookup_insert_ne.
  - intros q qg Hq. apply lookup_insert_Some in Hq as [[<- <-] | [_ Hq]]; [done |].
    eapply page_ok_layout; [done |]. by eapply Hpages.
Qed.

Lemma page_ok_set_slots h pg sl :
  page_ok h pg -> length sl = length (slots pg) -> page_ok h (set_slots sl pg).
Proof. intros (H1 & H2 & H3 & H4) Hlen. unfold page_ok. cbn. by rewrite Hlen. Qed.

(** Setting or clearing the bit of a slot, with the counter following. *)
Lemma page_ok_assign h pg slot (b b0 : bool) bm nxt sl :
  page_ok h pg -> slot < num_records_per_page h ->
  Bitmap.is_set (bitmap pg) slot = Some b0 ->
  Bitmap.assign b (bitmap pg) slot = Some bm ->
  length sl = length (slots pg) ->
  page_ok h (mkPage (mkRmPageHdr nxt
              (num_records (page_hdr pg) - (if b0 then 1 else 0) + (if b then 1 else 0))) bm sl).
Proof.
  intros (H1 & H2 & H3 & H4) Hslot Hb0 Hbm Hlen. unfold page_ok. cbn.
  rewrite (assign_length _ _ _ _ Hbm), Hlen. repeat split; [done | done | |].
  - intros i Hi. rewrite (is_set_assign_ne _ _ _ _ i Hbm) by lia. by apply H3.
  - rewrite (popcount_assign _ _ _ _ _ Hb0 Hbm). lia.
Qed.

Lemma page_ok_reset h pg slot bm nxt sl :
  page_ok h pg -> slot < num_records_per_page h ->
  Bitmap.is_set (bitmap pg) slot = Some true ->
  Bitmap.reset (bitmap pg) slot = Some bm ->
  length sl = length (slots pg) ->
  page_ok h (mkPage (mkRmPageHdr nxt (num_records (page_hdr pg) - 1)) bm sl).
Proof.
  intros Hok Hslot Hb Hbm Hlen.
  pose proof (page_ok_assign h pg slot false true bm nxt sl Hok Hslot Hb Hbm Hlen) as H.
  cbv beta iota in H. by rewrite Z.add_0_r in H.
Qed.

Lemma page_ok_set h pg slot bm nxt sl :
  page_ok h pg -> slot < num_records_per_page h ->
  Bitmap.is_set (bitmap pg) slot = Some false ->
  Bitmap.set (bitmap pg) slot = Some bm ->
  length sl = length (slots pg) ->
  page_ok h (mkPage (mkRmPageHdr nxt (num_records (page_hdr pg) + 1)) bm sl).
Proof.
  intros Hok Hslot Hb Hbm Hlen.
  pose proof (page_ok_assign h pg slot true false bm nxt sl Hok Hslot Hb Hbm Hlen) as H.
  cbv beta iota in H. by rewrite Z.sub_0_r in H.
Qed.

Lemma free_list_ok_valid fh l x :
  data_pages_ok fh -> free_list_ok fh l -> x ∈ l ->
  RM_FIRST_RECORD_PAGE <= x < num_pages (file_hdr_ fh).
Proof.
  intros [Hdom _] (Hch & _) Hx. apply Hdom. by eapply free_chain_present.
Qed.

Lemma delete_record_inv fh l rid fh' :
  rm_inv_with fh l -> delete_record rid fh = Ok tt fh' ->
  exists pg bm,
    pages_ fh !! page_no rid = Some pg
    /\ 0 <= slot_no rid < num_records_per_page (file_hdr_ fh)
    /\ Bitmap.is_set (bitmap pg) (slot_no rid) = Some true
    /\ Bitmap.reset (bitmap pg) (slot_no rid) = Some bm
    /\ let full := num_records (page_hdr pg) =? num_records_per_page (file_hdr_ fh) in
       fh' = mkRmFileHandle
               (if full then set_first_free_page_no (page_no rid) (file_hdr_ fh)
                else file_hdr_ fh)
               (<[page_no rid :=
                    mkPage (mkRmPageHdr (if full then first_free_page_no (file_hdr_ fh)
                                         else next_free_page_no (page_hdr pg))
                                        (num_records (page_hdr pg) - 1))
                           bm (slots pg)]> (pages_ fh)) (has_free_frame_ fh)
       /\ rm_inv_with fh' (if full then page_no rid :: l else l).
Proof.
  intros (Hhdr & Hdp & Hfl) H. rewrite delete_record_flat in H. unfold delete_flat in H.
  destruct ((page_no rid <? RM_FIRST_RECORD_PAGE)
            || (num_pages (file_hdr_ fh) <=? page_no rid)) eqn:Hv; [discriminate |].
  apply orb_false_iff in Hv as [Hv1 Hv2].
  destruct (pages_ fh !! page_no rid) as [pg|] eqn:Hpg; [| discriminate].
  destruct (Bitmap.is_set (bitmap pg) (slot_no rid)) as [[|]|] eqn:Hbit; try discriminate.
  destruct (Bitmap.reset (bitmap pg) (slot_no rid)) as [bm|] eqn:Hbm; [| discriminate].
  destruct (INT_MIN <? num_records (page_hdr pg)) eqn:Hmin; [| discriminate].
  pose proof Hdp as [Hdom Hpages]. pose proof (Hpages _ _ Hpg) as Hok.
  pose proof Hhdr as (Hrs & Hn & Hbs & Hbsm & Hnp).
  assert (0 <= slot_no rid < num_records_per_page (file_hdr_ fh)) as Hslot.
  { split; [pose proof (is_set_lt _ _ _ Hbit); lia |].
    destruct (decide (slot_no rid < num_records_per_page (file_hdr_ fh))); [done |].
    destruct Hok as (_ & _ & Hclear & _). exfalso. apply (Hclear (slot_no rid)); [lia | done]. }
  assert (0 <= num_records (page_hdr pg) <= num_records_per_page (file_hdr_ fh)) as Hcnt
    by (apply page_ok_count_le; [lia | done]).
  pose proof Hfl as (Hch & Hnd & Hmem).
  exists pg, bm. do 4 (split; [done |]). cbv zeta.
  destruct (num_records (page_hdr pg) =? num_records_per_page (file_hdr_ fh)) eqn:Hfull;
    injection H as <-; cbv beta iota; (split; [done |]).
  - (* the page was full: it goes to the head of the list *)
    destruct (Hmem _ _ Hpg) as [_ Hfullp]. destruct (Hfullp ltac:(lia)) as [Hnotin Hnext].
    split; [eapply hdr_ok_layout; [apply same_layout_set_first_free | done] |].
    split.
    + eapply data_pages_ok_update; [done | done | apply same_layout_set_first_free |].
      eapply page_ok_layout; [apply same_layout_set_first_free |].
      eapply page_ok_reset; try done. lia.
    + split; [| split]; cbn [file_hdr_ pages_ set_first_free_page_no first_free_page_no
                               num_records_per_page].
      * econstructor; [unfold RM_NO_PAGE, RM_FIRST_RECORD_PAGE in *; lia
                      | by rewrite lookup_insert_eq |].
        cbn. by apply free_chain_insert_notin.
      * by apply NoDup_cons.
      * intros q qg Hq. apply lookup_insert_Some in Hq as [[<- <-] | [Hne Hq]]; cbn.
        -- split; [intros _; apply elem_of_cons; by left | lia].
        -- destruct (Hmem _ _ Hq) as [Hm1 Hm2]. split.
           ++ intros Hlt. apply elem_of_cons. right. by apply Hm1.
           ++ intros Hge. destruct (Hm2 Hge) as [Hm3 Hm4]. split; [| done].
              apply not_elem_of_cons. done.
  - (* the page had a free slot already *)
    destruct (Hmem _ _ Hpg) as [Hfree _].
    split; [done |]. split.
    + eapply data_pages_ok_update; [done | done | apply same_layout_refl |].
      eapply page_ok_reset; try done. lia.
    + split; [| split]; cbn [file_hdr_ pages_].
      * eapply free_chain_insert_same_next; [done | done | done].
      * done.
      * intros q qg Hq. apply lookup_insert_Some in Hq as [[<- <-] | [Hne Hq]]; cbn.
        -- split; [intros _; apply Hfree; lia | lia].
        -- by apply Hmem.
Qed.
Lemma get_record_state rid fh r :
  get_record rid fh = r ->
  match r with Ok _ fh' => fh' = fh | Throw _ fh' => fh' = fh | Undef _ => True end.
Proof.
  intros <-. rewrite get_record_flat. unfold get_flat.
  repeat (case_match; cbv beta iota; try done); congruence.
Qed.

Lemma delete_record_throw rid fh e fh' : delete_record rid fh = Throw e fh' -> fh' = fh.
Proof.
  rewrite delete_record_flat. unfold delete_flat.
  repeat (case_match; cbv beta iota; try done); congruence.
Qed.

Lemma update_record_throw rid buf fh e fh' :
  update_record rid buf fh = Throw e fh' -> fh' = fh.
Proof.
  rewrite update_record_flat. unfold update_flat.
  repeat (case_match; cbv beta iota; try done); congruence.
Qed.

Lemma slot_in_page h pg slot :
  hdr_ok h -> page_ok h pg -> Bitmap.is_set (bitmap pg) slot = Some true ->
  0 <= slot < num_records_per_page h.
Proof.
  intros _ (_ & _ & Hclear & _) Hbit.
  split; [pose proof (is_set_lt _ _ _ Hbit); lia |].
  destruct (decide (slot < num_records_per_page h)); [done |].
  exfalso. apply (Hclear slot); [lia | done].
Qed.

Lemma update_record_inv fh l rid buf fh' :
  rm_inv_with fh l -> update_record rid buf fh = Ok tt fh' ->
  exists pg sl,
    pages_ fh !! page_no rid = Some pg
    /\ Bitmap.is_set (bitmap pg) (slot_no rid) = Some true
    /\ mem_write (slot_no rid * record_size (file_hdr_ fh)) (record_size (file_hdr_ fh))
                 buf (slots pg) = Some sl
    /\ fh' = mkRmFileHandle (file_hdr_ fh) (<[page_no rid := set_slots sl pg]> (pages_ fh))
                            (has_free_frame_ fh)
    /\ rm_inv_with fh' l.
Proof.
  intros (Hhdr & Hdp & Hfl) H. rewrite update_record_flat in H. unfold update_flat in H.
  destruct ((page_no rid <? RM_FIRST_RECORD_PAGE)
            || (num_pages (file_hdr_ fh) <=? page_no rid)) eqn:Hv; [discriminate |].
  destruct (pages_ fh !! page_no rid) as [pg|] eqn:Hpg; [| discriminate].
  destruct (Bitmap.is_set (bitmap pg) (slot_no rid)) as [[|]|] eqn:Hbit; try discriminate.
  destruct (mem_write _ _ _ _) as [sl|] eqn:Hw; [| discriminate].
  injection H as <-. exists pg, sl. do 4 (split; [done |]).
  pose proof Hdp as [Hdom Hpages]. pose proof Hfl as (Hch & Hnd & Hmem).
  split; [done |]. split.
  - eapply data_pages_ok_update; [done | done | apply same_layout_refl |].
    apply page_ok_set_slots; [by eapply Hpages |]. by eapply mem_write_length.
  - split; [| split]; cbn [file_hdr_ pages_].
    + by eapply free_chain_insert_same_next.
    + done.
    + intros q qg Hq. apply lookup_insert_Some in Hq as [[<- <-] | [Hne Hq]]; cbn.
      * by apply Hmem.
      * by apply Hmem.
Qed.

(** Popping the head of the free list. *)
Lemma free_list_ok_pop fh l p pg pg' :
  free_list_ok fh (p :: l) -> pages_ fh !! p = Some pg ->
  next_free_page_no (page_hdr pg') = RM_NO_PAGE ->
  num_records_per_page (file_hdr_ fh) <= num_records (page_hdr pg') ->
  free_list_ok
    (mkRmFileHandle (set_first_free_page_no (next_free_page_no (page_hdr pg)) (file_hdr_ fh))
                    (<[p := pg']> (pages_ fh)) (has_free_frame_ fh))
    l.
Proof.
  intros (Hch & Hnd & Hmem) Hp Hnext Hfull.
  apply free_chain_cons_inv in Hch as (_ & Hne & pg0 & Hp0 & Hch).
  rewrite Hp in Hp0. injection Hp0 as <-.
  apply NoDup_cons in Hnd as [Hnotin Hnd].
  split; [| split]; cbn [file_hdr_ pages_ set_first_free_page_no first_free_page_no
                         num_records_per_page].
  - by apply free_chain_insert_notin.
  - done.
  - intros q qg Hq. apply lookup_insert_Some in Hq as [[<- <-] | [Hneq Hq]].
    + split; [lia | done].
    + destruct (Hmem _ _ Hq) as [Hm1 Hm2]. split.
      * intros Hlt. specialize (Hm1 Hlt). apply elem_of_cons in Hm1 as [-> | Hm1]; done.
      * intros Hge. destruct (Hm2 Hge) as [Hm3 Hm4]. split; [| done].
        intros Hin. apply Hm3. apply elem_of_cons. by right.
Qed.

(** Filling a slot of a page that stays on the free list. *)
Lemma free_list_ok_keep fh l p pg pg' :
  free_list_ok fh l -> pages_ fh !! p = Some pg ->
  next_free_page_no (page_hdr pg') = next_free_page_no (page_hdr pg) ->
  (num_records (page_hdr pg') < num_records_per_page (file_hdr_ fh)
   <-> num_records (page_hdr pg) < num_records_per_page (file_hdr_ fh)) ->
  free_list_ok (mkRmFileHandle (file_hdr_ fh) (<[p := pg']> (pages_ fh)) (has_free_frame_ fh)) l.
Proof.
  intros (Hch & Hnd & Hmem) Hp Hnext Hcnt.
  split; [| split]; cbn [file_hdr_ pages_].
  - by eapply free_chain_insert_same_next.
  - done.
  - intros q qg Hq. apply lookup_insert_Some in Hq as [[<- <-] | [Hneq Hq]].
    + destruct (Hmem _ _ Hp) as [Hm1 Hm2]. split.
      * intros Hlt. apply Hm1. by apply Hcnt.
      * intros Hge. rewrite Hnext. apply Hm2. lia.
    + by apply Hmem.
Qed.
Lemma page_ok_sizes h h' pg :
  record_size h = record_size h' -> num_records_per_page h = num_records_per_page h' ->
  bitmap_size h = bitmap_size h' -> page_ok h pg -> page_ok h' pg.
Proof. intros E1 E2 E3. unfold page_ok. by rewrite E1, E2, E3. Qed.

Lemma rm_inv_head fh p l : rm_inv_with fh (p :: l) -> first_free_page_no (file_hdr_ fh) = p.
Proof. intros (_ & _ & Hch & _). by apply free_chain_head in Hch. Qed.

Lemma rm_inv_valid fh l x :
  rm_inv_with fh l -> x ∈ l -> RM_FIRST_RECORD_PAGE <= x < num_pages (file_hdr_ fh).
Proof. intros (_ & Hdp & Hfl) Hx. by eapply free_list_ok_valid. Qed.

Lemma rm_inv_on_list fh l x :
  rm_inv_with fh l -> x ∈ l ->
  exists pg, pages_ fh !! x = Some pg
             /\ num_records (page_hdr pg) < num_records_per_page (file_hdr_ fh).
Proof.
  intros (_ & Hdp & Hch & Hnd & Hmem) Hx.
  destruct (free_chain_present _ _ _ _ Hch Hx) as [_ [pg Hpg]].
  exists pg. split; [done |].
  destruct (decide (num_records (page_hdr pg) < num_records_per_page (file_hdr_ fh)));
    [done |].
  destruct (Hmem _ _ Hpg) as [_ Hm]. destruct Hm as [Hm _]; [lia | done].
Qed.

(** The unlocated insert on the page at the head of the free list. *)
Lemma insert_into_inv fh l p buf r :
  rm_inv_with fh (p :: l) -> insert_into p buf fh = r ->
  match r with
  | Ok rid fh' =>
      exists pg slot sl bm,
        pages_ fh !! p = Some pg
        /\ rid = mkRid p slot
        /\ 0 <= slot < num_records_per_page (file_hdr_ fh)
        /\ Bitmap.is_set (bitmap pg) slot = Some false
        /\ mem_write (slot * record_size (file_hdr_ fh)) (record_size (file_hdr_ fh))
                     buf (slots pg) = Some sl
        /\ Bitmap.set (bitmap pg) slot = Some bm
        /\ let full := num_records (page_hdr pg) + 1 =? num_records_per_page (file_hdr_ fh) in
           fh' = mkRmFileHandle
                   (if full
                    then set_first_free_page_no (next_free_page_no (page_hdr pg)) (file_hdr_ fh)
                    else file_hdr_ fh)
                   (<[p := mkPage (mkRmPageHdr (if full then RM_NO_PAGE
                                                else next_free_page_no (page_hdr pg))
                                               (num_records (page_hdr pg) + 1))
                                  bm sl]> (pages_ fh)) (has_free_frame_ fh)
           /\ rm_inv_with fh' (if full then l else p :: l)
  | Throw _ _ => False
  | Undef _ => True
  end.
Proof.
  intros Hinv <-. pose proof Hinv as (Hhdr & Hdp & Hfl).
  pose proof Hhdr as (Hrs & Hn & Hbs & Hbsm & Hnp).
  destruct (rm_inv_on_list _ _ p Hinv) as (pg & Hpg & Hfree); [apply elem_of_cons; by left |].
  pose proof Hdp as [Hdom Hpages]. pose proof (Hpages _ _ Hpg) as Hok.
  destruct (page_ok_first_bit (file_hdr_ fh) pg ltac:(lia) Hok Hfree) as (slot & Hfb & Hslot & Hbit).
  unfold insert_into. rewrite Hpg, Hfb.
  replace (num_records_per_page (file_hdr_ fh) <=? slot) with false by lia.
  destruct (mem_write _ _ _ _) as [sl|] eqn:Hw; [| done].
  rewrite (assign_is_Some true _ _ _ Hbit : Bitmap.set _ _ = _). cbv zeta.
  assert (0 <= num_records (page_hdr pg) <= num_records_per_page (file_hdr_ fh)) as Hcnt
    by (apply page_ok_count_le; [lia | done]).
  replace (num_records (page_hdr pg) <? INT_MAX) with true by lia.
  pose proof (assign_is_Some true _ _ _ Hbit) as Hset.
  pose proof (mem_write_length _ _ _ _ _ Hw) as Hlen.
  destruct (num_records (page_hdr pg) + 1 =? num_records_per_page (file_hdr_ fh)) eqn:Hfull;
    eexists pg, slot, sl, _; (do 6 (split; [done |])); rewrite Hfull;
    (split; [done |]).
  - split; [eapply hdr_ok_layout; [apply same_layout_set_first_free | done] |]. split.
    + eapply data_pages_ok_update; [done | done | apply same_layout_set_first_free |].
      eapply page_ok_layout; [apply same_layout_set_first_free |].
      eapply (page_ok_set _ pg slot); try done; lia.
    + apply free_list_ok_pop; [done | done | done |]. cbn. lia.
  - split; [done |]. split.
    + eapply data_pages_ok_update; [done | done | apply same_layout_refl |].
      eapply (page_ok_set _ pg slot); try done; lia.
    + eapply free_list_ok_keep; [done | done | done |]. cbn. lia.
Qed.

(** The state [create_new_page_handle] builds: the new page alone on the
    free list. *)
Lemma with_new_page_inv fh :
  rm_inv_with fh [] -> num_pages (file_hdr_ fh) < INT_MAX ->
  rm_inv_with (with_new_page fh) [num_pages (file_hdr_ fh)].
Proof.
  intros (Hhdr & [Hdom Hpages] & Hch & Hnd & Hmem) Hmax.
  pose proof Hhdr as (Hrs & Hn & Hbs & Hbsm & Hnp).
  apply free_chain_nil_inv in Hch.
  assert (pages_ fh !! num_pages (file_hdr_ fh) = None) as Hnew.
  { apply eq_None_not_Some. rewrite Hdom. lia. }
  split; [| split].
  - unfold hdr_ok, with_new_page; cbn. lia.
  - split; unfold with_new_page; cbn [file_hdr_ pages_ num_pages].
    + intros q. destruct (decide (q = num_pages (file_hdr_ fh))) as [-> | Hne].
      * rewrite lookup_insert_eq. split; [lia | eauto].
      * rewrite lookup_insert_ne by done. rewrite Hdom. lia.
    + intros q qg Hq. apply lookup_insert_Some in Hq as [[<- <-] | [_ Hq]].
      * unfold page_ok, Bitmap.init; cbn. rewrite !length_replicate.
        split; [lia |]. split; [lia |]. split.
        -- intros i Hi [_ Hl]%is_set_Some. apply lookup_replicate in Hl as [? _]. congruence.
        -- apply popcount_replicate_false.
      * specialize (Hpages _ _ Hq). revert Hpages. by apply page_ok_sizes.
  - split; [| split]; unfold with_new_page;
      cbn [file_hdr_ pages_ first_free_page_no num_records_per_page].
    + econstructor; [unfold RM_NO_PAGE, RM_FIRST_RECORD_PAGE in *; lia
                    | by rewrite lookup_insert_eq |].
      cbn. rewrite Hch. constructor.
    + apply NoDup_singleton.
    + intros q qg Hq. apply lookup_insert_Some in Hq as [[<- <-] | [Hne Hq]]; cbn.
      * split; [intros _; apply list_elem_of_singleton; done | lia].
      * destruct (Hmem _ _ Hq) as [Hm1 Hm2]. split.
        -- intros Hlt. specialize (Hm1 Hlt). by apply elem_of_nil in Hm1.
        -- intros Hge. destruct (Hm2 Hge) as [_ Hm4]. split; [| done].
           intros Hin%list_elem_of_singleton. done.
Qed.

Lemma insert_record_inv fh l buf r :
  rm_inv_with fh l -> insert_record buf fh = r ->
  match r with
  | Ok rid fh' =>
      exists fh0 l0,
        (fh0 = fh /\ l = page_no rid :: l0
         \/ fh0 = with_new_page fh /\ l = [] /\ l0 = []
            /\ page_no rid = num_pages (file_hdr_ fh))
        /\ rm_inv_with fh0 (page_no rid :: l0)
        /\ insert_into (page_no rid) buf fh0 = Ok rid fh'
  | Throw e fh' =>
      e = InternalError "Failed to allocate new page for record file"
      /\ fh' = fh /\ l = [] /\ has_free_frame_ fh = false
  | Undef _ => True
  end.
Proof.
  intros Hinv <-. rewrite insert_record_flat. unfold insert_flat.
  pose proof Hinv as (Hhdr & Hdp & Hch & Hnd & Hmem).
  pose proof Hhdr as (Hrs & Hn & Hbs & Hbsm & Hnp).
  destruct l as [| p l].
  - apply free_chain_nil_inv in Hch. rewrite Hch, Z.eqb_refl.
    destruct (has_free_frame_ fh) eqn:Hframe; [| done].
    destruct (num_pages (file_hdr_ fh) <? INT_MAX) eqn:Hmax; [| done].
    unfold RM_FIRST_RECORD_PAGE in *.
    replace (num_pages (file_hdr_ fh) <? 1) with false by lia.
    replace (num_pages (file_hdr_ fh) + 1 <=? num_pages (file_hdr_ fh)) with false by lia.
    cbn [orb].
    pose proof (with_new_page_inv fh Hinv ltac:(lia)) as Hinv'.
    pose proof (insert_into_inv _ _ _ buf _ Hinv' eq_refl) as Hins.
    destruct (insert_into _ _ _) as [rid fh' | |] eqn:Hr; [| done | done].
    destruct Hins as (pg & slot & sl & bm & _ & -> & _).
    exists (with_new_page fh), []. cbn [page_no]. split; [right; done |]. done.
  - pose proof (rm_inv_head _ _ _ Hinv) as Hhead. rewrite Hhead.
    assert (p ∈ p :: l) as Hin by (apply elem_of_cons; by left).
    pose proof (rm_inv_valid _ _ p Hinv Hin) as Hval.
    destruct (rm_inv_on_list _ _ p Hinv Hin) as (pg & Hpg & _).
    unfold RM_FIRST_RECORD_PAGE, RM_NO_PAGE in *.
    replace (p =? -1) with false by lia.
    replace (p <? 1) with false by lia.
    replace (num_pages (file_hdr_ fh) <=? p) with false by lia.
    cbn [orb]. rewrite Hpg.
    pose proof (insert_into_inv _ _ _ buf _ Hinv eq_refl) as Hins.
    destruct (insert_into _ _ _) as [rid fh' | |] eqn:Hr; [| done | done].
    destruct Hins as (pg' & slot & sl & bm & _ & -> & _).
    exists fh, l. cbn [page_no]. split; [left; done |]. done.
Qed.
Lemma NoDup_app_cons_remove {A} (l1 l2 : list A) (x : A) :
  NoDup (l1 ++ x :: l2) -> NoDup (l1 ++ l2) /\ x ∉ l1 ++ l2.
Proof.
  intros H. apply NoDup_app in H as (H1 & H2 & H3).
  apply NoDup_cons in H3 as [H3 H4]. split.
  - apply NoDup_app. split; [done |]. split; [| done].
    intros y Hy Hy2. apply (H2 y Hy). apply elem_of_cons. by right.
  - intros [Hin | Hin]%elem_of_app; [| done].
    apply (H2 x Hin). apply elem_of_cons. by left.
Qed.

Lemma data_pages_ok_update' hdr pgs ff p pg pg' hdr' :
  data_pages_ok (mkRmFileHandle hdr pgs ff) -> pgs !! p = Some pg ->
  same_layout hdr hdr' -> page_ok hdr' pg' ->
  data_pages_ok (mkRmFileHandle hdr' (<[p := pg']> pgs) ff).
Proof. apply (data_pages_ok_update (mkRmFileHandle hdr pgs ff)). Qed.

Lemma insert_record_at_inv fh l rid buf r :
  rm_inv_with fh l -> insert_record_at rid buf fh = r ->
  match r with
  | Ok _ fh' =>
      exists pg sl bm l1 l2,
        pages_ fh !! page_no rid = Some pg
        /\ 0 <= slot_no rid < num_records_per_page (file_hdr_ fh)
        /\ Bitmap.is_set (bitmap pg) (slot_no rid) = Some false
        /\ mem_write (slot_no rid * record_size (file_hdr_ fh)) (record_size (file_hdr_ fh))
                     buf (slots pg) = Some sl
        /\ Bitmap.set (bitmap pg) (slot_no rid) = Some bm
        /\ l = l1 ++ page_no rid :: l2
        /\ let full := num_records (page_hdr pg) + 1 =? num_records_per_page (file_hdr_ fh) in
           same_layout (file_hdr_ fh) (file_hdr_ fh')
           /\ pages_ fh' !! page_no rid
              = Some (mkPage (mkRmPageHdr (if full then RM_NO_PAGE
                                           else next_free_page_no (page_hdr pg))
                                          (num_records (page_hdr pg) + 1)) bm sl)
           /\ (forall x xg, x <> page_no rid -> pages_ fh !! x = Some xg ->
                 exists xg', pages_ fh' !! x = Some xg' /\ same_records xg xg')
           /\ rm_inv_with fh' (if full then l1 ++ l2 else l)
  | Throw _ fh' =>
      fh' = fh
      /\ ~ (RM_FIRST_RECORD_PAGE <= page_no rid < num_pages (file_hdr_ fh)
            /\ exists pg, pages_ fh !! page_no rid = Some pg
                          /\ Bitmap.is_set (bitmap pg) (slot_no rid) = Some false)
  | Undef _ =>
      ~ exists pg sl,
          pages_ fh !! page_no rid = Some pg
          /\ Bitmap.is_set (bitmap pg) (slot_no rid) = Some false
          /\ mem_write (slot_no rid * record_size (file_hdr_ fh)) (record_size (file_hdr_ fh))
                       buf (slots pg) = Some sl
  end.
Proof.
  intros Hinv <-. rewrite insert_record_at_flat. unfold insert_at_flat.
  pose proof Hinv as (Hhdr & Hdp & Hfl).
  pose proof Hhdr as (Hrs & Hn & Hbs & Hbsm & Hnp).
  pose proof Hdp as [Hdom Hpages]. pose proof Hfl as (Hch & Hnd & Hmem).
  set (p := page_no rid). set (slot := slot_no rid). set (hdr := file_hdr_ fh) in *.
  destruct ((p <? RM_FIRST_RECORD_PAGE) || (num_pages hdr <=? p)) eqn:Hv.
  { split; [done |]. intros [Hr _]. apply orb_true_iff in Hv. lia. }
  apply orb_false_iff in Hv as [Hv1 Hv2].
  destruct (pages_ fh !! p) as [pg|] eqn:Hpg.
  2:{ split; [done |]. by intros (_ & pg & ? & _). }
  pose proof (Hpages _ _ Hpg) as Hok.
  destruct (Bitmap.is_set (bitmap pg) slot) as [[|]|] eqn:Hbit.
  1:{ split; [done |]. intros (_ & pg' & [= <-] & Hb). congruence. }
  2:{ intros (pg' & sl & [= <-] & Hb & _). congruence. }
  destruct (mem_write _ _ _ _) as [sl|] eqn:Hw.
  2:{ intros (pg' & sl & [= <-] & _ & Hw'). congruence. }
  rewrite (assign_is_Some true _ _ _ Hbit : Bitmap.set _ _ = _). cbv zeta.
  pose proof (assign_is_Some true _ _ _ Hbit : Bitmap.set _ _ = _) as Hset.
  set (bm := <[Z.to_nat slot := true]> (bitmap pg)) in *.
  pose proof (mem_write_length _ _ _ _ _ Hw) as Hlen.
  assert (0 <= slot < num_records_per_page hdr) as Hslot.
  { split; [pose proof (is_set_lt _ _ _ Hbit); lia |].
    apply mem_write_Some in Hw as [(Hw1 & Hw2 & Hw3 & Hw4) _].
    destruct Hok as (_ & Hsl & _). rewrite Hsl in Hw3. fold hdr in Hw3. nia. }
  pose proof (page_ok_clear_not_full _ _ _ Hok Hslot Hbit) as Hfree.
  assert (0 <= num_records (page_hdr pg) <= num_records_per_page hdr) as Hcnt
    by (apply page_ok_count_le; [lia | done]).
  replace (num_records (page_hdr pg) <? INT_MAX) with true by lia.
  destruct (Hmem _ _ Hpg) as [Hin _]. specialize (Hin Hfree).
  destruct (list_elem_of_split _ _ Hin) as (l1 & l2 & ->).
  set (pg1 := mkPage (mkRmPageHdr (next_free_page_no (page_hdr pg))
                                  (num_records (page_hdr pg) + 1)) bm sl).
  assert (page_ok hdr pg1) as Hok1 by (eapply (page_ok_set _ pg slot); try done; lia).
  destruct (num_records (page_hdr pg) + 1 =? num_records_per_page hdr) eqn:Hfull.
  - destruct (first_free_page_no hdr =? p) eqn:Hhead.
    + (* the page is the head of the free list *)
      apply Z.eqb_eq in Hhead.
      assert (l1 = []) as ->.
      { destruct l1 as [| y l1]; [done |]. cbn in Hch, Hnd.
        apply free_chain_head in Hch. rewrite Hhead in Hch. subst y.
        apply NoDup_cons in Hnd as [Hnd _]. exfalso. apply Hnd.
        apply elem_of_app. right. apply elem_of_cons. by left. }
      exists pg, sl, bm, [], l2. do 6 (split; [done |]). cbv zeta. rewrite Hfull.
      cbn [file_hdr_ pages_]. split; [apply same_layout_set_first_free |].
      split; [by rewrite lookup_insert_eq |]. split.
      * intros x xg Hx Hxg. exists xg. by rewrite lookup_insert_ne.
      * split; [eapply hdr_ok_layout; [apply same_layout_set_first_free | done] |]. split.
        -- eapply data_pages_ok_update; [done | done | apply same_layout_set_first_free |].
           eapply page_ok_layout; [apply same_layout_set_first_free |].
           eapply (page_ok_set _ pg slot); try done; lia.
        -- apply free_list_ok_pop; [done | done | done |]. cbn. fold hdr. lia.
    + (* the page has a predecessor on the free list *)
      apply Z.eqb_neq in Hhead.
      destruct l1 as [| y l1' _] using rev_ind.
      { cbn in Hch. apply free_chain_head in Hch. done. }
      rewrite <- app_assoc in *. cbn [app] in *.
      destruct (free_chain_present _ _ _ y Hch) as [_ [qg Hqg]].
      { apply elem_of_app. right. apply elem_of_cons. by left. }
      assert (y <> p) as Hyp.
      { intros ->. apply NoDup_app in Hnd as (_ & _ & Hnd).
        apply NoDup_cons in Hnd as [Hnd _]. apply Hnd. apply elem_of_cons. by left. }
      set (fh1 := mkRmFileHandle hdr (<[p := pg1]> (pages_ fh)) (has_free_frame_ fh)).
      assert (free_chain (pages_ fh1) (first_free_page_no hdr) (l1' ++ y :: p :: l2)) as Hch1
        by (by eapply free_chain_insert_same_next).
      rewrite (unlink_loop_found _ fh1 _ l1' y p l2 qg pg1); cbn [file_hdr_ pages_]; try done.
      * rewrite lookup_insert_ne by done.
        change (pages_ fh1) with (<[p := pg1]> (pages_ fh)) in *.
        change (file_hdr_ fh1) with hdr in *.
        rewrite lookup_insert_eq.
        exists pg, sl, bm, (l1' ++ [y]), l2. rewrite <- !app_assoc. cbn [app].
        do 6 (split; [done |]). cbv zeta. rewrite Hfull. cbn [file_hdr_ pages_].
        split; [done |]. split; [by rewrite lookup_insert_eq |]. split.
        -- intros x xg Hx Hxg. rewrite lookup_insert_ne by done.
           destruct (decide (x = y)) as [-> | Hxy].
           ++ rewrite lookup_insert_eq. eexists. split; [done |].
              rewrite Hqg in Hxg. injection Hxg as <-. done.
           ++ rewrite !lookup_insert_ne by done. exists xg. done.
        -- split; [done |].
           assert (data_pages_ok (mkRmFileHandle hdr (<[p := pg1]> (pages_ fh))
                                                 (has_free_frame_ fh))) as Hdp1
             by (eapply data_pages_ok_update; [done | done | apply same_layout_refl | done]).
           split.
           ++ eapply (data_pages_ok_update' hdr _ _ p pg1);
                [| rewrite lookup_insert_ne by done; by rewrite lookup_insert_eq
                 | apply same_layout_refl |].
              ** eapply (data_pages_ok_update' hdr _ _ y qg);
                   [done | by rewrite lookup_insert_ne | apply same_layout_refl |].
                 destruct (Hpages _ _ Hqg) as (H1 & H2 & H3 & H4). done.
              ** destruct Hok1 as (H1 & H2 & H3 & H4). done.
           ++ destruct (NoDup_app_cons_remove (l1' ++ [y]) l2 p) as [Hnd' Hnotin].
              { by rewrite <- app_assoc. }
              rewrite <- app_assoc in Hnd', Hnotin. cbn [app] in Hnd', Hnotin.
              split; [| split]; cbn [file_hdr_ pages_].
              ** apply (free_chain_unlink (<[p := pg1]> (pages_ fh)));
                   [done | done | by rewrite lookup_insert_ne | by rewrite lookup_insert_eq].
              ** done.
              ** intros x xg Hx.
                 apply lookup_insert_Some in Hx as [[<- <-] | [Hxp Hx]].
                 { cbn. fold hdr. split; [lia | done]. }
                 apply lookup_insert_Some in Hx as [[<- <-] | [Hxy Hx]].
                 { cbn. destruct (Hmem _ _ Hqg) as [Hm1 Hm2]. fold hdr in Hm1, Hm2. split.
                   - intros _. apply elem_of_app. right. apply elem_of_cons. by left.
                   - intros Hge. destruct (Hm2 Hge) as [Hm3 _]. exfalso. apply Hm3.
                     apply elem_of_app. right. apply elem_of_cons. by left. }
                 rewrite lookup_insert_ne in Hx by done.
                 destruct (Hmem _ _ Hx) as [Hm1 Hm2]. fold hdr in Hm1, Hm2. split.
                 { intros Hlt. specialize (Hm1 Hlt).
                   apply elem_of_app in Hm1 as [Hm1 | Hm1];
                     [apply elem_of_app; by left |].
                   apply elem_of_cons in Hm1 as [-> | Hm1]; [done |].
                   apply elem_of_cons in Hm1 as [-> | Hm1]; [done |].
                   apply elem_of_app. right. apply elem_of_cons. by right. }
                 { intros Hge. destruct (Hm2 Hge) as [Hm3 Hm4]. split; [| done].
                   intros Hx'. apply Hm3.
                   apply elem_of_app in Hx' as [Hx' | Hx']; [apply elem_of_app; by left |].
                   apply elem_of_app. right.
                   apply elem_of_cons in Hx' as [-> | Hx']; [done |].
                   apply elem_of_cons. right. apply elem_of_cons. by right. }
      * intros x Hx. by apply (free_list_ok_valid fh _ x Hdp Hfl).
      * unfold fh1; cbn. by rewrite lookup_insert_ne.
      * unfold fh1; cbn. by rewrite lookup_insert_eq.
      * assert (Z.of_nat (length (l1' ++ y :: p :: l2))
                <= Z.max 0 (num_pages hdr - RM_FIRST_RECORD_PAGE)) as Hl.
        { apply NoDup_range_length; [done |]. intros x Hx.
          by apply (free_list_ok_valid fh _ x Hdp Hfl). }
        rewrite length_app in Hl. cbn [length] in Hl.
        unfold RM_FIRST_RECORD_PAGE in *. lia.
  - (* the page still has a free slot *)
    exists pg, sl, bm, l1, l2. do 6 (split; [done |]). cbv zeta. rewrite Hfull.
    cbn [file_hdr_ pages_]. split; [done |].
    split; [by rewrite lookup_insert_eq |]. split.
    + intros x xg Hx Hxg. exists xg. by rewrite lookup_insert_ne.
    + split; [done |]. split.
      * eapply data_pages_ok_update; [done | done | apply same_layout_refl | done].
      * eapply free_list_ok_keep; [done | done | done |]. cbn. fold hdr. lia.
Qed.
Lemma new_file_inv rs n bs : valid_layout rs n bs -> rm_inv_with (new_file rs n bs) [].
Proof.
  intros (Hrs & Hn & Hbs & Hbsm). split; [| split].
  - unfold hdr_ok, new_file, RM_FIRST_RECORD_PAGE, INT_MAX in *; cbn. lia.
  - split; cbn.
    + intros p. rewrite lookup_empty. split; [by intros [? ?] | lia].
    + intros p pg. by rewrite lookup_empty.
  - split; [| split]; cbn.
    + constructor.
    + constructor.
    + intros p pg. by rewrite lookup_empty.
Qed.

Lemma rm_call_inv c fh r :
  rm_inv fh -> rm_call c fh = r ->
  match r with
  | Ok _ fh' => rm_inv fh'
  | Throw _ fh' => rm_inv fh'
  | Undef _ => True
  end.
Proof.
  intros [l Hinv] <-. destruct c as [rid | buf | rid buf | rid | rid buf]; cbn [rm_call];
    unfold bind, ret.
  - pose proof (get_record_state rid fh _ eq_refl) as H.
    destruct (get_record rid fh); [subst; by exists l | subst; by exists l | done].
  - pose proof (insert_record_inv fh l buf _ Hinv eq_refl) as H.
    destruct (insert_record buf fh) as [rid fh' | e fh' |];
      [| destruct H as (_ & -> & _); by exists l | done].
    destruct H as (fh0 & l0 & _ & Hinv0 & Hins).
    pose proof (insert_into_inv _ _ _ buf _ Hinv0 Hins) as (? & ? & ? & ? & H).
    destruct H as (_ & _ & _ & _ & _ & _ & _ & H). eexists. exact H.
  - pose proof (insert_record_at_inv fh l rid buf _ Hinv eq_refl) as H.
    destruct (insert_record_at rid buf fh) as [[] fh' | |];
      [| destruct H as [-> _]; by exists l | done].
    destruct H as (? & ? & ? & ? & ? & H).
    destruct H as (_ & _ & _ & _ & _ & _ & _ & _ & _ & H). eexists. exact H.
  - destruct (delete_record rid fh) as [[] fh' | e fh' |] eqn:Hd; [| | done].
    + destruct (delete_record_inv fh l rid fh' Hinv Hd) as (? & ? & _ & _ & _ & _ & _ & H).
      eexists. exact H.
    + apply delete_record_throw in Hd as ->. by exists l.
  - destruct (update_record rid buf fh) as [[] fh' | e fh' |] eqn:Hu; [| | done].
    + destruct (update_record_inv fh l rid buf fh' Hinv Hu) as (? & ? & _ & _ & _ & _ & H).
      by exists l.
    + apply update_record_throw in Hu as ->. by exists l.
Qed.

Lemma rm_calls_inv cs fh fh' : rm_inv fh -> rm_calls cs fh = Some fh' -> rm_inv fh'.
Proof.
  revert fh. induction cs as [| c cs IH]; intros fh Hinv H; cbn in H.
  - by injection H as <-.
  - pose proof (rm_call_inv c fh _ Hinv eq_refl) as Hc.
    destruct (rm_call c fh); [by eapply IH | by eapply IH | done].
Qed.

Lemma occurrences_NoDup (l : list Z) p :
  NoDup l -> occurrences p l = if decide (p ∈ l) then 1%nat else 0%nat.
Proof.
  unfold occurrences. induction 1 as [| x l Hx Hnd IH]; [done |].
  destruct (decide (x = p)) as [-> | Hne].
  - rewrite filter_cons_True by done. cbn [length]. rewrite IH.
    rewrite decide_False by done. rewrite decide_True; [done | apply elem_of_cons; by left].
  - rewrite filter_cons_False by done. rewrite IH.
    destruct (decide (p ∈ l)) as [Hin | Hin].
    + rewrite decide_True; [done | apply elem_of_cons; by right].
    + rewrite decide_False; [done |]. intros [-> | ?]%elem_of_cons; done.
Qed.

Lemma rm_inv_free_list fh l : rm_inv_with fh l -> free_list fh = Some l.
Proof.
  intros Hinv. pose proof Hinv as (Hhdr & Hdp & Hch & Hnd & Hmem).
  unfold free_list. apply free_chain_list_from; [done |].
  assert (Z.of_nat (length l)
          <= Z.max 0 (num_pages (file_hdr_ fh) - RM_FIRST_RECORD_PAGE)) as Hl.
  { apply NoDup_range_length; [done |]. intros x Hx. by eapply rm_inv_valid. }
  destruct Hhdr as (_ & _ & _ & _ & Hnp). unfold RM_FIRST_RECORD_PAGE in *. lia.
Qed.

(** X28: after any run of record-manager calls (both variants of
    insert_record, delete_record, update_record, get_record) on a freshly
    initialised file with a valid layout, in which every record identifier
    passed names a slot of the slot array and no call has undefined
    behaviour, the free list reached from
    [first_free_page_no] through the [next_free_page_no] links is defined,
    every data page with [num_records < num_records_per_page] occurs on it
    exactly once, and every other data page does not occur on it and has
    [next_free_page_no = RM_NO_PAGE]. *)
Theorem free_list_invariant rs n bs cs fh :
  valid_layout rs n bs ->
  Forall (call_in_range n) cs ->
  rm_calls cs (new_file rs n bs) = Some fh ->
  exists l,
    free_list fh = Some l
    /\ forall p, RM_FIRST_RECORD_PAGE <= p < num_pages (file_hdr_ fh) ->
         exists pg,
           pages_ fh !! p = Some pg
           /\ (num_records (page_hdr pg) < num_records_per_page (file_hdr_ fh) ->
               occurrences p l = 1%nat)
           /\ (~ num_records (page_hdr pg) < num_records_per_page (file_hdr_ fh) ->
               occurrences p l = 0%nat /\ next_free_page_no (page_hdr pg) = RM_NO_PAGE).
Proof.
  intros Hvalid _ Hrun.
  assert (rm_inv fh) as [l Hinv].
  { eapply rm_calls_inv; [| done]. eexists. by apply new_file_inv. }
  exists l. split; [by apply rm_inv_free_list |].
  pose proof Hinv as (Hhdr & [Hdom Hpages] & Hch & Hnd & Hmem).
  intros p Hp. apply Hdom in Hp as [pg Hpg]. exists pg. split; [done |].
  rewrite occurrences_NoDup by done. destruct (Hmem _ _ Hpg) as [Hm1 Hm2]. split.
  - intros Hlt. by rewrite decide_True by auto.
  - intros Hge. destruct Hm2 as [Hm2 Hm3]; [lia |]. by rewrite decide_False.
Qed.

Lemma example_valid_layout : valid_layout 2 3 1.
Proof. unfold valid_layout, INT_MAX. lia. Qed.

Lemma example_calls_run : rm_calls example_calls (new_file 2 3 1) = Some example_file.
Proof. vm_compute. reflexivity. Qed.

Lemma example_calls_in_range : Forall (call_in_range 3) example_calls.
Proof. unfold example_calls. repeat constructor; cbn; lia. Qed.

Lemma free_list_invariant_witness :
  valid_layout 2 3 1
  /\ Forall (call_in_range 3) example_calls
  /\ rm_calls example_calls (new_file 2 3 1) = Some example_file
  /\ exists l,
       free_list example_file = Some l
       /\ forall p,
            RM_FIRST_RECORD_PAGE <= p < num_pages (file_hdr_ example_file) ->
            exists pg,
              pages_ example_file !! p = Some pg
              /\ (num_records (page_hdr pg) < num_records_per_page (file_hdr_ example_file) ->
                  occurrences p l = 1%nat)
              /\ (~ num_records (page_hdr pg) < num_records_per_page (file_hdr_ example_file) ->
                  occurrences p l = 0%nat /\ next_free_page_no (page_hdr pg) = RM_NO_PAGE).
Proof.
  split; [exact example_valid_layout |]. split; [exact example_calls_in_range |].
  split; [exact example_calls_run |].
  exact (free_list_invariant 2 3 1 example_calls example_file
           example_valid_layout example_calls_in_range example_calls_run).
Defined.


(** X27: after any run of record-manager calls on a freshly initialised file
    with a valid layout, in which every record identifier passed names a slot
    of the slot array and no call has undefined behaviour, the population
    count of the bitmap of every data page equals the [num_records] field of
    the page header. *)
Theorem popcount_invariant rs n bs cs fh :
  valid_layout rs n bs ->
  Forall (call_in_range n) cs ->
  rm_calls cs (new_file rs n bs) = Some fh ->
  forall p, RM_FIRST_RECORD_PAGE <= p < num_pages (file_hdr_ fh) ->
    exists pg, pages_ fh !! p = Some pg
               /\ Bitmap.popcount (bitmap pg) = num_records (page_hdr pg).
Proof.
  intros Hvalid _ Hrun.
  assert (rm_inv fh) as [l Hinv].
  { eapply rm_calls_inv; [| done]. eexists. by apply new_file_inv. }
  pose proof Hinv as (Hhdr & [Hdom Hpages] & _).
  intros p Hp. apply Hdom in Hp as [pg Hpg]. exists pg. split; [done |].
  by destruct (Hpages _ _ Hpg) as (_ & _ & _ & Hpc).
Qed.

Lemma popcount_invariant_witness :
  valid_layout 2 3 1
  /\ Forall (call_in_range 3) example_calls
  /\ rm_calls example_calls (new_file 2 3 1) = Some example_file
  /\ forall p,
       RM_FIRST_RECORD_PAGE <= p < num_pages (file_hdr_ example_file) ->
       exists pg, pages_ example_file !! p = Some pg
                  /\ Bitmap.popcount (bitmap pg) = num_records (page_hdr pg).
Proof.
  split; [exact example_valid_layout |]. split; [exact example_calls_in_range |].
  split; [exact example_calls_run |].
  exact (popcount_invariant 2 3 1 example_calls example_file
           example_valid_layout example_calls_in_range example_calls_run).
Defined.


(** ** Reading back what was written *)

Lemma get_record_Ok rid fh v fh' :
  get_record rid fh = Ok v fh' <-> fh' = fh /\ record_at fh rid v.
Proof.
  rewrite get_record_flat. unfold get_flat, record_at.
  destruct ((page_no rid <? RM_FIRST_RECORD_PAGE)
            || (num_pages (file_hdr_ fh) <=? page_no rid)) eqn:Hv.
  { split; [done |]. intros (_ & Hr & _). apply orb_true_iff in Hv. lia. }
  apply orb_false_iff in Hv as [Hv1 Hv2].
  destruct (pages_ fh !! page_no rid) as [pg|] eqn:Hpg.
  2:{ split; [done |]. by intros (_ & _ & pg & ? & _). }
  destruct (Bitmap.is_set (bitmap pg) (slot_no rid)) as [[|]|] eqn:Hbit.
  - destruct (mem_read _ _ _) as [rec|] eqn:Hr.
    + split.
      * intros [= <- <-]. split; [done |]. split; [lia |]. exists pg. done.
      * intros (-> & _ & pg' & [= <-] & _ & Hr'). congruence.
    + split; [done |]. intros (_ & _ & pg' & [= <-] & _ & Hr'). congruence.
  - split; [done |]. intros (_ & _ & pg' & [= <-] & Hb & _). congruence.
  - split; [done |]. intros (_ & _ & pg' & [= <-] & Hb & _). congruence.
Qed.

Lemma keeps_refl rid fh : keeps rid fh fh.
Proof. split; [done |]. split; [lia |]. intros pg Hpg Hbit. exists pg. done. Qed.

Lemma keeps_record_at rid fh fh' v : keeps rid fh fh' -> record_at fh rid v -> record_at fh' rid v.
Proof.
  intros (Hrs & Hnp & Hk) (Hv & pg & Hpg & Hbit & Hr).
  destruct (Hk pg Hpg Hbit) as (pg' & Hpg' & Hbit' & Hr').
  split; [lia |]. exists pg'. split; [done |]. split; [done |].
  rewrite Hrs. by rewrite (Hr' _ _ eq_refl eq_refl).
Qed.

(** A write to another page, or to another slot of the page. *)
Lemma keeps_update rid fh hdr' p' pg0 pg' :
  record_size hdr' = record_size (file_hdr_ fh) ->
  num_pages (file_hdr_ fh) <= num_pages hdr' ->
  pages_ fh !! p' = Some pg0 ->
  (p' = page_no rid ->
   Bitmap.is_set (bitmap pg0) (slot_no rid) = Some true ->
   Bitmap.is_set (bitmap pg') (slot_no rid) = Some true
   /\ mem_read (slot_no rid * record_size (file_hdr_ fh)) (record_size (file_hdr_ fh))
               (slots pg')
      = mem_read (slot_no rid * record_size (file_hdr_ fh)) (record_size (file_hdr_ fh))
                 (slots pg0)) ->
  keeps rid fh (mkRmFileHandle hdr' (<[p' := pg']> (pages_ fh)) (has_free_frame_ fh)).
Proof.
  intros Hrs Hnp Hp' Hsame. split; [done |]. split; [done |]. cbn [pages_].
  intros pg Hpg Hbit. destruct (decide (p' = page_no rid)) as [-> | Hne].
  - rewrite lookup_insert_eq. exists pg'. rewrite Hp' in Hpg. injection Hpg as <-.
    destruct (Hsame eq_refl Hbit) as [Hb Hr]. split; [done |]. split; [done |].
    by intros off n -> ->.
  - rewrite lookup_insert_ne by done. exists pg. done.
Qed.

Lemma slot_ranges_disjoint (s s' rs : Z) :
  0 <= rs -> s <> s' -> s * rs + rs <= s' * rs \/ s' * rs + rs <= s * rs.
Proof. intros Hrs Hne. nia. Qed.

Lemma update_record_keeps rid rid' buf fh fh' :
  update_record rid' buf fh = Ok tt fh' -> rid <> rid' -> keeps rid fh fh'.
Proof.
  rewrite update_record_flat. unfold update_flat. intros H Hne.
  destruct (_ || _); [discriminate |].
  destruct (pages_ fh !! page_no rid') as [pg|] eqn:Hpg; [| discriminate].
  destruct (Bitmap.is_set (bitmap pg) (slot_no rid')) as [[|]|] eqn:Hbit; try discriminate.
  destruct (mem_write _ _ _ _) as [sl|] eqn:Hw; [| discriminate].
  injection H as <-. eapply keeps_update; [done | lia | done |].
  intros Hp Hb. cbn. split; [done |].
  eapply mem_read_write_disjoint; [done |].
  pose proof Hw as [(_ & Hrs & _) _]%mem_write_Some.
  apply slot_ranges_disjoint; [done |]. intros Hs. apply Hne.
  destruct rid, rid'; cbn in *; congruence.
Qed.

Lemma delete_record_keeps rid rid' fh fh' :
  delete_record rid' fh = Ok tt fh' -> rid <> rid' -> keeps rid fh fh'.
Proof.
  rewrite delete_record_flat. unfold delete_flat. intros H Hne.
  destruct (_ || _); [discriminate |].
  destruct (pages_ fh !! page_no rid') as [pg|] eqn:Hpg; [| discriminate].
  destruct (Bitmap.is_set (bitmap pg) (slot_no rid')) as [[|]|] eqn:Hbit; try discriminate.
  destruct (Bitmap.reset (bitmap pg) (slot_no rid')) as [bm|] eqn:Hbm; [| discriminate].
  destruct (INT_MIN <? _); [| discriminate].
  assert (page_no rid' = page_no rid -> slot_no rid <> slot_no rid') as Hs.
  { intros Hp Hs. apply Hne. destruct rid, rid'; cbn in *; congruence. }
  destruct (_ =? _); injection H as <-.
  - eapply keeps_update; [by destruct (file_hdr_ fh) | by destruct (file_hdr_ fh) | done |].
    intros Hp Hb. cbn. split; [| done].
    by rewrite (is_set_assign_ne _ _ _ _ _ Hbm (Hs Hp)).
  - eapply keeps_update; [done | lia | done |].
    intros Hp Hb. cbn. split; [| done].
    by rewrite (is_set_assign_ne _ _ _ _ _ Hbm (Hs Hp)).
Qed.

Lemma keeps_trans rid fh1 fh2 fh3 : keeps rid fh1 fh2 -> keeps rid fh2 fh3 -> keeps rid fh1 fh3.
Proof.
  intros (Hrs1 & Hnp1 & Hk1) (Hrs2 & Hnp2 & Hk2).
  split; [congruence |]. split; [lia |].
  intros pg Hpg Hbit. destruct (Hk1 pg Hpg Hbit) as (pg2 & Hpg2 & Hbit2 & Hr2).
  destruct (Hk2 pg2 Hpg2 Hbit2) as (pg3 & Hpg3 & Hbit3 & Hr3).
  exists pg3. split; [done |]. split; [done |].
  intros off n -> ->. rewrite <- (Hr2 _ _ eq_refl eq_refl).
  rewrite <- Hrs1. by apply Hr3.
Qed.

Lemma insert_into_keeps rid p' buf fh r :
  insert_into p' buf fh = r ->
  match r with
  | Ok _ fh' => keeps rid fh fh'
  | Throw _ fh' => fh' = fh
  | Undef _ => True
  end.
Proof.
  intros <-. unfold insert_into.
  destruct (pages_ fh !! p') as [pg|] eqn:Hpg; [| done].
  destruct (Bitmap.first_bit _ _ _) as [slot|] eqn:Hfb; [| done].
  destruct (_ <=? _) eqn:Hslot; [done |].
  destruct (mem_write _ _ _ _) as [sl|] eqn:Hw; [| done].
  destruct (Bitmap.set _ _) as [bm|] eqn:Hbm; [| done].
  cbv zeta. destruct (_ <? _); [| done].
  pose proof (first_bit_found _ _ _ _ Hfb ltac:(lia)) as [_ Hclear].
  pose proof Hw as [(_ & Hrs & _) _]%mem_write_Some.
  assert (p' = page_no rid -> Bitmap.is_set (bitmap pg) (slot_no rid) = Some true ->
          Bitmap.is_set bm (slot_no rid) = Some true
          /\ mem_read (slot_no rid * record_size (file_hdr_ fh)) (record_size (file_hdr_ fh)) sl
             = mem_read (slot_no rid * record_size (file_hdr_ fh))
                        (record_size (file_hdr_ fh)) (slots pg)) as Hsame.
  { intros _ Hb. assert (slot_no rid <> slot) as Hne by congruence. split.
    - by rewrite (is_set_assign_ne _ _ _ _ _ Hbm Hne).
    - eapply mem_read_write_disjoint; [done |]. by apply slot_ranges_disjoint. }
  destruct (_ =? _).
  - eapply keeps_update; [by destruct (file_hdr_ fh) | by destruct (file_hdr_ fh) | done |].
    done.
  - eapply keeps_update; [done | lia | done | done].
Qed.

Lemma with_new_page_keeps rid fh :
  page_no rid < num_pages (file_hdr_ fh) -> keeps rid fh (with_new_page fh).
Proof.
  intros Hp. split; [done |]. split; [cbn; lia |].
  intros pg Hpg Hbit. exists pg. unfold with_new_page; cbn.
  rewrite lookup_insert_ne by lia. done.
Qed.

Lemma insert_record_keeps rid buf fh r v :
  record_at fh rid v -> insert_record buf fh = r ->
  match r with
  | Ok _ fh' => keeps rid fh fh'
  | Throw _ fh' => keeps rid fh fh'
  | Undef _ => True
  end.
Proof.
  intros (Hv & _) <-. rewrite insert_record_flat. unfold insert_flat.
  destruct (_ =? _).
  - destruct (has_free_frame_ fh); [| apply keeps_refl].
    destruct (_ <? _); [| done].
    destruct (_ || _); [apply with_new_page_keeps; lia |].
    pose proof (insert_into_keeps rid (num_pages (file_hdr_ fh)) buf (with_new_page fh)
                  _ eq_refl) as H.
    destruct (insert_into _ _ _) as [rid' fh' | e fh' |]; [| | done].
    + eapply keeps_trans; [apply with_new_page_keeps; lia | done].
    + subst fh'. apply with_new_page_keeps; lia.
  - destruct (_ || _); [apply keeps_refl |].
    destruct (pages_ fh !! _); [| apply keeps_refl].
    pose proof (insert_into_keeps rid (first_free_page_no (file_hdr_ fh)) buf fh _ eq_refl)
      as H.
    destruct (insert_into _ _ _) as [rid' fh' | e fh' |]; [done | | done].
    subst fh'. apply keeps_refl.
Qed.
(** One iteration of the loop. *)
Lemma unlink_loop_S fuel target h fh :
  unlink_loop (S fuel) target h fh
  = if h =? RM_NO_PAGE then Ok tt fh
    else if (h <? RM_FIRST_RECORD_PAGE) || (num_pages (file_hdr_ fh) <=? h)
    then Throw (PageNotExistError h) fh
    else
      match pages_ fh !! h with
      | None => Throw (PageNotExistError h) fh
      | Some hg =>
          if next_free_page_no (page_hdr hg) =? target
          then
            match pages_ fh !! target with
            | None => Undef NullDereference
            | Some tg =>
                Ok tt (mkRmFileHandle (file_hdr_ fh)
                         (<[h := set_next_free_page_no (next_free_page_no (page_hdr tg)) hg]>
                            (pages_ fh)) (has_free_frame_ fh))
            end
          else unlink_loop fuel target (next_free_page_no (page_hdr hg)) fh
      end.
Proof.
  destruct fh as [hdr pgs ff]. cbn [unlink_loop].
  destruct (h =? RM_NO_PAGE); [done |]. mflat.
Qed.

(** The loop writes at most the link of one page. *)
Lemma unlink_loop_effect fuel target h fh r :
  unlink_loop fuel target h fh = r ->
  match r with
  | Ok _ fh' =>
      fh' = fh
      \/ exists q qg v,
           pages_ fh !! q = Some qg
           /\ fh' = mkRmFileHandle (file_hdr_ fh)
                      (<[q := set_next_free_page_no v qg]> (pages_ fh)) (has_free_frame_ fh)
  | Throw _ fh' => fh' = fh
  | Undef _ => True
  end.
Proof.
  revert h r. induction fuel as [| fuel IH]; intros h r <-.
  - cbn [unlink_loop]. destruct (h =? RM_NO_PAGE); [by left | done].
  - rewrite unlink_loop_S.
    destruct (h =? RM_NO_PAGE); [by left |].
    destruct (_ || _); [done |].
    destruct (pages_ fh !! h) as [hg|] eqn:Hh; [| done].
    destruct (_ =? target).
    + destruct (pages_ fh !! target) as [tg|] eqn:Ht; [| done].
      right. exists h, hg, (next_free_page_no (page_hdr tg)). done.
    + apply (IH _ _ eq_refl).
Qed.

Lemma keeps_set_next rid fh q qg v :
  pages_ fh !! q = Some qg ->
  keeps rid fh (mkRmFileHandle (file_hdr_ fh)
                  (<[q := set_next_free_page_no v qg]> (pages_ fh)) (has_free_frame_ fh)).
Proof. intros Hq. eapply keeps_update; [done | lia | done | done]. Qed.

Lemma unlink_loop_keeps rid fuel target h fh r :
  unlink_loop fuel target h fh = r ->
  match r with
  | Ok _ fh' => keeps rid fh fh'
  | Throw _ fh' => keeps rid fh fh'
  | Undef _ => True
  end.
Proof.
  intros H. apply unlink_loop_effect in H. destruct r as [? fh' | ? fh' |]; [| | done].
  - destruct H as [-> | (q & qg & v & Hq & ->)]; [apply keeps_refl | by apply keeps_set_next].
  - subst. apply keeps_refl.
Qed.

Lemma insert_record_at_steps rid buf fh r :
  insert_record_at rid buf fh = r ->
  match r with
  | Ok _ fh' => insert_at_written rid buf fh fh'
  | Throw _ fh' => fh' = fh \/ insert_at_written rid buf fh fh'
  | Undef _ => True
  end.
Proof.
  intros <-. rewrite insert_record_at_flat. unfold insert_at_flat, insert_at_written.
  destruct (_ || _) eqn:Hv; [by left |]. apply orb_false_iff in Hv as [Hv1 Hv2].
  destruct (pages_ fh !! page_no rid) as [pg|] eqn:Hpg; [| by left].
  destruct (Bitmap.is_set _ _) as [[|]|] eqn:Hbit; [by left | | done].
  destruct (mem_write _ _ _ _) as [sl|] eqn:Hw; [| done].
  destruct (Bitmap.set _ _) as [bm|] eqn:Hbm; [| done].
  cbv zeta. destruct (_ <? INT_MAX); [| done].
  set (pg1 := mkPage (mkRmPageHdr (next_free_page_no (page_hdr pg))
                                  (num_records (page_hdr pg) + 1)) bm sl).
  set (fh1 := mkRmFileHandle (file_hdr_ fh) (<[page_no rid := pg1]> (pages_ fh))
                             (has_free_frame_ fh)).
  destruct (_ =? num_records_per_page _).
  - destruct (_ =? page_no rid).
    + exists pg, sl, bm, fh1. split; [done |]. split; [lia |]. do 4 (split; [done |]).
      intros rid'.
      replace (<[page_no rid := _]> (pages_ fh))
        with (<[page_no rid := set_next_free_page_no RM_NO_PAGE pg1]> (pages_ fh1))
        by (unfold fh1; cbn; by rewrite insert_insert_eq).
      change (has_free_frame_ fh) with (has_free_frame_ fh1).
      eapply keeps_update;
        [by destruct (file_hdr_ fh) | by destruct (file_hdr_ fh)
         | unfold fh1; cbn; by rewrite lookup_insert_eq | done].
    + pose proof (unlink_loop_keeps) as Hloop.
      destruct (unlink_loop _ _ _ _) as [[] fh2 | e fh2 |] eqn:Hul; [| | done].
      * destruct (pages_ fh2 !! page_no rid) as [pg2|] eqn:Hpg2; [| done].
        exists pg, sl, bm, fh1. split; [done |]. split; [lia |]. do 4 (split; [done |]).
        intros rid'. eapply keeps_trans; [apply (Hloop rid' _ _ _ _ _ Hul) |].
        by apply keeps_set_next.
      * right. exists pg, sl, bm, fh1. split; [done |]. split; [lia |]. do 4 (split; [done |]).
        intros rid'. apply (Hloop rid' _ _ _ _ _ Hul).
  - exists pg, sl, bm, fh1. split; [done |]. split; [lia |]. do 4 (split; [done |]).
    intros rid'. apply keeps_refl.
Qed.

Lemma record_at_written fh p pg sl bm nxt cnt slot buf :
  RM_FIRST_RECORD_PAGE <= p < num_pages (file_hdr_ fh) ->
  mem_write (slot * record_size (file_hdr_ fh)) (record_size (file_hdr_ fh)) buf (slots pg)
  = Some sl ->
  Bitmap.is_set bm slot = Some true ->
  record_at (mkRmFileHandle (file_hdr_ fh) (<[p := mkPage (mkRmPageHdr nxt cnt) bm sl]> (pages_ fh))
                            (has_free_frame_ fh))
            (mkRid p slot) (record_of fh buf).
Proof.
  intros Hp Hw Hbit. split; [done |]. cbn. rewrite lookup_insert_eq.
  eexists. split; [done |]. cbn. split; [done |]. by eapply mem_read_write_eq.
Qed.

Lemma record_at_first_free hdr pgs ff rid v x :
  record_at (mkRmFileHandle hdr pgs ff) rid v ->
  record_at (mkRmFileHandle (set_first_free_page_no x hdr) pgs ff) rid v.
Proof. by destruct hdr. Qed.

Lemma record_of_same fh fh' buf :
  record_size (file_hdr_ fh') = record_size (file_hdr_ fh) -> record_of fh' buf = record_of fh buf.
Proof. unfold record_of. by intros ->. Qed.

Lemma insert_at_written_read rid buf fh fh' :
  insert_at_written rid buf fh fh' -> record_at fh' rid (record_of fh buf).
Proof.
  intros (pg & sl & bm & fh1 & Hpg & Hv & Hbit & Hw & Hbm & -> & Hk).
  eapply keeps_record_at; [apply Hk |].
  destruct rid as [p slot]. cbn in *.
  eapply record_at_written; [done | done |]. by eapply is_set_assign_eq.
Qed.

Lemma insert_at_written_keeps rid rid' buf fh fh' :
  insert_at_written rid' buf fh fh' -> rid <> rid' -> keeps rid fh fh'.
Proof.
  intros (pg & sl & bm & fh1 & Hpg & Hv & Hbit & Hw & Hbm & -> & Hk) Hne.
  eapply keeps_trans; [| apply Hk].
  eapply keeps_update; [done | lia | done |]. intros Hp Hb. cbn.
  assert (slot_no rid <> slot_no rid') as Hs.
  { intros Hs. apply Hne. destruct rid, rid'; cbn in *; congruence. }
  split.
  - by rewrite (is_set_assign_ne _ _ _ _ _ Hbm Hs).
  - eapply mem_read_write_disjoint; [done |].
    pose proof Hw as [(_ & Hrs & _) _]%mem_write_Some.
    by apply slot_ranges_disjoint.
Qed.

Lemma insert_record_at_read rid buf fh fh' :
  insert_record_at rid buf fh = Ok tt fh' -> record_at fh' rid (record_of fh buf).
Proof.
  intros H. apply insert_record_at_steps in H. by apply insert_at_written_read.
Qed.

(** A located insert at a live record fails and changes nothing. *)
Lemma insert_record_at_live rid buf fh v :
  record_at fh rid v ->
  insert_record_at rid buf fh
  = Throw (RecordNotFoundError (page_no rid) (slot_no rid)) fh.
Proof.
  intros (Hv & pg & Hpg & Hbit & _). rewrite insert_record_at_flat. unfold insert_at_flat.
  replace (page_no rid <? RM_FIRST_RECORD_PAGE) with false by lia.
  replace (num_pages (file_hdr_ fh) <=? page_no rid) with false by lia.
  cbn [orb]. by rewrite Hpg, Hbit.
Qed.

Lemma insert_record_at_keeps rid rid' buf fh r v :
  record_at fh rid v -> rid <> rid' -> insert_record_at rid' buf fh = r ->
  match r with
  | Ok _ fh' => keeps rid fh fh'
  | Throw _ fh' => keeps rid fh fh'
  | Undef _ => True
  end.
Proof.
  intros Hrec Hne H. apply insert_record_at_steps in H.
  destruct r as [? fh' | ? fh' |]; [| | done].
  - by eapply insert_at_written_keeps.
  - destruct H as [-> | H]; [apply keeps_refl | by eapply insert_at_written_keeps].
Qed.

Lemma update_record_read rid buf fh fh' :
  update_record rid buf fh = Ok tt fh' -> record_at fh' rid (record_of fh buf).
Proof.
  rewrite update_record_flat. unfold update_flat. intros H.
  destruct (_ || _) eqn:Hv; [discriminate |]. apply orb_false_iff in Hv as [Hv1 Hv2].
  destruct (pages_ fh !! page_no rid) as [pg|] eqn:Hpg; [| discriminate].
  destruct (Bitmap.is_set (bitmap pg) (slot_no rid)) as [[|]|] eqn:Hbit; try discriminate.
  destruct (mem_write _ _ _ _) as [sl|] eqn:Hw; [| discriminate].
  injection H as <-. destruct rid as [p slot]. cbn in *.
  destruct pg as [[nxt cnt] bm sl0]. eapply record_at_written; [lia | done | done].
Qed.

Lemma insert_into_read p buf fh rid fh' :
  RM_FIRST_RECORD_PAGE <= p < num_pages (file_hdr_ fh) ->
  insert_into p buf fh = Ok rid fh' -> record_at fh' rid (record_of fh buf).
Proof.
  intros Hp. unfold insert_into.
  destruct (pages_ fh !! p) as [pg|] eqn:Hpg; [| done].
  destruct (Bitmap.first_bit _ _ _) as [slot|] eqn:Hfb; [| done].
  destruct (_ <=? _) eqn:Hslot; [done |].
  destruct (mem_write _ _ _ _) as [sl|] eqn:Hw; [| done].
  destruct (Bitmap.set _ _) as [bm|] eqn:Hbm; [| done].
  cbv zeta. destruct (_ <? _); [| done].
  pose proof (is_set_assign_eq _ _ _ _ Hbm) as Hbit.
  destruct (_ =? _); intros [= <- <-].
  - apply record_at_first_free. by eapply record_at_written.
  - by eapply record_at_written.
Qed.

Lemma insert_record_read buf fh rid fh' :
  insert_record buf fh = Ok rid fh' -> record_at fh' rid (record_of fh buf).
Proof.
  rewrite insert_record_flat. unfold insert_flat. intros H.
  destruct (_ =? _).
  - destruct (has_free_frame_ fh); [| done].
    destruct (_ <? _) eqn:Hmax; [| done].
    destruct (_ || _) eqn:Hv; [done |]. apply orb_false_iff in Hv as [Hv1 Hv2].
    apply insert_into_read in H; [done |]. cbn. lia.
  - destruct (_ || _) eqn:Hv; [done |]. apply orb_false_iff in Hv as [Hv1 Hv2].
    destruct (pages_ fh !! _); [| done].
    apply insert_into_read in H; [done | lia].
Qed.

Lemma history_sound_keeps fh fh' evs :
  (forall rid v, record_at fh rid v -> keeps rid fh fh') ->
  history_sound fh evs -> history_sound fh' evs.
Proof.
  intros Hk Hs rid v Hl. specialize (Hs rid v Hl). eapply keeps_record_at; [| done]. eauto.
Qed.

Lemma history_sound_written fh fh' evs rid0 v0 :
  record_at fh' rid0 v0 ->
  (forall rid v, rid <> rid0 -> record_at fh rid v -> keeps rid fh fh') ->
  history_sound fh evs -> history_sound fh' (Written rid0 v0 :: evs).
Proof.
  intros Hw Hk Hs rid v Hl. cbn in Hl. destruct (decide (rid0 = rid)) as [<- | Hne].
  - by injection Hl as <-.
  - specialize (Hs rid v Hl). eapply keeps_record_at; [| done]. eapply Hk; [congruence | done].
Qed.

Lemma history_sound_deleted fh fh' evs rid0 :
  (forall rid v, rid <> rid0 -> record_at fh rid v -> keeps rid fh fh') ->
  history_sound fh evs -> history_sound fh' (Deleted rid0 :: evs).
Proof.
  intros Hk Hs rid v Hl. cbn in Hl. destruct (decide (rid0 = rid)) as [<- | Hne]; [done |].
  specialize (Hs rid v Hl). eapply keeps_record_at; [| done]. eapply Hk; [congruence | done].
Qed.

Lemma rm_call_history_sound c fh evs :
  history_sound fh evs ->
  match rm_call c fh with
  | Ok v fh' =>
      history_sound fh' (match rm_event fh c v with Some ev => ev :: evs | None => evs end)
  | Throw _ fh' => history_sound fh' evs
  | Undef _ => True
  end.
Proof.
  intros Hs. destruct c as [rid | buf | rid buf | rid | rid buf]; cbn [rm_call];
    unfold bind, ret.
  - pose proof (get_record_state rid fh _ eq_refl) as H.
    destruct (get_record rid fh); [by subst | by subst | done].
  - destruct (insert_record buf fh) as [rid fh' | e fh' |] eqn:Hc; [| | done]; cbn.
    + apply (history_sound_written fh); [by apply insert_record_read | | done].
      intros rid' v _ Hr. apply (insert_record_keeps rid' buf fh _ v Hr Hc).
    + apply (history_sound_keeps fh); [| done].
      intros rid' v Hr. apply (insert_record_keeps rid' buf fh _ v Hr Hc).
  - destruct (insert_record_at rid buf fh) as [[] fh' | e fh' |] eqn:Hc; [| | done]; cbn.
    + apply (history_sound_written fh); [by apply insert_record_at_read | | done].
      intros rid' v Hne Hr. apply (insert_record_at_keeps rid' rid buf fh _ v Hr Hne Hc).
    + apply (history_sound_keeps fh); [| done].
      intros rid' v Hr. destruct (decide (rid' = rid)) as [-> | Hne].
      * rewrite (insert_record_at_live _ buf _ _ Hr) in Hc. injection Hc as _ <-.
        apply keeps_refl.
      * apply (insert_record_at_keeps rid' rid buf fh _ v Hr Hne Hc).
  - destruct (delete_record rid fh) as [[] fh' | e fh' |] eqn:Hc; [| | done]; cbn.
    + apply (history_sound_deleted fh); [| done].
      intros rid' v Hne _. by apply (delete_record_keeps rid' rid).
    + apply delete_record_throw in Hc as ->. done.
  - destruct (update_record rid buf fh) as [[] fh' | e fh' |] eqn:Hc; [| | done]; cbn.
    + apply (history_sound_written fh); [by apply update_record_read | | done].
      intros rid' v Hne _. by apply (update_record_keeps rid' rid buf).
    + apply update_record_throw in Hc as ->. done.
Qed.

Lemma rm_history_sound cs fh0 past fh evs :
  history_sound fh0 past -> rm_history cs fh0 past = Some (fh, evs) -> history_sound fh evs.
Proof.
  revert fh0 past. induction cs as [| c cs IH]; intros fh0 past Hs H; cbn in H.
  - by injection H as <- <-.
  - pose proof (rm_call_history_sound c fh0 past Hs) as Hc.
    destruct (rm_call c fh0) as [v fh1 | e fh1 |]; [| | done]; by eapply IH.
Qed.

(** X29: after any run of record-manager calls on a well-formed file, in
    which every record identifier passed names a slot of the slot array and
    no call has undefined behaviour, for every record identifier
    [rid] whose most recent write (by either variant of insert_record or by
    update_record) has not been followed by a delete_record of [rid],
    [get_record rid] returns exactly the [record_size] bytes of that write
    and leaves the file as it is; and whenever [insert_record buf] returns
    [rid], the following [get_record rid] returns the bytes of [buf]. *)
Theorem get_record_returns_last_written cs fh0 fh evs :
  rm_inv fh0 ->
  Forall (call_in_range (num_records_per_page (file_hdr_ fh0))) cs ->
  rm_history cs fh0 [] = Some (fh, evs) ->
  (forall rid v,
     last_written evs rid = Some v ->
     get_record rid fh = Ok v fh /\ Z.of_nat (length v) = record_size (file_hdr_ fh))
  /\ (forall buf rid fh',
        insert_record buf fh = Ok rid fh' ->
        get_record rid fh' = Ok (record_of fh buf) fh').
Proof.
  intros _ _ Hrun. split.
  - intros rid v Hl.
    assert (record_at fh rid v) as Hr.
    { eapply rm_history_sound; [| done | done]. by intros ? ?. }
    split; [by apply get_record_Ok |].
    destruct Hr as (_ & pg & _ & _ & Hr). by apply mem_read_length in Hr.
  - intros buf rid fh' Hins. apply get_record_Ok. split; [done |].
    by apply insert_record_read.
Qed.

Lemma get_record_returns_last_written_witness :
  rm_inv (new_file 2 3 1)
  /\ Forall (call_in_range (num_records_per_page (file_hdr_ (new_file 2 3 1)))) example_calls
  /\ rm_history example_calls (new_file 2 3 1) [] = Some (example_file, example_events)
  /\ (forall rid v,
        last_written example_events rid = Some v ->
        get_record rid example_file = Ok v example_file
        /\ Z.of_nat (length v) = record_size (file_hdr_ example_file))
  /\ (forall buf rid fh',
        insert_record buf example_file = Ok rid fh' ->
        get_record rid fh' = Ok (record_of example_file buf) fh').
Proof.
  assert (rm_history example_calls (new_file 2 3 1) [] = Some (example_file, example_events))
    as Hrun by (vm_compute; reflexivity).
  assert (rm_inv (new_file 2 3 1)) as Hinv
    by (eexists; apply new_file_inv, example_valid_layout).
  split; [exact Hinv |]. split; [exact example_calls_in_range |]. split; [exact Hrun |].
  exact (get_record_returns_last_written example_calls (new_file 2 3 1) example_file
           example_events Hinv example_calls_in_range Hrun).
Defined.


(** * Reasoning about the scan *)

Lemma live_slots_after_empty n bm b : n <= b + 1 -> live_slots_after n bm b = [].
Proof. intros H. unfold live_slots_after. by rewrite seqZ_nil by lia. Qed.

Lemma live_slots_after_step n bm b :
  b + 1 < n ->
  live_slots_after n bm b
  = if decide (Bitmap.is_set bm (b + 1) = Some true)
    then (b + 1) :: live_slots_after n bm (b + 1)
    else live_slots_after n bm (b + 1).
Proof.
  intros H. unfold live_slots_after. rewrite seqZ_cons by lia.
  replace (Z.succ (b + 1)) with (b + 1 + 1) by lia.
  replace (Z.pred (n - (b + 1))) with (n - (b + 1 + 1)) by lia.
  destruct (decide _); [by rewrite filter_cons_True | by rewrite filter_cons_False].
Qed.

(** Skipping clear bits does not change the live slots that follow. *)
Lemma live_slots_after_skip n bm b r :
  b <= r -> (forall j, b < j <= r -> Bitmap.is_set bm j <> Some true) ->
  live_slots_after n bm b = live_slots_after n bm r.
Proof.
  intros Hbr. replace r with (b + Z.of_nat (Z.to_nat (r - b))) by lia.
  generalize (Z.to_nat (r - b)) as d. clear r Hbr.
  induction d as [| d IH]; intros Hclear.
  - by rewrite Z.add_0_r.
  - rewrite IH by (intros j Hj; apply Hclear; lia).
    destruct (decide (b + Z.of_nat d + 1 < n)) as [Hlt | Hge].
    + rewrite live_slots_after_step by done.
      rewrite decide_False by (apply Hclear; lia). f_equal. lia.
    + rewrite !live_slots_after_empty by lia. done.
Qed.

Lemma next_bit_live_slots n bm b r :
  Bitmap.next_bit true bm n b = Some r ->
  if decide (r < n) then live_slots_after n bm b = r :: live_slots_after n bm r
  else live_slots_after n bm b = [].
Proof.
  intros [[-> Hall] | (Hr & Hset & Hall)]%next_bit_spec.
  - rewrite decide_False by lia.
    destruct (decide (b + 1 < n)) as [Hlt | Hge]; [| apply live_slots_after_empty; lia].
    rewrite (live_slots_after_skip n bm b (n - 1)); [apply live_slots_after_empty; lia | lia |].
    intros j Hj Hs. rewrite Hall in Hs by lia. discriminate.
  - rewrite decide_True by lia.
    rewrite (live_slots_after_skip n bm b (r - 1)) by
      (lia || (intros j Hj Hs; rewrite Hall in Hs by lia; discriminate)).
    rewrite live_slots_after_step by lia.
    replace (r - 1 + 1) with r by lia. by rewrite decide_True.
Qed.

Lemma live_slots_after_tail n bm b s tl :
  live_slots_after n bm b = s :: tl -> b < s < n /\ tl = live_slots_after n bm s.
Proof.
  remember (Z.to_nat (n - (b + 1))) as m eqn:Hm. revert b Hm.
  induction m as [| m IH]; intros b Hm H.
  - rewrite live_slots_after_empty in H by lia. done.
  - rewrite live_slots_after_step in H by lia.
    destruct (decide _).
    + injection H as <- <-. split; [lia | done].
    + destruct (IH (b + 1) ltac:(lia) H) as [Hs Htl]. split; [lia | done].
Qed.

Lemma elem_of_live_slots_after n bm b s :
  s ∈ live_slots_after n bm b <-> b < s < n /\ Bitmap.is_set bm s = Some true.
Proof.
  unfold live_slots_after. rewrite list_elem_of_filter, elem_of_seqZ. split.
  - intros [Hset Hr]. split; [lia | done].
  - intros [Hr Hset]. split; [done | lia].
Qed.

Lemma live_slots_after_sorted n bm b : StronglySorted Z.lt (live_slots_after n bm b).
Proof.
  remember (Z.to_nat (n - (b + 1))) as m eqn:Hm. revert b Hm.
  induction m as [| m IH]; intros b Hm.
  - rewrite live_slots_after_empty by lia. constructor.
  - rewrite live_slots_after_step by lia.
    destruct (decide _); [| apply IH; lia].
    constructor; [apply IH; lia |].
    apply Forall_forall. intros s [Hs _]%elem_of_live_slots_after. lia.
Qed.
Lemma get_fetch fh p :
  RM_FIRST_RECORD_PAGE <= p < num_pages (file_hdr_ fh) /\ is_Some (pages_ fh !! p) ->
  fetch_page_handle p fh = Ok p fh.
Proof.
  intros [Hp [pg Hpg]]. unfold fetch_page_handle, bind, file_hdr, throw.
  replace (p <? RM_FIRST_RECORD_PAGE) with false by lia.
  replace (num_pages (file_hdr_ fh) <=? p) with false by lia.
  cbn [orb]. by rewrite Hpg.
Qed.

Lemma elem_of_page_rids fh p b r :
  r ∈ page_rids fh p b <->
  page_no r = p /\ b < slot_no r < num_records_per_page (file_hdr_ fh)
  /\ exists pg, pages_ fh !! p = Some pg /\ Bitmap.is_set (bitmap pg) (slot_no r) = Some true.
Proof.
  unfold page_rids. destruct (pages_ fh !! p) as [pg|] eqn:Hpg.
  - rewrite list_elem_of_fmap. split.
    + intros (s & -> & [Hs Hset]%elem_of_live_slots_after). cbn. eauto.
    + intros (<- & Hs & pg' & [= <-] & Hset). exists (slot_no r).
      split; [by destruct r |]. by apply elem_of_live_slots_after.
  - split; [by intros ?%elem_of_nil |]. by intros (_ & _ & pg & ? & _).
Qed.

Lemma elem_of_rids_from fh k q b r :
  r ∈ rids_from fh k q b <->
  q <= page_no r < q + Z.of_nat k
  /\ (if decide (page_no r = q) then b else -1) < slot_no r
     < num_records_per_page (file_hdr_ fh)
  /\ exists pg, pages_ fh !! page_no r = Some pg
                /\ Bitmap.is_set (bitmap pg) (slot_no r) = Some true.
Proof.
  revert q b. induction k as [| k IH]; intros q b; cbn [rids_from].
  - split; [by intros ?%elem_of_nil | lia].
  - rewrite elem_of_app, elem_of_page_rids, IH. split.
    + intros [(Hp & Hs & Hpg) | (Hp & Hs & Hpg)].
      * rewrite decide_True by done. rewrite Hp. split; [lia | done].
      * assert (-1 < slot_no r < num_records_per_page (file_hdr_ fh)) as Hs'
          by (destruct (decide (page_no r = q + 1)); done).
        rewrite decide_False by lia. split; [lia | done].
    + intros (Hp & Hs & Hpg). destruct (decide (page_no r = q)) as [Heq | Hne].
      * left. rewrite <- Heq. done.
      * right. split; [lia |]. split; [| done]. by destruct (decide (page_no r = q + 1)).
Qed.

Lemma page_rids_sorted fh p b : StronglySorted rid_lt (page_rids fh p b).
Proof.
  unfold page_rids. destruct (pages_ fh !! p); [| constructor].
  eapply StronglySorted_fmap; [| apply live_slots_after_sorted].
  intros x y Hxy. right. done.
Qed.

Lemma rids_from_sorted fh k q b : StronglySorted rid_lt (rids_from fh k q b).
Proof.
  revert q b. induction k as [| k IH]; intros q b; cbn [rids_from]; [constructor |].
  apply StronglySorted_app_2; [| apply page_rids_sorted | apply IH].
  intros x1 x2 (Hp1 & _)%elem_of_page_rids (Hp2 & _)%elem_of_rids_from. left. lia.
Qed.

(** What follows the first identifier of [rids_from] is [rids_from] after it. *)
Lemma rids_from_tail fh k q b r rest :
  rids_from fh k q b = r :: rest ->
  rest = rids_from fh (Z.to_nat (q + Z.of_nat k - page_no r)) (page_no r) (slot_no r).
Proof.
  revert q b. induction k as [| k IH]; intros q b H; cbn [rids_from] in H; [done |].
  destruct (page_rids fh q b) as [| x xs] eqn:Hpr.
  - cbn in H. rewrite (IH _ _ H). f_equal. lia.
  - cbn in H. injection H as -> <-. unfold page_rids in Hpr.
    destruct (pages_ fh !! q) as [pg|] eqn:Hpg; [| done].
    destruct (live_slots_after _ _ _) as [| s tl] eqn:Hls; [done |].
    cbn in Hpr. injection Hpr as <- <-. cbn [page_no slot_no].
    apply live_slots_after_tail in Hls as [_ ->].
    replace (Z.to_nat (q + Z.of_nat (S k) - q)) with (S k) by lia.
    cbn [rids_from]. unfold page_rids. by rewrite Hpg.
Qed.

Lemma next_loop_spec fh sp ss k q s0 :
  hdr_ok (file_hdr_ fh) -> data_pages_ok fh ->
  RM_FIRST_RECORD_PAGE <= q -> q + Z.of_nat k = num_pages (file_hdr_ fh) ->
  sp <= q -> -1 <= ss ->
  next_loop fh sp ss k q s0
  = Ok tt (mkRmScan (hd (mkRid RM_NO_PAGE RM_NO_PAGE)
                        (rids_from fh k q (if q =? sp then ss else -1)))).
Proof.
  intros Hhdr [Hdom Hpages]. pose proof Hhdr as (Hrs & Hn & Hbs & Hbsm & Hnp).
  revert q. induction k as [| k IH]; intros q Hq Hk Hsp Hss; cbn [next_loop rids_from].
  - done.
  - destruct (Hdom q) as [_ [pg Hpg]]; [lia |].
    destruct (Hpages _ _ Hpg) as (Hlen & _).
    set (b := if q =? sp then ss else -1).
    assert (-1 <= b) as Hb by (unfold b; destruct (q =? sp); lia).
    destruct (next_bit_defined true (bitmap pg) (num_records_per_page (file_hdr_ fh)) b)
      as [r Hr]; [done | lia |].
    pose proof (next_bit_live_slots _ _ _ _ Hr) as Hlive.
    unfold bind, on_file. rewrite get_fetch by (split; [lia | eauto]).
    unfold page_of. rewrite Hpg. cbv zeta. fold b. rewrite Hr. cbn [in_bounds ret].
    unfold page_rids. rewrite Hpg.
    destruct (decide (r < num_records_per_page (file_hdr_ fh))) as [Hlt | Hge].
    + replace (r <? _) with true by lia. rewrite Hlive. done.
    + replace (r <? _) with false by lia. rewrite Hlive. cbn [fmap list_fmap app].
      rewrite IH by lia. replace (q + 1 =? sp) with false by lia. done.
Qed.
Lemma next_spec fh r :
  hdr_ok (file_hdr_ fh) -> data_pages_ok fh ->
  RM_FIRST_RECORD_PAGE <= page_no r < num_pages (file_hdr_ fh) -> -1 <= slot_no r ->
  next fh (mkRmScan r)
  = Ok tt (mkRmScan (hd (mkRid RM_NO_PAGE RM_NO_PAGE)
                        (rids_from fh (Z.to_nat (num_pages (file_hdr_ fh) - page_no r))
                                   (page_no r) (slot_no r)))).
Proof.
  intros Hhdr Hdp Hp Hs. unfold next.
  replace (num_pages (file_hdr_ fh) <=? RM_FIRST_RECORD_PAGE) with false by lia.
  unfold bind, read_state. cbn [rid_].
  rewrite next_loop_spec; try done; try lia.
  by rewrite Z.eqb_refl.
Qed.

Lemma rids_from_position fh k q b r rest :
  rids_from fh k q b = r :: rest -> -1 <= b ->
  q <= page_no r < q + Z.of_nat k /\ -1 <= slot_no r.
Proof.
  intros H Hb. assert (r ∈ rids_from fh k q b) as Hin by (rewrite H; apply elem_of_cons; by left).
  apply elem_of_rids_from in Hin as (Hp & Hs & _). split; [done |].
  destruct (decide (page_no r = q)); lia.
Qed.

Lemma scan_rest_end fuel fh : scan_rest fuel fh end_of_scan = Some ([], end_of_scan).
Proof. by destruct fuel. Qed.

Lemma scan_rest_spec fh rest : forall r fuel,
  hdr_ok (file_hdr_ fh) -> data_pages_ok fh ->
  RM_FIRST_RECORD_PAGE <= page_no r < num_pages (file_hdr_ fh) -> -1 <= slot_no r ->
  rids_from fh (Z.to_nat (num_pages (file_hdr_ fh) - page_no r)) (page_no r) (slot_no r) = rest ->
  (length rest < fuel)%nat ->
  scan_rest fuel fh (mkRmScan r) = Some (r :: rest, end_of_scan).
Proof.
  induction rest as [| r' rest IH]; intros r fuel Hhdr Hdp Hp Hs Hrest Hfuel.
  - destruct fuel as [| fuel]; [cbn in Hfuel; lia |]. cbn [scan_rest].
    unfold is_end; cbn [rid_]. unfold RM_NO_PAGE, RM_FIRST_RECORD_PAGE in *.
    replace (page_no r =? -1) with false by lia.
    rewrite next_spec by done. unfold RM_FIRST_RECORD_PAGE. rewrite Hrest. cbn [hd].
    change (mkRmScan (mkRid (-1) (-1))) with end_of_scan. rewrite scan_rest_end. done.
  - destruct fuel as [| fuel]; [cbn in Hfuel; lia |]. cbn [scan_rest].
    unfold is_end; cbn [rid_].
    replace (page_no r =? RM_NO_PAGE) with false
      by (unfold RM_NO_PAGE, RM_FIRST_RECORD_PAGE in *; lia).
    rewrite next_spec by done. rewrite Hrest. cbn [hd].
    pose proof (rids_from_position _ _ _ _ _ _ Hrest Hs) as [Hp' Hs'].
    rewrite (IH r' fuel); try done.
    + lia.
    + pose proof (rids_from_tail _ _ _ _ _ _ Hrest) as Ht. rewrite Ht.
      f_equal. lia.
    + cbn in Hfuel. lia.
Qed.

Lemma live_rids_live fh r : hdr_ok (file_hdr_ fh) -> data_pages_ok fh -> r ∈ live_rids fh <-> live fh r.
Proof.
  intros Hhdr [Hdom Hpages]. pose proof Hhdr as (Hrs & Hn & Hbs & Hbsm & Hnp).
  unfold live_rids, live. rewrite elem_of_rids_from. split.
  - intros (Hp & Hs & Hpg). split; [lia | done].
  - intros (Hp & pg & Hpg & Hset). split; [lia |]. split; [| eauto].
    pose proof (slot_in_page _ _ _ Hhdr (Hpages _ _ Hpg) Hset).
    destruct (decide _); lia.
Qed.

(** C8: on a file that satisfies the record-file invariant, a new scan
    followed by [next] until the end yields, through [rid], the list
    [live_rids]: exactly the rids of the live records (set bitmap bits of
    the data pages), each once, in strictly increasing (page_no, slot_no)
    order; the scan then is in the end state, where page_no and slot_no are
    both [RM_NO_PAGE] and [is_end] holds; and on a file without data pages
    the scan is at the end right after construction. *)
Theorem scan_yields_live_records_in_order fh :
  rm_inv fh ->
  (forall fuel, (length (live_rids fh) < fuel)%nat ->
     scan_all fuel fh = Some (live_rids fh, end_of_scan))
  /\ rid end_of_scan = mkRid RM_NO_PAGE RM_NO_PAGE
  /\ is_end end_of_scan = true
  /\ StronglySorted rid_lt (live_rids fh)
  /\ (forall r, r ∈ live_rids fh <-> live fh r)
  /\ (num_pages (file_hdr_ fh) <= RM_FIRST_RECORD_PAGE -> new_scan fh = Ok tt end_of_scan).
Proof.
  intros (l & Hhdr & Hdp & _). pose proof Hhdr as (Hrs & Hn & Hbs & Hbsm & Hnp).
  split; [| split; [done | split; [done | split; [apply rids_from_sorted | split]]]].
  - intros fuel Hfuel. unfold scan_all, new_scan.
    destruct (decide (num_pages (file_hdr_ fh) <= RM_FIRST_RECORD_PAGE)) as [Hle | Hgt].
    + unfold next. replace (_ <=? _) with true by lia. cbn [write_state].
      unfold live_rids. replace (Z.to_nat _) with 0%nat by lia. cbn [rids_from].
      apply scan_rest_end.
    + rewrite next_spec by (done || (cbn; lia)). cbn [page_no slot_no].
      fold (live_rids fh). destruct (live_rids fh) as [| r rest] eqn:Hl.
      * apply scan_rest_end.
      * cbn [hd]. unfold live_rids in Hl.
        pose proof (rids_from_position _ _ _ _ _ _ Hl ltac:(lia)) as [Hp Hs].
        apply scan_rest_spec; try done.
        -- lia.
        -- pose proof (rids_from_tail _ _ _ _ _ _ Hl) as Ht. rewrite Ht. f_equal. lia.
        -- cbn in Hfuel. lia.
  - intros r. by apply live_rids_live.
  - intros Hle. unfold new_scan, next. by replace (_ <=? _) with true by lia.
Qed.

Lemma example_file_inv : rm_inv example_file.
Proof.
  apply (rm_calls_inv example_calls (new_file 2 3 1)).
  - exists []. apply new_file_inv. unfold valid_layout, INT_MAX. lia.
  - vm_compute. reflexivity.
Qed.

Lemma scan_yields_live_records_in_order_witness :
  rm_inv example_file
  /\ live_rids example_file = [mkRid 1 0; mkRid 1 2; mkRid 2 0]
  /\ scan_all 4 example_file = Some ([mkRid 1 0; mkRid 1 2; mkRid 2 0], end_of_scan)
  /\ (forall fuel, (length (live_rids example_file) < fuel)%nat ->
        scan_all fuel example_file = Some (live_rids example_file, end_of_scan))
  /\ rid end_of_scan = mkRid RM_NO_PAGE RM_NO_PAGE
  /\ is_end end_of_scan = true
  /\ StronglySorted rid_lt (live_rids example_file)
  /\ (forall r, r ∈ live_rids example_file <-> live example_file r)
  /\ (num_pages (file_hdr_ example_file) <= RM_FIRST_RECORD_PAGE ->
      new_scan example_file = Ok tt end_of_scan).
Proof.
  split; [exact example_file_inv |].
  split; [vm_compute; reflexivity |].
  split; [vm_compute; reflexivity |].
  exact (scan_yields_live_records_in_order example_file example_file_inv).
Defined.


(** C10: on a file with at least one data page, [next] on a scan that is in
    the end state (page_no = [RM_NO_PAGE]) raises PageNotExistError for page
    [RM_NO_PAGE] and leaves the scan as it is: the search starts again at
    page -1, which the bounds check of [fetch_page_handle] refuses. *)
Theorem next_at_end_raises fh s :
  page_no (rid_ s) = RM_NO_PAGE ->
  RM_FIRST_RECORD_PAGE < num_pages (file_hdr_ fh) ->
  next fh s = Throw (PageNotExistError RM_NO_PAGE) s.
Proof.
  intros Hend Hpages. unfold next.
  replace (num_pages (file_hdr_ fh) <=? RM_FIRST_RECORD_PAGE) with false by lia.
  unfold bind, read_state. rewrite Hend.
  destruct (Z.to_nat (num_pages (file_hdr_ fh) - RM_NO_PAGE)) as [| k] eqn:Hk.
  - unfold RM_NO_PAGE, RM_FIRST_RECORD_PAGE in *. lia.
  - cbn [next_loop]. unfold bind, on_file, fetch_page_handle, file_hdr, throw.
    done.
Qed.

Lemma next_at_end_raises_witness :
  page_no (rid_ end_of_scan) = RM_NO_PAGE
  /\ RM_FIRST_RECORD_PAGE < num_pages (file_hdr_ example_file)
  /\ next example_file end_of_scan = Throw (PageNotExistError RM_NO_PAGE) end_of_scan.
Proof.
  assert (RM_FIRST_RECORD_PAGE < num_pages (file_hdr_ example_file)) as Hpages
    by (vm_compute; reflexivity).
  split; [reflexivity |]. split; [exact Hpages |].
  exact (next_at_end_raises example_file end_of_scan eq_refl Hpages).
Defined.


(** * Reasoning about the lock manager *)

Ltac lm_unfold :=
  cbv beta iota zeta delta [bind ret throw undefined modify_state read_state write_state
    deref update_txn table_entry put_queue].

Ltac lm_fields :=
  cbn [txns lock_table_ request_queue_ group_lock_mode_ get_state get_lock_set
       get_transaction_id get_start_ts get_write_set txn_id_ lock_mode_ granted_] in *.

Ltac lm_norm :=
  repeat first
    [ rewrite lookup_insert_eq
    | rewrite insert_insert_eq
    | progress lm_fields
    | progress cbv beta iota ].

Lemma is_compatible_spec a b : is_compatible a b = spec_compatible a b.
Proof. by destruct a, b. Qed.

Lemma is_compatible_sym a b : is_compatible a b = is_compatible b a.
Proof. by destruct a, b. Qed.

Lemma conflicts_blocked skip mode reqs :
  conflicts skip mode reqs = true <-> blocked_by skip mode reqs.
Proof.
  unfold conflicts, blocked_by. rewrite existsb_exists. split.
  - intros (req & Hin%list_elem_of_In & Hreq). exists req. split; [done |].
    destruct skip as [id |].
    + destruct (txn_id_ req =? id) eqn:E; [done |].
      apply andb_true_iff in Hreq as [Hg Hc]. apply negb_true_iff in Hc.
      split; [intros ? [= <-]; lia | done].
    + apply andb_true_iff in Hreq as [Hg Hc]. apply negb_true_iff in Hc. done.
  - intros (req & Hin & Hskip & Hg & Hc). exists req. split; [by apply list_elem_of_In |].
    destruct skip as [id |].
    + specialize (Hskip id eq_refl). replace (txn_id_ req =? id) with false by lia.
      by rewrite Hg, Hc.
    + by rewrite Hg, Hc.
Qed.

Lemma conflicts_not_blocked skip mode reqs :
  conflicts skip mode reqs = false <-> ~ blocked_by skip mode reqs.
Proof. rewrite <- conflicts_blocked. by destruct (conflicts skip mode reqs). Qed.

Lemma group_mode_fold reqs m0 :
  let m := fold_left
             (fun mode req =>
                if negb (granted_ req) then mode
                else
                  let gm := to_group_lock_mode (lock_mode_ req) in
                  if priority mode <? priority gm then gm else mode)
             reqs m0 in
  priority m0 <= priority m
  /\ (forall r, r ∈ reqs -> granted_ r = true ->
        priority (to_group_lock_mode (lock_mode_ r)) <= priority m)
  /\ (m = m0
      \/ exists r, r ∈ reqs /\ granted_ r = true /\ to_group_lock_mode (lock_mode_ r) = m).
Proof.
  revert m0. induction reqs as [| req reqs IH]; intros m0; cbn [fold_left].
  - split; [lia |]. split; [| by left]. intros r Hr. by apply elem_of_nil in Hr.
  - cbv zeta in IH |- *.
    set (m1 := if negb (granted_ req) then m0
               else if priority m0 <? priority (to_group_lock_mode (lock_mode_ req))
                    then to_group_lock_mode (lock_mode_ req) else m0).
    destruct (IH m1) as (Hle & Hall & Hex).
    assert (priority m0 <= priority m1
            /\ (granted_ req = true ->
                priority (to_group_lock_mode (lock_mode_ req)) <= priority m1)
            /\ (m1 = m0 \/ (granted_ req = true /\ to_group_lock_mode (lock_mode_ req) = m1)))
      as (H0 & H1 & H2).
    { unfold m1. destruct (granted_ req); cbn [negb].
      - destruct (priority m0 <? _) eqn:E; (split; [lia |]); (split; [lia |]); eauto.
      - split; [lia |]. split; [done | by left]. }
    split; [lia |]. split.
    + intros r [-> | Hr]%elem_of_cons Hg; [specialize (H1 Hg); lia | by apply Hall].
    + destruct Hex as [Hm | (r & Hr & Hg & Hm)].
      * destruct H2 as [Hm1 | [Hg Hm1]]; [left; congruence |].
        right. exists req. split; [apply elem_of_cons; by left |]. split; [done | congruence].
      * right. exists r. split; [apply elem_of_cons; by right | done].
Qed.

Lemma priority_spec m : priority m = Z.of_nat (spec_strength m).
Proof. by destruct m. Qed.

Lemma to_group_lock_mode_spec mode : to_group_lock_mode mode = spec_group_mode mode.
Proof. by destruct mode. Qed.

(** [update_group_lock_mode] computes the group mode of the design document. *)
Lemma group_mode_of_strongest reqs : spec_strongest_granted reqs (group_mode_of reqs).
Proof.
  pose proof (group_mode_fold reqs GroupLockMode.NON_LOCK) as Hfold.
  cbv zeta in Hfold. change (fold_left _ reqs GroupLockMode.NON_LOCK)
    with (group_mode_of reqs) in Hfold.
  destruct Hfold as (_ & Hall & Hex). split.
  - intros r Hr Hg. specialize (Hall r Hr Hg).
    rewrite !priority_spec, to_group_lock_mode_spec in Hall. lia.
  - destruct Hex as [Hm | (r & Hr & Hg & Hm)].
    + left. split; [done |]. intros r Hr. destruct (granted_ r) eqn:Hg; [| done].
      specialize (Hall r Hr Hg). rewrite Hm in Hall. by destruct (lock_mode_ r).
    + right. exists r. by rewrite <- to_group_lock_mode_spec.
Qed.

(** At most one group mode is the strongest granted mode of a queue. *)
Lemma spec_strongest_granted_unique reqs m1 m2 :
  spec_strongest_granted reqs m1 -> spec_strongest_granted reqs m2 -> m1 = m2.
Proof.
  intros [Hall1 Hex1] [Hall2 Hex2].
  assert (forall m m' : GroupLockMode.t, spec_strength m = spec_strength m' -> m = m') as Hinj
    by (intros [] []; cbn; congruence).
  destruct Hex1 as [[-> Hno1] | (r1 & Hr1 & Hg1 & Hm1)],
           Hex2 as [[-> Hno2] | (r2 & Hr2 & Hg2 & Hm2)]; [done | | |].
  - rewrite Hno1 in Hg2; done.
  - rewrite Hno2 in Hg1; done.
  - apply Hinj. pose proof (Hall1 r2 Hr2 Hg2). pose proof (Hall2 r1 Hr1 Hg1).
    rewrite Hm1 in *. rewrite Hm2 in *. lia.
Qed.

(** C6: when a transaction that is not SHRINKING and has no request in the
    queue of [id] calls [lock], the call returns false exactly when some
    granted request of the queue is incompatible with the requested mode,
    and then the lock manager (queue, lock set and state of the transaction)
    is left as it was; otherwise the call returns true after appending a
    granted request, storing as group mode the strongest granted mode of the
    new queue, adding [id] to the lock set and moving a DEFAULT transaction
    to GROWING.  Compatibility is the matrix of the specification. *)
Theorem lock_new_request lm a t id mode :
  txns lm !! a = Some t ->
  get_state t <> SHRINKING ->
  find_request (get_transaction_id t) (requests_of lm id) = None ->
  ((exists lm', lock (Some a) id mode lm = Ok false lm')
   <-> blocked_by None mode (requests_of lm id))
  /\ (blocked_by None mode (requests_of lm id) -> lock (Some a) id mode lm = Ok false lm)
  /\ (~ blocked_by None mode (requests_of lm id) ->
      let reqs := requests_of lm id ++ [mkLockRequest (get_transaction_id t) mode true] in
      let t' := set_lock_set ({[id]} ∪ get_lock_set t) t in
      lock (Some a) id mode lm
      = Ok true
          (mkLockManager
             (<[a := if decide (get_state t = DEFAULT) then set_state GROWING t' else t']>
                (txns lm))
             (<[id := mkLockRequestQueue reqs (group_mode_of reqs)]> (lock_table_ lm)))
      /\ spec_strongest_granted reqs (group_mode_of reqs))
  /\ forall lhs rhs, is_compatible lhs rhs = spec_compatible lhs rhs.
Proof.
  intros Ht Hst Hfind.
  assert (blocked_by None mode (requests_of lm id) -> lock (Some a) id mode lm = Ok false lm)
    as Hblocked.
  { intros Hb%conflicts_blocked. unfold lock. lm_unfold. rewrite Ht. cbv beta iota.
    rewrite decide_False by done. unfold requests_of in *.
    destruct (lock_table_ lm !! id) as [queue|] eqn:Hq; [| done].
    cbv beta iota. rewrite Hfind, Hb. done. }
  assert (~ blocked_by None mode (requests_of lm id) ->
      let reqs := requests_of lm id ++ [mkLockRequest (get_transaction_id t) mode true] in
      let t' := set_lock_set ({[id]} ∪ get_lock_set t) t in
      lock (Some a) id mode lm
      = Ok true
          (mkLockManager
             (<[a := if decide (get_state t = DEFAULT) then set_state GROWING t' else t']>
                (txns lm))
             (<[id := mkLockRequestQueue reqs (group_mode_of reqs)]> (lock_table_ lm))))
    as Hfree.
  { intros Hb%conflicts_not_blocked. cbv zeta. unfold lock. lm_unfold. rewrite Ht.
    cbv beta iota. rewrite decide_False by done. unfold requests_of in *.
    destruct (lock_table_ lm !! id) as [queue|] eqn:Hq; cbv beta iota; lm_fields.
    - rewrite Hfind, Hb. rewrite Ht. cbv beta iota. lm_fields.
      rewrite lookup_insert_eq. cbv beta iota. lm_fields.
      rewrite !insert_insert_eq. unfold update_group_lock_mode. lm_fields.
      change (get_state (set_lock_set ({[id]} ∪ get_lock_set t) t)) with (get_state t).
      by destruct (decide (get_state t = DEFAULT)) as [Hd | Hd].
    - cbn [find_request conflicts existsb]. lm_norm. rewrite Ht. lm_norm.
      unfold update_group_lock_mode. lm_norm.
      change (get_state (set_lock_set ({[id]} ∪ get_lock_set t) t)) with (get_state t).
      by destruct (decide (get_state t = DEFAULT)) as [Hd | Hd]. }
  split; [| split; [done | split; [| apply is_compatible_spec]]].
  - split.
    + intros [lm' Hl].
      destruct (conflicts None mode (requests_of lm id)) eqn:Hc; [by apply conflicts_blocked |].
      apply conflicts_not_blocked in Hc. rewrite (Hfree Hc) in Hl. done.
    + intros Hb. exists lm. by apply Hblocked.
  - intros Hb. split; [by apply Hfree | apply group_mode_of_strongest].
Qed.

Lemma lock_new_request_witness :
  let id := table_lock_id 3 in
  (let t := mkTransaction 9 0 DEFAULT ∅ [] in
   txns example_lm_intent !! 3 = Some t
   /\ get_state t <> SHRINKING
   /\ find_request (get_transaction_id t) (requests_of example_lm_intent id) = None
   /\ ~ blocked_by None S_IX (requests_of example_lm_intent id)
   /\ lock (Some 3) id S_IX example_lm_intent = Ok true example_lm_intent_six
   /\ spec_strongest_granted
        [mkLockRequest 7 INTENTION_SHARED true; mkLockRequest 8 INTENTION_SHARED true;
         mkLockRequest 9 S_IX true]
        GroupLockMode.SIX)
  /\ (let t := mkTransaction 9 0 GROWING ∅ [] in
      txns example_lm !! 3 = Some t
      /\ get_state t <> SHRINKING
      /\ find_request (get_transaction_id t) (requests_of example_lm id) = None
      /\ blocked_by None EXLUCSIVE (requests_of example_lm id)
      /\ lock (Some 3) id EXLUCSIVE example_lm = Ok false example_lm).
Proof.
  intros id. split.
  - intros t.
    assert (txns example_lm_intent !! 3 = Some t) as Ht by (vm_compute; reflexivity).
    assert (get_state t <> SHRINKING) as Hst by discriminate.
    assert (find_request (get_transaction_id t) (requests_of example_lm_intent id) = None)
      as Hfind by (vm_compute; reflexivity).
    assert (~ blocked_by None S_IX (requests_of example_lm_intent id)) as Hfree
      by (apply conflicts_not_blocked; vm_compute; reflexivity).
    destruct (lock_new_request example_lm_intent 3 t id S_IX Ht Hst Hfind)
      as (_ & _ & Hgrant & _).
    destruct (Hgrant Hfree) as [Hlock Hmode].
    split; [exact Ht |]. split; [exact Hst |]. split; [exact Hfind |].
    split; [exact Hfree |]. split; [| exact Hmode].
    rewrite Hlock. vm_compute. reflexivity.
  - intros t.
    assert (txns example_lm !! 3 = Some t) as Ht by (vm_compute; reflexivity).
    assert (get_state t <> SHRINKING) as Hst by discriminate.
    assert (find_request (get_transaction_id t) (requests_of example_lm id) = None) as Hfind
      by (vm_compute; reflexivity).
    assert (blocked_by None EXLUCSIVE (requests_of example_lm id)) as Hb
      by (apply conflicts_blocked; vm_compute; reflexivity).
    destruct (lock_new_request example_lm 3 t id EXLUCSIVE Ht Hst Hfind)
      as (_ & Hrefuse & _).
    split; [exact Ht |]. split; [exact Hst |]. split; [exact Hfind |].
    split; [exact Hb |]. exact (Hrefuse Hb).
Defined.

Lemma find_request_Some id reqs i req :
  find_request id reqs = Some (i, req) ->
  reqs !! i = Some req /\ txn_id_ req = id
  /\ forall j r, (j < i)%nat -> reqs !! j = Some r -> txn_id_ r <> id.
Proof.
  revert i. induction reqs as [| r0 reqs IH]; intros i H; cbn in H; [done |].
  destruct (txn_id_ r0 =? id) eqn:E.
  - injection H as <- <-. split; [done |]. split; [lia |]. intros j r Hj. lia.
  - destruct (find_request id reqs) as [[i' r'] |] eqn:Hf; [| done].
    injection H as <- <-. destruct (IH _ eq_refl) as (Hl & Hid & Hbefore).
    split; [done |]. split; [done |]. intros [| j] r Hj Hr.
    + cbn in Hr. injection Hr as <-. lia.
    + cbn in Hr. eapply Hbefore; [| done]. lia.
Qed.

(** C5: when [lock] finds in the queue of [id] a request of the calling
    transaction that is not an already granted request of the requested
    mode, it raises TransactionAbort with UPGRADE_CONFLICT exactly when some
    granted request of another transaction is incompatible with the
    requested mode, and then the lock manager is left as it was; otherwise
    it overwrites the mode of that request, marks it granted, stores as
    group mode the strongest granted mode of the queue so changed, adds [id]
    to the lock set of the transaction and returns true.  Compatibility is
    the matrix of the specification. *)
Theorem lock_upgrade lm a t id mode queue i req :
  txns lm !! a = Some t ->
  get_state t <> SHRINKING ->
  lock_table_ lm !! id = Some queue ->
  find_request (get_transaction_id t) (request_queue_ queue) = Some (i, req) ->
  ~ (granted_ req = true /\ lock_mode_ req = mode) ->
  let blocked := blocked_by (Some (get_transaction_id t)) mode (request_queue_ queue) in
  ((exists lm',
      lock (Some a) id mode lm
      = Throw (TransactionAbortException (get_transaction_id t) UPGRADE_CONFLICT) lm')
   <-> blocked)
  /\ (blocked ->
      lock (Some a) id mode lm
      = Throw (TransactionAbortException (get_transaction_id t) UPGRADE_CONFLICT) lm)
  /\ (~ blocked ->
      let reqs := <[i := mkLockRequest (txn_id_ req) mode true]> (request_queue_ queue) in
      reqs !! i = Some (mkLockRequest (get_transaction_id t) mode true)
      /\ lock (Some a) id mode lm
         = Ok true
             (mkLockManager
                (<[a := set_lock_set ({[id]} ∪ get_lock_set t) t]> (txns lm))
                (<[id := mkLockRequestQueue reqs (group_mode_of reqs)]> (lock_table_ lm)))
      /\ spec_strongest_granted reqs (group_mode_of reqs))
  /\ forall lhs rhs, is_compatible lhs rhs = spec_compatible lhs rhs.
Proof.
  intros Ht Hst Hq Hfind Hnot. cbv zeta.
  assert (granted_ req && bool_decide (lock_mode_ req = mode) = false) as Hsame.
  { apply andb_false_iff. destruct (granted_ req); [right | by left].
    apply bool_decide_eq_false. intros Hm. by apply Hnot. }
  pose proof (find_request_Some _ _ _ _ Hfind) as (Hi & Hid & _).
  assert (forall c, conflicts (Some (get_transaction_id t)) mode (request_queue_ queue) = c ->
            lock (Some a) id mode lm
            = if c
              then Throw (TransactionAbortException (get_transaction_id t) UPGRADE_CONFLICT) lm
              else
                let reqs :=
                  <[i := mkLockRequest (txn_id_ req) mode true]> (request_queue_ queue) in
                Ok true
                  (mkLockManager
                     (<[a := set_lock_set ({[id]} ∪ get_lock_set t) t]> (txns lm))
                     (<[id := mkLockRequestQueue reqs (group_mode_of reqs)]> (lock_table_ lm))))
    as Hlock.
  { intros c Hc. unfold lock. lm_unfold. rewrite Ht. lm_norm.
    rewrite decide_False by done. rewrite Hq. lm_norm. rewrite Hfind, Hsame, Hc.
    destruct c; [done |]. lm_norm. rewrite Ht. lm_norm.
    unfold update_group_lock_mode. lm_norm. done. }
  specialize (Hlock _ eq_refl).
  split; [| split; [| split; [| apply is_compatible_spec]]].
  - split.
    + intros [lm' Hl]. apply conflicts_blocked.
      destruct (conflicts _ _ _) eqn:Hc; [done |].
      rewrite Hlock in Hl. done.
    + intros Hb%conflicts_blocked. exists lm. by rewrite Hlock, Hb.
  - intros Hb%conflicts_blocked. by rewrite Hlock, Hb.
  - intros Hb%conflicts_not_blocked. split; [| split].
    + rewrite list_lookup_insert_eq by (by eapply lookup_lt_Some). by rewrite Hid.
    + by rewrite Hlock, Hb.
    + apply group_mode_of_strongest.
Qed.

Lemma lock_upgrade_witness :
  let id := table_lock_id 3 in
  let t := mkTransaction 7 0 GROWING {[table_lock_id 3]} [] in
  (let queue :=
     mkLockRequestQueue [mkLockRequest 7 INTENTION_SHARED true;
                         mkLockRequest 8 INTENTION_SHARED true] GroupLockMode.IS in
   let req := mkLockRequest 7 INTENTION_SHARED true in
   txns example_lm_intent !! 1 = Some t
   /\ get_state t <> SHRINKING
   /\ lock_table_ example_lm_intent !! id = Some queue
   /\ find_request (get_transaction_id t) (request_queue_ queue) = Some (0%nat, req)
   /\ ~ (granted_ req = true /\ lock_mode_ req = SHARED)
   /\ ~ blocked_by (Some (get_transaction_id t)) SHARED (request_queue_ queue)
   /\ lock (Some 1) id SHARED example_lm_intent = Ok true example_lm_intent_shared
   /\ spec_strongest_granted
        [mkLockRequest 7 SHARED true; mkLockRequest 8 INTENTION_SHARED true]
        GroupLockMode.S)
  /\ (let queue :=
        mkLockRequestQueue [mkLockRequest 7 SHARED true; mkLockRequest 8 SHARED true]
                           GroupLockMode.S in
      let req := mkLockRequest 7 SHARED true in
      txns example_lm !! 1 = Some t
      /\ get_state t <> SHRINKING
      /\ lock_table_ example_lm !! id = Some queue
      /\ find_request (get_transaction_id t) (request_queue_ queue) = Some (0%nat, req)
      /\ ~ (granted_ req = true /\ lock_mode_ req = EXLUCSIVE)
      /\ blocked_by (Some (get_transaction_id t)) EXLUCSIVE (request_queue_ queue)
      /\ lock (Some 1) id EXLUCSIVE example_lm
         = Throw (TransactionAbortException 7 UPGRADE_CONFLICT) example_lm).
Proof.
  intros id t. split.
  - intros queue req.
    assert (txns example_lm_intent !! 1 = Some t) as Ht by (vm_compute; reflexivity).
    assert (get_state t <> SHRINKING) as Hst by discriminate.
    assert (lock_table_ example_lm_intent !! id = Some queue) as Hq
      by (vm_compute; reflexivity).
    assert (find_request (get_transaction_id t) (request_queue_ queue) = Some (0%nat, req))
      as Hfind by (vm_compute; reflexivity).
    assert (~ (granted_ req = true /\ lock_mode_ req = SHARED)) as Hnot
      by (intros [_ Hm]; discriminate Hm).
    assert (~ blocked_by (Some (get_transaction_id t)) SHARED (request_queue_ queue)) as Hfree
      by (apply conflicts_not_blocked; vm_compute; reflexivity).
    destruct (lock_upgrade example_lm_intent 1 t id SHARED queue 0%nat req Ht Hst Hq Hfind Hnot)
      as (_ & _ & Hgrant & _).
    destruct (Hgrant Hfree) as (_ & Hlock & Hmode).
    split; [exact Ht |]. split; [exact Hst |]. split; [exact Hq |]. split; [exact Hfind |].
    split; [exact Hnot |]. split; [exact Hfree |]. split; [| exact Hmode].
    rewrite Hlock. vm_compute. reflexivity.
  - intros queue req.
    assert (txns example_lm !! 1 = Some t) as Ht by (vm_compute; reflexivity).
    assert (get_state t <> SHRINKING) as Hst by discriminate.
    assert (lock_table_ example_lm !! id = Some queue) as Hq by (vm_compute; reflexivity).
    assert (find_request (get_transaction_id t) (request_queue_ queue) = Some (0%nat, req))
      as Hfind by (vm_compute; reflexivity).
    assert (~ (granted_ req = true /\ lock_mode_ req = EXLUCSIVE)) as Hnot
      by (intros [_ Hm]; discriminate Hm).
    assert (blocked_by (Some (get_transaction_id t)) EXLUCSIVE (request_queue_ queue)) as Hb
      by (apply conflicts_blocked; vm_compute; reflexivity).
    destruct (lock_upgrade example_lm 1 t id EXLUCSIVE queue 0%nat req Ht Hst Hq Hfind Hnot)
      as (_ & Hrefuse & _).
    split; [exact Ht |]. split; [exact Hst |]. split; [exact Hq |]. split; [exact Hfind |].
    split; [exact Hnot |]. split; [exact Hb |]. exact (Hrefuse Hb).
Defined.

Lemma txns_evolve_refl lm : txns_evolve lm lm.
Proof. intros b t Ht. eauto. Qed.

Lemma txns_evolve_table lm tbl : txns_evolve lm (mkLockManager (txns lm) tbl).
Proof. intros b t Ht. eauto. Qed.

Lemma txns_evolve_update lm a t f tbl :
  txns lm !! a = Some t ->
  get_transaction_id (f t) = get_transaction_id t ->
  (get_state t = SHRINKING -> get_state (f t) = SHRINKING) ->
  txns_evolve lm (mkLockManager (<[a := f t]> (txns lm)) tbl).
Proof.
  intros Ht Hid Hst b t0 Hb. cbn. destruct (decide (b = a)) as [-> | Hne].
  - rewrite lookup_insert_eq. rewrite Ht in Hb. injection Hb as <-. eauto.
  - rewrite lookup_insert_ne by done. eauto.
Qed.

Lemma lock_txns_evolve txn id mode lm r :
  lock txn id mode lm = r ->
  match r with
  | Ok _ lm' => txns_evolve lm lm'
  | Throw _ lm' => txns_evolve lm lm'
  | Undef _ => True
  end.
Proof.
  intros <-. unfold lock. destruct txn as [a |]; [| apply txns_evolve_refl].
  lm_unfold. destruct (txns lm !! a) as [t|] eqn:Ht; [| done]. lm_norm.
  destruct (decide (get_state t = SHRINKING)) as [Hs | Hs]; [apply txns_evolve_refl |].
  destruct (lock_table_ lm !! id) as [queue|] eqn:Hq; lm_norm.
  - destruct (find_request _ _) as [[i req] |].
    + destruct (_ && _); [apply txns_evolve_refl |].
      destruct (conflicts _ _ _); [apply txns_evolve_refl |].
      lm_norm. rewrite Ht. lm_norm.
      apply (txns_evolve_update lm a t (set_lock_set _)); done.
    + destruct (conflicts _ _ _); [apply txns_evolve_refl |].
      lm_norm. rewrite Ht. lm_norm.
      apply (txns_evolve_update lm a t
               (fun t => (if decide (get_state (set_lock_set ({[id]} ∪ get_lock_set t) t) = DEFAULT)
                          then set_state GROWING (set_lock_set ({[id]} ∪ get_lock_set t) t)
                          else set_lock_set ({[id]} ∪ get_lock_set t) t))); [done | |].
      * by destruct (decide _).
      * cbn. intros Hst. done.
  - cbn [find_request conflicts existsb]. lm_norm. rewrite Ht. lm_norm.
    apply (txns_evolve_update lm a t
               (fun t => (if decide (get_state (set_lock_set ({[id]} ∪ get_lock_set t) t) = DEFAULT)
                          then set_state GROWING (set_lock_set ({[id]} ∪ get_lock_set t) t)
                          else set_lock_set ({[id]} ∪ get_lock_set t) t))); [done | |].
    + by destruct (decide _).
    + cbn. intros Hst. done.
Qed.
(** [unlock] as a decision tree. *)
Lemma unlock_flat txn id lm :
  unlock txn id lm
  = match lock_table_ lm !! id with
    | None => Ok false lm
    | Some queue =>
        match request_queue_ queue with
        | [] => Ok false lm
        | _ :: _ =>
            match txn with
            | None => Undef NullDereference
            | Some a =>
                match txns lm !! a with
                | None => Undef NullDereference
                | Some t =>
                    match find_request (get_transaction_id t) (request_queue_ queue) with
                    | None => Ok false lm
                    | Some (i, _) =>
                        let reqs := delete i (request_queue_ queue) in
                        let t1 := set_lock_set (get_lock_set t ∖ {[id]}) t in
                        let t2 := if decide (get_state t = GROWING)
                                  then set_state SHRINKING t1 else t1 in
                        Ok true
                          (mkLockManager
                             (<[a := t2]> (txns lm))
                             (match reqs with
                              | [] => delete id (lock_table_ lm)
                              | _ :: _ =>
                                  <[id := mkLockRequestQueue reqs (group_mode_of reqs)]>
                                    (lock_table_ lm)
                              end))
                    end
                end
            end
        end
    end.
Proof.
  unfold unlock. lm_unfold.
  destruct (lock_table_ lm !! id) as [queue|] eqn:Hq; [| done].
  destruct (request_queue_ queue) as [| r0 reqs0] eqn:Hreqs; [done |].
  destruct txn as [a |]; [| done].
  destruct (txns lm !! a) as [t|] eqn:Ht; [| done]. lm_norm.
  destruct (find_request _ _) as [[i req] |]; [| done].
  lm_norm. rewrite Ht. lm_norm.
  change (get_state (set_lock_set (get_lock_set t ∖ {[id]}) t)) with (get_state t).
  destruct (delete i (r0 :: reqs0)) as [| r1 reqs1]; lm_norm; done.
Qed.

Lemma unlock_txns_evolve txn id lm r :
  unlock txn id lm = r ->
  match r with
  | Ok _ lm' => txns_evolve lm lm'
  | Throw _ lm' => txns_evolve lm lm'
  | Undef _ => True
  end.
Proof.
  intros <-. rewrite unlock_flat.
  destruct (lock_table_ lm !! id) as [queue|]; [| apply txns_evolve_refl].
  destruct (request_queue_ queue) as [| r0 reqs0]; [apply txns_evolve_refl |].
  destruct txn as [a |]; [| done].
  destruct (txns lm !! a) as [t|] eqn:Ht; [| done].
  destruct (find_request _ _) as [[i req] |]; [| apply txns_evolve_refl].
  cbv zeta.
  apply (txns_evolve_update lm a t
           (fun t => if decide (get_state t = GROWING)
                     then set_state SHRINKING (set_lock_set (get_lock_set t ∖ {[id]}) t)
                     else set_lock_set (get_lock_set t ∖ {[id]}) t)); [done | |].
  - by destruct (decide _).
  - intros Hst. rewrite decide_False by congruence. done.
Qed.

Lemma lm_call_txns_evolve c lm r :
  lm_call c lm = r ->
  match r with
  | Ok _ lm' => txns_evolve lm lm'
  | Throw _ lm' => txns_evolve lm lm'
  | Undef _ => True
  end.
Proof. destruct c; [apply lock_txns_evolve | apply unlock_txns_evolve]. Qed.

Lemma shrinking_evolve lm lm' a : txns_evolve lm lm' -> shrinking lm a -> shrinking lm' a.
Proof.
  intros He (t & Ht & Hst). destruct (He _ _ Ht) as (t' & Ht' & _ & Hst'). exists t'. eauto.
Qed.

Lemma lock_in_shrinking lm a t id mode :
  txns lm !! a = Some t -> get_state t = SHRINKING ->
  lock (Some a) id mode lm
  = Throw (TransactionAbortException (get_transaction_id t) LOCK_ON_SHIRINKING) lm.
Proof.
  intros Ht Hst. unfold lock. lm_unfold. rewrite Ht. lm_norm. by rewrite decide_True.
Qed.

Lemma txns_evolve_trans lm1 lm2 lm3 :
  txns_evolve lm1 lm2 -> txns_evolve lm2 lm3 -> txns_evolve lm1 lm3.
Proof.
  intros H12 H23 b t Hb.
  destruct (H12 _ _ Hb) as (t' & Ht' & Hid' & Hst').
  destruct (H23 _ _ Ht') as (t'' & Ht'' & Hid'' & Hst'').
  exists t''. split; [done |]. split; [congruence | tauto].
Qed.

Lemma lm_calls_txns_evolve cs lm lm' : lm_calls cs lm = Some lm' -> txns_evolve lm lm'.
Proof.
  revert lm. induction cs as [| c cs IH]; intros lm H; cbn in H.
  - injection H as <-. apply txns_evolve_refl.
  - pose proof (lm_call_txns_evolve c lm _ eq_refl) as He.
    destruct (lm_call c lm) as [b lm1 | e lm1 |]; [| | done];
      (eapply txns_evolve_trans; [done | by apply IH]).
Qed.

(** A successful [unlock] by a growing transaction leaves it shrinking. *)
Lemma unlock_growing lm a t id lm1 :
  txns lm !! a = Some t -> get_state t = GROWING ->
  unlock (Some a) id lm = Ok true lm1 ->
  exists t1, txns lm1 !! a = Some t1
             /\ get_transaction_id t1 = get_transaction_id t /\ get_state t1 = SHRINKING.
Proof.
  intros Ht Hst Hu. rewrite unlock_flat in Hu.
  destruct (lock_table_ lm !! id) as [queue|]; [| done].
  destruct (request_queue_ queue) as [| r0 reqs0]; [done |].
  rewrite Ht in Hu. destruct (find_request _ _) as [[i req] |]; [| done].
  cbv zeta in Hu. rewrite decide_True in Hu by done. injection Hu as <-.
  eexists. cbn. rewrite lookup_insert_eq. done.
Qed.

(** C4 (amended): once an [unlock] called by a GROWING transaction has
    released a lock (it returned true), the transaction is SHRINKING, and
    after any further calls of [lock] and [unlock], by any transaction,
    every [lock] called by the transaction raises TransactionAbort with
    LOCK_ON_SHIRINKING and leaves the lock manager as it is. *)
Theorem unlock_begins_shrinking lm a t id lm1 cs lm2 id' mode :
  txns lm !! a = Some t ->
  get_state t = GROWING ->
  unlock (Some a) id lm = Ok true lm1 ->
  lm_calls cs lm1 = Some lm2 ->
  shrinking lm1 a
  /\ lock (Some a) id' mode lm2
     = Throw (TransactionAbortException (get_transaction_id t) LOCK_ON_SHIRINKING) lm2.
Proof.
  intros Ht Hst Hu Hcs.
  destruct (unlock_growing _ _ _ _ _ Ht Hst Hu) as (t1 & Ht1 & Hid1 & Hst1).
  split; [by exists t1 |].
  destruct (lm_calls_txns_evolve _ _ _ Hcs _ _ Ht1) as (t2 & Ht2 & Hid2 & Hst2).
  rewrite (lock_in_shrinking lm2 a t2) by auto. by rewrite Hid2, Hid1.
Qed.

Lemma unlock_begins_shrinking_witness :
  let t := mkTransaction 7 0 GROWING {[table_lock_id 3]} [] in
  let cs := [CallLock (Some 3) (table_lock_id 4) EXLUCSIVE;
             CallLock (Some 2) (table_lock_id 4) SHARED] in
  txns example_lm !! 1 = Some t
  /\ get_state t = GROWING
  /\ unlock (Some 1) (table_lock_id 3) example_lm = Ok true example_lm_released
  /\ lm_calls cs example_lm_released = Some example_lm_later
  /\ shrinking example_lm_released 1
  /\ lock (Some 1) (table_lock_id 5) INTENTION_SHARED example_lm_later
     = Throw (TransactionAbortException (get_transaction_id t) LOCK_ON_SHIRINKING)
             example_lm_later.
Proof.
  intros t cs.
  assert (txns example_lm !! 1 = Some t) as Ht by (vm_compute; reflexivity).
  assert (unlock (Some 1) (table_lock_id 3) example_lm = Ok true example_lm_released) as Hu
    by (vm_compute; reflexivity).
  assert (lm_calls cs example_lm_released = Some example_lm_later) as Hcs
    by (vm_compute; reflexivity).
  split; [exact Ht |]. split; [reflexivity |]. split; [exact Hu |]. split; [exact Hcs |].
  exact (unlock_begins_shrinking example_lm 1 t (table_lock_id 3) example_lm_released cs
           example_lm_later (table_lock_id 5) INTENTION_SHARED Ht eq_refl Hu Hcs).
Defined.


(** C4 as stated fails: transaction 9 is GROWING and holds no lock on
    table 3; its [unlock] of table 3 finds nothing to release, returns
    false and leaves the transaction GROWING, and its next [lock] is
    granted. *)
Lemma unlock_then_lock_granted :
  unlock (Some 3) (table_lock_id 3) example_lm = Ok false example_lm
  /\ exists lm2, lock (Some 3) (table_lock_id 3) SHARED example_lm = Ok true lm2.
Proof. split; [vm_compute; reflexivity |]. eexists. vm_compute. reflexivity. Qed.
(** * Reasoning about abort *)

Lemma restores_refl fh : restores fh fh.
Proof.
  do 3 (split; [done |]). split; [lia |]. split.
  - intros p pg Hpg. exists pg. done.
  - intros p pg Hpg Hnone. congruence.
Qed.

Lemma popcount_set_pos bm s : Bitmap.is_set bm s = Some true -> 0 < Bitmap.popcount bm.
Proof.
  intros [_ Hl]%is_set_Some. revert Hl. generalize (Z.to_nat s) as i.
  induction bm as [| b bm IH]; intros [| i] Hl; try done; rewrite popcount_cons.
  - cbn in Hl. injection Hl as ->. pose proof (popcount_nonneg bm). lia.
  - cbn in Hl. specialize (IH _ Hl). destruct b; lia.
Qed.

Lemma restores_same_live_records fh0 fh :
  rm_inv fh0 -> restores fh0 fh -> same_live_records fh0 fh.
Proof.
  intros (l0 & Hhdr0 & [Hdom0 Hpages0] & _) (Hrs & Hn & Hbs & Hnp & Hold & Hnew) rid v.
  split.
  - intros (Hv & pg0 & Hpg0 & Hbit & Hr).
    destruct (Hold _ _ Hpg0) as (pg & Hpg & Hbm & Hbytes).
    split; [lia |]. exists pg. split; [done |]. rewrite Hbm, Hrs. split; [done |].
    by rewrite Hbytes.
  - intros (Hv & pg & Hpg & Hbit & Hr).
    destruct (pages_ fh0 !! page_no rid) as [pg0|] eqn:Hpg0.
    + destruct (Hold _ _ Hpg0) as (pg' & Hpg' & Hbm & Hbytes).
      rewrite Hpg in Hpg'. injection Hpg' as <-. rewrite Hbm in Hbit.
      split; [apply Hdom0; eauto |]. exists pg0. split; [done |]. split; [done |].
      rewrite <- Hbytes by done. by rewrite <- Hrs.
    + pose proof (Hnew _ _ Hpg Hpg0) as Hz. apply popcount_set_pos in Hbit. lia.
Qed.

Lemma live_delete_record fh l rid :
  rm_inv_with fh l -> live fh rid -> exists fh', delete_record rid fh = Ok tt fh'.
Proof.
  intros (Hhdr & [Hdom Hpages] & _) (Hv & pg & Hpg & Hbit).
  pose proof Hhdr as (Hrs & Hn & Hbs & Hbsm & Hnp).
  rewrite delete_record_flat. unfold delete_flat.
  replace (page_no rid <? RM_FIRST_RECORD_PAGE) with false by lia.
  replace (num_pages (file_hdr_ fh) <=? page_no rid) with false by lia.
  cbn [orb]. rewrite Hpg, Hbit.
  rewrite (assign_is_Some false _ _ _ Hbit : Bitmap.reset _ _ = _). cbv zeta.
  assert (0 <= num_records (page_hdr pg) <= num_records_per_page (file_hdr_ fh)) as Hcnt
    by (apply page_ok_count_le; [lia | by eapply Hpages]).
  replace (INT_MIN <? num_records (page_hdr pg)) with true by (unfold INT_MIN; lia).
  destruct (_ =? _); eauto.
Qed.

Lemma slot_write_defined h pg slot buf :
  hdr_ok h -> page_ok h pg -> 0 <= slot < num_records_per_page h ->
  record_size h <= Z.of_nat (length buf) ->
  is_Some (mem_write (slot * record_size h) (record_size h) buf (slots pg)).
Proof.
  intros (Hrs & Hn & _) (_ & Hlen & _) Hslot Hbuf.
  destruct (mem_write _ _ _ _) as [sl|] eqn:Hw; [eauto |]. exfalso.
  unfold mem_write in Hw.
  destruct (_ || _) eqn:Hc; [| done].
  repeat (apply orb_true_iff in Hc as [Hc | Hc]); try lia.
  rewrite Hlen in Hc. nia.
Qed.

Lemma live_update_record fh l rid buf :
  rm_inv_with fh l -> live fh rid ->
  record_size (file_hdr_ fh) <= Z.of_nat (length buf) ->
  exists fh', update_record rid buf fh = Ok tt fh'.
Proof.
  intros (Hhdr & [Hdom Hpages] & _) (Hv & pg & Hpg & Hbit) Hbuf.
  rewrite update_record_flat. unfold update_flat.
  replace (page_no rid <? RM_FIRST_RECORD_PAGE) with false by lia.
  replace (num_pages (file_hdr_ fh) <=? page_no rid) with false by lia.
  cbn [orb]. rewrite Hpg, Hbit.
  assert (0 <= slot_no rid < num_records_per_page (file_hdr_ fh)) as Hslot
    by (eapply slot_in_page; eauto).
  destruct (slot_write_defined (file_hdr_ fh) pg (slot_no rid) buf) as [sl ->]; eauto.
Qed.

Lemma dead_insert_record_at fh l rid buf pg :
  rm_inv_with fh l ->
  RM_FIRST_RECORD_PAGE <= page_no rid < num_pages (file_hdr_ fh) ->
  pages_ fh !! page_no rid = Some pg ->
  Bitmap.is_set (bitmap pg) (slot_no rid) = Some false ->
  0 <= slot_no rid < num_records_per_page (file_hdr_ fh) ->
  record_size (file_hdr_ fh) <= Z.of_nat (length buf) ->
  exists fh', insert_record_at rid buf fh = Ok tt fh'.
Proof.
  intros Hinv Hv Hpg Hbit Hslot Hbuf.
  pose proof (insert_record_at_inv fh l rid buf _ Hinv eq_refl) as H.
  pose proof Hinv as (Hhdr & [Hdom Hpages] & _).
  destruct (insert_record_at rid buf fh) as [[] fh' | e fh' |]; [eauto | |]; exfalso.
  - destruct H as [_ H]. apply H. eauto.
  - apply H. destruct (slot_write_defined (file_hdr_ fh) pg (slot_no rid) buf) as [sl Hsl]; eauto.
Qed.

Lemma same_records_except_insert p pg fh fh' :
  pages_ fh' = <[p := pg]> (pages_ fh) -> same_records_except p fh fh'.
Proof.
  intros Heq x Hx. rewrite Heq, lookup_insert_ne by done.
  by destruct (pages_ fh !! x).
Qed.

Lemma restores_undo p s0 s1 s1' s0' :
  same_sizes (file_hdr_ s0) (file_hdr_ s1) ->
  num_pages (file_hdr_ s0) <= num_pages (file_hdr_ s1) ->
  same_sizes (file_hdr_ s1') (file_hdr_ s0') ->
  num_pages (file_hdr_ s1') = num_pages (file_hdr_ s0') ->
  same_records_except p s0 s1 ->
  same_records_except p s1' s0' ->
  restores s1 s1' ->
  (forall pg0,
     pages_ s0 !! p = Some pg0 ->
     exists pg',
       pages_ s0' !! p = Some pg'
       /\ bitmap pg' = bitmap pg0
       /\ forall s,
            Bitmap.is_set (bitmap pg0) s = Some true ->
            mem_read (s * record_size (file_hdr_ s0)) (record_size (file_hdr_ s0)) (slots pg')
            = mem_read (s * record_size (file_hdr_ s0)) (record_size (file_hdr_ s0))
                       (slots pg0)) ->
  (pages_ s0 !! p = None ->
   forall pg', pages_ s0' !! p = Some pg' -> Bitmap.popcount (bitmap pg') = 0) ->
  restores s0 s0'.
Proof.
  intros (Hrs & Hn & Hbs) Hnp (Hrs' & Hn' & Hbs') Hnp' Hfwd Hbwd
    (Hrs1 & Hn1 & Hbs1 & Hnp1 & Hold & Hnew) Hp Hpnew.
  split; [lia |]. split; [lia |]. split; [lia |]. split; [lia |]. split.
  - intros x pg0 Hpg0. destruct (decide (x = p)) as [-> | Hx]; [by apply Hp |].
    specialize (Hfwd x Hx). specialize (Hbwd x Hx). rewrite Hpg0 in Hfwd.
    destruct (pages_ s1 !! x) as [pg1|] eqn:Hpg1; [| done].
    destruct (Hold _ _ Hpg1) as (pg1' & Hpg1' & Hbm & Hbytes).
    rewrite Hpg1' in Hbwd.
    destruct (pages_ s0' !! x) as [pg'|]; [| done].
    exists pg'. split; [done |]. destruct Hfwd as [Hb Hs], Hbwd as [Hb' Hs'].
    split; [congruence |]. intros s Hset.
    rewrite <- Hs', Hs, Hrs. apply Hbytes. by rewrite <- Hb.
  - intros x pg' Hpg' Hnone. destruct (decide (x = p)) as [-> | Hx]; [by eapply Hpnew |].
    specialize (Hfwd x Hx). specialize (Hbwd x Hx). rewrite Hnone in Hfwd.
    rewrite Hpg' in Hbwd.
    destruct (pages_ s1 !! x) eqn:Hpg1; [done |].
    destruct (pages_ s1' !! x) as [pg1'|] eqn:Hpg1'; [| done].
    destruct Hbwd as [<- _]. by eapply Hnew.
Qed.

Lemma insert_record_effect s0 l0 buf rid s1 :
  rm_inv_with s0 l0 -> insert_record buf s0 = Ok rid s1 ->
  exists pg sl bm pg1,
    same_sizes (file_hdr_ s0) (file_hdr_ s1)
    /\ num_pages (file_hdr_ s0) <= num_pages (file_hdr_ s1)
    /\ same_records_except (page_no rid) s0 s1
    /\ pages_ s1 !! page_no rid = Some pg1 /\ bitmap pg1 = bm /\ slots pg1 = sl
    /\ Bitmap.is_set (bitmap pg) (slot_no rid) = Some false
    /\ Bitmap.set (bitmap pg) (slot_no rid) = Some bm
    /\ mem_write (slot_no rid * record_size (file_hdr_ s0)) (record_size (file_hdr_ s0))
                 buf (slots pg) = Some sl
    /\ match pages_ s0 !! page_no rid with
       | Some pg0 => pg0 = pg
       | None => Bitmap.popcount (bitmap pg) = 0
       end.
Proof.
  intros Hinv Hins.
  pose proof (insert_record_inv _ _ _ _ Hinv Hins) as (fh0 & l0' & Hcase & Hinv0 & Hinto).
  pose proof (insert_into_inv _ _ _ _ _ Hinv0 Hinto)
    as (pg & slot & sl & bm & Hpg & Hrid & Hslot & Hbit & Hw & Hset & Hs1 & Hinv1).
  assert (slot = slot_no rid) as -> by (by rewrite Hrid).
  cbv zeta in Hs1. clear Hrid Hinto Hins Hinv1.
  exists pg, sl, bm. eexists.
  assert (same_sizes (file_hdr_ s0) (file_hdr_ fh0)
          /\ num_pages (file_hdr_ s0) <= num_pages (file_hdr_ fh0)
          /\ same_records_except (page_no rid) s0 fh0
          /\ match pages_ s0 !! page_no rid with
             | Some pg0 => pg0 = pg
             | None => Bitmap.popcount (bitmap pg) = 0
             end) as ((Hrs & Hn & Hbs) & Hnp & Hexc & Hold).
  { destruct Hcase as [[-> _] | (-> & _ & _ & Hp)].
    - split; [done |]. split; [lia |]. split.
      + intros x _. by destruct (pages_ s0 !! x).
      + by rewrite Hpg.
    - unfold with_new_page in *. cbn [file_hdr_ pages_ num_pages record_size
        num_records_per_page bitmap_size] in *.
      split; [done |]. split; [lia |]. split.
      + intros x Hx. cbn [pages_]. rewrite lookup_insert_ne by congruence.
        by destruct (pages_ s0 !! x).
      + rewrite Hp in Hpg |- *. rewrite lookup_insert_eq in Hpg. injection Hpg as <-.
        cbn [bitmap].
        destruct Hinv as (_ & [Hdom _] & _).
        destruct (pages_ s0 !! num_pages (file_hdr_ s0)) eqn:E.
        * assert (is_Some (pages_ s0 !! num_pages (file_hdr_ s0))) as Hs by eauto.
          apply Hdom in Hs. lia.
        * apply popcount_replicate_false. }
  rewrite <- Hrs in Hw.
  subst s1. cbn [file_hdr_ pages_]. rewrite lookup_insert_eq.
  split; [| split; [| split; [| split; [reflexivity | cbn [bitmap slots]; done]]]].
  - destruct (_ =? _); cbn; done.
  - destruct (_ =? _); cbn; lia.
  - intros x Hx. specialize (Hexc x Hx). cbn [pages_].
    by rewrite lookup_insert_ne by done.
Qed.

Lemma undo_insert_restores s0 l0 buf rid s1 s1' :
  rm_inv_with s0 l0 -> insert_record buf s0 = Ok rid s1 ->
  rm_inv s1' -> restores s1 s1' ->
  exists s0', delete_record rid s1' = Ok tt s0' /\ rm_inv s0' /\ restores s0 s0'.
Proof.
  intros Hinv Hins [l1' Hinv'] Hres.
  destruct (insert_record_effect _ _ _ _ _ Hinv Hins)
    as (pg & sl & bm & pg1 & Hsz & Hnp & Hexc & Hpg1 & Hbm & Hsl & Hbit & Hset & Hw & Hold).
  pose proof Hres as (Hrs1 & Hn1 & Hbs1 & Hnp1 & Hold1 & Hnew1).
  destruct (Hold1 _ _ Hpg1) as (pg1' & Hpg1' & Hbm1' & Hbytes).
  assert (Bitmap.is_set (bitmap pg1') (slot_no rid) = Some true) as Hlive.
  { rewrite Hbm1', Hbm. by eapply is_set_assign_eq. }
  assert (live s1' rid) as Hl.
  { split; [| eauto]. destruct Hinv' as (_ & [Hdom _] & _). apply Hdom. eauto. }
  destruct (live_delete_record _ _ _ Hinv' Hl) as [s0' Hdel].
  exists s0'. split; [done |].
  destruct (delete_record_inv _ _ _ _ Hinv' Hdel)
    as (pg' & bm' & Hpg' & Hslot & _ & Hreset & Hs0').
  cbv zeta in Hs0'. destruct Hs0' as [Hs0' Hinv0'].
  rewrite Hpg1' in Hpg'. injection Hpg' as <-.
  split; [by eexists |].
  assert (bm' = bitmap pg) as ->.
  { rewrite Hbm1', Hbm in Hreset.
    pose proof (assign_assign _ _ _ _ _ Hbit Hset) as H.
    unfold Bitmap.reset in Hreset. congruence. }
  apply (restores_undo (page_no rid) s0 s1 s1' s0'); try done.
  - subst s0'. cbn [file_hdr_]. destruct (_ =? _); done.
  - subst s0'. cbn [file_hdr_]. destruct (_ =? _); done.
  - eapply same_records_except_insert. by rewrite Hs0'.
  - intros pg0 Hpg0. rewrite Hpg0 in Hold. subst pg0.
    subst s0'. cbn [pages_]. rewrite lookup_insert_eq. eexists. split; [done |].
    cbn [bitmap slots]. split; [done |]. intros s Hs.
    destruct Hsz as (Hrs & _). rewrite Hrs. rewrite Hbytes.
    + rewrite Hsl, <- Hrs. eapply mem_read_write_disjoint; [done |].
      destruct Hinv as ((? & _) & _).
      apply slot_ranges_disjoint; [lia | congruence].
    + rewrite Hbm. unfold Bitmap.set in Hset.
      rewrite (is_set_assign_ne _ _ _ _ s Hset); [done | congruence].
  - intros Hnone pg0' Hpg0'. rewrite Hnone in Hold.
    subst s0'. cbn [pages_] in Hpg0'. rewrite lookup_insert_eq in Hpg0'.
    injection Hpg0' as <-. done.
Qed.
Lemma undo_delete_restores s0 l0 rid old s1 s1' :
  rm_inv_with s0 l0 -> record_at s0 rid old -> delete_record rid s0 = Ok tt s1 ->
  rm_inv s1' -> restores s1 s1' ->
  exists s0', insert_record_at rid old s1' = Ok tt s0' /\ rm_inv s0' /\ restores s0 s0'.
Proof.
  intros Hinv (Hv & pg0 & Hpg0 & Hbit0 & Hread) Hdel [l1' Hinv'] Hres.
  destruct (delete_record_inv _ _ _ _ Hinv Hdel)
    as (pg & bm & Hpg & Hslot & Hbit & Hreset & Hs1).
  cbv zeta in Hs1. destruct Hs1 as [Hs1 Hinv1].
  rewrite Hpg0 in Hpg. injection Hpg as <-.
  pose proof Hres as (Hrs1 & Hn1 & Hbs1 & Hnp1 & Hold1 & Hnew1).
  assert (same_sizes (file_hdr_ s0) (file_hdr_ s1)
          /\ num_pages (file_hdr_ s0) = num_pages (file_hdr_ s1)) as [Hsz Hnp].
  { subst s1. cbn [file_hdr_]. destruct (_ =? _); done. }
  pose proof Hsz as (Hrs & Hn & Hbs).
  assert (exists pg1, pages_ s1 !! page_no rid = Some pg1 /\ bitmap pg1 = bm
                      /\ slots pg1 = slots pg0) as (pg1 & Hpg1 & Hbm1 & Hsl1).
  { subst s1. cbn [pages_]. rewrite lookup_insert_eq. eauto. }
  destruct (Hold1 _ _ Hpg1) as (pg1' & Hpg1' & Hbm1' & Hbytes).
  assert (Bitmap.is_set (bitmap pg1') (slot_no rid) = Some false) as Hdead.
  { rewrite Hbm1', Hbm1. by eapply is_set_assign_eq. }
  pose proof (mem_read_length _ _ _ _ Hread) as Hlen.
  destruct (dead_insert_record_at s1' l1' rid old pg1') as [s0' Hundo]; try done; try lia.
  exists s0'. split; [done |].
  pose proof (insert_record_at_inv _ _ _ _ _ Hinv' Hundo)
    as (pg' & sl & bm' & la & lb & Hpg' & _ & _ & Hw & Hset & _ & Hlay & Hp' & Hothers & Hinv0').
  rewrite Hpg1' in Hpg'. injection Hpg' as <-.
  split; [by eexists |].
  assert (bm' = bitmap pg0) as ->.
  { rewrite Hbm1', Hbm1 in Hset.
    pose proof (assign_assign _ _ _ _ _ Hbit0 Hreset) as H.
    unfold Bitmap.set in Hset. congruence. }
  destruct Hlay as (Hlrs & Hlnp & Hln & Hlbs).
  apply (restores_undo (page_no rid) s0 s1 s1' s0'); try done.
  - lia.
  - eapply same_records_except_insert. by rewrite Hs1.
  - intros x Hx. destruct (pages_ s1' !! x) as [xg|] eqn:Hxg.
    + destruct (Hothers _ _ Hx Hxg) as (xg' & -> & Hb & Hs & _). done.
    + destruct (pages_ s0' !! x) eqn:Hxg'; [| done].
      destruct Hinv' as (_ & [Hdom _] & _), Hinv0' as (_ & [Hdom' _] & _).
      assert (is_Some (pages_ s1' !! x)) as [? Hs]; [| congruence].
      apply Hdom. rewrite Hlnp. apply Hdom'. eauto.
  - intros pg Hpg. rewrite Hpg0 in Hpg. injection Hpg as <-.
    eexists. split; [done |]. cbn [bitmap slots]. split; [done |]. intros s Hs.
    destruct (decide (s = slot_no rid)) as [-> | Hne].
    + rewrite Hread. rewrite Hrs1, <- Hrs in Hw.
      rewrite (mem_read_write_eq _ _ _ _ _ Hw).
      f_equal. apply take_ge. lia.
    + rewrite Hrs1, <- Hrs in Hw.
      rewrite (mem_read_write_disjoint _ _ _ _ _ _ _ Hw).
      * rewrite Hrs, Hbytes, Hsl1; [done |].
        rewrite Hbm1. unfold Bitmap.reset in Hreset.
        by rewrite (is_set_assign_ne _ _ _ _ s Hreset).
      * destruct Hinv as ((? & _) & _). apply slot_ranges_disjoint; [lia | done].
  - intros Hnone. congruence.
Qed.

Lemma undo_update_restores s0 l0 rid buf old s1 s1' :
  rm_inv_with s0 l0 -> record_at s0 rid old -> update_record rid buf s0 = Ok tt s1 ->
  rm_inv s1' -> restores s1 s1' ->
  exists s0', update_record rid old s1' = Ok tt s0' /\ rm_inv s0' /\ restores s0 s0'.
Proof.
  intros Hinv (Hv & pg0 & Hpg0 & Hbit0 & Hread) Hupd [l1' Hinv'] Hres.
  destruct (update_record_inv _ _ _ _ _ Hinv Hupd)
    as (pg & sl1 & Hpg & _ & Hw1 & Hs1 & Hinv1).
  rewrite Hpg0 in Hpg. injection Hpg as <-.
  pose proof Hres as (Hrs1 & Hn1 & Hbs1 & Hnp1 & Hold1 & Hnew1).
  assert (file_hdr_ s1 = file_hdr_ s0) as Hhdr by (by subst s1).
  assert (pages_ s1 !! page_no rid = Some (set_slots sl1 pg0)) as Hpg1.
  { subst s1. cbn [pages_]. by rewrite lookup_insert_eq. }
  destruct (Hold1 _ _ Hpg1) as (pg1' & Hpg1' & Hbm1' & Hbytes).
  cbn [set_slots bitmap slots] in Hbm1', Hbytes.
  assert (live s1' rid) as Hl.
  { split; [| exists pg1'; by rewrite Hbm1'].
    destruct Hinv' as (_ & [Hdom _] & _). apply Hdom. eauto. }
  pose proof (mem_read_length _ _ _ _ Hread) as Hlen.
  rewrite Hhdr in *.
  destruct (live_update_record s1' l1' rid old Hinv' Hl) as [s0' Hundo]; [lia |].
  exists s0'. split; [done |].
  destruct (update_record_inv _ _ _ _ _ Hinv' Hundo)
    as (pg' & sl & Hpg' & _ & Hw & Hs0' & Hinv0').
  rewrite Hpg1' in Hpg'. injection Hpg' as <-.
  split; [by eexists |].
  apply (restores_undo (page_no rid) s0 s1 s1' s0'); try done.
  - by rewrite Hhdr.
  - rewrite Hhdr. lia.
  - by subst s0'.
  - by subst s0'.
  - eapply same_records_except_insert. by rewrite Hs1.
  - eapply same_records_except_insert. by rewrite Hs0'.
  - intros pg Hpg. rewrite Hpg0 in Hpg. injection Hpg as <-.
    subst s0'. cbn [pages_]. rewrite lookup_insert_eq.
    eexists. split; [done |]. cbn [set_slots bitmap slots]. split; [done |]. intros s Hs.
    rewrite Hrs1 in Hw.
    destruct (decide (s = slot_no rid)) as [-> | Hne].
    + rewrite Hread, (mem_read_write_eq _ _ _ _ _ Hw).
      f_equal. apply take_ge. lia.
    + destruct Hinv as ((? & _) & _).
      rewrite (mem_read_write_disjoint _ _ _ _ _ _ _ Hw)
        by (apply slot_ranges_disjoint; [lia | done]).
      rewrite Hbytes by done.
      apply (mem_read_write_disjoint _ _ _ _ _ _ _ Hw1).
      apply slot_ranges_disjoint; [lia | done].
  - intros Hnone. congruence.
Qed.
Lemma on_table_Ok {A} tab_name (m : M RmFileHandle A) fhs a fhs' :
  on_table tab_name m fhs = Ok a fhs' <->
  exists fh fh', fhs !! tab_name = Some fh /\ m fh = Ok a fh' /\ fhs' = <[tab_name := fh']> fhs.
Proof.
  unfold on_table. destruct (fhs !! tab_name) as [fh|]; [| split; [done | by intros (? & ? & ? & _)]].
  destruct (m fh) as [a' fh' | e fh' | u] eqn:Hm.
  - split.
    + intros [= -> <-]. eauto.
    + intros (? & ? & [= <-] & Hm' & ->). rewrite Hm in Hm'. by injection Hm' as -> ->.
  - split; [done |]. intros (? & ? & [= <-] & Hm' & _). congruence.
  - split; [done |]. intros (? & ? & [= <-] & Hm' & _). congruence.
Qed.

Lemma catalog_inv_insert tab_name fh fhs :
  catalog_inv fhs -> rm_inv fh -> catalog_inv (<[tab_name := fh]> fhs).
Proof.
  intros Hinv Hfh tab fh'. destruct (decide (tab = tab_name)) as [-> | Hne].
  - rewrite lookup_insert_eq. by intros [= <-].
  - rewrite lookup_insert_ne by done. apply Hinv.
Qed.

Lemma catalog_restores_refl fhs : catalog_restores fhs fhs.
Proof. intros tab. destruct (fhs !! tab); [apply restores_refl | done]. Qed.

Lemma catalog_restores_lookup fhs0 fhs tab_name fh0 :
  catalog_restores fhs0 fhs -> fhs0 !! tab_name = Some fh0 ->
  exists fh, fhs !! tab_name = Some fh /\ restores fh0 fh.
Proof.
  intros Hres Hfh0. specialize (Hres tab_name). rewrite Hfh0 in Hres.
  destruct (fhs !! tab_name); [eauto | done].
Qed.

Lemma catalog_undo_step tab_name s0 s1 s0' fhs0 fhs1' :
  fhs0 !! tab_name = Some s0 ->
  catalog_restores (<[tab_name := s1]> fhs0) fhs1' ->
  restores s0 s0' ->
  catalog_restores fhs0 (<[tab_name := s0']> fhs1').
Proof.
  intros Hs0 Hres Hs tab. specialize (Hres tab).
  destruct (decide (tab = tab_name)) as [-> | Hne].
  - by rewrite Hs0, lookup_insert_eq.
  - by rewrite !lookup_insert_ne in * by done.
Qed.

Lemma undo_write_table wr fhs fh :
  fhs !! GetTableName wr = Some fh ->
  undo_write wr fhs
  = on_table (GetTableName wr)
      (match GetWriteType wr with
       | INSERT_TUPLE => delete_record (GetRid wr)
       | DELETE_TUPLE => insert_record_at (GetRid wr) (GetRecord wr)
       | UPDATE_TUPLE => update_record (GetRid wr) (GetRecord wr)
       end) fhs.
Proof.
  intros Hfh. unfold undo_write, bind, read_state. rewrite Hfh.
  by destruct (GetWriteType wr).
Qed.

Lemma undo_write_absent wr fhs :
  fhs !! GetTableName wr = None -> undo_write wr fhs = Ok tt fhs.
Proof. intros Hfh. unfold undo_write, bind, read_state, ret. by rewrite Hfh. Qed.

Lemma txn_op_undo op fhs0 wr fhs1 :
  catalog_inv fhs0 -> txn_op op fhs0 = Ok wr fhs1 ->
  catalog_inv fhs1
  /\ forall fhs1',
       catalog_inv fhs1' -> catalog_restores fhs1 fhs1' ->
       exists fhs0',
         undo_write wr fhs1' = Ok tt fhs0'
         /\ catalog_inv fhs0' /\ catalog_restores fhs0 fhs0'.
Proof.
  intros Hinv Hop. destruct op as [tab buf | tab rid | tab rid buf];
    unfold txn_op, bind, ret in Hop.
  - destruct (on_table tab (insert_record buf) fhs0) as [rid fhs|?|] eqn:Hins; [| done..].
    injection Hop as <- ->.
    apply on_table_Ok in Hins as (s0 & s1 & Hs0 & Hins & ->).
    pose proof (Hinv _ _ Hs0) as [l0 Hinv0].
    pose proof (rm_call_inv (CallInsert buf) s0 _ (ex_intro _ l0 Hinv0) eq_refl) as Hinv1.
    unfold rm_call, bind, ret in Hinv1. rewrite Hins in Hinv1.
    split; [by apply catalog_inv_insert |]. intros fhs1' Hinv' Hres.
    destruct (catalog_restores_lookup _ _ tab s1 Hres) as (s1' & Hs1' & Hr);
      [by rewrite lookup_insert_eq |].
    destruct (undo_insert_restores _ _ _ _ _ s1' Hinv0 Hins) as (s0' & Hdel & Hinv0' & Hr0);
      [by eapply Hinv' | done |].
    exists (<[tab := s0']> fhs1').
    split; [| split; [by apply catalog_inv_insert | by eapply catalog_undo_step]].
    rewrite (undo_write_table _ _ s1') by done. cbn.
    apply on_table_Ok. eauto.
  - destruct (on_table tab (get_record rid) fhs0) as [old fhs|?|] eqn:Hget; [| done..].
    apply on_table_Ok in Hget as (s0 & s0_ & Hs0 & Hget & ->).
    apply get_record_Ok in Hget as [-> Hrec]. rewrite insert_id in Hop by done.
    destruct (on_table tab (delete_record rid) fhs0) as [[] fhs|?|] eqn:Hdel; [| done..].
    injection Hop as <- ->.
    apply on_table_Ok in Hdel as (s0_ & s1 & Hs0_ & Hdel & ->).
    rewrite Hs0 in Hs0_. injection Hs0_ as <-.
    pose proof (Hinv _ _ Hs0) as [l0 Hinv0].
    pose proof (rm_call_inv (CallDelete rid) s0 _ (ex_intro _ l0 Hinv0) eq_refl) as Hinv1.
    unfold rm_call, bind, ret in Hinv1. rewrite Hdel in Hinv1.
    split; [by apply catalog_inv_insert |]. intros fhs1' Hinv' Hres.
    destruct (catalog_restores_lookup _ _ tab s1 Hres) as (s1' & Hs1' & Hr);
      [by rewrite lookup_insert_eq |].
    destruct (undo_delete_restores _ _ _ _ _ s1' Hinv0 Hrec Hdel) as (s0' & Hundo & Hinv0' & Hr0);
      [by eapply Hinv' | done |].
    exists (<[tab := s0']> fhs1').
    split; [| split; [by apply catalog_inv_insert | by eapply catalog_undo_step]].
    rewrite (undo_write_table _ _ s1') by done. cbn.
    apply on_table_Ok. eauto.
  - destruct (on_table tab (get_record rid) fhs0) as [old fhs|?|] eqn:Hget; [| done..].
    apply on_table_Ok in Hget as (s0 & s0_ & Hs0 & Hget & ->).
    apply get_record_Ok in Hget as [-> Hrec]. rewrite insert_id in Hop by done.
    destruct (on_table tab (update_record rid buf) fhs0) as [[] fhs|?|] eqn:Hupd; [| done..].
    injection Hop as <- ->.
    apply on_table_Ok in Hupd as (s0_ & s1 & Hs0_ & Hupd & ->).
    rewrite Hs0 in Hs0_. injection Hs0_ as <-.
    pose proof (Hinv _ _ Hs0) as [l0 Hinv0].
    pose proof (rm_call_inv (CallUpdate rid buf) s0 _ (ex_intro _ l0 Hinv0) eq_refl) as Hinv1.
    unfold rm_call, bind, ret in Hinv1. rewrite Hupd in Hinv1.
    split; [by apply catalog_inv_insert |]. intros fhs1' Hinv' Hres.
    destruct (catalog_restores_lookup _ _ tab s1 Hres) as (s1' & Hs1' & Hr);
      [by rewrite lookup_insert_eq |].
    destruct (undo_update_restores _ _ _ _ _ _ s1' Hinv0 Hrec Hupd)
      as (s0' & Hundo & Hinv0' & Hr0); [by eapply Hinv' | done |].
    exists (<[tab := s0']> fhs1').
    split; [| split; [by apply catalog_inv_insert | by eapply catalog_undo_step]].
    rewrite (undo_write_table _ _ s1') by done. cbn.
    apply on_table_Ok. eauto.
Qed.

Lemma undo_writes_app ws ws' fhs :
  undo_writes (ws ++ ws') fhs
  = match undo_writes ws fhs with
    | Ok _ fhs' => undo_writes ws' fhs'
    | r => r
    end.
Proof.
  revert fhs. induction ws as [| wr ws IH]; intros fhs; [done |].
  cbn [app undo_writes]. unfold bind.
  destruct (undo_write wr fhs) as [[] fhs'|?|]; [apply IH | done..].
Qed.

Lemma txn_ops_undo ops fhs0 ws fhs1 fhs1' :
  catalog_inv fhs0 -> txn_ops ops fhs0 = Some (ws, fhs1) ->
  catalog_inv fhs1' -> catalog_restores fhs1 fhs1' ->
  exists fhs0',
    undo_writes (reverse ws) fhs1' = Ok tt fhs0'
    /\ catalog_inv fhs0' /\ catalog_restores fhs0 fhs0'.
Proof.
  revert fhs0 ws. induction ops as [| op ops IH]; intros fhs0 ws Hinv Hops Hinv' Hres.
  - injection Hops as <- <-. exists fhs1'. done.
  - cbn [txn_ops] in Hops.
    destruct (txn_op op fhs0) as [wr fhs|?|] eqn:Hop; [| done..].
    destruct (txn_ops ops fhs) as [[ws' fhs'']|] eqn:Hrest; [| done].
    injection Hops as <- <-.
    destruct (txn_op_undo _ _ _ _ Hinv Hop) as [Hinv1 Hstep].
    destruct (IH _ _ Hinv1 Hrest Hinv' Hres) as (fhs_mid & Hundo & Hinv_mid & Hres_mid).
    destruct (Hstep _ Hinv_mid Hres_mid) as (fhs0' & Hu & Hinv0' & Hres0).
    exists fhs0'. split; [| done].
    rewrite reverse_cons, undo_writes_app, Hundo. cbn [undo_writes]. unfold bind.
    by rewrite Hu.
Qed.
Lemma pop_back_snoc {A} (l : list A) x : pop_back (l ++ [x]) = Some (l, x).
Proof.
  unfold pop_back. rewrite reverse_app, reverse_singleton. cbn [app].
  by rewrite reverse_involutive.
Qed.

Lemma set_write_set_nil t : get_write_set t = [] -> set_write_set [] t = t.
Proof. destruct t. cbn. by intros ->. Qed.

Lemma undo_loop_spec a ws :
  forall tm t fhs' k,
    txns (lock_manager_ tm) !! a = Some t ->
    get_write_set t = Some <$> ws ->
    undo_writes (reverse ws) (fhs_ tm) = Ok tt fhs' ->
    (length ws <= k)%nat ->
    exists tm',
      undo_loop k (Some a) tm = Ok tt tm'
      /\ fhs_ tm' = fhs'
      /\ txn_map tm' = txn_map tm
      /\ has_lock_manager tm' = has_lock_manager tm
      /\ txns (lock_manager_ tm') !! a = Some (set_write_set [] t)
      /\ lock_table_ (lock_manager_ tm') = lock_table_ (lock_manager_ tm).
Proof.
  induction ws as [| wr ws IH] using rev_ind; intros tm t fhs' k Ht Hws Hundo Hk.
  - cbn in Hundo. injection Hundo as <-. cbn in Hws.
    exists tm. rewrite set_write_set_nil by done.
    destruct k as [| k]; [done |]. cbn [undo_loop].
    unfold bind, on_lock_manager, deref, ret. rewrite Ht, Hws. cbn.
    by destruct tm.
  - rewrite length_app in Hk. cbn in Hk. destruct k as [| k]; [lia |].
    rewrite reverse_app, reverse_singleton in Hundo. cbn [app undo_writes] in Hundo.
    unfold bind in Hundo.
    destruct (undo_write wr (fhs_ tm)) as [[] fhs_mid|?|] eqn:Hwr; [| done..].
    rewrite fmap_app in Hws. cbn [fmap list_fmap] in Hws.
    set (t1 := set_write_set (Some <$> ws) t).
    set (tm1 := set_fhs fhs_mid
                  (set_lock_manager
                     (mkLockManager (<[a := t1]> (txns (lock_manager_ tm)))
                                    (lock_table_ (lock_manager_ tm))) tm)).
    destruct (IH tm1 t1 fhs' k) as (tm' & Hloop & Hfhs & Hmap & Hhas & Htxn & Htab).
    + unfold tm1. cbn. by rewrite lookup_insert_eq.
    + done.
    + done.
    + lia.
    + exists tm'. split; [| done].
      cbn [undo_loop]. unfold bind at 1. unfold on_lock_manager at 1. unfold deref.
      rewrite Ht, Hws, pop_back_snoc.
      unfold bind at 1. unfold on_lock_manager at 1.
      unfold update_txn, bind, deref, modify_state.
      cbn [lock_manager_ set_lock_manager]. rewrite Ht.
      unfold on_catalog. cbn [fhs_ set_lock_manager]. rewrite Hwr.
      exact Hloop.
Qed.

Lemma unlock_all_spec a ids lm t :
  txns lm !! a = Some t ->
  (forall id, id ∈ ids ->
     find_request (get_transaction_id t) (requests_of lm id) = None) ->
  unlock_all (Some a) ids lm = Ok tt lm.
Proof.
  intros Ht. induction ids as [| id ids IH]; intros Hno; [done |].
  assert (unlock_all (Some a) ids lm = Ok tt lm) as Hrest.
  { apply IH. intros id' Hid'. apply Hno. by right. }
  pose proof (Hno id ltac:(by left)) as Hid. unfold requests_of in Hid.
  cbn [unlock_all]. unfold bind. rewrite unlock_flat.
  destruct (lock_table_ lm !! id) as [queue|]; [| done].
  destruct (request_queue_ queue); [done |].
  by rewrite Ht, Hid.
Qed.

Lemma release_locks_spec a tm t :
  txns (lock_manager_ tm) !! a = Some t ->
  nothing_to_release tm t ->
  exists tm' t',
    release_locks (Some a) tm = Ok tt tm'
    /\ fhs_ tm' = fhs_ tm
    /\ txn_map tm' = txn_map tm
    /\ lock_table_ (lock_manager_ tm') = lock_table_ (lock_manager_ tm)
    /\ txns (lock_manager_ tm') !! a = Some t'
    /\ get_transaction_id t' = get_transaction_id t
    /\ get_write_set t' = get_write_set t
    /\ get_lock_set t' = ∅.
Proof.
  intros Ht Hno. unfold release_locks, bind, read_state.
  destruct (has_lock_manager tm) eqn:Hhas.
  - unfold on_lock_manager at 1. unfold deref at 1. rewrite Ht.
    unfold on_lock_manager at 1. cbn [lock_manager_ set_lock_manager].
    rewrite (unlock_all_spec a (elements (get_lock_set t)) _ t Ht).
    2:{ intros id Hid. apply Hno; [done |]. by apply elem_of_elements. }
    unfold on_lock_manager, update_txn, bind, deref, modify_state.
    cbn [lock_manager_ set_lock_manager]. rewrite Ht.
    eexists _, _. split; [reflexivity |]. cbn. rewrite lookup_insert_eq. done.
  - unfold ret, on_lock_manager, update_txn, bind, deref, modify_state. rewrite Ht.
    eexists _, _. split; [reflexivity |]. cbn. rewrite lookup_insert_eq. done.
Qed.

Lemma abort_spec a tm t ws fhs' :
  txns (lock_manager_ tm) !! a = Some t ->
  get_write_set t = Some <$> ws ->
  undo_writes (reverse ws) (fhs_ tm) = Ok tt fhs' ->
  nothing_to_release tm t ->
  exists tm' t',
    abort (Some a) tm = Ok tt tm'
    /\ fhs_ tm' = fhs'
    /\ txn_map tm' = delete (get_transaction_id t) (txn_map tm)
    /\ txns (lock_manager_ tm') !! a = Some t'
    /\ get_transaction_id t' = get_transaction_id t
    /\ get_state t' = ABORTED
    /\ get_write_set t' = []
    /\ get_lock_set t' = ∅.
Proof.
  intros Ht Hws Hundo Hno. unfold abort.
  unfold bind at 1. unfold on_lock_manager at 1. unfold deref at 1. rewrite Ht.
  unfold bind at 1.
  destruct (undo_loop_spec a ws (set_lock_manager (lock_manager_ tm) tm) t fhs'
              (length (get_write_set t)))
    as (tm1 & -> & Hfhs1 & Hmap1 & Hhas1 & Ht1 & Htab1); try done.
  { by rewrite Hws, length_fmap. }
  unfold bind at 1.
  destruct (release_locks_spec a tm1 _ Ht1)
    as (tm2 & t2 & Hrel & Hfhs2 & Hmap2 & _ & Ht2 & Hid2 & Hws2 & Hls2).
  { intros Hhas id Hid. unfold requests_of. rewrite Htab1.
    apply (Hno ltac:(by rewrite <- Hhas, Hhas1) id). by destruct t. }
  rewrite Hrel.
  unfold bind, on_lock_manager, update_txn, bind, deref, modify_state. rewrite Ht2.
  cbn [lock_manager_ set_lock_manager txns]. rewrite lookup_insert_eq.
  eexists _, (set_state ABORTED t2). split; [reflexivity |]. cbn. rewrite lookup_insert_eq.
  rewrite Hfhs2, Hfhs1, Hmap2, Hmap1, Hid2, Hws2, Hls2. done.
Qed.
Lemma undo_write_flat wr fhs :
  undo_write wr fhs
  = match fhs !! GetTableName wr with
    | None => Ok tt fhs
    | Some _ =>
        on_table (GetTableName wr)
          (match GetWriteType wr with
           | INSERT_TUPLE => delete_record (GetRid wr)
           | DELETE_TUPLE => insert_record_at (GetRid wr) (GetRecord wr)
           | UPDATE_TUPLE => update_record (GetRid wr) (GetRecord wr)
           end) fhs
    end.
Proof.
  destruct (fhs !! GetTableName wr) eqn:Hfh.
  - by erewrite undo_write_table.
  - by apply undo_write_absent.
Qed.

(** C3 (amended): when the record files are those left by the writes of the
    transaction, each of which returned and logged its write record, and the
    release loop has nothing to release (no lock manager, or no queue of an
    id of the lock set holds a request of the transaction), [abort] returns;
    it undoes the write records from the last to the first (delete_record for
    an INSERT record, insert_record at the logged rid with the logged payload
    for a DELETE record, update_record with the logged payload for an UPDATE
    record, nothing when the table is absent from the catalog).  Afterwards
    every record file has the pages it had before the first write with the
    same bitmaps and the same bytes in the live slots (hence the same live
    records), any further page is empty, and the invariant of the record
    files holds; the transaction is ABORTED with an empty write set and an
    empty lock set, and it is erased from txn_map.  The files need not be
    equal to the files before the first write: pages allocated by the
    transaction stay, and so do the bytes of dead slots.  What [abort] does
    after the undo when a lock of the transaction is still in the lock table
    is not part of the statement. *)
Theorem abort_restores_records fhs0 ops ws tm a t :
  catalog_inv fhs0 ->
  txn_ops ops fhs0 = Some (ws, fhs_ tm) ->
  txns (lock_manager_ tm) !! a = Some t ->
  get_write_set t = Some <$> ws ->
  nothing_to_release tm t ->
  exists tm' t',
    abort (Some a) tm = Ok tt tm'
    /\ undo_writes (reverse ws) (fhs_ tm) = Ok tt (fhs_ tm')
    /\ (forall wr fhs,
          undo_write wr fhs
          = match fhs !! GetTableName wr with
            | None => Ok tt fhs
            | Some _ =>
                on_table (GetTableName wr)
                  (match GetWriteType wr with
                   | INSERT_TUPLE => delete_record (GetRid wr)
                   | DELETE_TUPLE => insert_record_at (GetRid wr) (GetRecord wr)
                   | UPDATE_TUPLE => update_record (GetRid wr) (GetRecord wr)
                   end) fhs
            end)
    /\ catalog_inv (fhs_ tm')
    /\ (forall tab_name,
          match fhs0 !! tab_name, fhs_ tm' !! tab_name with
          | Some fh0, Some fh' => restores fh0 fh' /\ same_live_records fh0 fh'
          | None, None => True
          | _, _ => False
          end)
    /\ txns (lock_manager_ tm') !! a = Some t'
    /\ get_transaction_id t' = get_transaction_id t
    /\ get_state t' = ABORTED
    /\ get_write_set t' = []
    /\ get_lock_set t' = ∅
    /\ txn_map tm' = delete (get_transaction_id t) (txn_map tm).
Proof.
  intros Hinv Hops Ht Hws Hno.
  assert (catalog_inv (fhs_ tm)) as Hinv1.
  { clear Ht Hws Hno. generalize dependent (fhs_ tm). revert fhs0 ws Hinv.
    induction ops as [| op ops IH]; intros fhs0 ws Hinv fhs1 Hops.
    - by injection Hops as <- <-.
    - cbn [txn_ops] in Hops.
      destruct (txn_op op fhs0) as [wr fhs|?|] eqn:Hop; [| done..].
      destruct (txn_ops ops fhs) as [[ws' fhs'']|] eqn:Hrest; [| done].
      injection Hops as <- <-.
      destruct (txn_op_undo _ _ _ _ Hinv Hop) as [Hinv' _]. eauto. }
  destruct (txn_ops_undo _ _ _ _ (fhs_ tm) Hinv Hops Hinv1 (catalog_restores_refl _))
    as (fhs' & Hundo & Hinv' & Hres).
  destruct (abort_spec _ _ _ _ _ Ht Hws Hundo Hno)
    as (tm' & t' & Habort & Hfhs & Hmap & Ht' & Hid & Hst & Hws' & Hls).
  exists tm', t'. rewrite Hfhs.
  split; [done |]. split; [done |]. split; [apply undo_write_flat |].
  split; [done |]. split; [| done].
  intros tab. specialize (Hres tab).
  destruct (fhs0 !! tab) as [fh0|] eqn:Hfh0, (fhs' !! tab) as [fh'|]; try done.
  split; [done |]. apply restores_same_live_records; [by eapply Hinv | done].
Qed.
Lemma example_catalog_inv : catalog_inv example_catalog.
Proof.
  intros tab fh Hfh. unfold example_catalog in Hfh.
  apply lookup_insert_Some in Hfh as [[_ <-] | [_ Hfh]]; [apply example_file_inv |].
  by rewrite lookup_empty in Hfh.
Qed.

Lemma example_txn_ops_run :
  txn_ops example_txn_ops example_catalog = Some (example_write_set, fhs_ example_tm).
Proof. vm_compute. reflexivity. Qed.

(** C3 as stated fails: [abort] does not restore the record files bit for
    bit.  After the abort of the transaction of [example_tm] the dead slot
    (1, 1) holds the bytes of the undone insert, not the bytes it held before
    the transaction; and after the abort of an insert into an empty file the
    page allocated by the insert is still there. *)
Lemma abort_not_bit_for_bit :
  (txn_ops example_txn_ops example_catalog = Some (example_write_set, fhs_ example_tm)
   /\ example_catalog !! "t" = Some example_file
   /\ exists tm',
        abort (Some 1) example_tm = Ok tt tm'
        /\ fhs_ tm' !! "t" = Some example_restored
        /\ example_restored <> example_file)
  /\ (let fhs0 : gmap string RmFileHandle := <["t" := new_file 2 3 1]> ∅ in
      let ws := [mkWriteRecord INSERT_TUPLE "t" (mkRid 1 0) []] in
      exists fhs1 tm',
        txn_ops [TxnInsert "t" example_A] fhs0 = Some (ws, fhs1)
        /\ abort (Some 1) (example_tm_with fhs1 ws) = Ok tt tm'
        /\ fhs_ tm' !! "t" = Some example_restored_fresh
        /\ example_restored_fresh <> new_file 2 3 1).
Proof.
  split.
  - split; [vm_compute; reflexivity |]. split; [vm_compute; reflexivity |].
    eexists. split; [vm_compute; reflexivity |]. split; [vm_compute; reflexivity |].
    intros H. apply (f_equal (fun fh => slots <$> pages_ fh !! 1)) in H.
    vm_compute in H. discriminate H.
  - eexists _, _. split; [vm_compute; reflexivity |].
    split; [vm_compute; reflexivity |]. split; [vm_compute; reflexivity |].
    intros H. apply (f_equal (fun fh => num_pages (file_hdr_ fh))) in H.
    vm_compute in H. discriminate H.
Qed.

Lemma abort_restores_records_witness :
  let t := mkTransaction 7 0 GROWING ∅ (Some <$> example_write_set) in
  catalog_inv example_catalog
  /\ txn_ops example_txn_ops example_catalog = Some (example_write_set, fhs_ example_tm)
  /\ txns (lock_manager_ example_tm) !! 1 = Some t
  /\ get_write_set t = Some <$> example_write_set
  /\ nothing_to_release example_tm t
  /\ exists tm' t',
       abort (Some 1) example_tm = Ok tt tm'
       /\ undo_writes (reverse example_write_set) (fhs_ example_tm) = Ok tt (fhs_ tm')
       /\ (forall wr fhs,
             undo_write wr fhs
             = match fhs !! GetTableName wr with
               | None => Ok tt fhs
               | Some _ =>
                   on_table (GetTableName wr)
                     (match GetWriteType wr with
                      | INSERT_TUPLE => delete_record (GetRid wr)
                      | DELETE_TUPLE => insert_record_at (GetRid wr) (GetRecord wr)
                      | UPDATE_TUPLE => update_record (GetRid wr) (GetRecord wr)
                      end) fhs
               end)
       /\ catalog_inv (fhs_ tm')
       /\ (forall tab_name,
             match example_catalog !! tab_name, fhs_ tm' !! tab_name with
             | Some fh0, Some fh' => restores fh0 fh' /\ same_live_records fh0 fh'
             | None, None => True
             | _, _ => False
             end)
       /\ txns (lock_manager_ tm') !! 1 = Some t'
       /\ get_transaction_id t' = get_transaction_id t
       /\ get_state t' = ABORTED
       /\ get_write_set t' = []
       /\ get_lock_set t' = ∅
       /\ txn_map tm' = delete (get_transaction_id t) (txn_map example_tm).
Proof.
  intros t.
  assert (txns (lock_manager_ example_tm) !! 1 = Some t) as Ht by (vm_compute; reflexivity).
  split; [exact example_catalog_inv |]. split; [exact example_txn_ops_run |].
  assert (nothing_to_release example_tm t) as Hno.
  { intros _ id Hid. by apply elem_of_empty in Hid. }
  split; [exact Ht |]. split; [reflexivity |]. split; [exact Hno |].
  exact (abort_restores_records example_catalog example_txn_ops example_write_set example_tm
           1 t example_catalog_inv example_txn_ops_run Ht eq_refl Hno).
Defined.
(** * Further properties of the record file *)

(** X1: A record identifier whose page is not a data page of the file, or whose
    page the buffer pool does not return, is refused by every operation that
    takes a record identifier: [fetch_page_handle] raises PageNotExistError
    before anything is read or written. *)
Theorem page_out_of_range_raises fh rid buf :
  ~ RM_FIRST_RECORD_PAGE <= page_no rid < num_pages (file_hdr_ fh)
  \/ pages_ fh !! page_no rid = None ->
  get_record rid fh = Throw (PageNotExistError (page_no rid)) fh
  /\ insert_record_at rid buf fh = Throw (PageNotExistError (page_no rid)) fh
  /\ delete_record rid fh = Throw (PageNotExistError (page_no rid)) fh
  /\ update_record rid buf fh = Throw (PageNotExistError (page_no rid)) fh.
Proof.
  intros H.
  rewrite get_record_flat, insert_record_at_flat, delete_record_flat, update_record_flat.
  unfold get_flat, insert_at_flat, delete_flat, update_flat. cbv zeta.
  destruct ((page_no rid <? RM_FIRST_RECORD_PAGE)
            || (num_pages (file_hdr_ fh) <=? page_no rid)) eqn:Hr; [done |].
  destruct H as [H | ->]; [| done].
  apply orb_false_iff in Hr as [? ?]. lia.
Qed.

Lemma page_out_of_range_raises_witness :
  let rid := mkRid 3 0 in
  (~ RM_FIRST_RECORD_PAGE <= page_no rid < num_pages (file_hdr_ example_file)
   \/ pages_ example_file !! page_no rid = None)
  /\ get_record rid example_file = Throw (PageNotExistError 3) example_file
  /\ insert_record_at rid example_A example_file = Throw (PageNotExistError 3) example_file
  /\ delete_record rid example_file = Throw (PageNotExistError 3) example_file
  /\ update_record rid example_A example_file = Throw (PageNotExistError 3) example_file.
Proof.
  intros rid.
  assert (~ RM_FIRST_RECORD_PAGE <= page_no rid < num_pages (file_hdr_ example_file)
          \/ pages_ example_file !! page_no rid = None) as H
    by (right; vm_compute; reflexivity).
  split; [exact H |].
  exact (page_out_of_range_raises example_file rid example_A H).
Defined.

(** X2: On a slot whose bit is clear, [get_record], [delete_record] and
    [update_record] raise RecordNotFoundError and leave the file as it is; on
    a slot whose bit is set, so does the insert at a given record
    identifier. *)
Theorem wrong_slot_state_raises fh rid buf pg :
  RM_FIRST_RECORD_PAGE <= page_no rid < num_pages (file_hdr_ fh) ->
  pages_ fh !! page_no rid = Some pg ->
  (Bitmap.is_set (bitmap pg) (slot_no rid) = Some false ->
   get_record rid fh = Throw (RecordNotFoundError (page_no rid) (slot_no rid)) fh
   /\ delete_record rid fh = Throw (RecordNotFoundError (page_no rid) (slot_no rid)) fh
   /\ update_record rid buf fh = Throw (RecordNotFoundError (page_no rid) (slot_no rid)) fh)
  /\ (Bitmap.is_set (bitmap pg) (slot_no rid) = Some true ->
      insert_record_at rid buf fh
      = Throw (RecordNotFoundError (page_no rid) (slot_no rid)) fh).
Proof.
  intros Hv Hpg.
  rewrite get_record_flat, insert_record_at_flat, delete_record_flat, update_record_flat.
  unfold get_flat, insert_at_flat, delete_flat, update_flat. cbv zeta.
  replace ((page_no rid <? RM_FIRST_RECORD_PAGE)
           || (num_pages (file_hdr_ fh) <=? page_no rid)) with false
    by (symmetry; apply orb_false_iff; lia).
  rewrite Hpg. split; intros ->; done.
Qed.

Lemma wrong_slot_state_raises_witness :
  let pg := mkPage (mkRmPageHdr 2 2) (example_bits true false true)
                   (example_B ++ example_B ++ example_A) in
  RM_FIRST_RECORD_PAGE <= 1 < num_pages (file_hdr_ example_file)
  /\ pages_ example_file !! 1 = Some pg
  /\ get_record (mkRid 1 1) example_file = Throw (RecordNotFoundError 1 1) example_file
  /\ insert_record_at (mkRid 1 0) example_A example_file
     = Throw (RecordNotFoundError 1 0) example_file.
Proof.
  intros pg.
  assert (RM_FIRST_RECORD_PAGE <= 1 < num_pages (file_hdr_ example_file)) as Hv
    by (unfold RM_FIRST_RECORD_PAGE; cbn; lia).
  assert (pages_ example_file !! 1 = Some pg) as Hpg by (vm_compute; reflexivity).
  split; [exact Hv |]. split; [exact Hpg |]. split.
  - exact (proj1 (proj1 (wrong_slot_state_raises example_file (mkRid 1 1) example_A pg Hv Hpg)
                    eq_refl)).
  - exact (proj2 (wrong_slot_state_raises example_file (mkRid 1 0) example_A pg Hv Hpg)
             eq_refl).
Defined.

(** What [delete_record] does to the pages: only the page of the record
    changes, and there only the header and the bit of the slot. *)
Lemma delete_record_effect rid fh fh' :
  delete_record rid fh = Ok tt fh' ->
  exists pg bm hdr',
    RM_FIRST_RECORD_PAGE <= page_no rid < num_pages (file_hdr_ fh)
    /\ pages_ fh !! page_no rid = Some pg
    /\ Bitmap.is_set (bitmap pg) (slot_no rid) = Some true
    /\ Bitmap.reset (bitmap pg) (slot_no rid) = Some bm
    /\ same_layout (file_hdr_ fh) (file_hdr_ fh')
    /\ pages_ fh' = <[page_no rid := mkPage hdr' bm (slots pg)]> (pages_ fh).
Proof.
  rewrite delete_record_flat. unfold delete_flat. cbv zeta. intros H.
  destruct (_ || _) eqn:Hr; [done |]. apply orb_false_iff in Hr as [? ?].
  destruct (pages_ fh !! page_no rid) as [pg|] eqn:Hpg; [| done].
  destruct (Bitmap.is_set _ _) as [[|]|] eqn:Hbit; try done.
  destruct (Bitmap.reset _ _) as [bm|] eqn:Hreset; [| done].
  destruct (INT_MIN <? _); [| done].
  exists pg, bm.
  destruct (_ =? _); injection H as <-; eexists; (split; [lia |]); by repeat split.
Qed.

(** X3: A deleted record is gone: reading, updating or deleting it again raises
    RecordNotFoundError. *)
Theorem deleted_record_not_found fh rid buf fh' :
  delete_record rid fh = Ok tt fh' ->
  get_record rid fh' = Throw (RecordNotFoundError (page_no rid) (slot_no rid)) fh'
  /\ update_record rid buf fh' = Throw (RecordNotFoundError (page_no rid) (slot_no rid)) fh'
  /\ delete_record rid fh' = Throw (RecordNotFoundError (page_no rid) (slot_no rid)) fh'.
Proof.
  intros (pg & bm & hdr' & Hv & Hpg & Hbit & Hreset & (_ & Hnp & _) & Hpages)%delete_record_effect.
  rewrite get_record_flat, delete_record_flat, update_record_flat.
  unfold get_flat, delete_flat, update_flat. cbv zeta.
  replace ((page_no rid <? RM_FIRST_RECORD_PAGE)
           || (num_pages (file_hdr_ fh') <=? page_no rid)) with false
    by (symmetry; apply orb_false_iff; lia).
  rewrite Hpages, lookup_insert_eq. cbn [bitmap].
  by rewrite (is_set_assign_eq _ _ _ _ Hreset).
Qed.

Lemma example_delete_run : delete_record (mkRid 1 0) example_file = Ok tt example_after_delete.
Proof. vm_compute. reflexivity. Qed.

Lemma deleted_record_not_found_witness :
  delete_record (mkRid 1 0) example_file = Ok tt example_after_delete
  /\ get_record (mkRid 1 0) example_after_delete
     = Throw (RecordNotFoundError 1 0) example_after_delete
  /\ update_record (mkRid 1 0) example_A example_after_delete
     = Throw (RecordNotFoundError 1 0) example_after_delete
  /\ delete_record (mkRid 1 0) example_after_delete
     = Throw (RecordNotFoundError 1 0) example_after_delete.
Proof.
  split; [exact example_delete_run |].
  exact (deleted_record_not_found example_file (mkRid 1 0) example_A example_after_delete
           example_delete_run).
Defined.
Lemma rid_eq (r r' : Rid) : page_no r = page_no r' -> slot_no r = slot_no r' -> r = r'.
Proof. destruct r, r'. cbn. by intros -> ->. Qed.

(** Records after the update of one page whose change leaves the slot of
    [r] alone. *)
Lemma record_at_page_update fh fh' p pg pg' r v :
  same_layout (file_hdr_ fh) (file_hdr_ fh') ->
  pages_ fh !! p = Some pg ->
  pages_ fh' = <[p := pg']> (pages_ fh) ->
  (page_no r = p ->
   Bitmap.is_set (bitmap pg') (slot_no r) = Bitmap.is_set (bitmap pg) (slot_no r)
   /\ mem_read (slot_no r * record_size (file_hdr_ fh)) (record_size (file_hdr_ fh)) (slots pg')
      = mem_read (slot_no r * record_size (file_hdr_ fh)) (record_size (file_hdr_ fh))
                 (slots pg)) ->
  record_at fh' r v <-> record_at fh r v.
Proof.
  intros (Hrs & Hnp & _) Hpg Hpages Hslot. unfold record_at.
  rewrite Hpages, <- Hrs, <- Hnp.
  destruct (decide (page_no r = p)) as [Hp | Hp].
  - destruct (Hslot Hp) as [Hb Hm]. rewrite Hp, lookup_insert_eq, Hpg.
    split; intros (Hv & pg0 & [= <-] & Hbit & Hread); (split; [done |]); eexists;
      (split; [done |]); split; congruence.
  - by rewrite lookup_insert_ne.
Qed.

Lemma live_page_update fh fh' p pg pg' r :
  same_layout (file_hdr_ fh) (file_hdr_ fh') ->
  pages_ fh !! p = Some pg ->
  pages_ fh' = <[p := pg']> (pages_ fh) ->
  (page_no r = p ->
   Bitmap.is_set (bitmap pg') (slot_no r) = Bitmap.is_set (bitmap pg) (slot_no r)) ->
  live fh' r <-> live fh r.
Proof.
  intros (Hrs & Hnp & _) Hpg Hpages Hslot. unfold live.
  rewrite Hpages, <- Hnp.
  destruct (decide (page_no r = p)) as [Hp | Hp].
  - pose proof (Hslot Hp) as Hb. rewrite Hp, lookup_insert_eq, Hpg.
    split; intros (Hv & pg0 & [= <-] & Hbit); (split; [done |]); eexists;
      (split; [done |]); congruence.
  - by rewrite lookup_insert_ne.
Qed.

(** X4: [delete_record] at a slot of the slot array
    ([0 <= slot_no < num_records_per_page]) of a well-formed file removes
    exactly one live record: the record it names was live, afterwards the
    live records are the others, and each of them has the bytes it had. *)
Theorem delete_record_removes_one fh rid fh' :
  rm_inv fh ->
  0 <= slot_no rid < num_records_per_page (file_hdr_ fh) ->
  delete_record rid fh = Ok tt fh' ->
  live fh rid
  /\ (forall r, live fh' r <-> r <> rid /\ live fh r)
  /\ (forall r v, r <> rid -> record_at fh' r v <-> record_at fh r v).
Proof.
  intros _ _ (pg & bm & hdr' & Hv & Hpg & Hbit & Hreset & Hlay & Hpages)%delete_record_effect.
  split; [split; eauto |]. split.
  - intros r. destruct (decide (r = rid)) as [-> | Hne].
    + split; [| by intros [? _]]. intros (_ & pg' & Hpg' & Hbit').
      rewrite Hpages, lookup_insert_eq in Hpg'. injection Hpg' as <-. cbn [bitmap] in Hbit'.
      rewrite (is_set_assign_eq _ _ _ _ Hreset) in Hbit'. done.
    + rewrite (live_page_update fh fh' (page_no rid) pg _ r Hlay Hpg Hpages); [tauto |].
      intros Hp. cbn [bitmap]. apply (is_set_assign_ne _ _ _ _ _ Hreset).
      intros Hs. apply Hne. by apply rid_eq.
  - intros r v Hne.
    apply (record_at_page_update fh fh' (page_no rid) pg _ r v Hlay Hpg Hpages).
    intros Hp. cbn [bitmap slots]. split; [| done].
    apply (is_set_assign_ne _ _ _ _ _ Hreset).
    intros Hs. apply Hne. by apply rid_eq.
Qed.

Lemma delete_record_removes_one_witness :
  rm_inv example_file
  /\ 0 <= slot_no (mkRid 1 0) < num_records_per_page (file_hdr_ example_file)
  /\ delete_record (mkRid 1 0) example_file = Ok tt example_after_delete
  /\ live example_file (mkRid 1 0)
  /\ (forall r, live example_after_delete r <-> r <> mkRid 1 0 /\ live example_file r)
  /\ (forall r v, r <> mkRid 1 0 ->
        record_at example_after_delete r v <-> record_at example_file r v).
Proof.
  assert (0 <= slot_no (mkRid 1 0) < num_records_per_page (file_hdr_ example_file)) as Hslot
    by (cbn; lia).
  split; [exact example_file_inv |]. split; [exact Hslot |].
  split; [exact example_delete_run |].
  exact (delete_record_removes_one example_file (mkRid 1 0) example_after_delete
           example_file_inv Hslot example_delete_run).
Defined.

(** X5: [update_record] changes the bytes of one slot and nothing else: the file
    header, every page header and every bitmap are as before, the same
    records are live, the updated record reads as the first [record_size]
    bytes of the buffer, and every other record has the bytes it had. *)
Theorem update_record_changes_one_slot fh rid buf fh' :
  update_record rid buf fh = Ok tt fh' ->
  file_hdr_ fh' = file_hdr_ fh
  /\ (forall p pg', pages_ fh' !! p = Some pg' ->
        exists pg, pages_ fh !! p = Some pg
                   /\ page_hdr pg' = page_hdr pg /\ bitmap pg' = bitmap pg)
  /\ (forall r, live fh' r <-> live fh r)
  /\ record_at fh' rid (record_of fh buf)
  /\ (forall r v, r <> rid -> record_at fh' r v <-> record_at fh r v).
Proof.
  intros Hupd. pose proof (update_record_read _ _ _ _ Hupd) as Hread.
  rewrite update_record_flat in Hupd. unfold update_flat in Hupd. cbv zeta in Hupd.
  destruct (_ || _) eqn:Hr; [done |].
  destruct (pages_ fh !! page_no rid) as [pg|] eqn:Hpg; [| done].
  destruct (Bitmap.is_set _ _) as [[|]|] eqn:Hbit; try done.
  destruct (mem_write _ _ _ _) as [sl|] eqn:Hw; [| done].
  injection Hupd as <-. cbn [file_hdr_ pages_].
  split; [done |]. split; [| split; [| split; [done |]]].
  - intros p pg' Hpg'. destruct (decide (p = page_no rid)) as [-> | Hp].
    + rewrite lookup_insert_eq in Hpg'. injection Hpg' as <-. eauto.
    + rewrite lookup_insert_ne in Hpg' by done. eauto.
  - intros r. by apply (live_page_update fh _ (page_no rid) pg (set_slots sl pg) r).
  - intros r v Hne.
    apply (record_at_page_update fh _ (page_no rid) pg (set_slots sl pg) r v); try done.
    intros Hp. split; [done |]. cbn [set_slots slots].
    apply (mem_read_write_disjoint _ _ _ _ _ _ _ Hw).
    apply mem_write_Some in Hw as [(_ & Hrs & _) _].
    apply slot_ranges_disjoint; [done |]. intros Hs. apply Hne. by apply rid_eq.
Qed.

Lemma example_update_run :
  update_record (mkRid 1 2) example_B example_file = Ok tt example_after_update.
Proof. vm_compute. reflexivity. Qed.

Lemma update_record_changes_one_slot_witness :
  update_record (mkRid 1 2) example_B example_file = Ok tt example_after_update
  /\ file_hdr_ example_after_update = file_hdr_ example_file
  /\ (forall p pg', pages_ example_after_update !! p = Some pg' ->
        exists pg, pages_ example_file !! p = Some pg
                   /\ page_hdr pg' = page_hdr pg /\ bitmap pg' = bitmap pg)
  /\ (forall r, live example_after_update r <-> live example_file r)
  /\ record_at example_after_update (mkRid 1 2) (record_of example_file example_B)
  /\ (forall r v, r <> mkRid 1 2 ->
        record_at example_after_update r v <-> record_at example_file r v).
Proof.
  split; [exact example_update_run |].
  exact (update_record_changes_one_slot example_file (mkRid 1 2) example_B
           example_after_update example_update_run).
Defined.
Lemma rm_inv_range fh p : rm_inv fh -> is_Some (pages_ fh !! p) <-> RM_FIRST_RECORD_PAGE <= p < num_pages (file_hdr_ fh).
Proof. intros (l & _ & [Hdom _] & _). apply Hdom. Qed.

Lemma insert_record_rm_inv fh buf rid fh' :
  rm_inv fh -> insert_record buf fh = Ok rid fh' -> rm_inv fh'.
Proof.
  intros Hinv Hins. pose proof (rm_call_inv (CallInsert buf) fh _ Hinv eq_refl) as H.
  unfold rm_call, bind, ret in H. by rewrite Hins in H.
Qed.

(** X6: [insert_record] adds exactly one live record: the identifier it returns
    was not live, afterwards the live records are that one and those that
    were live, and each of these has the bytes it had. *)
Theorem insert_record_adds_one fh buf rid fh' :
  rm_inv fh -> insert_record buf fh = Ok rid fh' ->
  ~ live fh rid
  /\ (forall r, live fh' r <-> r = rid \/ live fh r)
  /\ (forall r v, record_at fh r v -> record_at fh' r v).
Proof.
  intros Hinv Hins. pose proof (insert_record_rm_inv _ _ _ _ Hinv Hins) as Hinv'.
  pose proof Hinv as [l Hinvl].
  destruct (insert_record_effect _ _ _ _ _ Hinvl Hins)
    as (pg & sl & bm & pg1 & Hsz & Hnp & Hexc & Hpg1 & Hbm & Hsl & Hbit & Hset & Hw & Hold).
  assert (forall s, pages_ fh !! page_no rid = None ->
                    Bitmap.is_set (bitmap pg) s <> Some true) as Hfresh.
  { intros s Hnone Hs. rewrite Hnone in Hold. apply popcount_set_pos in Hs. lia. }
  split; [| split].
  - intros (_ & pg0 & Hpg0 & Hbit0). rewrite Hpg0 in Hold. subst pg0. congruence.
  - intros r. unfold live. rewrite <- !rm_inv_range by done.
    destruct (decide (page_no r = page_no rid)) as [Hp | Hp].
    + rewrite Hp, Hpg1.
      destruct (decide (slot_no r = slot_no rid)) as [Hs | Hs].
      * split; [intros _; left; by apply rid_eq |]. intros _. split; [eauto |].
        exists pg1. split; [done |]. rewrite Hs, Hbm. by eapply is_set_assign_eq.
      * assert (Bitmap.is_set (bitmap pg1) (slot_no r) = Bitmap.is_set (bitmap pg) (slot_no r))
          as Heq by (rewrite Hbm; by apply (is_set_assign_ne _ _ _ _ _ Hset)).
        split.
        -- intros (_ & pg' & [= <-] & Hb). right. rewrite Heq in Hb.
           destruct (pages_ fh !! page_no rid) as [pg0|] eqn:Hpg0.
           ++ subst pg0. split; eauto.
           ++ by destruct (Hfresh (slot_no r)).
        -- intros [-> | (_ & pg0 & Hpg0 & Hb)]; [done |].
           rewrite Hpg0 in Hold. subst pg0. split; [eauto |].
           exists pg1. split; [done |]. by rewrite Heq.
    + specialize (Hexc _ Hp).
      destruct (pages_ fh !! page_no r) as [pg0|], (pages_ fh' !! page_no r) as [pg0'|];
        try done.
      * destruct Hexc as [Hb _]. split.
        -- intros (_ & ? & [= <-] & Hbit'). right. split; [eauto |]. exists pg0.
           by rewrite Hb.
        -- intros [-> | (_ & ? & [= <-] & Hbit')]; [done |]. split; [eauto |].
           exists pg0'. by rewrite <- Hb.
      * split; [by intros ([? ?] & _) |]. intros [-> | ([? ?] & _)]; done.
  - intros r v Hr. eapply keeps_record_at; [| done].
    by apply (insert_record_keeps r buf fh (Ok rid fh') v).
Qed.

Lemma example_insert_run :
  insert_record example_A example_file = Ok (mkRid 1 1) example_after_insert.
Proof. vm_compute. reflexivity. Qed.

Lemma insert_record_adds_one_witness :
  rm_inv example_file
  /\ insert_record example_A example_file = Ok (mkRid 1 1) example_after_insert
  /\ ~ live example_file (mkRid 1 1)
  /\ (forall r, live example_after_insert r <-> r = mkRid 1 1 \/ live example_file r)
  /\ (forall r v, record_at example_file r v -> record_at example_after_insert r v).
Proof.
  split; [exact example_file_inv |]. split; [exact example_insert_run |].
  exact (insert_record_adds_one example_file example_A (mkRid 1 1) example_after_insert
           example_file_inv example_insert_run).
Defined.
Lemma insert_into_progress fh l p buf :
  rm_inv_with fh (p :: l) ->
  record_size (file_hdr_ fh) <= Z.of_nat (length buf) ->
  exists slot fh',
    insert_into p buf fh = Ok (mkRid p slot) fh'
    /\ exists pg, pages_ fh !! p = Some pg
                  /\ Bitmap.first_bit false (bitmap pg) (num_records_per_page (file_hdr_ fh))
                     = Some slot
                  /\ 0 <= slot < num_records_per_page (file_hdr_ fh).
Proof.
  intros Hinv Hbuf. pose proof Hinv as (Hhdr & [Hdom Hpages] & _).
  pose proof Hhdr as (Hrs & Hn & Hbs & Hbsm & Hnp).
  destruct (rm_inv_on_list fh (p :: l) p Hinv) as (pg & Hpg & Hfree);
    [apply elem_of_cons; by left |].
  pose proof (Hpages _ _ Hpg) as Hok.
  assert (0 <= num_records_per_page (file_hdr_ fh) <= 8 * bitmap_size (file_hdr_ fh)) as Hn8
    by lia.
  destruct (page_ok_first_bit _ _ Hn8 Hok Hfree) as (slot & Hfirst & Hslot & Hbit).
  destruct (slot_write_defined _ _ slot buf Hhdr Hok Hslot Hbuf) as [sl Hw].
  exists slot. unfold insert_into. cbv zeta. rewrite Hpg, Hfirst.
  replace (num_records_per_page (file_hdr_ fh) <=? slot) with false by lia.
  rewrite Hw, (assign_is_Some true _ _ _ Hbit : Bitmap.set _ _ = _).
  replace (num_records (page_hdr pg) <? INT_MAX) with true by lia.
  destruct (_ =? _); eauto 10.
Qed.

(** X7: [insert_record] with a buffer of at least [record_size] bytes on a
    file that satisfies the invariant returns a record identifier when the
    free list is not empty, and also when it is empty, the buffer pool has a
    frame for a new page and the page counter can be incremented; it never
    raises the InternalError of a full page.  The record goes to the head of
    the free list, or to a new page numbered [num_pages] when the list is
    empty, into the first slot whose bit is clear.  When the free list is
    empty and the buffer pool has no frame, the call raises the InternalError
    of the failed allocation and leaves the file as it was. *)
Theorem insert_record_succeeds fh buf :
  rm_inv fh ->
  record_size (file_hdr_ fh) <= Z.of_nat (length buf) ->
  (first_free_page_no (file_hdr_ fh) <> RM_NO_PAGE
   \/ (has_free_frame_ fh = true /\ num_pages (file_hdr_ fh) < INT_MAX) ->
   exists rid fh',
     insert_record buf fh = Ok rid fh'
     /\ page_no rid = (if first_free_page_no (file_hdr_ fh) =? RM_NO_PAGE
                       then num_pages (file_hdr_ fh)
                       else first_free_page_no (file_hdr_ fh))
     /\ 0 <= slot_no rid < num_records_per_page (file_hdr_ fh)
     /\ forall s, 0 <= s < slot_no rid -> live fh (mkRid (page_no rid) s))
  /\ (first_free_page_no (file_hdr_ fh) = RM_NO_PAGE -> has_free_frame_ fh = false ->
      insert_record buf fh
      = Throw (InternalError "Failed to allocate new page for record file") fh).
Proof.
  intros [l Hinv] Hbuf. pose proof Hinv as (Hhdr & [Hdom Hpages] & Hch & _).
  pose proof Hhdr as (Hrs & Hn & Hbs & Hbsm & Hnp).
  rewrite insert_record_flat. unfold insert_flat. cbv zeta. split.
  2:{ intros -> ->. by rewrite Z.eqb_refl. }
  intros Hroom.
  destruct (first_free_page_no (file_hdr_ fh) =? RM_NO_PAGE) eqn:Hff.
  - assert (has_free_frame_ fh = true /\ num_pages (file_hdr_ fh) < INT_MAX) as [Hframe Hmax]
      by (destruct Hroom; [lia | done]).
    rewrite Hframe.
    replace (num_pages (file_hdr_ fh) <? INT_MAX) with true by lia.
    replace ((num_pages (file_hdr_ fh) <? RM_FIRST_RECORD_PAGE)
             || (num_pages (file_hdr_ fh) + 1 <=? num_pages (file_hdr_ fh))) with false
      by (symmetry; apply orb_false_iff; lia).
    assert (l = []) as ->.
    { destruct l as [| p l]; [done |]. apply free_chain_cons_inv in Hch as (Hh & Hne & _). lia. }
    pose proof (with_new_page_inv fh Hinv Hmax) as Hnew.
    destruct (insert_into_progress _ _ _ buf Hnew Hbuf)
      as (slot & fh' & Hins & pg & Hpg & Hfirst & Hslot).
    exists (mkRid (num_pages (file_hdr_ fh)) slot), fh'. split; [done |].
    split; [done |]. split; [done |]. cbn [page_no slot_no]. intros s Hs.
    unfold with_new_page in Hpg. cbn [pages_ file_hdr_ num_records_per_page] in Hpg, Hfirst.
    rewrite lookup_insert_eq in Hpg. injection Hpg as <-. cbn [bitmap] in Hfirst.
    unfold Bitmap.first_bit in Hfirst.
    apply next_bit_spec in Hfirst as [[-> _] | (_ & _ & Hbefore)]; [lia |].
    assert (-1 < s < slot) as Hs' by lia.
    specialize (Hbefore s Hs'). unfold Bitmap.init in Hbefore.
    apply is_set_Some in Hbefore as [_ Hb]. apply lookup_replicate in Hb as [? _]. done.
  - assert (exists l', l = first_free_page_no (file_hdr_ fh) :: l') as [l' ->].
    { destruct l as [| p l'].
      - apply free_chain_nil_inv in Hch. lia.
      - apply free_chain_head in Hch as ->. eauto. }
    set (p := first_free_page_no (file_hdr_ fh)) in *.
    assert (RM_FIRST_RECORD_PAGE <= p < num_pages (file_hdr_ fh)) as Hp
      by (eapply rm_inv_valid; [done | apply elem_of_cons; by left]).
    replace ((p <? RM_FIRST_RECORD_PAGE) || (num_pages (file_hdr_ fh) <=? p)) with false
      by (symmetry; apply orb_false_iff; lia).
    destruct (insert_into_progress _ _ _ buf Hinv Hbuf)
      as (slot & fh' & Hins & pg & Hpg & Hfirst & Hslot).
    rewrite Hpg. exists (mkRid p slot), fh'. split; [done |].
    split; [done |]. split; [done |]. cbn [page_no slot_no]. intros s Hs.
    split; [done |]. exists pg. split; [done |].
    unfold Bitmap.first_bit in Hfirst.
    apply next_bit_spec in Hfirst as [[-> _] | (_ & _ & Hbefore)]; [lia |].
    apply (Hbefore s). lia.
Qed.

Lemma example_file_no_frame_inv : rm_inv example_file_no_frame.
Proof.
  exists []. split; [| split].
  - unfold hdr_ok, example_file_no_frame, RM_FIRST_RECORD_PAGE, INT_MAX; cbn. lia.
  - split; cbn.
    + intros p. rewrite lookup_empty. unfold RM_FIRST_RECORD_PAGE.
      split; [by intros [? ?] | lia].
    + intros p pg. by rewrite lookup_empty.
  - split; [| split]; cbn.
    + constructor.
    + constructor.
    + intros p pg. by rewrite lookup_empty.
Qed.

Lemma insert_record_succeeds_witness :
  (rm_inv example_file
   /\ record_size (file_hdr_ example_file) <= Z.of_nat (length example_A)
   /\ first_free_page_no (file_hdr_ example_file) <> RM_NO_PAGE
   /\ exists rid fh',
        insert_record example_A example_file = Ok rid fh'
        /\ page_no rid = (if first_free_page_no (file_hdr_ example_file) =? RM_NO_PAGE
                          then num_pages (file_hdr_ example_file)
                          else first_free_page_no (file_hdr_ example_file))
        /\ 0 <= slot_no rid < num_records_per_page (file_hdr_ example_file)
        /\ forall s, 0 <= s < slot_no rid -> live example_file (mkRid (page_no rid) s))
  /\ (rm_inv example_file_no_frame
      /\ record_size (file_hdr_ example_file_no_frame) <= Z.of_nat (length example_A)
      /\ first_free_page_no (file_hdr_ example_file_no_frame) = RM_NO_PAGE
      /\ has_free_frame_ example_file_no_frame = false
      /\ insert_record example_A example_file_no_frame
         = Throw (InternalError "Failed to allocate new page for record file")
                 example_file_no_frame).
Proof.
  assert (record_size (file_hdr_ example_file) <= Z.of_nat (length example_A)) as Hbuf
    by (cbn; lia).
  assert (first_free_page_no (file_hdr_ example_file) <> RM_NO_PAGE) as Hroom
    by discriminate.
  assert (record_size (file_hdr_ example_file_no_frame) <= Z.of_nat (length example_A))
    as Hbuf' by (cbn; lia).
  split.
  - split; [exact example_file_inv |]. split; [exact Hbuf |]. split; [exact Hroom |].
    exact (proj1 (insert_record_succeeds example_file example_A example_file_inv Hbuf)
             (or_introl Hroom)).
  - split; [exact example_file_no_frame_inv |]. split; [exact Hbuf' |].
    split; [reflexivity |]. split; [reflexivity |].
    exact (proj2 (insert_record_succeeds example_file_no_frame example_A
                    example_file_no_frame_inv Hbuf') eq_refl eq_refl).
Defined.
Lemma mem_write_back off n mem v :
  mem_read off n mem = Some v -> mem_write off n v mem = Some mem.
Proof.
  intros [(Hoff & Hn & Hlen) ->]%mem_read_Some. apply mem_write_Some.
  split.
  - repeat split; try lia. rewrite length_take, length_drop. lia.
  - rewrite take_take, Nat.min_id.
    rewrite <- (take_drop (Z.to_nat off) mem) at 1. f_equal.
    rewrite <- (take_drop (Z.to_nat n) (drop (Z.to_nat off) mem)) at 1. f_equal.
    rewrite drop_drop. f_equal. lia.
Qed.

Lemma mem_write_over off n src src' mem mem' :
  mem_write off n src mem = Some mem' ->
  n <= Z.of_nat (length src') ->
  mem_write off n src' mem'
  = Some (take (Z.to_nat off) mem ++ take (Z.to_nat n) src' ++ drop (Z.to_nat (off + n)) mem).
Proof.
  intros [(Hoff & Hn & Hlen & Hsrc) ->]%mem_write_Some Hsrc'. apply mem_write_Some.
  assert (length (take (Z.to_nat off) mem) = Z.to_nat off) as Hl1
    by (rewrite length_take; lia).
  assert (length (take (Z.to_nat n) src) = Z.to_nat n) as Hl2
    by (rewrite length_take; lia).
  split.
  - repeat split; try lia. rewrite !length_app, Hl1, Hl2, length_drop. lia.
  - rewrite take_app_length' by done. f_equal. f_equal.
    symmetry.
    replace (Z.to_nat (off + n)) with (Z.to_nat off + Z.to_nat n)%nat at 1 by lia.
    rewrite <- drop_drop, drop_app_length' by done. by rewrite drop_app_length'.
Qed.
Lemma set_slots_back sl pg : set_slots (slots pg) (set_slots sl pg) = pg.
Proof. by destruct pg. Qed.

Lemma file_handle_eta fh : mkRmFileHandle (file_hdr_ fh) (pages_ fh) (has_free_frame_ fh) = fh.
Proof. by destruct fh. Qed.

(** X9: Updating a record and then updating it again with the bytes it had
    gives back the very file: the undo of an update is exact. *)
Theorem update_then_restore fh rid buf old fh1 :
  get_record rid fh = Ok old fh ->
  update_record rid buf fh = Ok tt fh1 ->
  update_record rid old fh1 = Ok tt fh.
Proof.
  intros [_ (Hv & pg & Hpg & Hbit & Hread)]%get_record_Ok Hupd.
  rewrite update_record_flat in Hupd. unfold update_flat in Hupd. cbv zeta in Hupd.
  rewrite update_record_flat. unfold update_flat. cbv zeta.
  replace ((page_no rid <? RM_FIRST_RECORD_PAGE)
           || (num_pages (file_hdr_ fh) <=? page_no rid)) with false in Hupd
    by (symmetry; apply orb_false_iff; lia).
  rewrite Hpg, Hbit in Hupd.
  destruct (mem_write _ _ buf _) as [sl|] eqn:Hw; [| done]. injection Hupd as <-.
  cbn [file_hdr_ pages_].
  replace ((page_no rid <? RM_FIRST_RECORD_PAGE)
           || (num_pages (file_hdr_ fh) <=? page_no rid)) with false
    by (symmetry; apply orb_false_iff; lia).
  rewrite lookup_insert_eq. cbn [set_slots bitmap slots]. rewrite Hbit.
  pose proof (mem_read_length _ _ _ _ Hread) as Hlen.
  rewrite (mem_write_over _ _ _ old _ _ Hw) by lia.
  pose proof (mem_write_back _ _ _ _ Hread) as [_ Hsame]%mem_write_Some.
  rewrite <- Hsame, insert_insert_eq.
  change (set_slots (slots pg) pg) with (set_slots (slots pg) (set_slots sl pg)).
  rewrite set_slots_back, insert_id by done. cbn [has_free_frame_].
  by rewrite file_handle_eta.
Qed.

Lemma update_then_restore_witness :
  get_record (mkRid 1 2) example_file = Ok example_A example_file
  /\ update_record (mkRid 1 2) example_B example_file = Ok tt example_after_update
  /\ update_record (mkRid 1 2) example_A example_after_update = Ok tt example_file.
Proof.
  assert (get_record (mkRid 1 2) example_file = Ok example_A example_file) as Hget
    by (vm_compute; reflexivity).
  split; [exact Hget |]. split; [exact example_update_run |].
  exact (update_then_restore example_file (mkRid 1 2) example_B example_A example_after_update
           Hget example_update_run).
Defined.

Lemma page_eta pg :
  mkPage (mkRmPageHdr (next_free_page_no (page_hdr pg)) (num_records (page_hdr pg)))
         (bitmap pg) (slots pg) = pg.
Proof. by destruct pg as [[? ?] ? ?]. Qed.

Lemma set_first_free_back h p :
  set_first_free_page_no (first_free_page_no h) (set_first_free_page_no p h) = h.
Proof. by destruct h. Qed.

(** X10: Deleting a record and then inserting the bytes it had at its record
    identifier gives back the very file, free list included: the undo of a
    delete is exact. *)
Theorem delete_then_insert_at fh rid old fh1 :
  rm_inv fh ->
  get_record rid fh = Ok old fh ->
  delete_record rid fh = Ok tt fh1 ->
  insert_record_at rid old fh1 = Ok tt fh.
Proof.
  intros (l & Hhdr & [Hdom Hpages] & _ & _ & Hmem)
    [_ (Hv & pg & Hpg & Hbit & Hread)]%get_record_Ok Hdel.
  pose proof Hhdr as (Hrs & Hn & Hbs & Hbsm & Hnp).
  assert (0 <= num_records_per_page (file_hdr_ fh)) as Hn0 by lia.
  pose proof (page_ok_count_le _ _ Hn0 (Hpages _ _ Hpg)) as Hcnt.
  rewrite delete_record_flat in Hdel. unfold delete_flat in Hdel. cbv zeta in Hdel.
  replace ((page_no rid <? RM_FIRST_RECORD_PAGE)
           || (num_pages (file_hdr_ fh) <=? page_no rid)) with false in Hdel
    by (symmetry; apply orb_false_iff; lia).
  rewrite Hpg, Hbit in Hdel.
  destruct (Bitmap.reset _ _) as [bm|] eqn:Hreset; [| done].
  pose proof (assign_assign _ _ _ _ _ Hbit Hreset) as Hset.
  pose proof (is_set_assign_eq _ _ _ _ Hreset) as Hbit1.
  pose proof (mem_write_back _ _ _ _ Hread) as Hw.
  destruct (INT_MIN <? num_records (page_hdr pg)); [| done].
  rewrite insert_record_at_flat. unfold insert_at_flat. cbv zeta.
  destruct (num_records (page_hdr pg) =? num_records_per_page (file_hdr_ fh)) eqn:Hfull;
    injection Hdel as <-; cbn [file_hdr_ pages_ has_free_frame_ set_first_free_page_no num_pages record_size
                               num_records_per_page first_free_page_no];
    (replace ((page_no rid <? RM_FIRST_RECORD_PAGE)
              || (num_pages (file_hdr_ fh) <=? page_no rid)) with false
       by (symmetry; apply orb_false_iff; lia));
    rewrite lookup_insert_eq; cbn [bitmap slots page_hdr num_records next_free_page_no];
    rewrite Hbit1, Hw, (Hset : Bitmap.set _ _ = _);
    (replace (num_records (page_hdr pg) - 1 <? INT_MAX) with true by lia);
    (replace (num_records (page_hdr pg) - 1 + 1) with (num_records (page_hdr pg)) by lia);
    rewrite Hfull.
  - rewrite Z.eqb_refl, insert_insert_eq.
    destruct (Hmem _ _ Hpg) as [_ [_ Hnext]]; [lia |].
    rewrite <- Hnext, page_eta, insert_id by done.
    change (mkRmFileHdr _ _ _ _ _) with (set_first_free_page_no (first_free_page_no (file_hdr_ fh))
              (set_first_free_page_no (page_no rid) (file_hdr_ fh))).
    by rewrite set_first_free_back, file_handle_eta.
  - rewrite insert_insert_eq, page_eta, insert_id by done. by rewrite file_handle_eta.
Qed.

Lemma delete_then_insert_at_witness :
  rm_inv example_file
  /\ get_record (mkRid 1 0) example_file = Ok example_B example_file
  /\ delete_record (mkRid 1 0) example_file = Ok tt example_after_delete
  /\ insert_record_at (mkRid 1 0) example_B example_after_delete = Ok tt example_file.
Proof.
  assert (get_record (mkRid 1 0) example_file = Ok example_B example_file) as Hget
    by (vm_compute; reflexivity).
  split; [exact example_file_inv |]. split; [exact Hget |]. split; [exact example_delete_run |].
  exact (delete_then_insert_at example_file (mkRid 1 0) example_B example_after_delete
           example_file_inv Hget example_delete_run).
Defined.

(** X8: The insert at a given record identifier that names a slot of the slot
    array ([0 <= slot_no < num_records_per_page]) adds exactly that record:
    the slot was dead, afterwards the live records are that one and those
    that were live, the new record reads as the first [record_size] bytes of
    the buffer, and every other record has the bytes it had. *)
Theorem insert_record_at_adds_one fh rid buf fh' :
  rm_inv fh ->
  0 <= slot_no rid < num_records_per_page (file_hdr_ fh) ->
  insert_record_at rid buf fh = Ok tt fh' ->
  ~ live fh rid
  /\ (forall r, live fh' r <-> r = rid \/ live fh r)
  /\ record_at fh' rid (record_of fh buf)
  /\ (forall r v, record_at fh r v -> record_at fh' r v).
Proof.
  intros Hinv _ Hins.
  assert (rm_inv fh') as Hinv'.
  { pose proof (rm_call_inv (CallInsertAt rid buf) fh _ Hinv eq_refl) as H.
    unfold rm_call, bind, ret in H. by rewrite Hins in H. }
  pose proof Hinv as [l Hinvl].
  pose proof (insert_record_at_inv _ _ _ _ _ Hinvl Hins)
    as (pg & sl & bm & l1 & l2 & Hpg & Hslot & Hbit & Hw & Hset & _ & Hrest).
  cbv zeta in Hrest. destruct Hrest as ((_ & Hnp & _) & Hpg' & Hothers & _).
  split; [| split; [| split]].
  - intros (_ & pg0 & Hpg0 & Hbit0). congruence.
  - intros r. unfold live. rewrite <- !rm_inv_range by done.
    destruct (decide (page_no r = page_no rid)) as [Hp | Hp].
    + rewrite Hp, Hpg', Hpg.
      destruct (decide (slot_no r = slot_no rid)) as [Hs | Hs].
      * split; [intros _; left; by apply rid_eq |]. intros _. split; [eauto |].
        eexists. split; [done |]. cbn [bitmap]. rewrite Hs. by eapply is_set_assign_eq.
      * split.
        -- intros (_ & pg1 & [= <-] & Hb). cbn [bitmap] in Hb.
           rewrite (is_set_assign_ne _ _ _ _ _ Hset) in Hb by done. right. eauto.
        -- intros [-> | (_ & pg0 & [= <-] & Hb)]; [done |]. split; [eauto |].
           eexists. split; [done |]. cbn [bitmap].
           by rewrite (is_set_assign_ne _ _ _ _ _ Hset).
    + split.
      * intros (Hsome & pg1 & Hpg1 & Hb). right.
        destruct (pages_ fh !! page_no r) as [pg0|] eqn:Hpg0.
        -- destruct (Hothers _ _ Hp Hpg0) as (pg0' & Hpg0' & Hb0 & _).
           rewrite Hpg1 in Hpg0'. injection Hpg0' as <-. split; [eauto |].
           exists pg0. by rewrite Hb0.
        -- assert (is_Some (pages_ fh !! page_no r)) as [? ?]; [| congruence].
           apply rm_inv_range; [done |]. rewrite Hnp. by apply rm_inv_range.
      * intros [-> | (_ & pg0 & Hpg0 & Hb)]; [done |].
        destruct (Hothers _ _ Hp Hpg0) as (pg0' & Hpg0' & Hb0 & _).
        split; [eauto |]. exists pg0'. by rewrite <- Hb0.
  - by apply insert_record_at_read.
  - intros r v Hr. destruct (decide (r = rid)) as [-> | Hne].
    + destruct Hr as (_ & pg0 & Hpg0 & Hbit0 & _). congruence.
    + eapply keeps_record_at; [| done].
      by apply (insert_record_at_keeps r rid buf fh (Ok tt fh') v).
Qed.

Lemma insert_record_at_adds_one_witness :
  rm_inv example_after_delete
  /\ 0 <= slot_no (mkRid 1 0) < num_records_per_page (file_hdr_ example_after_delete)
  /\ insert_record_at (mkRid 1 0) example_A example_after_delete = Ok tt example_after_update_0
  /\ ~ live example_after_delete (mkRid 1 0)
  /\ (forall r, live example_after_update_0 r <-> r = mkRid 1 0 \/ live example_after_delete r)
  /\ record_at example_after_update_0 (mkRid 1 0) (record_of example_after_delete example_A)
  /\ (forall r v, record_at example_after_delete r v -> record_at example_after_update_0 r v).
Proof.
  assert (rm_inv example_after_delete) as Hinv.
  { pose proof (rm_call_inv (CallDelete (mkRid 1 0)) example_file _ example_file_inv eq_refl)
      as H.
    unfold rm_call, bind, ret in H. by rewrite example_delete_run in H. }
  assert (insert_record_at (mkRid 1 0) example_A example_after_delete
          = Ok tt example_after_update_0) as Hins by (vm_compute; reflexivity).
  assert (0 <= slot_no (mkRid 1 0) < num_records_per_page (file_hdr_ example_after_delete))
    as Hslot by (cbn; lia).
  split; [exact Hinv |]. split; [exact Hslot |]. split; [exact Hins |].
  exact (insert_record_at_adds_one example_after_delete (mkRid 1 0) example_A
           example_after_update_0 Hinv Hslot Hins).
Defined.
(** * Further properties of the scan *)

Lemma rids_from_successor fh k p b r0 rest :
  hdr_ok (file_hdr_ fh) -> data_pages_ok fh ->
  p + Z.of_nat k = num_pages (file_hdr_ fh) ->
  rids_from fh k p b = r0 :: rest ->
  live fh r0 /\ rid_lt (mkRid p b) r0
  /\ forall r, live fh r -> rid_lt (mkRid p b) r -> r = r0 \/ rid_lt r0 r.
Proof.
  intros Hhdr [Hdom Hpages] Hk Hl.
  assert (r0 ∈ rids_from fh k p b) as Hin by (rewrite Hl; apply elem_of_cons; by left).
  pose proof (rids_from_sorted fh k p b) as Hsorted. rewrite Hl in Hsorted.
  apply StronglySorted_inv in Hsorted as [_ Hall].
  apply elem_of_rids_from in Hin as (Hp0 & Hs0 & pg0 & Hpg0 & Hbit0).
  assert (is_Some (pages_ fh !! page_no r0)) as Hv0%Hdom by eauto.
  split; [split; eauto |]. split.
  - unfold rid_lt. cbn. destruct (decide (page_no r0 = p)); lia.
  - intros r (Hv & pg & Hpg & Hbit) Hlt.
    assert (r ∈ rids_from fh k p b) as Hr.
    { apply elem_of_rids_from. unfold rid_lt in Hlt. cbn in Hlt.
      pose proof (slot_in_page _ _ _ Hhdr (Hpages _ _ Hpg) Hbit).
      split; [lia |]. split; [destruct (decide (page_no r = p)); lia | eauto]. }
    rewrite Hl in Hr. apply elem_of_cons in Hr as [-> | Hr]; [by left | right].
    rewrite Forall_forall in Hall. by apply Hall.
Qed.

Lemma rids_from_none fh k p b r :
  hdr_ok (file_hdr_ fh) -> data_pages_ok fh ->
  p + Z.of_nat k = num_pages (file_hdr_ fh) ->
  rids_from fh k p b = [] ->
  live fh r -> ~ rid_lt (mkRid p b) r.
Proof.
  intros Hhdr [Hdom Hpages] Hk Hl (Hv & pg & Hpg & Hbit) Hlt.
  assert (r ∈ rids_from fh k p b) as Hr; [| rewrite Hl in Hr; by apply elem_of_nil in Hr].
  apply elem_of_rids_from. unfold rid_lt in Hlt. cbn in Hlt.
  pose proof (slot_in_page _ _ _ Hhdr (Hpages _ _ Hpg) Hbit).
  split; [lia |]. split; [destruct (decide (page_no r = p)); lia | eauto].
Qed.

(** X11: From any position on a data page, live or not, [next] moves to the
    least live record identifier above the position, and to the end state
    when there is none. *)
Theorem next_finds_successor fh s :
  rm_inv fh ->
  RM_FIRST_RECORD_PAGE <= page_no (rid s) < num_pages (file_hdr_ fh) ->
  -1 <= slot_no (rid s) ->
  exists s',
    next fh s = Ok tt s'
    /\ ((s' = end_of_scan /\ forall r, live fh r -> ~ rid_lt (rid s) r)
        \/ (live fh (rid s') /\ rid_lt (rid s) (rid s')
            /\ forall r, live fh r -> rid_lt (rid s) r -> r = rid s' \/ rid_lt (rid s') r)).
Proof.
  destruct s as [[p b]]. unfold rid. cbn [rid_ page_no slot_no].
  intros (l & Hhdr & Hdp & _) Hp Hb.
  rewrite next_spec by done. cbn [page_no slot_no]. eexists. split; [done |].
  set (k := Z.to_nat (num_pages (file_hdr_ fh) - p)).
  assert (p + Z.of_nat k = num_pages (file_hdr_ fh)) as Hk by lia.
  destruct (rids_from fh k p b) as [| r0 rest] eqn:Hl; cbn [hd rid_].
  - left. split; [done |]. intros r Hr. by eapply rids_from_none.
  - right. by eapply rids_from_successor.
Qed.

Lemma next_finds_successor_witness :
  let s := mkRmScan (mkRid 1 1) in
  rm_inv example_file
  /\ RM_FIRST_RECORD_PAGE <= page_no (rid s) < num_pages (file_hdr_ example_file)
  /\ -1 <= slot_no (rid s)
  /\ next example_file s = Ok tt (mkRmScan (mkRid 1 2))
  /\ exists s',
       next example_file s = Ok tt s'
       /\ ((s' = end_of_scan /\ forall r, live example_file r -> ~ rid_lt (rid s) r)
           \/ (live example_file (rid s') /\ rid_lt (rid s) (rid s')
               /\ forall r, live example_file r -> rid_lt (rid s) r ->
                    r = rid s' \/ rid_lt (rid s') r)).
Proof.
  intros s.
  assert (RM_FIRST_RECORD_PAGE <= page_no (rid s) < num_pages (file_hdr_ example_file)) as Hp
    by (unfold RM_FIRST_RECORD_PAGE; cbn; lia).
  assert (-1 <= slot_no (rid s)) as Hb by (cbn; lia).
  split; [exact example_file_inv |]. split; [exact Hp |]. split; [exact Hb |].
  split; [vm_compute; reflexivity |].
  exact (next_finds_successor example_file s example_file_inv Hp Hb).
Defined.

Lemma filter_ext_elem {A} (P Q : A -> Prop) `{!forall x, Decision (P x)}
    `{!forall x, Decision (Q x)} (l : list A) :
  (forall x, x ∈ l -> P x <-> Q x) -> filter P l = filter Q l.
Proof.
  induction l as [| x l IH]; intros Hext; [done |].
  assert (filter P l = filter Q l) as Hl.
  { apply IH. intros y Hy. apply Hext. apply elem_of_cons. by right. }
  assert (P x <-> Q x) as Hx by (apply Hext, elem_of_cons; by left).
  destruct (decide (P x)) as [HP | HP].
  - rewrite !filter_cons_True by tauto. by rewrite Hl.
  - rewrite !filter_cons_False by tauto. done.
Qed.

Lemma rids_from_delete fh rid fh' k q b :
  delete_record rid fh = Ok tt fh' ->
  page_no rid <= q -> (q = page_no rid -> slot_no rid <= b) ->
  rids_from fh' k q b = rids_from fh k q b.
Proof.
  intros (pg & bm & hdr' & Hv & Hpg & Hbit & Hreset & (_ & _ & Hn & _) & Hpages)%delete_record_effect.
  revert q b. induction k as [| k IH]; intros q b Hq Hb; [done |].
  cbn [rids_from]. rewrite IH by lia. f_equal.
  unfold page_rids. rewrite Hpages, <- Hn.
  destruct (decide (q = page_no rid)) as [-> | Hne]; [| by rewrite lookup_insert_ne].
  rewrite lookup_insert_eq, Hpg. cbn [bitmap]. f_equal. unfold live_slots_after.
  apply filter_ext_elem. intros s Hs. apply elem_of_seqZ in Hs.
  rewrite (is_set_assign_ne _ _ _ _ s Hreset); [done |]. specialize (Hb eq_refl). lia.
Qed.

(** X12: Deleting the record the scan stands on does not disturb the scan: the
    following [next] yields the record it would have yielded without the
    delete. *)
Theorem next_after_delete_current fh s fh' :
  rm_inv fh -> delete_record (rid s) fh = Ok tt fh' -> next fh' s = next fh s.
Proof.
  destruct s as [r]. unfold rid. cbn [rid_]. intros Hinv Hdel.
  assert (rm_inv fh') as (l' & Hhdr' & Hdp' & _).
  { pose proof (rm_call_inv (CallDelete r) fh _ Hinv eq_refl) as H.
    unfold rm_call, bind, ret in H. by rewrite Hdel in H. }
  destruct Hinv as (l & Hhdr & Hdp & _).
  pose proof (delete_record_effect _ _ _ Hdel)
    as (pg & bm & hdr' & Hv & Hpg & Hbit & _ & (_ & Hnp & _) & _).
  assert (-1 <= slot_no r) as Hs by (apply is_set_lt in Hbit; lia).
  rewrite !next_spec by (done || lia). rewrite <- Hnp.
  by rewrite (rids_from_delete fh r fh').
Qed.

Lemma next_after_delete_current_witness :
  rm_inv example_file
  /\ delete_record (rid (mkRmScan (mkRid 1 0))) example_file = Ok tt example_after_delete
  /\ next example_after_delete (mkRmScan (mkRid 1 0)) = Ok tt (mkRmScan (mkRid 1 2))
  /\ next example_after_delete (mkRmScan (mkRid 1 0)) = next example_file (mkRmScan (mkRid 1 0)).
Proof.
  split; [exact example_file_inv |]. split; [exact example_delete_run |].
  split; [vm_compute; reflexivity |].
  exact (next_after_delete_current example_file (mkRmScan (mkRid 1 0)) example_after_delete
           example_file_inv example_delete_run).
Defined.
(** * Further properties of the lock manager *)

(** [lock] as a decision tree. *)
Lemma lock_flat a id mode lm :
  lock (Some a) id mode lm
  = match txns lm !! a with
    | None => Undef NullDereference
    | Some t =>
        let tid := get_transaction_id t in
        if decide (get_state t = SHRINKING)
        then Throw (TransactionAbortException tid LOCK_ON_SHIRINKING) lm
        else
          let reqs := requests_of lm id in
          match find_request tid reqs with
          | Some (i, req) =>
              if granted_ req && bool_decide (lock_mode_ req = mode) then Ok true lm
              else if conflicts (Some tid) mode reqs
              then Throw (TransactionAbortException tid UPGRADE_CONFLICT) lm
              else
                let reqs' := <[i := mkLockRequest (txn_id_ req) mode true]> reqs in
                Ok true
                  (mkLockManager
                     (<[a := set_lock_set ({[id]} ∪ get_lock_set t) t]> (txns lm))
                     (<[id := mkLockRequestQueue reqs' (group_mode_of reqs')]> (lock_table_ lm)))
          | None =>
              if conflicts None mode reqs then Ok false lm
              else
                let reqs' := reqs ++ [mkLockRequest tid mode true] in
                let t' := set_lock_set ({[id]} ∪ get_lock_set t) t in
                Ok true
                  (mkLockManager
                     (<[a := if decide (get_state t = DEFAULT) then set_state GROWING t' else t']>
                        (txns lm))
                     (<[id := mkLockRequestQueue reqs' (group_mode_of reqs')]> (lock_table_ lm)))
          end
    end.
Proof.
  unfold lock, requests_of. lm_unfold.
  destruct (txns lm !! a) as [t|] eqn:Ht; [| done]. lm_norm.
  destruct (decide (get_state t = SHRINKING)) as [Hs | Hs]; [done |].
  destruct (lock_table_ lm !! id) as [queue|] eqn:Hq; lm_norm.
  - destruct (find_request _ _) as [[i req] |].
    + destruct (_ && _); [by destruct lm |].
      destruct (conflicts _ _ _); [by destruct lm |].
      lm_norm. rewrite Ht. lm_norm. done.
    + destruct (conflicts _ _ _); [by destruct lm |].
      lm_norm. rewrite Ht. lm_norm.
      change (get_state (set_lock_set _ t)) with (get_state t). done.
  - cbn [find_request conflicts existsb app]. lm_norm. rewrite Ht. lm_norm.
    change (get_state (set_lock_set _ t)) with (get_state t). done.
Qed.
Lemma find_request_None id reqs :
  find_request id reqs = None <-> id ∉ txn_id_ <$> reqs.
Proof.
  induction reqs as [| r reqs IH]; cbn [find_request fmap list_fmap].
  - split; [intros _; apply not_elem_of_nil | done].
  - rewrite not_elem_of_cons. destruct (txn_id_ r =? id) eqn:E.
    + split; [done | intros [? _]; lia].
    + destruct (find_request id reqs) as [[i r'] |].
      * split; [done |]. intros [_ H]. by apply IH in H.
      * split; [| done]. intros _. split; [lia | by apply IH].
Qed.

Lemma find_request_insert id reqs i req req' :
  find_request id reqs = Some (i, req) -> txn_id_ req' = id ->
  find_request id (<[i := req']> reqs) = Some (i, req').
Proof.
  revert i. induction reqs as [| r reqs IH]; intros i H Hid; cbn in H; [done |].
  destruct (txn_id_ r =? id) eqn:E.
  - injection H as <- <-. cbn. by replace (txn_id_ req' =? id) with true by lia.
  - destruct (find_request id reqs) as [[i' r'] |] eqn:Hf; [| done].
    injection H as <- <-.
    change (<[S i' := req']> (r :: reqs)) with (r :: <[i' := req']> reqs).
    cbn [find_request]. rewrite E. by rewrite (IH i').
Qed.

Lemma find_request_app_new id reqs req' :
  find_request id reqs = None -> txn_id_ req' = id ->
  find_request id (reqs ++ [req']) = Some (length reqs, req').
Proof.
  intros H Hid. induction reqs as [| r reqs IH]; cbn in *.
  - by replace (txn_id_ req' =? id) with true by lia.
  - destruct (txn_id_ r =? id); [done |].
    destruct (find_request id reqs) as [[i' r'] |]; [done |]. by rewrite IH.
Qed.

Lemma requests_of_table lm lm' id reqs' id' :
  table_step id lm lm' reqs' ->
  requests_of lm' id' = if decide (id' = id) then reqs' else requests_of lm id'.
Proof.
  unfold requests_of. intros [-> | [-> ->]]; destruct (decide (id' = id)) as [-> | Hne].
  - by rewrite lookup_insert_eq.
  - by rewrite lookup_insert_ne.
  - by rewrite lookup_delete_eq.
  - by rewrite lookup_delete_ne.
Qed.

(** What a call of [lock] that returns has done. *)
Lemma lock_effect a id mode lm b lm' :
  lock (Some a) id mode lm = Ok b lm' ->
  exists t,
    txns lm !! a = Some t /\ get_state t <> SHRINKING
    /\ let tid := get_transaction_id t in
       let reqs := requests_of lm id in
       (lm' = lm
        /\ (b = true ->
            exists i, find_request tid reqs = Some (i, mkLockRequest tid mode true)))
       \/ (b = true
           /\ exists reqs' t',
                table_step id lm lm' reqs'
                /\ txns lm' = <[a := t']> (txns lm)
                /\ get_transaction_id t' = tid
                /\ get_state t' <> SHRINKING
                /\ get_write_set t' = get_write_set t
                /\ get_lock_set t' = {[id]} ∪ get_lock_set t
                /\ ((exists i req,
                       find_request tid reqs = Some (i, req)
                       /\ conflicts (Some tid) mode reqs = false
                       /\ reqs' = <[i := mkLockRequest tid mode true]> reqs)
                    \/ (find_request tid reqs = None
                        /\ conflicts None mode reqs = false
                        /\ reqs' = reqs ++ [mkLockRequest tid mode true]))).
Proof.
  rewrite lock_flat. destruct (txns lm !! a) as [t|] eqn:Ht; [| done]. cbv zeta.
  destruct (decide (get_state t = SHRINKING)) as [Hs | Hs]; [done |].
  intros H. exists t. split; [done |]. split; [done |].
  destruct (find_request _ _) as [[i req] |] eqn:Hf.
  - pose proof (find_request_Some _ _ _ _ Hf) as (Hi & Hid & _).
    destruct (granted_ req && bool_decide (lock_mode_ req = mode)) eqn:Hsame.
    + injection H as <- <-. left. split; [done |]. intros _. exists i.
      apply andb_true_iff in Hsame as [Hg Hm%bool_decide_eq_true].
      destruct req. cbn in *. by subst.
    + destruct (conflicts _ _ _) eqn:Hc; [done |]. injection H as <- <-. right.
      split; [done |]. eexists _, _. split; [by left |]. split; [done |].
      cbn. rewrite Hid. repeat split; try done. left. eauto.
  - destruct (conflicts _ _ _) eqn:Hc.
    + injection H as <- <-. left. by split.
    + injection H as <- <-. right. split; [done |].
      eexists _, _. split; [by left |]. split; [done |].
      destruct (decide (get_state t = DEFAULT)); cbn; repeat split; try done; by right.
Qed.

(** What a call of [unlock] that returns has done. *)
Lemma unlock_effect a id lm b lm' :
  unlock (Some a) id lm = Ok b lm' ->
  (b = false /\ lm' = lm
   /\ (requests_of lm id = []
       \/ exists t, txns lm !! a = Some t
                    /\ find_request (get_transaction_id t) (requests_of lm id) = None))
  \/ (b = true
      /\ exists t i req t',
           txns lm !! a = Some t
           /\ find_request (get_transaction_id t) (requests_of lm id) = Some (i, req)
           /\ table_step id lm lm' (delete i (requests_of lm id))
           /\ txns lm' = <[a := t']> (txns lm)
           /\ get_transaction_id t' = get_transaction_id t
           /\ get_write_set t' = get_write_set t
           /\ get_lock_set t' = get_lock_set t ∖ {[id]}
           /\ get_state t' = (if decide (get_state t = GROWING) then SHRINKING
                              else get_state t)).
Proof.
  rewrite unlock_flat. unfold requests_of.
  destruct (lock_table_ lm !! id) as [queue|] eqn:Hq.
  2: { intros [= <- <-]. left. split; [done |]. split; [done |]. by left. }
  destruct (request_queue_ queue) as [| r0 reqs0] eqn:Hreqs.
  { intros [= <- <-]. left. split; [done |]. split; [done |]. by left. }
  destruct (txns lm !! a) as [t|] eqn:Ht; [| done].
  destruct (find_request _ _) as [[i req] |] eqn:Hf.
  2: { intros [= <- <-]. left. split; [done |]. split; [done |]. right. eauto. }
  cbv zeta. intros [= <- <-]. right. split; [done |].
  eexists t, i, req, _. split; [done |]. split; [done |]. split.
  - unfold table_step. cbn [lock_table_]. destruct (delete i (r0 :: reqs0)); eauto.
  - split; [done |]. destruct (decide (get_state t = GROWING)); done.
Qed.
Lemma lm_call_throw c lm e lm' : lm_call c lm = Throw e lm' -> lm' = lm.
Proof.
  destruct c as [[a |] id mode | [a |] id]; cbn [lm_call].
  - rewrite lock_flat. destruct (txns lm !! a) as [t|]; [| done]. cbv zeta.
    destruct (decide _); [by intros [= _ <-] |].
    destruct (find_request _ _) as [[i req] |].
    + destruct (_ && _); [done |]. destruct (conflicts _ _ _); [by intros [= _ <-] | done].
    + by destruct (conflicts _ _ _).
  - done.
  - rewrite unlock_flat. destruct (lock_table_ lm !! id) as [queue|]; [| done].
    destruct (request_queue_ queue); [done |]. destruct (txns lm !! a); [| done].
    by destruct (find_request _ _) as [[? ?] |].
  - rewrite unlock_flat. destruct (lock_table_ lm !! id) as [queue|]; [| done].
    by destruct (request_queue_ queue).
Qed.

Lemma lm_call_null c lm b lm' :
  lm_call c lm = Ok b lm' ->
  match c with CallLock None _ _ | CallUnlock None _ => lm' = lm | _ => True end.
Proof.
  destruct c as [[a |] id mode | [a |] id]; cbn [lm_call]; try done.
  - by intros [= _ <-].
  - rewrite unlock_flat. destruct (lock_table_ lm !! id) as [queue|]; [| by intros [= _ <-]].
    destruct (request_queue_ queue); [by intros [= _ <-] | done].
Qed.

(** A property of the lock manager that every returning call keeps holds
    after any sequence of calls. *)
Lemma lm_calls_preserve (P : LockManager -> Prop) :
  (forall a id mode lm b lm', lock (Some a) id mode lm = Ok b lm' -> P lm -> P lm') ->
  (forall a id lm b lm', unlock (Some a) id lm = Ok b lm' -> P lm -> P lm') ->
  forall cs lm lm', lm_calls cs lm = Some lm' -> P lm -> P lm'.
Proof.
  intros Hlock Hunlock cs. induction cs as [| c cs IH]; intros lm lm' Hrun HP; cbn in Hrun.
  - by injection Hrun as <-.
  - destruct (lm_call c lm) as [b lm1 | e lm1 |] eqn:Hc; [| | done].
    + apply (IH _ _ Hrun).
      destruct c as [[a |] id mode | [a |] id].
      * by eapply Hlock.
      * by rewrite (lm_call_null _ _ _ _ Hc).
      * by eapply Hunlock.
      * by rewrite (lm_call_null _ _ _ _ Hc).
    + apply (IH _ _ Hrun). by rewrite (lm_call_throw _ _ _ _ Hc).
Qed.

Lemma elem_of_insert_inv {A} (l : list A) i x y : y ∈ <[i := x]> l -> y = x \/ y ∈ l.
Proof.
  intros [j Hj]%list_elem_of_lookup.
  destruct (decide (i = j)) as [-> | Hne].
  - destruct (decide (j < length l)%nat).
    + rewrite list_lookup_insert_eq in Hj by done. left. congruence.
    + rewrite list_insert_ge in Hj by lia. right. by eapply list_elem_of_lookup_2.
  - rewrite list_lookup_insert_ne in Hj by done. right. by eapply list_elem_of_lookup_2.
Qed.

Lemma granted_compatible_step id lm lm' reqs' :
  granted_compatible lm -> table_step id lm lm' reqs' ->
  (forall r1 r2, r1 ∈ reqs' -> r2 ∈ reqs' -> granted_ r1 = true -> granted_ r2 = true ->
                 txn_id_ r1 <> txn_id_ r2 ->
                 is_compatible (lock_mode_ r1) (lock_mode_ r2) = true) ->
  granted_compatible lm'.
Proof.
  intros Hinv Hstep Hnew id' r1 r2. rewrite (requests_of_table _ _ _ _ id' Hstep).
  destruct (decide (id' = id)); [apply Hnew | apply Hinv].
Qed.

Lemma compatible_with_new skip mode reqs (new r : LockRequest) :
  conflicts skip mode reqs = false ->
  lock_mode_ new = mode ->
  (forall id, skip = Some id -> txn_id_ new = id) ->
  r ∈ reqs -> granted_ r = true -> txn_id_ r <> txn_id_ new ->
  is_compatible (lock_mode_ new) (lock_mode_ r) = true
  /\ is_compatible (lock_mode_ r) (lock_mode_ new) = true.
Proof.
  intros Hc%conflicts_not_blocked Hm Hskip Hr Hg Hne.
  assert (is_compatible mode (lock_mode_ r) = true) as H.
  { destruct (is_compatible mode (lock_mode_ r)) eqn:E; [done |]. exfalso. apply Hc.
    exists r. split; [done |]. split; [| done]. intros id Hid. rewrite <- (Hskip id Hid).
    done. }
  rewrite Hm. split; [done |]. by rewrite is_compatible_sym.
Qed.

Lemma lock_keeps_granted_compatible a id mode lm b lm' :
  lock (Some a) id mode lm = Ok b lm' -> granted_compatible lm -> granted_compatible lm'.
Proof.
  intros (t & Ht & Hst & H)%lock_effect Hinv. cbv zeta in H.
  destruct H as [[-> _] | (_ & reqs' & t' & Hstep & _ & _ & _ & _ & _ & Hkind)]; [done |].
  apply (granted_compatible_step id lm lm' reqs' Hinv Hstep).
  set (new := mkLockRequest (get_transaction_id t) mode true).
  assert (forall r1 r2, r1 ∈ reqs' -> r2 ∈ reqs' -> r1 = new \/ r1 ∈ requests_of lm id)
    as Hsplit.
  { intros r1 r2 H1 _.
    destruct Hkind as [(i & req & _ & _ & ->) | (_ & _ & ->)].
    - by apply elem_of_insert_inv in H1.
    - apply elem_of_app in H1 as [? | ->%list_elem_of_singleton]; [by right | by left]. }
  assert (exists skip, conflicts skip mode (requests_of lm id) = false
                       /\ forall x, skip = Some x -> txn_id_ new = x) as (skip & Hc & Hskip).
  { destruct Hkind as [(i & req & _ & Hc & _) | (_ & Hc & _)].
    - exists (Some (get_transaction_id t)). split; [done |]. by intros ? [= <-].
    - exists None. done. }
  intros r1 r2 H1 H2 Hg1 Hg2 Hne.
  pose proof (Hsplit r1 r2 H1 H2) as Hs1. pose proof (Hsplit r2 r1 H2 H1) as Hs2.
  destruct Hs1 as [-> | Hr1], Hs2 as [-> | Hr2].
  - done.
  - by apply (compatible_with_new skip mode (requests_of lm id) new r2).
  - by apply (compatible_with_new skip mode (requests_of lm id) new r1).
  - by eapply Hinv.
Qed.

Lemma unlock_keeps_granted_compatible a id lm b lm' :
  unlock (Some a) id lm = Ok b lm' -> granted_compatible lm -> granted_compatible lm'.
Proof.
  intros [(_ & -> & _) | (_ & t & i & req & t' & _ & _ & Hstep & _)]%unlock_effect Hinv;
    [done |].
  apply (granted_compatible_step id lm lm' _ Hinv Hstep).
  intros r1 r2 H1%list_elem_of_delete_inv H2%list_elem_of_delete_inv.
  exact (Hinv id r1 r2 H1 H2).
Qed.

(** X13: The safety of the lock table: when in every queue the granted requests
    of different transactions are compatible, they are so after any sequence
    of [lock] and [unlock] calls; in particular no two transactions ever hold
    an exclusive lock, or an exclusive and a shared lock, on one item. *)
Theorem granted_locks_stay_compatible cs lm lm' :
  granted_compatible lm -> lm_calls cs lm = Some lm' -> granted_compatible lm'.
Proof.
  intros Hinv Hrun. revert Hinv.
  apply (lm_calls_preserve granted_compatible) with (cs := cs); [| | done].
  - intros ? ? ? ? ? ?. apply lock_keeps_granted_compatible.
  - intros ? ? ? ? ?. apply unlock_keeps_granted_compatible.
Qed.
Lemma example_lm_calls_run : lm_calls example_lm_calls example_lm_fresh = Some example_lm_final.
Proof. vm_compute. reflexivity. Qed.

Lemma requests_of_empty tx id : requests_of (mkLockManager tx ∅) id = [].
Proof. unfold requests_of. cbn. by rewrite lookup_empty. Qed.

Lemma granted_locks_stay_compatible_witness :
  granted_compatible example_lm_fresh
  /\ lm_calls example_lm_calls example_lm_fresh = Some example_lm_final
  /\ granted_compatible example_lm_final.
Proof.
  assert (granted_compatible example_lm_fresh) as Hinv.
  { intros id r1 r2 H1. unfold example_lm_fresh in H1. rewrite requests_of_empty in H1.
    by apply elem_of_nil in H1. }
  split; [exact Hinv |]. split; [exact example_lm_calls_run |].
  exact (granted_locks_stay_compatible example_lm_calls example_lm_fresh example_lm_final
           Hinv example_lm_calls_run).
Defined.

Lemma one_request_each_step id lm lm' reqs' :
  one_request_each lm -> table_step id lm lm' reqs' -> NoDup (txn_id_ <$> reqs') ->
  one_request_each lm'.
Proof.
  intros Hinv Hstep Hnew id'. rewrite (requests_of_table _ _ _ _ id' Hstep).
  destruct (decide (id' = id)); [done | apply Hinv].
Qed.

Lemma lock_keeps_one_request_each a id mode lm b lm' :
  lock (Some a) id mode lm = Ok b lm' -> one_request_each lm -> one_request_each lm'.
Proof.
  intros (t & Ht & Hst & H)%lock_effect Hinv. cbv zeta in H.
  destruct H as [[-> _] | (_ & reqs' & t' & Hstep & _ & _ & _ & _ & _ & Hkind)]; [done |].
  apply (one_request_each_step id lm lm' reqs' Hinv Hstep).
  destruct Hkind as [(i & req & Hf & _ & ->) | (Hf & _ & ->)].
  - apply find_request_Some in Hf as (Hi & Hid & _).
    rewrite list_fmap_insert. cbn [txn_id_]. rewrite list_insert_id; [apply Hinv |].
    by rewrite list_lookup_fmap, Hi, <- Hid.
  - rewrite fmap_app. apply NoDup_app. split; [apply Hinv |]. split.
    + intros x Hx ->%list_elem_of_singleton. by apply find_request_None in Hf.
    + apply NoDup_singleton.
Qed.

Lemma unlock_keeps_one_request_each a id lm b lm' :
  unlock (Some a) id lm = Ok b lm' -> one_request_each lm -> one_request_each lm'.
Proof.
  intros [(_ & -> & _) | (_ & t & i & req & t' & _ & _ & Hstep & _)]%unlock_effect Hinv;
    [done |].
  apply (one_request_each_step id lm lm' _ Hinv Hstep).
  rewrite list_fmap_delete. eapply sublist_NoDup; [apply (Hinv id) | apply sublist_delete].
Qed.

(** X14: A transaction never has two requests in one queue: [lock] appends a
    request only when the queue has none of the transaction, and an upgrade
    rewrites the request in place. *)
Theorem one_request_per_transaction cs lm lm' :
  one_request_each lm -> lm_calls cs lm = Some lm' -> one_request_each lm'.
Proof.
  intros Hinv Hrun. revert Hinv.
  apply (lm_calls_preserve one_request_each) with (cs := cs); [| | done].
  - intros ? ? ? ? ? ?. apply lock_keeps_one_request_each.
  - intros ? ? ? ? ?. apply unlock_keeps_one_request_each.
Qed.

Lemma one_request_per_transaction_witness :
  one_request_each example_lm_fresh
  /\ lm_calls example_lm_calls example_lm_fresh = Some example_lm_final
  /\ one_request_each example_lm_final.
Proof.
  assert (one_request_each example_lm_fresh) as Hinv.
  { intros id. unfold example_lm_fresh. rewrite requests_of_empty. apply NoDup_nil_2. }
  split; [exact Hinv |]. split; [exact example_lm_calls_run |].
  exact (one_request_per_transaction example_lm_calls example_lm_fresh example_lm_final
           Hinv example_lm_calls_run).
Defined.

Lemma no_waiting_step id lm lm' reqs' :
  no_waiting lm -> table_step id lm lm' reqs' ->
  (forall r, r ∈ reqs' -> granted_ r = true) -> no_waiting lm'.
Proof.
  intros Hinv Hstep Hnew id' r. rewrite (requests_of_table _ _ _ _ id' Hstep).
  destruct (decide (id' = id)); [apply Hnew | apply Hinv].
Qed.

Lemma lock_keeps_no_waiting a id mode lm b lm' :
  lock (Some a) id mode lm = Ok b lm' -> no_waiting lm -> no_waiting lm'.
Proof.
  intros (t & Ht & Hst & H)%lock_effect Hinv. cbv zeta in H.
  destruct H as [[-> _] | (_ & reqs' & t' & Hstep & _ & _ & _ & _ & _ & Hkind)]; [done |].
  apply (no_waiting_step id lm lm' reqs' Hinv Hstep). intros r Hr.
  destruct Hkind as [(i & req & _ & _ & ->) | (_ & _ & ->)].
  - apply elem_of_insert_inv in Hr as [-> | Hr]; [done | by eapply Hinv].
  - apply elem_of_app in Hr as [Hr | ->%list_elem_of_singleton]; [by eapply Hinv | done].
Qed.

Lemma unlock_keeps_no_waiting a id lm b lm' :
  unlock (Some a) id lm = Ok b lm' -> no_waiting lm -> no_waiting lm'.
Proof.
  intros [(_ & -> & _) | (_ & t & i & req & t' & _ & _ & Hstep & _)]%unlock_effect Hinv;
    [done |].
  apply (no_waiting_step id lm lm' _ Hinv Hstep).
  intros r Hr%list_elem_of_delete_inv. by eapply Hinv.
Qed.

(** X15: The lock manager never queues a waiting request: a request that cannot
    be granted is refused ([lock] returns false or raises), and every request
    that enters a queue is granted. *)
Theorem no_request_waits cs lm lm' :
  no_waiting lm -> lm_calls cs lm = Some lm' -> no_waiting lm'.
Proof.
  intros Hinv Hrun. revert Hinv.
  apply (lm_calls_preserve no_waiting) with (cs := cs); [| | done].
  - intros ? ? ? ? ? ?. apply lock_keeps_no_waiting.
  - intros ? ? ? ? ?. apply unlock_keeps_no_waiting.
Qed.

Lemma no_request_waits_witness :
  no_waiting example_lm_fresh
  /\ lm_calls example_lm_calls example_lm_fresh = Some example_lm_final
  /\ no_waiting example_lm_final.
Proof.
  assert (no_waiting example_lm_fresh) as Hinv.
  { intros id r Hr. unfold example_lm_fresh in Hr. rewrite requests_of_empty in Hr.
    by apply elem_of_nil in Hr. }
  split; [exact Hinv |]. split; [exact example_lm_calls_run |].
  exact (no_request_waits example_lm_calls example_lm_fresh example_lm_final
           Hinv example_lm_calls_run).
Defined.
Lemma group_modes_cached_step id lm lm' reqs' :
  group_modes_cached lm -> table_step id lm lm' reqs' -> group_modes_cached lm'.
Proof.
  intros Hinv [Hstep | [_ Hstep]] id' queue; rewrite Hstep.
  - destruct (decide (id' = id)) as [-> | Hne].
    + rewrite lookup_insert_eq. by intros [= <-].
    + rewrite lookup_insert_ne by done. apply Hinv.
  - destruct (decide (id' = id)) as [-> | Hne].
    + by rewrite lookup_delete_eq.
    + rewrite lookup_delete_ne by done. apply Hinv.
Qed.

Lemma lm_calls_group_modes_cached cs lm lm' :
  group_modes_cached lm -> lm_calls cs lm = Some lm' -> group_modes_cached lm'.
Proof.
  intros Hinv Hrun. revert Hinv.
  apply (lm_calls_preserve group_modes_cached) with (cs := cs); [| | done].
  - intros a id mode lm0 b lm0' (t & Ht & Hst & H)%lock_effect Hinv. cbv zeta in H.
    destruct H as [[-> _] | (_ & reqs' & t' & Hstep & _)]; [done |].
    by eapply group_modes_cached_step.
  - intros a id lm0 b lm0'
      [(_ & -> & _) | (_ & t & i & req & t' & _ & _ & Hstep & _)]%unlock_effect Hinv; [done |].
    by eapply group_modes_cached_step.
Qed.

(** X16: The group mode stored with a queue stays the strongest granted mode of
    the queue: after any sequence of [lock] and [unlock] calls no granted
    request of a queue has a priority above the stored group mode, and the
    stored mode is that of some granted request of the queue, or NON_LOCK
    when the queue has no granted request. *)
Theorem group_mode_is_strongest_granted cs lm lm' id queue :
  group_modes_cached lm -> lm_calls cs lm = Some lm' ->
  lock_table_ lm' !! id = Some queue ->
  (forall r, r ∈ request_queue_ queue -> granted_ r = true ->
     priority (to_group_lock_mode (lock_mode_ r)) <= priority (group_lock_mode_ queue))
  /\ ((group_lock_mode_ queue = GroupLockMode.NON_LOCK
       /\ forall r, r ∈ request_queue_ queue -> granted_ r = false)
      \/ exists r, r ∈ request_queue_ queue /\ granted_ r = true
                   /\ to_group_lock_mode (lock_mode_ r) = group_lock_mode_ queue).
Proof.
  intros Hinv Hrun Hq.
  rewrite (lm_calls_group_modes_cached cs lm lm' Hinv Hrun id queue Hq).
  destruct (group_mode_fold (request_queue_ queue) GroupLockMode.NON_LOCK)
    as (_ & Hall & Hex).
  fold (group_mode_of (request_queue_ queue)) in Hall, Hex.
  split; [done |]. destruct Hex as [Hm | Hex]; [left | by right].
  split; [done |]. intros r Hr. destruct (granted_ r) eqn:Hg; [| done].
  specialize (Hall r Hr Hg). rewrite Hm in Hall. by destruct (lock_mode_ r).
Qed.

Lemma group_mode_is_strongest_granted_witness :
  let id := table_lock_id 3 in
  let queue := mkLockRequestQueue [mkLockRequest 7 EXLUCSIVE true] GroupLockMode.X in
  group_modes_cached example_lm_fresh
  /\ lm_calls example_lm_calls example_lm_fresh = Some example_lm_final
  /\ lock_table_ example_lm_final !! id = Some queue
  /\ (forall r, r ∈ request_queue_ queue -> granted_ r = true ->
        priority (to_group_lock_mode (lock_mode_ r)) <= priority (group_lock_mode_ queue))
  /\ ((group_lock_mode_ queue = GroupLockMode.NON_LOCK
       /\ forall r, r ∈ request_queue_ queue -> granted_ r = false)
      \/ exists r, r ∈ request_queue_ queue /\ granted_ r = true
                   /\ to_group_lock_mode (lock_mode_ r) = group_lock_mode_ queue).
Proof.
  intros id queue.
  assert (group_modes_cached example_lm_fresh) as Hinv.
  { intros id' queue' Hq. unfold example_lm_fresh in Hq. cbn in Hq.
    by rewrite lookup_empty in Hq. }
  assert (lock_table_ example_lm_final !! id = Some queue) as Hq by (vm_compute; reflexivity).
  split; [exact Hinv |]. split; [exact example_lm_calls_run |]. split; [exact Hq |].
  exact (group_mode_is_strongest_granted example_lm_calls example_lm_fresh example_lm_final
           id queue Hinv example_lm_calls_run Hq).
Defined.
(** X17: A granted lock is held: when [lock] returns true the queue holds a
    granted request of the transaction with the requested mode, and a second
    [lock] with the same arguments returns true and changes nothing. *)
Theorem granted_lock_is_held a id mode lm lm' :
  lock (Some a) id mode lm = Ok true lm' ->
  exists t' i,
    txns lm' !! a = Some t'
    /\ find_request (get_transaction_id t') (requests_of lm' id)
       = Some (i, mkLockRequest (get_transaction_id t') mode true)
    /\ lock (Some a) id mode lm' = Ok true lm'.
Proof.
  intros Hlock.
  assert (exists t' i,
            txns lm' !! a = Some t' /\ get_state t' <> SHRINKING
            /\ find_request (get_transaction_id t') (requests_of lm' id)
               = Some (i, mkLockRequest (get_transaction_id t') mode true))
    as (t' & i & Ht' & Hst' & Hf).
  { apply lock_effect in Hlock as (t & Ht & Hst & H). cbv zeta in H.
    destruct H as [[-> Hheld] | (_ & reqs' & t' & Hstep & Htx & Hid & Hst' & _ & _ & Hkind)].
    - destruct (Hheld eq_refl) as [i Hi]. eauto.
    - exists t'. rewrite Htx, lookup_insert_eq, (requests_of_table _ _ _ _ id Hstep).
      rewrite decide_True by done. rewrite Hid.
      destruct Hkind as [(i & req & Hf & _ & ->) | (Hf & _ & ->)].
      + exists i. split; [done |]. split; [done |]. by eapply find_request_insert.
      + eexists. split; [done |]. split; [done |]. by apply find_request_app_new. }
  exists t', i. split; [done |]. split; [done |].
  rewrite lock_flat, Ht'. cbv zeta. rewrite decide_False by done. rewrite Hf.
  cbn [granted_ lock_mode_ andb]. by rewrite bool_decide_eq_true_2.
Qed.

Lemma granted_lock_is_held_witness :
  let lm' :=
    mkLockManager
      (<[3 := mkTransaction 9 0 GROWING {[table_lock_id 3]} []]> (txns example_lm))
      (<[table_lock_id 3 :=
           mkLockRequestQueue
             [mkLockRequest 7 SHARED true; mkLockRequest 8 SHARED true;
              mkLockRequest 9 INTENTION_SHARED true] GroupLockMode.S]> ∅) in
  lock (Some 3) (table_lock_id 3) INTENTION_SHARED example_lm = Ok true lm'
  /\ exists t' i,
       txns lm' !! 3 = Some t'
       /\ find_request (get_transaction_id t') (requests_of lm' (table_lock_id 3))
          = Some (i, mkLockRequest (get_transaction_id t') INTENTION_SHARED true)
       /\ lock (Some 3) (table_lock_id 3) INTENTION_SHARED lm' = Ok true lm'.
Proof.
  intros lm'.
  assert (lock (Some 3) (table_lock_id 3) INTENTION_SHARED example_lm = Ok true lm') as Hlock
    by (vm_compute; reflexivity).
  split; [exact Hlock |].
  exact (granted_lock_is_held 3 (table_lock_id 3) INTENTION_SHARED example_lm lm' Hlock).
Defined.

(** X18: A call for the item [id] by the transaction at address [a] touches
    nothing else: the queue of every other item and every other transaction
    object are as before. *)
Theorem lock_unlock_frame c a id lm b lm' :
  (exists mode, c = CallLock (Some a) id mode) \/ c = CallUnlock (Some a) id ->
  lm_call c lm = Ok b lm' ->
  (forall id', id' <> id -> lock_table_ lm' !! id' = lock_table_ lm !! id')
  /\ (forall a', a' <> a -> txns lm' !! a' = txns lm !! a').
Proof.
  assert (forall reqs' t', table_step id lm lm' reqs' -> txns lm' = <[a := t']> (txns lm) ->
            (forall id', id' <> id -> lock_table_ lm' !! id' = lock_table_ lm !! id')
            /\ (forall a', a' <> a -> txns lm' !! a' = txns lm !! a')) as Hstep.
  { intros reqs' t' Hstep Htx. split.
    - intros id' Hne. destruct Hstep as [-> | [_ ->]].
      + by rewrite lookup_insert_ne.
      + by rewrite lookup_delete_ne.
    - intros a' Hne. rewrite Htx. by rewrite lookup_insert_ne. }
  intros [[mode ->] | ->]; cbn [lm_call].
  - intros (t & Ht & Hst & H)%lock_effect. cbv zeta in H.
    destruct H as [[-> _] | (_ & reqs' & t' & Hs & Htx & _)]; [done | by eapply Hstep].
  - intros [(_ & -> & _) | (_ & t & i & req & t' & _ & _ & Hs & Htx & _)]%unlock_effect;
      [done | by eapply Hstep].
Qed.

Lemma lock_unlock_frame_witness :
  ((exists mode, CallUnlock (Some 1) (table_lock_id 3) = CallLock (Some 1) (table_lock_id 3) mode)
   \/ CallUnlock (Some 1) (table_lock_id 3) = CallUnlock (Some 1) (table_lock_id 3))
  /\ lm_call (CallUnlock (Some 1) (table_lock_id 3)) example_lm = Ok true example_lm_released
  /\ (forall id', id' <> table_lock_id 3 ->
        lock_table_ example_lm_released !! id' = lock_table_ example_lm !! id')
  /\ (forall a', a' <> 1 -> txns example_lm_released !! a' = txns example_lm !! a').
Proof.
  assert (lm_call (CallUnlock (Some 1) (table_lock_id 3)) example_lm
          = Ok true example_lm_released) as Hcall by (vm_compute; reflexivity).
  split; [by right |]. split; [exact Hcall |].
  exact (lock_unlock_frame (CallUnlock (Some 1) (table_lock_id 3)) 1 (table_lock_id 3)
           example_lm true example_lm_released (or_intror eq_refl) Hcall).
Defined.

(** X19: The lock manager does not relate the lock of a table to the locks of its
    records: whatever locks are held on the table, by whomever, a record of
    the table whose own queue is empty can be locked in shared or in
    exclusive mode by any transaction that is not shrinking. *)
Theorem record_lock_ignores_table_locks lm b t rid tab_fd :
  txns lm !! b = Some t -> get_state t <> SHRINKING ->
  requests_of lm (record_lock_id tab_fd rid) = [] ->
  (forall tab_fd', table_lock_id tab_fd' <> record_lock_id tab_fd rid)
  /\ (exists lm', lock_shared_on_record (Some b) rid tab_fd lm = Ok true lm'
                  /\ requests_of lm' (table_lock_id tab_fd) = requests_of lm (table_lock_id tab_fd))
  /\ (exists lm', lock_exclusive_on_record (Some b) rid tab_fd lm = Ok true lm'
                  /\ requests_of lm' (table_lock_id tab_fd)
                     = requests_of lm (table_lock_id tab_fd)).
Proof.
  intros Ht Hst Hreqs. split; [intros tab_fd' H; discriminate H |].
  assert (record_lock_id tab_fd rid <> table_lock_id tab_fd) as Hne by (intros H; discriminate H).
  unfold lock_shared_on_record, lock_exclusive_on_record. rewrite !lock_flat, Ht. cbv zeta.
  destruct (decide (get_state t = SHRINKING)); [done |].
  rewrite Hreqs. cbn [find_request conflicts existsb].
  split; eexists; (split; [reflexivity |]); unfold requests_of; cbn [lock_table_];
    by rewrite lookup_insert_ne.
Qed.

Lemma record_lock_ignores_table_locks_witness :
  txns example_lm_final !! 3 = Some (mkTransaction 9 0 GROWING {[record_lock_id 3 (mkRid 1 0)]} [])
  /\ requests_of example_lm_final (table_lock_id 3) = [mkLockRequest 7 EXLUCSIVE true]
  /\ requests_of example_lm_final (record_lock_id 3 (mkRid 2 0)) = []
  /\ (forall tab_fd', table_lock_id tab_fd' <> record_lock_id 3 (mkRid 2 0))
  /\ (exists lm', lock_shared_on_record (Some 3) (mkRid 2 0) 3 example_lm_final = Ok true lm'
                  /\ requests_of lm' (table_lock_id 3)
                     = requests_of example_lm_final (table_lock_id 3))
  /\ (exists lm', lock_exclusive_on_record (Some 3) (mkRid 2 0) 3 example_lm_final = Ok true lm'
                  /\ requests_of lm' (table_lock_id 3)
                     = requests_of example_lm_final (table_lock_id 3)).
Proof.
  assert (txns example_lm_final !! 3
          = Some (mkTransaction 9 0 GROWING {[record_lock_id 3 (mkRid 1 0)]} [])) as Ht
    by (vm_compute; reflexivity).
  assert (requests_of example_lm_final (record_lock_id 3 (mkRid 2 0)) = []) as Hreqs
    by (vm_compute; reflexivity).
  split; [exact Ht |]. split; [vm_compute; reflexivity |]. split; [exact Hreqs |].
  refine (record_lock_ignores_table_locks example_lm_final 3 _ (mkRid 2 0) 3 Ht _ Hreqs).
  discriminate.
Defined.
(** X20: What [unlock] does when it is given a transaction: it returns false and
    changes nothing when the queue of the item holds no request of the
    transaction (or does not exist); otherwise it returns true after removing
    the first request of the transaction from the queue, removing the item
    from the lock set, and moving a GROWING transaction to SHRINKING; a
    transaction in any other state keeps its state. *)
Theorem unlock_outcome a id lm t :
  txns lm !! a = Some t ->
  match find_request (get_transaction_id t) (requests_of lm id) with
  | None => unlock (Some a) id lm = Ok false lm
  | Some (i, _) =>
      exists lm' t',
        unlock (Some a) id lm = Ok true lm'
        /\ requests_of lm' id = delete i (requests_of lm id)
        /\ (requests_of lm' id = [] -> lock_table_ lm' !! id = None)
        /\ txns lm' !! a = Some t'
        /\ get_transaction_id t' = get_transaction_id t
        /\ get_lock_set t' = get_lock_set t ∖ {[id]}
        /\ get_write_set t' = get_write_set t
        /\ get_state t' = (if decide (get_state t = GROWING) then SHRINKING else get_state t)
  end.
Proof.
  intros Ht. rewrite unlock_flat. unfold requests_of.
  destruct (lock_table_ lm !! id) as [queue|] eqn:Hq; [| done].
  destruct (request_queue_ queue) as [| r0 reqs0] eqn:Hreqs; [done |].
  rewrite Ht. destruct (find_request _ _) as [[i req] |] eqn:Hf; [| done].
  cbv zeta. eexists _, _. split; [reflexivity |]. cbn [lock_table_ txns].
  rewrite lookup_insert_eq.
  destruct (delete i (r0 :: reqs0)) as [| r1 reqs1] eqn:Hdel.
  - rewrite lookup_delete_eq. split; [done |]. split; [done |]. split; [done |].
    by destruct (decide (get_state t = GROWING)).
  - rewrite lookup_insert_eq. cbn [request_queue_]. split; [done |]. split; [done |].
    split; [done |]. by destruct (decide (get_state t = GROWING)).
Qed.

Lemma unlock_outcome_witness :
  let t := mkTransaction 7 0 GROWING {[table_lock_id 3]} [] in
  txns example_lm !! 1 = Some t
  /\ find_request (get_transaction_id t) (requests_of example_lm (table_lock_id 3))
     = Some (0%nat, mkLockRequest 7 SHARED true)
  /\ unlock (Some 1) (table_lock_id 3) example_lm = Ok true example_lm_released
  /\ match find_request (get_transaction_id t) (requests_of example_lm (table_lock_id 3)) with
     | None => unlock (Some 1) (table_lock_id 3) example_lm = Ok false example_lm
     | Some (i, _) =>
         exists lm' t',
           unlock (Some 1) (table_lock_id 3) example_lm = Ok true lm'
           /\ requests_of lm' (table_lock_id 3)
              = delete i (requests_of example_lm (table_lock_id 3))
           /\ (requests_of lm' (table_lock_id 3) = [] ->
               lock_table_ lm' !! table_lock_id 3 = None)
           /\ txns lm' !! 1 = Some t'
           /\ get_transaction_id t' = get_transaction_id t
           /\ get_lock_set t' = get_lock_set t ∖ {[table_lock_id 3]}
           /\ get_write_set t' = get_write_set t
           /\ get_state t' = (if decide (get_state t = GROWING) then SHRINKING
                              else get_state t)
     end.
Proof.
  intros t.
  assert (txns example_lm !! 1 = Some t) as Ht by (vm_compute; reflexivity).
  split; [exact Ht |]. split; [vm_compute; reflexivity |]. split; [vm_compute; reflexivity |].
  exact (unlock_outcome 1 (table_lock_id 3) example_lm t Ht).
Defined.

(** X21: Calls with a null transaction pointer: [lock], [commit] and [abort]
    return at once without touching anything; [unlock] returns false when the
    item has no request, and otherwise reads the transaction identifier
    through the null pointer, before the test for a null transaction that
    follows in the loop. *)
Theorem null_transaction_calls :
  (forall id mode lm, lock None id mode lm = Ok false lm)
  /\ (forall id lm,
        unlock None id lm
        = match requests_of lm id with
          | [] => Ok false lm
          | _ :: _ => Undef NullDereference
          end)
  /\ (forall tm, commit None tm = Ok tt tm)
  /\ (forall tm, abort None tm = Ok tt tm).
Proof.
  split; [done |]. split; [| done].
  intros id lm. rewrite unlock_flat. unfold requests_of.
  destruct (lock_table_ lm !! id) as [queue|]; [| done].
  by destruct (request_queue_ queue).
Qed.
(** * Further properties of the transaction manager *)

Lemma wrap_int_id x : INT_MIN <= x <= INT_MAX -> wrap_int x = x.
Proof.
  intros Hx. unfold wrap_int, INT_MIN, INT_MAX in *.
  rewrite Z.mod_small by lia. lia.
Qed.

(** X22: [begin] without a transaction creates one: it gets the next identifier
    and the next timestamp, is GROWING, lives at an address no transaction
    occupied, and is registered in [txn_map] under its identifier; both
    counters advance by one, and the record files, the lock table and the
    other transactions are left alone. *)
Theorem begin_creates_transaction tm :
  INT_MIN <= next_txn_id_ tm < INT_MAX ->
  INT_MIN <= next_timestamp_ tm < INT_MAX ->
  exists a t tm',
    begin None tm = Ok a tm'
    /\ txns (lock_manager_ tm) !! a = None
    /\ txns (lock_manager_ tm') = <[a := t]> (txns (lock_manager_ tm))
    /\ get_transaction_id t = next_txn_id_ tm
    /\ get_start_ts t = next_timestamp_ tm
    /\ get_state t = GROWING
    /\ txn_map tm' = <[next_txn_id_ tm := a]> (txn_map tm)
    /\ next_txn_id_ tm' = next_txn_id_ tm + 1
    /\ next_timestamp_ tm' = next_timestamp_ tm + 1
    /\ lock_table_ (lock_manager_ tm') = lock_table_ (lock_manager_ tm)
    /\ fhs_ tm' = fhs_ tm.
Proof.
  destruct tm as [[tx tbl] hlm fhs tmap nid nts]. cbn [next_txn_id_ next_timestamp_].
  intros Hid Hts. unfold begin.
  cbn [lock_manager_ txns lock_table_ txn_map fhs_].
  set (a := fresh (dom tx)).
  assert (tx !! a = None) as Hfresh by (apply not_elem_of_dom, is_fresh).
  unfold bind, read_state, modify_state, on_lock_manager, new_transaction, update_txn, bind,
    deref, modify_state, ret.
  repeat first
    [ rewrite lookup_insert_eq
    | rewrite insert_insert_eq
    | progress fold a
    | progress cbn [lock_manager_ set_lock_manager set_next_txn_id set_next_timestamp txns
                    lock_table_ next_txn_id_ next_timestamp_ has_lock_manager fhs_ txn_map
                    set_txn_map set_state set_start_ts get_transaction_id get_start_ts
                    get_state get_lock_set get_write_set] ].
  eexists a, _, _. split; [reflexivity |]. cbn.
  rewrite !wrap_int_id by (unfold INT_MIN, INT_MAX in *; lia). done.
Qed.

Lemma begin_creates_transaction_witness :
  INT_MIN <= next_txn_id_ example_tm < INT_MAX
  /\ INT_MIN <= next_timestamp_ example_tm < INT_MAX
  /\ exists a t tm',
       begin None example_tm = Ok a tm'
       /\ txns (lock_manager_ example_tm) !! a = None
       /\ txns (lock_manager_ tm') = <[a := t]> (txns (lock_manager_ example_tm))
       /\ get_transaction_id t = next_txn_id_ example_tm
       /\ get_start_ts t = next_timestamp_ example_tm
       /\ get_state t = GROWING
       /\ txn_map tm' = <[next_txn_id_ example_tm := a]> (txn_map example_tm)
       /\ next_txn_id_ tm' = next_txn_id_ example_tm + 1
       /\ next_timestamp_ tm' = next_timestamp_ example_tm + 1
       /\ lock_table_ (lock_manager_ tm') = lock_table_ (lock_manager_ example_tm)
       /\ fhs_ tm' = fhs_ example_tm.
Proof.
  assert (INT_MIN <= next_txn_id_ example_tm < INT_MAX) as Hid
    by (unfold INT_MIN, INT_MAX; cbn; lia).
  assert (INT_MIN <= next_timestamp_ example_tm < INT_MAX) as Hts
    by (unfold INT_MIN, INT_MAX; cbn; lia).
  split; [exact Hid |]. split; [exact Hts |].
  exact (begin_creates_transaction example_tm Hid Hts).
Defined.

(** X23: [begin] with an existing transaction starts it again: the transaction
    becomes GROWING, whatever its state was, and gets the next timestamp; its
    identifier, its lock set and its write set are kept as they are, and it is
    registered in [txn_map] under its identifier. *)
Theorem begin_restarts_transaction tm a t :
  txns (lock_manager_ tm) !! a = Some t ->
  INT_MIN <= next_timestamp_ tm < INT_MAX ->
  exists tm',
    begin (Some a) tm = Ok a tm'
    /\ txns (lock_manager_ tm')
       = <[a := mkTransaction (get_transaction_id t) (next_timestamp_ tm) GROWING
                              (get_lock_set t) (get_write_set t)]> (txns (lock_manager_ tm))
    /\ txn_map tm' = <[get_transaction_id t := a]> (txn_map tm)
    /\ next_txn_id_ tm' = next_txn_id_ tm
    /\ next_timestamp_ tm' = next_timestamp_ tm + 1
    /\ lock_table_ (lock_manager_ tm') = lock_table_ (lock_manager_ tm)
    /\ fhs_ tm' = fhs_ tm.
Proof.
  destruct tm as [[tx tbl] hlm fhs tmap nid nts].
  cbn [lock_manager_ txns lock_table_ txn_map fhs_ next_txn_id_ next_timestamp_].
  intros Ht Hts. unfold begin.
  unfold bind, read_state, modify_state, on_lock_manager, update_txn, bind,
    deref, modify_state, ret.
  repeat first
    [ rewrite Ht
    | rewrite lookup_insert_eq
    | rewrite insert_insert_eq
    | progress cbn [lock_manager_ set_lock_manager set_next_txn_id set_next_timestamp txns
                    lock_table_ next_txn_id_ next_timestamp_ has_lock_manager fhs_ txn_map
                    set_txn_map set_state set_start_ts get_transaction_id get_start_ts
                    get_state get_lock_set get_write_set] ].
  eexists. split; [reflexivity |]. cbn.
  rewrite !wrap_int_id by (unfold INT_MIN, INT_MAX in *; lia). done.
Qed.

Lemma begin_restarts_transaction_witness :
  let t := mkTransaction 7 0 GROWING ∅ (Some <$> example_write_set) in
  txns (lock_manager_ example_tm) !! 1 = Some t
  /\ INT_MIN <= next_timestamp_ example_tm < INT_MAX
  /\ exists tm',
       begin (Some 1) example_tm = Ok 1 tm'
       /\ txns (lock_manager_ tm')
          = <[1 := mkTransaction (get_transaction_id t) (next_timestamp_ example_tm) GROWING
                                 (get_lock_set t) (get_write_set t)]>
              (txns (lock_manager_ example_tm))
       /\ txn_map tm' = <[get_transaction_id t := 1]> (txn_map example_tm)
       /\ next_txn_id_ tm' = next_txn_id_ example_tm
       /\ next_timestamp_ tm' = next_timestamp_ example_tm + 1
       /\ lock_table_ (lock_manager_ tm') = lock_table_ (lock_manager_ example_tm)
       /\ fhs_ tm' = fhs_ example_tm.
Proof.
  intros t.
  assert (txns (lock_manager_ example_tm) !! 1 = Some t) as Ht by (vm_compute; reflexivity).
  assert (INT_MIN <= next_timestamp_ example_tm < INT_MAX) as Hts
    by (unfold INT_MIN, INT_MAX; cbn; lia).
  split; [exact Ht |]. split; [exact Hts |].
  exact (begin_restarts_transaction example_tm 1 t Ht Hts).
Defined.

(** X24: [commit] of a transaction for which the release loop has nothing to
    release (no lock manager, or no queue of an id of its lock set holds a
    request of the transaction) returns; it touches neither the record files
    nor the lock table; it leaves the transaction COMMITTED with an empty
    write set and an empty lock set, under the identifier it had, and erases
    it from [txn_map]. *)
Theorem commit_outcome tm a t :
  txns (lock_manager_ tm) !! a = Some t ->
  nothing_to_release tm t ->
  exists tm' t',
    commit (Some a) tm = Ok tt tm'
    /\ fhs_ tm' = fhs_ tm
    /\ lock_table_ (lock_manager_ tm') = lock_table_ (lock_manager_ tm)
    /\ txn_map tm' = delete (get_transaction_id t) (txn_map tm)
    /\ txns (lock_manager_ tm') !! a = Some t'
    /\ get_transaction_id t' = get_transaction_id t
    /\ get_state t' = COMMITTED
    /\ get_write_set t' = []
    /\ get_lock_set t' = ∅.
Proof.
  intros Ht Hno. unfold commit.
  unfold bind at 1. unfold on_lock_manager at 1. unfold update_txn, bind, deref, modify_state.
  rewrite Ht.
  set (tm0 := set_lock_manager _ tm).
  assert (txns (lock_manager_ tm0) !! a = Some (set_write_set [] t)) as Ht0
    by (unfold tm0; cbn; by rewrite lookup_insert_eq).
  destruct (release_locks_spec a tm0 _ Ht0)
    as (tm2 & t2 & Hrel & Hfhs2 & Hmap2 & Htab2 & Ht2 & Hid2 & Hws2 & Hls2).
  { intros Hhas id Hid. apply (Hno Hhas id). by destruct t. }
  rewrite Hrel.
  unfold on_lock_manager, update_txn, bind, deref, modify_state. rewrite Ht2.
  cbn [lock_manager_ set_lock_manager txns]. rewrite lookup_insert_eq.
  eexists _, (set_state COMMITTED t2). split; [reflexivity |]. cbn.
  rewrite lookup_insert_eq. rewrite Hfhs2, Htab2, Hmap2, Hid2, Hws2, Hls2. done.
Qed.

Lemma commit_outcome_witness :
  let t := mkTransaction 7 0 GROWING {[table_lock_id 3]} [] in
  txns (lock_manager_ example_tm_stale) !! 1 = Some t
  /\ nothing_to_release example_tm_stale t
  /\ exists tm' t',
       commit (Some 1) example_tm_stale = Ok tt tm'
       /\ fhs_ tm' = fhs_ example_tm_stale
       /\ lock_table_ (lock_manager_ tm') = lock_table_ (lock_manager_ example_tm_stale)
       /\ txn_map tm' = delete (get_transaction_id t) (txn_map example_tm_stale)
       /\ txns (lock_manager_ tm') !! 1 = Some t'
       /\ get_transaction_id t' = get_transaction_id t
       /\ get_state t' = COMMITTED
       /\ get_write_set t' = []
       /\ get_lock_set t' = ∅.
Proof.
  intros t.
  assert (txns (lock_manager_ example_tm_stale) !! 1 = Some t) as Ht
    by (vm_compute; reflexivity).
  assert (nothing_to_release example_tm_stale t) as Hno.
  { intros _ id _. unfold requests_of. cbn. by rewrite lookup_empty. }
  split; [exact Ht |]. split; [exact Hno |].
  exact (commit_outcome example_tm_stale 1 t Ht Hno).
Defined.
(** X26: An undo that raises ends the abort half-way: the exception leaves
    [abort] with the failing write record already popped, the records before
    it in the write set not undone, the transaction in the state it had, still
    registered in [txn_map], and its locks not released. *)
Theorem abort_stops_at_failing_undo tm a t ws wr e fhs' :
  txns (lock_manager_ tm) !! a = Some t ->
  get_write_set t = ws ++ [Some wr] ->
  undo_write wr (fhs_ tm) = Throw e fhs' ->
  exists tm',
    abort (Some a) tm = Throw e tm'
    /\ fhs_ tm' = fhs'
    /\ txns (lock_manager_ tm') = <[a := set_write_set ws t]> (txns (lock_manager_ tm))
    /\ lock_table_ (lock_manager_ tm') = lock_table_ (lock_manager_ tm)
    /\ txn_map tm' = txn_map tm.
Proof.
  intros Ht Hws Hundo. unfold abort.
  unfold bind at 1. unfold on_lock_manager at 1. unfold deref at 1. rewrite Ht.
  unfold bind at 1. rewrite Hws, length_app, Nat.add_comm. cbn [length Nat.add undo_loop].
  unfold bind at 1. unfold on_lock_manager at 1. unfold deref at 1.
  cbn [lock_manager_ set_lock_manager]. rewrite Ht, Hws, pop_back_snoc.
  unfold bind at 1. unfold on_lock_manager at 1.
  unfold update_txn, bind, deref, modify_state.
  cbn [lock_manager_ set_lock_manager]. rewrite Ht.
  unfold on_catalog. cbn [fhs_ set_lock_manager]. rewrite Hundo.
  eexists. split; [reflexivity |]. done.
Qed.

Lemma abort_stops_at_failing_undo_witness :
  let wr := mkWriteRecord INSERT_TUPLE "t" (mkRid 1 1) [] in
  let tm := example_tm_with example_catalog [wr] in
  let t := mkTransaction 7 0 GROWING ∅ [Some wr] in
  txns (lock_manager_ tm) !! 1 = Some t
  /\ get_write_set t = [] ++ [Some wr]
  /\ undo_write wr (fhs_ tm) = Throw (RecordNotFoundError 1 1) example_catalog
  /\ exists tm',
       abort (Some 1) tm = Throw (RecordNotFoundError 1 1) tm'
       /\ fhs_ tm' = example_catalog
       /\ txns (lock_manager_ tm') = <[1 := set_write_set [] t]> (txns (lock_manager_ tm))
       /\ lock_table_ (lock_manager_ tm') = lock_table_ (lock_manager_ tm)
       /\ txn_map tm' = txn_map tm.
Proof.
  intros wr tm t.
  assert (txns (lock_manager_ tm) !! 1 = Some t) as Ht by (vm_compute; reflexivity).
  assert (undo_write wr (fhs_ tm) = Throw (RecordNotFoundError 1 1) example_catalog) as Hundo
    by (vm_compute; reflexivity).
  split; [exact Ht |]. split; [reflexivity |]. split; [exact Hundo |].
  exact (abort_stops_at_failing_undo tm 1 t [] wr (RecordNotFoundError 1 1) example_catalog
           Ht eq_refl Hundo).
Defined.
Lemma unlock_all_held a ids lm t id i req :
  txns lm !! a = Some t ->
  id ∈ ids ->
  find_request (get_transaction_id t) (requests_of lm id) = Some (i, req) ->
  unlock_all (Some a) ids lm = Undef InvalidatedIterator.
Proof.
  intros Ht Hin Hheld. induction ids as [| id0 ids IH]; [by apply elem_of_nil in Hin |].
  cbn [unlock_all]. unfold bind. rewrite unlock_flat.
  assert (find_request (get_transaction_id t) (requests_of lm id0) = None ->
          unlock_all (Some a) ids lm = Undef InvalidatedIterator) as Hnext.
  { intros Hnone. apply IH. apply elem_of_cons in Hin as [-> | Hin]; [| done].
    by rewrite Hnone in Hheld. }
  unfold requests_of in Hnext.
  destruct (lock_table_ lm !! id0) as [queue|]; [| by apply Hnext].
  destruct (request_queue_ queue) as [| r0 reqs0]; [by apply Hnext |].
  rewrite Ht.
  destruct (find_request (get_transaction_id t) (r0 :: reqs0)) as [[i0 req0] |];
    [reflexivity | by apply Hnext].
Qed.

Lemma release_locks_held a tm t id i req :
  has_lock_manager tm = true ->
  txns (lock_manager_ tm) !! a = Some t ->
  id ∈ get_lock_set t ->
  find_request (get_transaction_id t) (requests_of (lock_manager_ tm) id) = Some (i, req) ->
  release_locks (Some a) tm = Undef InvalidatedIterator.
Proof.
  intros Hhas Ht Hid Hheld. unfold release_locks, bind, read_state. rewrite Hhas.
  unfold on_lock_manager at 1. unfold deref at 1. rewrite Ht.
  unfold on_lock_manager at 1. cbn [lock_manager_ set_lock_manager].
  rewrite (unlock_all_held a (elements (get_lock_set t)) _ t id i req Ht); [done | | done].
  by apply elem_of_elements.
Qed.

(** X25: [commit] of a transaction that still holds a lock (an id of its lock
    set whose queue has a request of the transaction) runs into undefined
    behaviour, and so does [abort] once its undo loop is through: the first
    [unlock] of the release loop that finds a request erases from the lock
    set the element the iterator of the loop stands on. *)
Theorem release_loop_erases_under_iterator tm a t id i req :
  has_lock_manager tm = true ->
  txns (lock_manager_ tm) !! a = Some t ->
  id ∈ get_lock_set t ->
  find_request (get_transaction_id t) (requests_of (lock_manager_ tm) id) = Some (i, req) ->
  commit (Some a) tm = Undef InvalidatedIterator
  /\ forall ws fhs',
       get_write_set t = Some <$> ws ->
       undo_writes (reverse ws) (fhs_ tm) = Ok tt fhs' ->
       abort (Some a) tm = Undef InvalidatedIterator.
Proof.
  intros Hhas Ht Hid Hheld. split.
  - unfold commit.
    unfold bind at 1. unfold on_lock_manager at 1.
    unfold update_txn, bind, deref, modify_state. rewrite Ht.
    set (tm0 := set_lock_manager _ tm).
    assert (txns (lock_manager_ tm0) !! a = Some (set_write_set [] t)) as Ht0
      by (unfold tm0; cbn; by rewrite lookup_insert_eq).
    rewrite (release_locks_held a tm0 _ id i req Hhas Ht0); [done | by destruct t |].
    by destruct t.
  - intros ws fhs' Hws Hundo. unfold abort.
    unfold bind at 1. unfold on_lock_manager at 1. unfold deref at 1. rewrite Ht.
    unfold bind at 1.
    destruct (undo_loop_spec a ws (set_lock_manager (lock_manager_ tm) tm) t fhs'
                (length (get_write_set t)))
      as (tm1 & -> & _ & _ & Hhas1 & Ht1 & Htab1); try done.
    { by rewrite Hws, length_fmap. }
    unfold bind at 1.
    rewrite (release_locks_held a tm1 (set_write_set [] t) id i req);
      [done | by rewrite Hhas1 | done | by destruct t |].
    unfold requests_of. rewrite Htab1. by destruct t.
Qed.

Lemma release_loop_erases_under_iterator_witness :
  let t := mkTransaction 7 0 GROWING {[table_lock_id 3]} [] in
  has_lock_manager example_tm_locks = true
  /\ txns (lock_manager_ example_tm_locks) !! 1 = Some t
  /\ table_lock_id 3 ∈ get_lock_set t
  /\ find_request (get_transaction_id t)
                  (requests_of (lock_manager_ example_tm_locks) (table_lock_id 3))
     = Some (0%nat, mkLockRequest 7 SHARED true)
  /\ commit (Some 1) example_tm_locks = Undef InvalidatedIterator
  /\ forall ws fhs',
       get_write_set t = Some <$> ws ->
       undo_writes (reverse ws) (fhs_ example_tm_locks) = Ok tt fhs' ->
       abort (Some 1) example_tm_locks = Undef InvalidatedIterator.
Proof.
  intros t.
  assert (txns (lock_manager_ example_tm_locks) !! 1 = Some t) as Ht
    by (vm_compute; reflexivity).
  assert (table_lock_id 3 ∈ get_lock_set t) as Hid
    by (unfold t; cbn [get_lock_set]; apply elem_of_singleton_2; reflexivity).
  assert (find_request (get_transaction_id t)
            (requests_of (lock_manager_ example_tm_locks) (table_lock_id 3))
          = Some (0%nat, mkLockRequest 7 SHARED true)) as Hheld by (vm_compute; reflexivity).
  split; [reflexivity |]. split; [exact Ht |]. split; [exact Hid |]. split; [exact Hheld |].
  exact (release_loop_erases_under_iterator example_tm_locks 1 t (table_lock_id 3) 0%nat
           (mkLockRequest 7 SHARED true) eq_refl Ht Hid Hheld).
Defined.
